(** * Road-network router of the ride-hailing client: model and properties

    The development embeds the routing code of the repository:
    - [Fare]: [PathFinder.calculateFare] and the screens' [calculateEstimatedFare];
    - [Router]: the full [PathFinder] (graph builder with speed limits, one-way
      inference and the connectivity pass; nearest-node search);
    - [Legacy]: the [PathFinder] of [utils/pathfinding.ts];
    - [Helper]: the [dijkstra] function and the [PathFinder] built on it
      ([utils/dijkstra.ts]), with its demo network.

    Conventions.  A JavaScript [number] is idealised as a rational ([Q]);
    [Infinity] is kept apart ([ext]); [NaN] is left out: the arithmetic
    gives none on rational inputs, and the functions of the runtime's
    [Math] are taken to return numbers.  An object used as a dictionary is
    an association list in the order [Object.keys], [Object.values],
    [Object.entries] and [for ... in] enumerate it.  The great-circle
    distance and the bearing (trigonometry on floats) are parameters of the
    sections that need them; [Haversine.calculateDistance] is the distance
    of the full PathFinder, over the [Math] functions it calls. *)

From Stdlib Require Import List String Ascii Bool Arith ZArith QArith Qminmax Qround Qabs.
From Stdlib Require Import Lia Lqa Permutation Sorted DecimalString.
Import ListNotations.

Set Implicit Arguments.
Local Open Scope string_scope.
Local Open Scope list_scope.

(** ** JavaScript objects used as dictionaries *)

Definition is_digit (c : ascii) : bool :=
  let n := nat_of_ascii c in ((48 <=? n) && (n <=? 57))%nat.

Fixpoint all_digits (s : string) : bool :=
  match s with
  | EmptyString => true
  | String c r => is_digit c && all_digits r
  end.

Fixpoint decimal_value (s : string) (acc : Z) : Z :=
  match s with
  | EmptyString => acc
  | String c r => decimal_value r (acc * 10 + Z.of_nat (nat_of_ascii c - 48))%Z
  end.

(** The array index a property key stands for, if any: a canonical decimal
    numeral below [2^32 - 1]. *)
Definition index_of (k : string) : option Z :=
  match k with
  | EmptyString => None
  | String c r =>
      if all_digits k
         && (negb (Ascii.eqb c "0") || String.eqb r EmptyString)
         && (decimal_value k 0 <? 4294967295)%Z
      then Some (decimal_value k 0)
      else None
  end.

(** Own keys are enumerated array indices first, in ascending order, then
    the other keys in the order of their creation.  [before k k'] tells
    that a new key [k] goes in front of the existing key [k']. *)
Definition before (k k' : string) : bool :=
  match index_of k, index_of k' with
  | Some i, Some j => (i <? j)%Z
  | Some _, None => true
  | None, _ => false
  end.

Module Obj.
Section Defs.
Variable V : Type.

Definition t := list (string * V).

Definition empty : t := [].

(** [o[k]] ([None] is [undefined]). *)
Fixpoint get (o : t) (k : string) : option V :=
  match o with
  | [] => None
  | (k', v) :: r => if String.eqb k' k then Some v else get r k
  end.

(** [o[k] = v]: an existing key keeps its place, a new one takes its place
    in the enumeration order. *)
Fixpoint set (o : t) (k : string) (v : V) : t :=
  match o with
  | [] => [(k, v)]
  | (k', v') :: r =>
      if String.eqb k' k then (k', v) :: r
      else if before k k' then (k, v) :: o
      else (k', v') :: set r k v
  end.

(** [delete o[k]]. *)
Fixpoint remove (o : t) (k : string) : t :=
  match o with
  | [] => []
  | (k', v') :: r =>
      if String.eqb k' k then r else (k', v') :: remove r k
  end.

Definition keys (o : t) : list string := map fst o.
Definition values (o : t) : list V := map snd o.
Definition has (o : t) (k : string) : bool :=
  match get o k with Some _ => true | None => false end.
End Defs.
End Obj.

Arguments Obj.empty {V}.

(** Membership in a list of strings ([Set.has], [Array.includes]). *)
Definition mem (k : string) (l : list string) : bool :=
  existsb (String.eqb k) l.

(** ** Numbers with [Infinity] *)

Inductive ext : Type :=
| Fin (q : Q)
| Inf.

Definition ext_add (a b : ext) : ext :=
  match a, b with
  | Fin x, Fin y => Fin (x + y)
  | _, _ => Inf
  end.

(** [a < b] on numbers. *)
Definition ext_ltb (a b : ext) : bool :=
  match a, b with
  | Fin x, Fin y => negb (Qle_bool y x)
  | Fin _, Inf => true
  | Inf, _ => false
  end.

(** [a <= b] on numbers. *)
Definition ext_leb (a b : ext) : bool :=
  match a, b with
  | Fin x, Fin y => Qle_bool x y
  | _, Inf => true
  | Inf, Fin _ => false
  end.

Definition ext_le (a b : ext) : Prop := ext_leb a b = true.
Definition is_finite (a : ext) : Prop :=
  match a with Fin _ => True | Inf => False end.

Definition Qltb (a b : Q) : bool := negb (Qle_bool b a).

(** [Math.max]. *)
Definition Math_max (a b : Q) : Q := if Qle_bool a b then b else a.

Record Point : Type := mkPoint { latitude : Q; longitude : Q }.

(** ** Fares *)

Module Fare.
(** Constants of the full [PathFinder]. *)
Definition BASE_FARE : Q := 15.
Definition RATE_PER_KM : Q := 11.
Definition BASE_KM : Q := 1.

(** [PathFinder.calculateFare]; the distance is in kilometres. *)
Definition calculateFare (distance : Q) : Q :=
  if Qle_bool distance BASE_KM
  then BASE_FARE
  else BASE_FARE + (distance - BASE_KM) * RATE_PER_KM.

(** The booking screens compute the fare of a trip from the distance in
  metres between its two ends.  [fareOfMeters] is the body of
  [calculateEstimatedFare] after [const distance = calculateDistance(start, end)]. *)
Section Screen.
Variables baseFare perKmRate minimumFare : Q.

Definition fareOfMeters (distance : Q) : Q :=
  let fare := baseFare + (distance / 1000 * perKmRate) in
  Math_max fare minimumFare.

Variable calculateDistance : Point -> Point -> Q.

Definition calculateEstimatedFare (start end_ : Point) : Q :=
  let distance := calculateDistance start end_ in
  fareOfMeters distance.
End Screen.

(** The fare table of the screen in [part_001]. *)
Module Part001.
Definition baseFare : Q := 15.
Definition perKmRate : Q := 5.
Definition minimumFare : Q := 15.
Definition fareOfMeters := fareOfMeters baseFare perKmRate minimumFare.
Definition calculateEstimatedFare :=
  calculateEstimatedFare baseFare perKmRate minimumFare.
End Part001.

(** The fare table of [app/locationcommuter.tsx]. *)
Module LocationCommuter.
Definition baseFare : Q := 50.
Definition perKmRate : Q := 15.
Definition minimumFare : Q := 70.
Definition fareOfMeters := fareOfMeters baseFare perKmRate minimumFare.
Definition calculateEstimatedFare :=
  calculateEstimatedFare baseFare perKmRate minimumFare.
End LocationCommuter.

(** The fare rule in the words of the specification: the base fare up to
  the base distance, a per-kilometre rate beyond it, the whole clamped
  to a minimum fare. *)
Definition piecewise (baseFare baseDistanceKm perKmRate d : Q) : Q :=
  if Qle_bool d baseDistanceKm
  then baseFare
  else baseFare + (d - baseDistanceKm) * perKmRate.

Definition fare_spec (baseFare baseDistanceKm perKmRate minimumFare d : Q) : Q :=
  Math_max (piecewise baseFare baseDistanceKm perKmRate d) minimumFare.
End Fare.


(** ** Strings and numbers *)

(** [String(n)] for an integer [n], as in a template literal. *)
Definition keyOf (n : Z) : string := NilZero.string_of_int (Z.to_int n).

(** Truthiness of an optional string: [undefined] and the empty string are falsy. *)
Definition truthy (s : option string) : bool :=
  match s with
  | Some (String _ _) => true
  | _ => false
  end.

(** [s === v] for an optional string [s]. *)
Definition is_str (s : option string) (v : string) : bool :=
  match s with
  | Some x => String.eqb x v
  | None => false
  end.

(** Truthiness of a number: zero is falsy, [Infinity] is truthy. *)
Definition truthy_num (w : ext) : bool :=
  match w with
  | Fin q => negb (Qeq_bool q 0)
  | Inf => true
  end.

Definition is_space (c : ascii) : bool :=
  let n := nat_of_ascii c in
  (n =? 32)%nat || ((9 <=? n)%nat && (n <=? 13)%nat).

Fixpoint trim_start (s : string) : string :=
  match s with
  | String c r => if is_space c then trim_start r else s
  | EmptyString => s
  end.

Definition digit_value (c : ascii) : option Z :=
  let n := nat_of_ascii c in
  if ((48 <=? n) && (n <=? 57))%nat then Some (Z.of_nat (n - 48))
  else if ((97 <=? n) && (n <=? 122))%nat then Some (Z.of_nat (n - 87))
  else if ((65 <=? n) && (n <=? 90))%nat then Some (Z.of_nat (n - 55))
  else None.

Fixpoint parse_digits (radix : Z) (s : string) (acc : option Z) : option Z :=
  match s with
  | EmptyString => acc
  | String c r =>
      match digit_value c with
      | Some d =>
          if (d <? radix)%Z
          then parse_digits radix r
                 (Some (match acc with Some a => a * radix + d | None => d end)%Z)
          else acc
      | None => acc
      end
  end.

(** [parseInt(s)]; [None] is [NaN]. *)
Definition parseInt (s : string) : option Z :=
  let s := trim_start s in
  let '(sign, s) :=
    match s with
    | String "-" r => ((-1)%Z, r)
    | String "+" r => (1%Z, r)
    | _ => (1%Z, s)
    end in
  let '(radix, s) :=
    match s with
    | String "0" (String "x" r) => (16%Z, r)
    | String "0" (String "X" r) => (16%Z, r)
    | _ => (10%Z, s)
    end in
  option_map (Z.mul sign) (parse_digits radix s None).

(** Pairs of consecutive elements: the iterations [i], [i + 1] of a loop
    over [0 .. length - 2]. *)
Fixpoint segments (A : Type) (l : list A) : list (A * A) :=
  match l with
  | a :: (b :: _) as r => (a, b) :: segments r
  | _ => []
  end.

(** The raw elements of a map-data payload. *)
Inductive Element : Type :=
| ElNode (id : Z) (lat lon : Q)
| ElWay (id : Z) (nodes : list Z) (tags : option (Obj.t string))
| ElOther.

(** How a run of the code ends: it returns, it throws, or it is still
    running when the [fuel] given to its loops is spent. *)
Inductive Result (A : Type) : Type :=
| Returned (a : A)
| Threw
| OutOfFuel.

Arguments Threw {A}.
Arguments OutOfFuel {A}.

(** ** The full PathFinder *)

Module Router.

Record GraphNode : Type :=
  { id : string; point : Point; neighbors : Obj.t ext }.

Record OSMNode : Type := { osmId : Z; lat : Q; lon : Q }.

Definition Tags := Obj.t string.

Record OSMWay : Type := { wayId : Z; wayNodes : list Z; tags : Tags }.

Record PathFinder : Type :=
  { nodes : Obj.t GraphNode;
    osmNodes : Obj.t OSMNode;
    osmWays : Obj.t OSMWay;
    isInitialized : bool }.

Definition create : PathFinder :=
  {| nodes := []; osmNodes := []; osmWays := []; isInitialized := false |}.

Definition AVERAGE_SPEED_KMH : Q := 40.

Definition MOTORWAY : list string := ["motorway"; "motorway_link"].

(** [Object.values(this.ROAD_TYPES).flat()]. *)
Definition validRoadTypes : list string :=
  (MOTORWAY ++ ["trunk"; "trunk_link"] ++ ["primary"; "primary_link"]
   ++ ["secondary"; "secondary_link"] ++ ["tertiary"; "tertiary_link"]
   ++ ["residential"; "unclassified"; "living_street"] ++ ["service"]).

Definition DEFAULT_SPEEDS : Obj.t Q :=
  [("motorway", 100%Q); ("trunk", 80%Q); ("primary", 60%Q);
   ("secondary", 50%Q); ("tertiary", 40%Q); ("residential", 30%Q);
   ("service", 20%Q); ("unclassified", 30%Q); ("living_street", 15%Q)].

Definition isValidRoadWay (nodes : list Z) (tags : option Tags) : bool :=
  match tags with
  | Some tg =>
      if negb (truthy (Obj.get tg "highway")) || (List.length nodes <? 2)%nat
      then false
      else match Obj.get tg "highway" with
           | Some roadType => mem roadType validRoadTypes
           | None => false
           end
  | None => false
  end.

(** [this.DEFAULT_SPEEDS[k] || this.AVERAGE_SPEED_KMH]. *)
Definition defaultSpeed (k : string) : Q :=
  match Obj.get DEFAULT_SPEEDS k with
  | Some v => if Qeq_bool v 0 then AVERAGE_SPEED_KMH else v
  | None => AVERAGE_SPEED_KMH
  end.

Definition getSpeedLimit (tags : Tags) : Q :=
  let fromTag :=
    if truthy (Obj.get tags "maxspeed")
    then match Obj.get tags "maxspeed" with
         | Some s =>
             match parseInt s with
             | Some speed => if (0 <? speed)%Z then Some (inject_Z speed) else None
             | None => None
             end
         | None => None
         end
    else None in
  match fromTag with
  | Some speed => speed
  | None =>
      let roadType := Obj.get tags "highway" in
      defaultSpeed (if truthy roadType
                    then match roadType with Some r => r | None => "unclassified" end
                    else "unclassified")
  end.

Definition isOneWayStreet (tags : Tags) (roadType : string) : bool :=
  is_str (Obj.get tags "oneway") "yes"
  || is_str (Obj.get tags "junction") "roundabout"
  || mem roadType MOTORWAY.

(** Division of numbers; [None] flags a zero divisor. *)
Definition checked_div (a b : Q) : option Q :=
  if Qeq_bool b 0 then None else Some (a / b).

(** The weight of a segment of length [distance] (metres) on a road with
    speed limit [speedLimit] (km/h): the lines
    [effectiveSpeedMps = speedLimit * 1000 / 3600] and
    [weight = effectiveSpeedMps > 0 ? distance / effectiveSpeedMps : Infinity]. *)
Definition effectiveSpeedMps (speedLimit : Q) : Q := speedLimit * 1000 / 3600.

Definition segmentWeight (speedLimit distance : Q) : option ext :=
  if Qltb 0 (effectiveSpeedMps speedLimit)
  then option_map Fin (checked_div distance (effectiveSpeedMps speedLimit))
  else Some Inf.

Definition addNode (st : PathFinder) (id : string) (point : Point) : PathFinder :=
  match Obj.get (nodes st) id with
  | Some _ => st
  | None =>
      {| nodes := Obj.set (nodes st) id
                    {| id := id; point := point; neighbors := [] |};
         osmNodes := osmNodes st; osmWays := osmWays st;
         isInitialized := isInitialized st |}
  end.

Definition addEdge (st : PathFinder) (node1Id node2Id : string) (weight : ext)
  : PathFinder :=
  match Obj.get (nodes st) node1Id, Obj.get (nodes st) node2Id with
  | Some node1, Some _ =>
      {| nodes := Obj.set (nodes st) node1Id
                    {| id := id node1; point := point node1;
                       neighbors := Obj.set (neighbors node1) node2Id weight |};
         osmNodes := osmNodes st; osmWays := osmWays st;
         isInitialized := isInitialized st |}
  | _, _ => st
  end.

(** *** The connectivity pass *)

(** The body of [for (const neighborId in currentNode.neighbors)]. *)
Definition visitNeighbors (neighborIds : list string)
  (vq : list string * list string) : list string * list string :=
  fold_left
    (fun '(visited, queue) neighborId =>
       if mem neighborId visited then (visited, queue)
       else (visited ++ [neighborId], queue ++ [neighborId]))
    neighborIds vq.

(** The loop [while (queue.length > 0)]; the result is the set [visited]. *)
Fixpoint traverse (fuel : nat) (g : Obj.t GraphNode)
  (visited queue : list string) : option (list string) :=
  match queue with
  | [] => Some visited
  | currentId :: rest =>
      match fuel with
      | O => None
      | S fuel' =>
          match Obj.get g currentId with
          | None => traverse fuel' g visited rest
          | Some currentNode =>
              let '(visited', queue') :=
                visitNeighbors (Obj.keys (neighbors currentNode)) (visited, rest) in
              traverse fuel' g visited' queue'
          end
      end
  end.

(** [if (node.neighbors[id]) delete node.neighbors[id]]. *)
Definition dropReference (id : string) (node : GraphNode) : GraphNode :=
  match Obj.get (neighbors node) id with
  | Some w =>
      if truthy_num w
      then {| id := Router.id node; point := point node;
              neighbors := Obj.remove (neighbors node) id |}
      else node
  | None => node
  end.

(** One round of [isolatedNodes.forEach]. *)
Definition removeIsolated (g : Obj.t GraphNode) (id : string) : Obj.t GraphNode :=
  map (fun kn => (fst kn, dropReference id (snd kn))) (Obj.remove g id).

(** Every key and every neighbor id of the graph. *)
Definition universe (g : Obj.t GraphNode) : list string :=
  Obj.keys g ++ flat_map (fun n => Obj.keys (neighbors n)) (Obj.values g).

Definition withNodes (st : PathFinder) (g : Obj.t GraphNode) : PathFinder :=
  {| nodes := g; osmNodes := osmNodes st; osmWays := osmWays st;
     isInitialized := isInitialized st |}.

(** [validateGraphConnectivity]; [None] only if the traversal does not end
    within [fuel] rounds. *)
Definition validateGraphConnectivityIn (fuel : nat) (st : PathFinder)
  : option PathFinder :=
  match Obj.keys (nodes st) with
  | [] => Some st
  | startNodeId :: _ =>
      if String.eqb startNodeId "" then Some st
      else
        match traverse fuel (nodes st) [startNodeId] [startNodeId] with
        | None => None
        | Some visited =>
            let isolatedNodes :=
              filter (fun id => negb (mem id visited)) (Obj.keys (nodes st)) in
            Some (withNodes st (fold_left removeIsolated isolatedNodes (nodes st)))
        end
  end.

Definition validateGraphConnectivity (st : PathFinder) : option PathFinder :=
  validateGraphConnectivityIn (S (List.length (universe (nodes st)))) st.

Definition getNodeConnections (st : PathFinder) (nodeId : string) : nat :=
  match Obj.get (nodes st) nodeId with
  | Some node => List.length (Obj.keys (neighbors node))
  | None => O
  end.

Definition graphNodeId (osmNodeId : string) : string :=
  String.append "osm_" osmNodeId.

Section WithDistance.
Variable calculateDistance : Point -> Point -> Q.

(** *** Building the graph *)

(** One iteration of the loop over the consecutive nodes of a way. *)
Definition addSegment (speedLimit : Q) (isOneWay : bool) (st : PathFinder)
  (seg : Z * Z) : PathFinder :=
  let node1Id := graphNodeId (keyOf (fst seg)) in
  let node2Id := graphNodeId (keyOf (snd seg)) in
  match Obj.get (osmNodes st) (keyOf (fst seg)),
        Obj.get (osmNodes st) (keyOf (snd seg)),
        Obj.get (nodes st) node1Id, Obj.get (nodes st) node2Id with
  | Some node1Osm, Some node2Osm, Some _, Some _ =>
      let point1 := {| latitude := lat node1Osm; longitude := lon node1Osm |} in
      let point2 := {| latitude := lat node2Osm; longitude := lon node2Osm |} in
      let distance := calculateDistance point1 point2 in
      let weight :=
        match segmentWeight speedLimit distance with
        | Some w => w
        | None => Inf
        end in
      if isOneWay then addEdge st node1Id node2Id weight
      else addEdge (addEdge st node1Id node2Id weight) node2Id node1Id weight
  | _, _, _, _ => st
  end.

Definition addWay (st : PathFinder) (way : OSMWay) : PathFinder :=
  if truthy (Obj.get (tags way) "highway")
  then match Obj.get (tags way) "highway" with
       | Some roadType =>
           let speedLimit := getSpeedLimit (tags way) in
           let isOneWay := isOneWayStreet (tags way) roadType in
           fold_left (addSegment speedLimit isOneWay) (segments (wayNodes way)) st
       | None => st
       end
  else st.

Definition addOsmNodes (st : PathFinder) : PathFinder :=
  fold_left
    (fun st osmNode =>
       addNode st (graphNodeId (keyOf (osmId osmNode)))
         {| latitude := lat osmNode; longitude := lon osmNode |})
    (Obj.values (osmNodes st)) st.

Definition addWays (st : PathFinder) : PathFinder :=
  fold_left addWay (Obj.values (osmWays st)) st.

Definition buildGraphFromOSM (st : PathFinder) : option PathFinder :=
  validateGraphConnectivity (addWays (addOsmNodes st)).

Definition processElement (st : PathFinder) (element : Element) : PathFinder :=
  match element with
  | ElNode i la lo =>
      {| nodes := nodes st;
         osmNodes := Obj.set (osmNodes st) (keyOf i)
                       {| osmId := i; lat := la; lon := lo |};
         osmWays := osmWays st; isInitialized := isInitialized st |}
  | ElWay i ns tg =>
      if isValidRoadWay ns tg
      then match tg with
           | Some tg =>
               {| nodes := nodes st; osmNodes := osmNodes st;
                  osmWays := Obj.set (osmWays st) (keyOf i)
                               {| wayId := i; wayNodes := ns; tags := tg |};
                  isInitialized := isInitialized st |}
           | None => st
           end
      else st
  | ElOther => st
  end.

Definition processOSMData (st : PathFinder) (elements : list Element)
  : option PathFinder :=
  let cleared :=
    {| nodes := []; osmNodes := []; osmWays := [];
       isInitialized := isInitialized st |} in
  match buildGraphFromOSM (fold_left processElement elements cleared) with
  | Some st' =>
      Some {| nodes := nodes st'; osmNodes := osmNodes st';
              osmWays := osmWays st'; isInitialized := true |}
  | None => None
  end.

(** *** Nearest node *)

Definition graphNodesInWays (st : PathFinder) : list string :=
  flat_map (fun way => map (fun nodeId => graphNodeId (keyOf nodeId)) (wayNodes way))
    (Obj.values (osmWays st)).

(** One round of [for (const currentRadius of radii)]: the nearest connected
    node of a way within [currentRadius], with its distance. *)
Definition nearestWithin (st : PathFinder) (point : Point) (currentRadius : ext)
  : option string * ext :=
  fold_left
    (fun (acc : option string * ext) (kv : string * OSMNode) =>
       let distance :=
         calculateDistance point
           {| latitude := lat (snd kv); longitude := lon (snd kv) |} in
       if ext_leb (Fin distance) currentRadius
       then
         let isConnected := (0 <? getNodeConnections st (graphNodeId (fst kv)))%nat in
         let isInWay := mem (graphNodeId (fst kv)) (graphNodesInWays st) in
         if ext_ltb (Fin distance) (snd acc) && isConnected && isInWay
         then (Some (graphNodeId (fst kv)), Fin distance)
         else acc
       else acc)
    (osmNodes st) (None, Inf).

(** The last resort: the nearest graph node whatever its connections. *)
Definition absoluteNearest (st : PathFinder) (point : Point)
  : option string * ext :=
  fold_left
    (fun (acc : option string * ext) (kv : string * GraphNode) =>
       let distance := calculateDistance point (Router.point (snd kv)) in
       if ext_ltb (Fin distance) (snd acc)
       then (Some (fst kv), Fin distance)
       else acc)
    (nodes st) (None, Inf).

Fixpoint firstWithin (st : PathFinder) (point : Point) (radii : list ext)
  : option string :=
  match radii with
  | [] => None
  | currentRadius :: more =>
      match fst (nearestWithin st point currentRadius) with
      | Some nearestNodeId =>
          if String.eqb nearestNodeId "" then firstWithin st point more
          else Some nearestNodeId
      | None => firstWithin st point more
      end
  end.

Definition findNearestOsmNode (st : PathFinder) (point : Point) (searchRadius : Q)
  : option string :=
  if negb (isInitialized st) || (List.length (Obj.keys (osmNodes st)) =? 0)%nat
  then None
  else
    let radii :=
      [Fin searchRadius; Fin (searchRadius * 2); Fin (searchRadius * 4); Inf] in
    match firstWithin st point radii with
    | Some nearestNodeId => Some nearestNodeId
    | None => fst (absoluteNearest st point)
    end.

End WithDistance.
End Router.

(** ** The PathFinder of [utils/pathfinding.ts] *)

(** How a call that fetches map data went. *)
Inductive Fetch : Type :=
| FetchFailed
| FetchOk (elements : list Element).

Module Legacy.

Record GraphNode : Type :=
  { id : string; point : Point; neighbors : Obj.t Q }.

Record OSMNode : Type := { osmId : Z; lat : Q; lon : Q }.

Record OSMWay : Type := { wayId : Z; wayNodes : list Z; tags : Obj.t string }.

Record PathFinder : Type :=
  { nodes : Obj.t GraphNode;
    osmNodes : Obj.t OSMNode;
    osmWays : Obj.t OSMWay;
    isInitialized : bool }.

Definition create : PathFinder :=
  {| nodes := []; osmNodes := []; osmWays := []; isInitialized := false |}.

Definition withNodes (st : PathFinder) (g : Obj.t GraphNode) : PathFinder :=
  {| nodes := g; osmNodes := osmNodes st; osmWays := osmWays st;
     isInitialized := isInitialized st |}.

Definition addNode (st : PathFinder) (id : string) (point : Point) : PathFinder :=
  withNodes st
    (Obj.set (nodes st) id {| id := id; point := point; neighbors := [] |}).

Definition graphNodeId (osmNodeId : string) : string :=
  String.append "osm_" osmNodeId.

Definition excludedHighways : list string :=
  ["footway"; "path"; "track"; "pedestrian"; "cycleway"; "steps";
   "bridleway"; "service"].

(** [distance] is [distances[endId]]. *)
Record PathResult : Type := { path : list string; distance : option ext }.

Section WithDistance.
Variable calculateDistance : Point -> Point -> Q.

Definition setNeighbor (g : Obj.t GraphNode) (fromId toId : string) (d : Q)
  : Obj.t GraphNode :=
  match Obj.get g fromId with
  | Some node =>
      Obj.set g fromId
        {| id := id node; point := point node;
           neighbors := Obj.set (neighbors node) toId d |}
  | None => g
  end.

Definition addEdge (st : PathFinder) (node1Id node2Id : string) : PathFinder :=
  match Obj.get (nodes st) node1Id, Obj.get (nodes st) node2Id with
  | Some node1, Some node2 =>
      let distance := calculateDistance (point node1) (point node2) in
      withNodes st
        (setNeighbor (setNeighbor (nodes st) node1Id node2Id distance)
           node2Id node1Id distance)
  | _, _ => st
  end.

Definition addSegment (st : PathFinder) (seg : Z * Z) : PathFinder :=
  let node1Id := graphNodeId (keyOf (fst seg)) in
  let node2Id := graphNodeId (keyOf (snd seg)) in
  if Obj.has (nodes st) node1Id && Obj.has (nodes st) node2Id
  then addEdge st node1Id node2Id
  else st.

Definition buildGraphFromOSM (st : PathFinder) : PathFinder :=
  let st1 :=
    fold_left
      (fun st osmNode =>
         addNode st (graphNodeId (keyOf (osmId osmNode)))
           {| latitude := lat osmNode; longitude := lon osmNode |})
      (Obj.values (osmNodes st)) st in
  fold_left
    (fun st way => fold_left addSegment (segments (wayNodes way)) st)
    (Obj.values (osmWays st1)) st1.

(** One round of [data.elements.forEach]; [None] when reading
    [element.tags.highway] throws because the way has no tags. *)
Definition processElement (st : PathFinder) (element : Element)
  : option PathFinder :=
  match element with
  | ElNode i la lo =>
      Some {| nodes := nodes st;
              osmNodes := Obj.set (osmNodes st) (keyOf i)
                            {| osmId := i; lat := la; lon := lo |};
              osmWays := osmWays st; isInitialized := isInitialized st |}
  | ElWay i ns tg =>
      match tg with
      | None => None
      | Some tg =>
          if truthy (Obj.get tg "highway")
             && negb (match Obj.get tg "highway" with
                      | Some h => mem h excludedHighways
                      | None => false
                      end)
          then Some {| nodes := nodes st; osmNodes := osmNodes st;
                       osmWays := Obj.set (osmWays st) (keyOf i)
                                    {| wayId := i; wayNodes := ns; tags := tg |};
                       isInitialized := isInitialized st |}
          else Some st
      end
  | ElOther => Some st
  end.

Fixpoint processElements (st : PathFinder) (elements : list Element)
  : PathFinder * bool :=
  match elements with
  | [] => (st, true)
  | e :: more =>
      match processElement st e with
      | Some st' => processElements st' more
      | None => (st, false)
      end
  end.

(** [fetchRoadNetwork]: the state it leaves, and whether it resolved
    ([true]) or rejected ([false]). *)
Definition fetchRoadNetwork (st : PathFinder) (response : Fetch)
  : PathFinder * bool :=
  match response with
  | FetchFailed => (create, false)
  | FetchOk elements =>
      match processElements create elements with
      | (st1, true) =>
          let st2 := buildGraphFromOSM st1 in
          ({| nodes := nodes st2; osmNodes := osmNodes st2;
              osmWays := osmWays st2; isInitialized := true |}, true)
      | (st1, false) => (st1, false)
      end
  end.

(** *** Nearest node *)

Definition nodesInWays (st : PathFinder) : list string :=
  flat_map (fun way => map (fun nodeId => graphNodeId (keyOf nodeId)) (wayNodes way))
    (Obj.values (osmWays st)).

(** A scan of [this.osmNodes] keeping the nearest node that passes [ok]. *)
Definition scan (st : PathFinder) (point : Point)
  (ok : string -> Q -> bool) (acc : option string * ext) : option string * ext :=
  fold_left
    (fun (acc : option string * ext) (kv : string * OSMNode) =>
       let distance :=
         calculateDistance point
           {| latitude := lat (snd kv); longitude := lon (snd kv) |} in
       if ok (fst kv) distance && ext_ltb (Fin distance) (snd acc)
       then (Some (graphNodeId (fst kv)), Fin distance)
       else acc)
    (osmNodes st) acc.

Definition findNearestOsmNode (st : PathFinder) (point : Point) (searchRadius : Q)
  : option string :=
  if negb (isInitialized st) || (List.length (Obj.keys (osmNodes st)) =? 0)%nat
  then None
  else
    let first :=
      scan st point
        (fun osmNodeId distance =>
           Qle_bool distance searchRadius
           && mem (graphNodeId osmNodeId) (nodesInWays st))
        (None, Inf) in
    let second :=
      match fst first with
      | Some _ => first
      | None =>
          let expandedRadius := (searchRadius * (3 # 2))%Q in
          scan st point (fun _ distance => Qle_bool distance expandedRadius) first
      end in
    let final :=
      match fst second with
      | Some _ => second
      | None => scan st point (fun _ _ => true) second
      end in
    fst final.

(** *** Shortest path, by linear scans *)

Record Search : Type :=
  { distances : Obj.t ext;
    previous : Obj.t (option string);
    visited : list string;
    unvisited : list string }.

(** The unvisited node with the smallest distance:
    [for (const nodeId of unvisited)]. *)
Definition smallest (s : Search) : string * ext :=
  fold_left
    (fun (acc : string * ext) nodeId =>
       match Obj.get (distances s) nodeId with
       | Some d => if ext_ltb d (snd acc) then (nodeId, d) else acc
       | None => acc
       end)
    (unvisited s) ("", Inf).

Definition relax (currentId : string) (s : Search) (edge : string * Q) : Search :=
  if mem (fst edge) (visited s) then s
  else
    match Obj.get (distances s) currentId, Obj.get (distances s) (fst edge) with
    | Some dc, Some dn =>
        let distance := ext_add dc (Fin (snd edge)) in
        if ext_ltb distance dn
        then {| distances := Obj.set (distances s) (fst edge) distance;
                previous := Obj.set (previous s) (fst edge) (Some currentId);
                visited := visited s; unvisited := unvisited s |}
        else s
    | _, _ => s
    end.

Definition removeId (k : string) (l : list string) : list string :=
  filter (fun x => negb (String.eqb x k)) l.

(** The loop [while (unvisited.size > 0)]: [Returned (Some s)] when it is
    left normally or by [break], [Returned None] when it returns [null]. *)
Fixpoint search (fuel : nat) (g : Obj.t GraphNode) (endId : string) (s : Search)
  : Result (option Search) :=
  match unvisited s with
  | [] => Returned (Some s)
  | _ :: _ =>
      match fuel with
      | O => OutOfFuel
      | S fuel' =>
          let '(currentId, smallestDistance) := smallest s in
          match smallestDistance with
          | Inf => Returned None
          | Fin _ =>
              if String.eqb currentId endId then Returned (Some s)
              else
                let s1 :=
                  {| distances := distances s; previous := previous s;
                     visited := visited s ++ [currentId];
                     unvisited := removeId currentId (unvisited s) |} in
                match Obj.get g currentId with
                | Some currentNode =>
                    search fuel' g endId
                      (fold_left (relax currentId) (neighbors currentNode) s1)
                | None => Threw
                end
          end
      end
  end.

(** The loop [while (currentId !== startId)] that rebuilds the path, and
    the [path.unshift(startId)] after it; [Returned None] is its
    [return null].  Once [previous[currentId]] is [undefined] the loop goes
    on for ever. *)
Fixpoint rebuild (fuel : nat) (previous : Obj.t (option string))
  (startId currentId : string) (path : list string)
  : Result (option (list string)) :=
  if String.eqb currentId startId then Returned (Some (startId :: path))
  else
    match fuel with
    | O => OutOfFuel
    | S fuel' =>
        match Obj.get previous currentId with
        | Some (Some prevId) =>
            rebuild fuel' previous startId prevId (currentId :: path)
        | Some None => Returned None
        | None => OutOfFuel
        end
    end.

(** The final check that consecutive nodes of the path are connected. *)
Fixpoint connected (g : Obj.t GraphNode) (path : list string) : bool :=
  match path with
  | a :: (b :: _) as rest =>
      match Obj.get g a, Obj.get g b with
      | Some currentNode, Some _ =>
          match Obj.get (neighbors currentNode) b with
          | Some w => negb (Qeq_bool w 0) && connected g rest
          | None => false
          end
      | _, _ => false
      end
  | _ => true
  end.

Definition initSearch (g : Obj.t GraphNode) (startId : string) : Search :=
  {| distances :=
       Obj.set (fold_left (fun o nodeId => Obj.set o nodeId Inf) (Obj.keys g) [])
         startId (Fin 0);
     previous :=
       fold_left (fun o nodeId => Obj.set o nodeId None) (Obj.keys g) [];
     visited := [];
     unvisited := Obj.keys g |}.

Definition findShortestPath (fuel : nat) (st : PathFinder) (startId endId : string)
  : Result (option PathResult) :=
  if negb (isInitialized st) || negb (Obj.has (nodes st) startId)
     || negb (Obj.has (nodes st) endId)
  then Returned None
  else
    match search fuel (nodes st) endId (initSearch (nodes st) startId) with
    | OutOfFuel => OutOfFuel
    | Threw => Threw
    | Returned None => Returned None
    | Returned (Some s) =>
        match Obj.get (distances s) endId with
        | Some Inf => Returned None
        | d =>
            match rebuild fuel (previous s) startId endId [] with
            | OutOfFuel => OutOfFuel
            | Threw => Threw
            | Returned None => Returned None
            | Returned (Some path) =>
                if (List.length path <? 2)%nat then Returned None
                else if connected (nodes st) path
                     then Returned (Some {| path := path; distance := d |})
                     else Returned None
            end
        end
    end.

End WithDistance.
End Legacy.

(** ** The [dijkstra] function and the PathFinder built on it *)

Module Helper.

(** [Graph]: node id to neighbor id to edge length. *)
Definition Graph := Obj.t (Obj.t Q).

(** [distance] is [distances[endNode]]. *)
Record ShortestPaths : Type :=
  { distance : option ext; path : list string }.

Record Entry : Type := { node : string; entryDistance : ext }.

Record Search : Type :=
  { distances : Obj.t ext;
    previous : Obj.t (option string);
    priorityQueue : list Entry }.

(** [priorityQueue.sort((a, b) => a.distance - b.distance)]: a stable sort,
    by insertion. *)
Fixpoint insert (e : Entry) (l : list Entry) : list Entry :=
  match l with
  | [] => [e]
  | x :: r =>
      if ext_ltb (entryDistance e) (entryDistance x) then e :: l
      else x :: insert e r
  end.

Definition sort (l : list Entry) : list Entry :=
  fold_left (fun sorted e => insert e sorted) l [].

(** One round of [for (const neighbor in graph[currentNode])]. *)
Definition relax (currentNode : string) (s : Search) (edge : string * Q) : Search :=
  match Obj.get (distances s) currentNode, Obj.get (distances s) (fst edge) with
  | Some dc, Some dn =>
      let distance := ext_add dc (Fin (snd edge)) in
      if ext_ltb distance dn
      then {| distances := Obj.set (distances s) (fst edge) distance;
              previous := Obj.set (previous s) (fst edge) (Some currentNode);
              priorityQueue :=
                priorityQueue s ++ [{| node := fst edge; entryDistance := distance |}] |}
      else s
  | _, _ => s
  end.

Definition neighborsOf (graph : Graph) (currentNode : string) : Obj.t Q :=
  match Obj.get graph currentNode with
  | Some adj => adj
  | None => []
  end.

(** The loop [while (priorityQueue.length > 0)]. *)
Fixpoint loop (fuel : nat) (graph : Graph) (endNode : string) (s : Search)
  : Result Search :=
  match priorityQueue s with
  | [] => Returned s
  | _ :: _ =>
      match fuel with
      | O => OutOfFuel
      | S fuel' =>
          match sort (priorityQueue s) with
          | [] => Returned s
          | current :: rest =>
              let s1 :=
                {| distances := distances s; previous := previous s;
                   priorityQueue := rest |} in
              if String.eqb (node current) endNode then Returned s1
              else
                loop fuel' graph endNode
                  (fold_left (relax (node current))
                     (neighborsOf graph (node current)) s1)
          end
      end
  end.

(** The loop [while (current !== null)] that builds the path.  Once
    [previous[current]] is [undefined] it goes on for ever. *)
Fixpoint buildPath (fuel : nat) (previous : Obj.t (option string))
  (current : string) (path : list string) : Result (list string) :=
  match fuel with
  | O => OutOfFuel
  | S fuel' =>
      match Obj.get previous current with
      | Some (Some prev) => buildPath fuel' previous prev (current :: path)
      | Some None => Returned (current :: path)
      | None => OutOfFuel
      end
  end.

Definition initSearch (graph : Graph) (startNode : string) : Search :=
  {| distances :=
       Obj.set (fold_left (fun o k => Obj.set o k Inf) (Obj.keys graph) [])
         startNode (Fin 0);
     previous := fold_left (fun o k => Obj.set o k None) (Obj.keys graph) [];
     priorityQueue := [{| node := startNode; entryDistance := Fin 0 |}] |}.

Definition dijkstra (fuel : nat) (graph : Graph) (startNode endNode : string)
  : Result ShortestPaths :=
  match loop fuel graph endNode (initSearch graph startNode) with
  | Returned s =>
      match buildPath fuel (previous s) endNode [] with
      | Returned path =>
          Returned {| distance := Obj.get (distances s) endNode; path := path |}
      | Threw => Threw
      | OutOfFuel => OutOfFuel
      end
  | Threw => Threw
  | OutOfFuel => OutOfFuel
  end.

(** *** The PathFinder *)

Record Node : Type :=
  { id : string; point : Point; neighbors : list string }.

Record OverpassNode : Type := { osmId : Z; lat : Q; lon : Q }.

Record OverpassWay : Type :=
  { wayId : Z; wayNodes : list Z; tags : option (Obj.t string) }.

Record PathResult : Type :=
  { resultPath : list string;
    resultDistance : option ext;
    coordinates : list Point;
    instructions : list string }.

Record PathFinder : Type :=
  { nodes : Obj.t Node;
    ways : list OverpassWay;
    osmNodes : Obj.t OverpassNode;
    initialized : bool;
    lastFetchCenter : option Point;
    lastFetchRadius : Q }.

Definition create : PathFinder :=
  {| nodes := []; ways := []; osmNodes := []; initialized := false;
     lastFetchCenter := None; lastFetchRadius := 0 |}.

(** The first loop of [processOverpassData]. *)
Definition separate (elements : list Element)
  : Obj.t OverpassNode * list OverpassWay :=
  fold_left
    (fun (acc : Obj.t OverpassNode * list OverpassWay) element =>
       match element with
       | ElNode i la lo =>
           (Obj.set (fst acc) (keyOf i) {| osmId := i; lat := la; lon := lo |},
            snd acc)
       | ElWay i ns tg =>
           if (1 <? List.length ns)%nat
           then (fst acc, snd acc ++ [{| wayId := i; wayNodes := ns; tags := tg |}])
           else acc
       | ElOther => acc
       end)
    elements ([], []).

Definition pushNeighbor (graph : Obj.t Node) (fromId toId : string) : Obj.t Node :=
  match Obj.get graph fromId with
  | Some n =>
      if mem toId (neighbors n) then graph
      else Obj.set graph fromId
             {| id := id n; point := point n; neighbors := neighbors n ++ [toId] |}
  | None => graph
  end.

(** [way.tags?.oneway === 'yes']. *)
Definition isOneWay (way : OverpassWay) : bool :=
  match tags way with
  | Some tg => is_str (Obj.get tg "oneway") "yes"
  | None => false
  end.

Definition connect (oneWay : bool) (graph : Obj.t Node) (seg : Z * Z) : Obj.t Node :=
  let currentNodeId := keyOf (fst seg) in
  let nextNodeId := keyOf (snd seg) in
  if Obj.has graph currentNodeId && Obj.has graph nextNodeId
  then
    let graph1 := pushNeighbor graph currentNodeId nextNodeId in
    if negb oneWay then pushNeighbor graph1 nextNodeId currentNodeId else graph1
  else graph.

Definition buildGraph (st : PathFinder) : PathFinder :=
  let graph0 :=
    fold_left
      (fun (graph : Obj.t Node) (kv : string * OverpassNode) =>
         Obj.set graph (fst kv)
           {| id := fst kv;
              point := {| latitude := lat (snd kv); longitude := lon (snd kv) |};
              neighbors := [] |})
      (osmNodes st) [] in
  let graph :=
    fold_left
      (fun graph way => fold_left (connect (isOneWay way)) (segments (wayNodes way)) graph)
      (ways st) graph0 in
  {| nodes :=
       fold_left
         (fun (kept : Obj.t Node) (kv : string * Node) =>
            if (0 <? List.length (neighbors (snd kv)))%nat
            then Obj.set kept (fst kv) (snd kv)
            else kept)
         graph [];
     ways := ways st; osmNodes := osmNodes st; initialized := initialized st;
     lastFetchCenter := lastFetchCenter st; lastFetchRadius := lastFetchRadius st |}.

Definition processOverpassData (st : PathFinder) (elements : list Element)
  : PathFinder :=
  buildGraph
    {| nodes := nodes st; ways := snd (separate elements);
       osmNodes := fst (separate elements); initialized := initialized st;
       lastFetchCenter := lastFetchCenter st; lastFetchRadius := lastFetchRadius st |}.

Definition gridSize : Z := 5.
Definition step : Q := 1 # 1000.

(** The template literal [`${i}-${j}`]. *)
Definition gridId (i j : Z) : string :=
  String.append (keyOf i) (String.append "-" (keyOf j)).

Definition range (n : Z) : list Z := map Z.of_nat (seq 0 (Z.to_nat n)).

Definition gridNode (center : Point) (i j : Z) : Node :=
  {| id := gridId i j;
     point :=
       {| latitude := latitude center + (inject_Z i - inject_Z gridSize / 2) * step;
          longitude := longitude center + (inject_Z j - inject_Z gridSize / 2) * step |};
     neighbors :=
       (if (0 <? i)%Z then [gridId (i - 1) j] else [])
       ++ (if (i <? gridSize - 1)%Z then [gridId (i + 1) j] else [])
       ++ (if (0 <? j)%Z then [gridId i (j - 1)] else [])
       ++ (if (j <? gridSize - 1)%Z then [gridId i (j + 1)] else []) |}.

Definition createDemoNetwork (st : PathFinder) (center : Point) : PathFinder :=
  {| nodes :=
       fold_left
         (fun (g : Obj.t Node) i =>
            fold_left
              (fun (g : Obj.t Node) j => Obj.set g (gridId i j) (gridNode center i j))
              (range gridSize) g)
         (range gridSize) [];
     ways := ways st; osmNodes := osmNodes st; initialized := true;
     lastFetchCenter := lastFetchCenter st; lastFetchRadius := lastFetchRadius st |}.

Definition capitalize (s : string) : string :=
  match s with
  | EmptyString => EmptyString
  | String c r =>
      let n := nat_of_ascii c in
      String (if ((97 <=? n) && (n <=? 122))%nat then ascii_of_nat (n - 32) else c) r
  end.

(** [Math.round(x)] and [x.toFixed(1)] as text, for [x >= 0]. *)
Definition roundText (x : Q) : string := keyOf (Qfloor (x + (1 # 2))).
Definition toFixed1 (x : Q) : string :=
  let n := Qfloor (x * 10 + (1 # 2)) in
  String.append (keyOf (n / 10)) (String.append "." (keyOf (n mod 10))).

Definition Qabs_lt (x b : Q) : bool := Qltb x b && Qltb (- b) x.

Definition calculateTurnDirection (bearing1 bearing2 : Q) : string :=
  let diff := bearing2 - bearing1 in
  let diff := if Qltb 180 diff then diff - 360 else diff in
  let diff := if Qltb diff (-180) then diff + 360 else diff in
  if Qabs_lt diff 15 then "straight"
  else if Qltb 15 diff && Qltb diff 45 then "slight right"
  else if Qle_bool 45 diff && Qltb diff 135 then "turn right"
  else if Qle_bool 135 diff then "sharp right"
  else if Qltb diff (-15) && Qltb (-45) diff then "slight left"
  else if Qle_bool diff (-45) && Qltb (-135) diff then "turn left"
  else if Qle_bool diff (-135) then "sharp left"
  else "straight".

Section WithGeometry.
Variable haversineDistance : Point -> Point -> Q.
Variable calculateBearing : Point -> Point -> Q.

(** The test that opens [fetchRoadNetwork]: the area was fetched already. *)
Definition alreadyFetched (st : PathFinder) (center : Point) (radius : Q) : bool :=
  initialized st
  && match lastFetchCenter st with
     | Some last =>
         Qltb (haversineDistance center last) (radius * (1 # 2))
         && Qle_bool radius (lastFetchRadius st)
     | None => false
     end.

(** [fetchRoadNetwork]; it fetches unless the area was fetched already, it
    catches a failed fetch and it never rejects. *)
Definition fetchRoadNetwork (st : PathFinder) (center : Point) (radius : Q)
  (response : Fetch) : PathFinder :=
  if alreadyFetched st center radius then st
  else
    match response with
    | FetchOk elements =>
        let st1 := processOverpassData st elements in
        {| nodes := nodes st1; ways := ways st1; osmNodes := osmNodes st1;
           initialized := true; lastFetchCenter := Some center;
           lastFetchRadius := radius |}
    | FetchFailed => createDemoNetwork st center
    end.

(** The inner loop of [convertGraphToDijkstraFormat]; [None] when
    [this.nodes[neighborId]] is [undefined] and reading its [point] throws. *)
Fixpoint convertNeighbors (g : Obj.t Node) (p : Point) (neighborIds : list string)
  (adj : Obj.t Q) : option (Obj.t Q) :=
  match neighborIds with
  | [] => Some adj
  | neighborId :: more =>
      match Obj.get g neighborId with
      | Some n =>
          convertNeighbors g p more
            (Obj.set adj neighborId (haversineDistance p (point n)))
      | None => None
      end
  end.

Fixpoint convertEntries (g : Obj.t Node) (entries : list (string * Node))
  (graph : Graph) : option Graph :=
  match entries with
  | [] => Some graph
  | (nodeId, n) :: more =>
      match convertNeighbors g (point n) (neighbors n) [] with
      | Some adj => convertEntries g more (Obj.set graph nodeId adj)
      | None => None
      end
  end.

Definition convertGraphToDijkstraFormat (st : PathFinder) : option Graph :=
  convertEntries (nodes st) (nodes st) [].

Fixpoint pointsOf (g : Obj.t Node) (path : list string) : option (list Point) :=
  match path with
  | [] => Some []
  | nodeId :: more =>
      match Obj.get g nodeId, pointsOf g more with
      | Some n, Some ps => Some (point n :: ps)
      | _, _ => None
      end
  end.

(** The loop of [generateInstructions] over the inner points of the path. *)
Fixpoint narrate (points : list Point) : list string :=
  match points with
  | prevPoint :: ((currentPoint :: nextPoint :: _) as rest) =>
      let bearing1 := calculateBearing prevPoint currentPoint in
      let bearing2 := calculateBearing currentPoint nextPoint in
      let turn := calculateTurnDirection bearing1 bearing2 in
      let distance := haversineDistance currentPoint nextPoint in
      let distanceText :=
        if Qltb 1000 distance
        then String.append (toFixed1 (distance / 1000)) " km"
        else String.append (roundText distance) " m" in
      (if negb (String.eqb turn "straight")
       then [String.append (capitalize turn)
               (String.append " and continue for " distanceText)]
       else if Qltb 500 distance
            then [String.append "Continue straight for " distanceText]
            else [])
      ++ narrate rest
  | _ => []
  end.

Definition generateInstructions (points : list Point) : list string :=
  if (List.length points <? 2)%nat then []
  else ["Start your journey"] ++ narrate points
       ++ ["You have arrived at your destination"].

Definition findShortestPath (fuel : nat) (st : PathFinder) (startId endId : string)
  : Result (option PathResult) :=
  if negb (Obj.has (nodes st) startId) || negb (Obj.has (nodes st) endId)
  then Returned None
  else
    match convertGraphToDijkstraFormat st with
    | None => Threw
    | Some graph =>
        match dijkstra fuel graph startId endId with
        | Returned result =>
            if (List.length (path result) =? 0)%nat then Returned None
            else
              match pointsOf (nodes st) (path result) with
              | Some coordinates =>
                  Returned
                    (Some {| resultPath := path result;
                             resultDistance := distance result;
                             coordinates := coordinates;
                             instructions := generateInstructions coordinates |})
              | None => Threw
              end
        | Threw => Threw
        | OutOfFuel => OutOfFuel
        end
    end.

End WithGeometry.
End Helper.

(** ** Sample inputs *)

(** A rational stand-in for the great-circle distance, to run the code on
    concrete inputs: the city-block distance at 111 km per degree. *)
Definition cityBlock (p q : Point) : Q :=
  (Qabs (latitude p - latitude q) + Qabs (longitude p - longitude q)) * 111000.

(** A stand-in for the bearing. *)
Definition northBearing (p q : Point) : Q := 0.

Definition residential : Obj.t string := [("highway", "residential")].
Definition residentialOneWay : Obj.t string :=
  [("highway", "residential"); ("oneway", "yes")].
Definition motorway : Obj.t string := [("highway", "motorway")].

(** Three nodes in a row; a road joins the second and the third, the first
    lies on no road. *)
Definition strayFirstNode : list Element :=
  [ElNode 1 0 0; ElNode 2 (1 # 100) 0; ElNode 3 (2 # 100) 0;
   ElWay 10 [2; 3]%Z (Some residential)].

(** A single one-way street from node 1 to node 2. *)
Definition oneWayStreet : list Element :=
  [ElNode 1 0 0; ElNode 2 (1 # 100) 0;
   ElWay 10 [1; 2]%Z (Some residentialOneWay)].

(** A single motorway segment from node 1 to node 2, with no [oneway] tag. *)
Definition motorwaySegment : list Element :=
  [ElNode 1 0 0; ElNode 2 (1 # 100) 0; ElWay 10 [1; 2]%Z (Some motorway)].

(** Two roads that do not meet: 1 - 2 and 3 - 4. *)
Definition twoIslands : list Element :=
  [ElNode 1 0 0; ElNode 2 (1 # 100) 0; ElNode 3 (2 # 100) 0;
   ElNode 4 (3 # 100) 0;
   ElWay 10 [1; 2]%Z (Some residential); ElWay 11 [3; 4]%Z (Some residential)].

(** The adjacency of a graph: each node id with its neighbor ids. *)
Definition routerAdjacency (st : Router.PathFinder) : list (string * list string) :=
  map (fun kn => (fst kn, Obj.keys (Router.neighbors (snd kn)))) (Router.nodes st).

Definition helperAdjacency (st : Helper.PathFinder) : list (string * list string) :=
  map (fun kn => (fst kn, Helper.neighbors (snd kn))) (Helper.nodes st).

Definition legacyAdjacency (st : Legacy.PathFinder) : list (string * list string) :=
  map (fun kn => (fst kn, Obj.keys (Legacy.neighbors (snd kn)))) (Legacy.nodes st).

(** A single two-way street between node 1 and node 2. *)
Definition twoWayStreet : list Element :=
  [ElNode 1 0 0; ElNode 2 (1 # 100) 0; ElWay 10 [1; 2]%Z (Some residential)].

(** The states the three PathFinders reach on a payload. *)
Definition routerOn (calculateDistance : Point -> Point -> Q)
  (elements : list Element) : option Router.PathFinder :=
  Router.processOSMData calculateDistance Router.create elements.

Definition legacyOn (elements : list Element) : Legacy.PathFinder :=
  fst (Legacy.fetchRoadNetwork cityBlock Legacy.create (FetchOk elements)).

Definition helperOn (elements : list Element) : Helper.PathFinder :=
  Helper.processOverpassData Helper.create elements.

(** ** Vocabulary for the shortest-path search *)

(** [edge graph u v]: the graph has an edge from [u] to [v]. *)
Definition edge (graph : Helper.Graph) (u v : string) : Prop :=
  exists adj w, Obj.get graph u = Some adj /\ In (v, w) adj.

(** [reachable R s k]: [k] can be reached from [s] along steps of [R]. *)
Inductive reachable (R : string -> string -> Prop) (s : string) : string -> Prop :=
| reach_here : reachable R s s
| reach_step (u v : string) : reachable R s u -> R u v -> reachable R s v.

(** [Walk R s k p]: the list [p] runs from [s] to [k] along steps of [R]. *)
Inductive Walk (R : string -> string -> Prop) (s : string)
  : string -> list string -> Prop :=
| Walk_here : Walk R s s [s]
| Walk_step (u k : string) (p : list string) :
    Walk R s u p -> R u k -> Walk R s k (p ++ [k]).

(** [linked st u v]: [v] is in the neighbor list of the node [u]. *)
Definition linked (st : Helper.PathFinder) (u v : string) : Prop :=
  exists n, Obj.get (Helper.nodes st) u = Some n /\ In v (Helper.neighbors n).

(** Every id in a neighbor list is a node of the graph. *)
Definition closed (st : Helper.PathFinder) : Prop :=
  forall k n v,
    In (k, n) (Helper.nodes st) -> In v (Helper.neighbors n) ->
    In v (Obj.keys (Helper.nodes st)).

(** Neighbors are nodes of the graph and no length is negative. *)
Definition well_formed (graph : Helper.Graph) : Prop :=
  forall u adj v w,
    Obj.get graph u = Some adj -> In (v, w) adj ->
    In v (Obj.keys graph) /\ 0 <= w.

(** [Chain previous settled s k p]: following the links of [previous] back
    from [k] spells the path [p] from [s]; every node of [p] but the last
    is settled. *)
Inductive Chain (previous : Obj.t (option string)) (settled : list string)
  (s : string) : string -> list string -> Prop :=
| Chain_start : Obj.get previous s = Some None -> Chain previous settled s s [s]
| Chain_step (k u : string) (p : list string) :
    Obj.get previous k = Some (Some u) -> In u settled ->
    Chain previous settled s u p -> Chain previous settled s k (p ++ [k]).

(** The edges out of the nodes that are not settled yet. *)
Definition pending (graph : Helper.Graph) (settled : list string) : nat :=
  list_sum
    (map (fun kv => if mem (fst kv) settled then O else List.length (snd kv)) graph).

Definition queued (k : string) (q : Q) : Helper.Entry :=
  {| Helper.node := k; Helper.entryDistance := Fin q |}.

(** The invariant of the loop of [dijkstra].  The nodes of [settled] have
    their final distance; those of [relaxed] have had their edges
    examined. *)
Record Inv (graph : Helper.Graph) (start : string)
  (settled relaxed : list string) (s : Helper.Search) : Prop :=
  { inv_dom_d : forall k,
      In k (Obj.keys graph) <-> exists d, Obj.get (Helper.distances s) k = Some d;
    inv_dom_p : forall k,
      In k (Obj.keys graph) <-> exists p, Obj.get (Helper.previous s) k = Some p;
    inv_start :
      Obj.get (Helper.distances s) start = Some (Fin 0)
      /\ Obj.get (Helper.previous s) start = Some None;
    inv_nonneg : forall k q,
      Obj.get (Helper.distances s) k = Some (Fin q) -> 0 <= q;
    inv_queue : forall e, In e (Helper.priorityQueue s) ->
      exists q d,
        Helper.entryDistance e = Fin q
        /\ Obj.get (Helper.distances s) (Helper.node e) = Some d
        /\ ext_le d (Fin q);
    inv_pending : forall k q,
      Obj.get (Helper.distances s) k = Some (Fin q) ->
      In k settled \/ In (queued k q) (Helper.priorityQueue s);
    inv_settled : forall u, In u settled ->
      exists q, Obj.get (Helper.distances s) u = Some (Fin q);
    inv_relaxed : forall u q adj v w,
      In u relaxed ->
      Obj.get (Helper.distances s) u = Some (Fin q) ->
      Obj.get graph u = Some adj -> In (v, w) adj ->
      exists d, Obj.get (Helper.distances s) v = Some d /\ ext_le d (Fin (q + w));
    inv_min : forall u q e,
      In u settled -> Obj.get (Helper.distances s) u = Some (Fin q) ->
      In e (Helper.priorityQueue s) -> ext_le (Fin q) (Helper.entryDistance e);
    inv_sound : forall k q,
      Obj.get (Helper.distances s) k = Some (Fin q) ->
      reachable (edge graph) start k;
    inv_unreached : forall k,
      Obj.get (Helper.distances s) k = Some Inf ->
      Obj.get (Helper.previous s) k = Some None;
    inv_link : forall k u,
      Obj.get (Helper.previous s) k = Some (Some u) ->
      In u settled /\ edge graph u k;
    inv_chain : forall k q,
      Obj.get (Helper.distances s) k = Some (Fin q) ->
      exists p, Chain (Helper.previous s) settled start k p }.

(** The invariant inside the loop over the neighbors of [current], whose
    distance is [qc]. *)
Definition Mid (graph : Helper.Graph) (start current : string) (qc : Q)
  (settled : list string) (s : Helper.Search) : Prop :=
  Inv graph start (current :: settled) settled s
  /\ Obj.get (Helper.distances s) current = Some (Fin qc)
  /\ (forall u q, In u (current :: settled) ->
                  Obj.get (Helper.distances s) u = Some (Fin q) -> q <= qc).

(** ** Vocabulary for the search of [utils/pathfinding.ts] *)

(** [legacy_edge g u v]: [v] is a key of the neighbor map of the node [u]. *)
Definition legacy_edge (g : Obj.t Legacy.GraphNode) (u v : string) : Prop :=
  exists n, Obj.get g u = Some n /\ In v (Obj.keys (Legacy.neighbors n)).

(** What the loop of [findShortestPath] keeps true: every node has a
    distance, a node with a finite distance can be reached from the start,
    and the unvisited ids are nodes of the graph. *)
Record LegacyInv (g : Obj.t Legacy.GraphNode) (start : string)
  (s : Legacy.Search) : Prop :=
  { linv_dom : forall k,
      In k (Obj.keys g) -> exists d, Obj.get (Legacy.distances s) k = Some d;
    linv_sound : forall k q,
      Obj.get (Legacy.distances s) k = Some (Fin q) ->
      reachable (legacy_edge g) start k;
    linv_unvisited : incl (Legacy.unvisited s) (Obj.keys g) }.

(** ** Vocabulary for the graph builders *)

(** [same_tables st st']: the two states hold the same OSM tables and the
    same flag, and their graphs are empty together. *)
Definition same_tables (st st' : Router.PathFinder) : Prop :=
  Router.osmNodes st' = Router.osmNodes st
  /\ Router.osmWays st' = Router.osmWays st
  /\ Router.isInitialized st' = Router.isInitialized st
  /\ (Router.nodes st' = [] <-> Router.nodes st = []).

(** The same for the legacy PathFinder. *)
Definition legacy_same_tables (st st' : Legacy.PathFinder) : Prop :=
  Legacy.osmNodes st' = Legacy.osmNodes st
  /\ Legacy.osmWays st' = Legacy.osmWays st
  /\ Legacy.isInitialized st' = Legacy.isInitialized st
  /\ (Legacy.nodes st' = [] <-> Legacy.nodes st = []).

(** ** Vocabulary for the priority queue *)

(** The order [priorityQueue.sort] sorts by. *)
Definition entry_le (a b : Helper.Entry) : Prop :=
  ext_le (Helper.entryDistance a) (Helper.entryDistance b).

(** The edge [vw] out of a node at distance [qc] has been examined. *)
Definition relaxed_at (s : Helper.Search) (qc : Q) (vw : string * Q) : Prop :=
  exists d,
    Obj.get (Helper.distances s) (fst vw) = Some d
    /\ ext_le d (Fin (qc + snd vw)).

(** ** Checks on adjacency lists *)

Fixpoint distinct (l : list string) : bool :=
  match l with
  | [] => true
  | x :: r => negb (mem x r) && distinct r
  end.

Definition closedb (adj : list (string * list string)) : bool :=
  forallb (fun kn => forallb (fun v => mem v (map fst adj)) (snd kn)) adj.

Definition neighborsIn (adj : list (string * list string)) (u : string)
  : list string :=
  match find (fun kn => String.eqb (fst kn) u) adj with
  | Some kn => snd kn
  | None => []
  end.

(** [seen] with those of [xs] it does not hold yet. *)
Fixpoint union (seen xs : list string) : list string :=
  match xs with
  | [] => seen
  | x :: r => union (if mem x seen then seen else x :: seen) r
  end.

(** The nodes within [n] steps of those of [frontier]. *)
Fixpoint closure (adj : list (string * list string)) (n : nat)
  (frontier : list string) : list string :=
  match n with
  | O => frontier
  | S n' => closure adj n' (union frontier (flat_map (neighborsIn adj) frontier))
  end.

Definition connectedb (adj : list (string * list string)) (n : nat) : bool :=
  forallb
    (fun a => forallb (fun b => mem b (closure adj n [a])) (map fst adj))
    (map fst adj).

(** The demo network: each node id with its neighbor ids. *)
Definition demoGrid : list (string * list string) :=
  Eval vm_compute in
    helperAdjacency (Helper.createDemoNetwork Helper.create (mkPoint 0 0)).

(** In the grid [adj], the neighbors of the node at [(i, j)] are the nodes
    at distance one in a row or a column. *)
Definition orthogonalb (adj : list (string * list string)) : bool :=
  forallb
    (fun i =>
       forallb
         (fun j =>
            forallb
              (fun i' =>
                 forallb
                   (fun j' =>
                      Bool.eqb
                        (mem (Helper.gridId i' j')
                           (neighborsIn adj (Helper.gridId i j)))
                        (Z.abs (i - i') + Z.abs (j - j') =? 1)%Z)
                   (Helper.range Helper.gridSize))
              (Helper.range Helper.gridSize))
         (Helper.range Helper.gridSize))
    (Helper.range Helper.gridSize).

(** [Route graph s k p W]: the list [p] runs from [s] to [k] along edges of
    [graph] whose lengths add up to [W]. *)
Inductive Route (graph : Helper.Graph) (s : string)
  : string -> list string -> Q -> Prop :=
| Route_here : Route graph s s [s] 0
| Route_step (u k : string) (p : list string) (W w : Q) (adj : Obj.t Q) :
    Route graph s u p W -> Obj.get graph u = Some adj -> In (k, w) adj ->
    Route graph s k (p ++ [k]) (W + w).

(** Every link of [previous] is an edge of the graph, and the distance of
    its head is the distance of its tail plus the length of the edge. *)
Definition Linked (graph : Helper.Graph) (s : Helper.Search) : Prop :=
  forall k u,
    Obj.get (Helper.previous s) k = Some (Some u) ->
    exists qu adj w,
      Obj.get (Helper.distances s) u = Some (Fin qu)
      /\ Obj.get graph u = Some adj /\ In (k, w) adj
      /\ Obj.get (Helper.distances s) k = Some (Fin (qu + w)).

(** A check of [well_formed]. *)
Definition well_formedb (graph : Helper.Graph) : bool :=
  forallb
    (fun kv =>
       forallb (fun vw => mem (fst vw) (Obj.keys graph) && Qle_bool 0 (snd vw))
         (snd kv))
    graph.

(** Three crossings: the way round by [b] is shorter than the direct road. *)
Definition threeCrossings : Helper.Graph :=
  [("a", [("b", 1); ("c", 5)]); ("b", [("c", 1)]); ("c", [])].

(** The length of the trip through the points [ps]. *)
Fixpoint tripLength (hav : Point -> Point -> Q) (ps : list Point) : Q :=
  match ps with
  | a :: (b :: _) as r => hav a b + tripLength hav r
  | _ => 0
  end.

(** Every length of the converted graph is the distance between the points
    of the two nodes. *)
Definition measured (hav : Point -> Point -> Q) (g : Obj.t Helper.Node)
  (graph : Helper.Graph) : Prop :=
  forall u adj v w,
    Obj.get graph u = Some adj -> In (v, w) adj ->
    exists n nv,
      Obj.get g u = Some n /\ Obj.get g v = Some nv
      /\ w = hav (Helper.point n) (Helper.point nv).

(** [router_edge g u v]: [v] is a key of the neighbor map of the node [u]. *)
Definition router_edge (g : Obj.t Router.GraphNode) (u v : string) : Prop :=
  exists n, Obj.get g u = Some n /\ In v (Obj.keys (Router.neighbors n)).

(** What the traversal keeps true: every visited node can be reached from
    the start, the queued nodes are visited, and the neighbors of a visited
    node that has left the queue are visited. *)
Record Swept (g : Obj.t Router.GraphNode) (start : string)
  (visited queue : list string) : Prop :=
  { swept_start : In start visited;
    swept_sound : forall x, In x visited -> reachable (router_edge g) start x;
    swept_queue : incl queue visited;
    swept_done : forall u n,
      In u visited -> Obj.get g u = Some n ->
      In u queue \/ incl (Obj.keys (Router.neighbors n)) visited }.

(** A junction [osm_1] with a one-way road to [osm_2], and a road between
    [osm_3] and [osm_4] that it does not reach. *)
Definition junctionAndIsland : Router.PathFinder :=
  {| Router.nodes :=
       [("osm_1", {| Router.id := "osm_1"; Router.point := mkPoint 0 0;
                     Router.neighbors := [("osm_2", Fin 10)] |});
        ("osm_2", {| Router.id := "osm_2"; Router.point := mkPoint 0 1;
                     Router.neighbors := [] |});
        ("osm_3", {| Router.id := "osm_3"; Router.point := mkPoint 1 0;
                     Router.neighbors := [("osm_4", Fin 10)] |});
        ("osm_4", {| Router.id := "osm_4"; Router.point := mkPoint 1 1;
                     Router.neighbors := [("osm_3", Fin 10)] |})];
     Router.osmNodes := []; Router.osmWays := [];
     Router.isInitialized := false |}.

(** What the builder of the full PathFinder keeps true of its graph: no key
    is repeated, every key is [osm_] followed by an id, and every neighbor
    is a node of the graph. *)
Record Built (g : Obj.t Router.GraphNode) : Prop :=
  { built_nodup : NoDup (Obj.keys g);
    built_keys : forall k, In k (Obj.keys g) -> exists x, k = Router.graphNodeId x;
    built_closed : forall k n v,
      Obj.get g k = Some n -> In v (Obj.keys (Router.neighbors n)) ->
      In v (Obj.keys g) }.

(** Every edge takes a finite time that is not negative. *)
Definition Timed (g : Obj.t Router.GraphNode) : Prop :=
  forall k n v w,
    Obj.get g k = Some n -> In (v, w) (Router.neighbors n) ->
    exists q, w = Fin q /\ 0 <= q.

(** The scan all the nearest-node searches make: the first of the closest
    candidates that pass the test [ok], with its distance. *)
Definition pickNearest (A : Type) (ok : A -> bool) (name : A -> string)
  (d : A -> Q) (l : list A) (acc : option string * ext) : option string * ext :=
  fold_left
    (fun (acc : option string * ext) (x : A) =>
       if ok x && ext_ltb (Fin (d x)) (snd acc)
       then (Some (name x), Fin (d x))
       else acc)
    l acc.

(** What a scan has found after the candidates [seen]. *)
Definition Picked (A : Type) (ok : A -> bool) (name : A -> string)
  (d : A -> Q) (seen : list A) (acc : option string * ext) : Prop :=
  (acc = (None, Inf) /\ forall x, In x seen -> ok x = false)
  \/ exists x,
       In x seen /\ ok x = true /\ acc = (Some (name x), Fin (d x))
       /\ forall y, In y seen -> ok y = true -> d x <= d y.

(** The point of an OSM node. *)
Definition osmPoint (n : Router.OSMNode) : Point :=
  {| latitude := Router.lat n; longitude := Router.lon n |}.

(** The nodes the radius search of the full PathFinder looks for: those
    with an edge of their own that lie on a way. *)
Definition usable (st : Router.PathFinder) (kv : string * Router.OSMNode) : bool :=
  (0 <? Router.getNodeConnections st (Router.graphNodeId (fst kv)))%nat
  && mem (Router.graphNodeId (fst kv)) (Router.graphNodesInWays st).

(** The full PathFinder after the payload of one two-way street. *)
Definition twoWayRouter : Router.PathFinder :=
  Eval vm_compute in
    match routerOn cityBlock twoWayStreet with
    | Some st => st
    | None => Router.create
    end.

(** ** More of the PathFinder of [utils/dijkstra.ts] *)

Module HelperSearch.
Section WithGeometry.
Variable haversineDistance : Point -> Point -> Q.
Variable calculateBearing : Point -> Point -> Q.

(** [findNearestNode]: the loop over [Object.entries(this.nodes)]. *)
Definition findNearestNode (st : Helper.PathFinder) (point : Point)
  : option string :=
  if (List.length (Obj.keys (Helper.nodes st)) =? 0)%nat then None
  else
    fst (fold_left
           (fun (acc : option string * ext) (kv : string * Helper.Node) =>
              let distance := haversineDistance point (Helper.point (snd kv)) in
              if ext_ltb (Fin distance) (snd acc)
              then (Some (fst kv), Fin distance)
              else acc)
           (Helper.nodes st) (None, Inf)).

(** [findPath]: the state after the fetch, and what the call resolves to. *)
Definition findPath (fuel : nat) (st : Helper.PathFinder) (start end_ : Point)
  (searchRadius : Q) (response : Fetch)
  : Helper.PathFinder * Result (option Helper.PathResult) :=
  let center :=
    {| latitude := (latitude start + latitude end_) / 2;
       longitude := (longitude start + longitude end_) / 2 |} in
  let st' := Helper.fetchRoadNetwork haversineDistance st center searchRadius response in
  let startNodeId := findNearestNode st' start in
  let endNodeId := findNearestNode st' end_ in
  (st',
   if negb (truthy startNodeId) || negb (truthy endNodeId)
   then Returned None
   else
     match startNodeId, endNodeId with
     | Some s, Some e =>
         Helper.findShortestPath haversineDistance calculateBearing fuel st' s e
     | _, _ => Returned None
     end).
End WithGeometry.
End HelperSearch.

(** The same turn to the other side. *)
Definition mirror (turn : string) : string :=
  if String.eqb turn "slight right" then "slight left"
  else if String.eqb turn "turn right" then "turn left"
  else if String.eqb turn "sharp right" then "sharp left"
  else if String.eqb turn "slight left" then "slight right"
  else if String.eqb turn "turn left" then "turn right"
  else if String.eqb turn "sharp left" then "sharp right"
  else turn.

(** The two steps of [calculateTurnDirection]: the difference of the
    bearings brought back by a full turn, and the name of the turn. *)
Definition turnAngle (bearing1 bearing2 : Q) : Q :=
  let diff := bearing2 - bearing1 in
  let diff := if Qltb 180 diff then diff - 360 else diff in
  if Qltb diff (-180) then diff + 360 else diff.

Definition turnName (diff : Q) : string :=
  if Helper.Qabs_lt diff 15 then "straight"
  else if Qltb 15 diff && Qltb diff 45 then "slight right"
  else if Qle_bool 45 diff && Qltb diff 135 then "turn right"
  else if Qle_bool 135 diff then "sharp right"
  else if Qltb diff (-15) && Qltb (-45) diff then "slight left"
  else if Qle_bool diff (-45) && Qltb (-135) diff then "turn left"
  else if Qle_bool diff (-135) then "sharp left"
  else "straight".

(** What [buildGraph] keeps true of the graph it is filling from the node
    table [osm]: a node carries its key as id, its neighbors are keys of
    the table and none is listed twice. *)
Definition Tidy (osm : Obj.t Helper.OverpassNode) (graph : Obj.t Helper.Node)
  : Prop :=
  forall k n,
    In (k, n) graph ->
    Helper.id n = k /\ In k (Obj.keys osm)
    /\ NoDup (Helper.neighbors n)
    /\ forall v, In v (Helper.neighbors n) -> In v (Obj.keys osm).

(** The length the graph gives the edge from [u] to [v], if there is one. *)
Definition legacy_length (g : Obj.t Legacy.GraphNode) (u v : string) : option Q :=
  match Obj.get g u with
  | Some n => Obj.get (Legacy.neighbors n) v
  | None => None
  end.

(** A payload whose way carries no tags. *)
Definition taglessWay : list Element :=
  [ElNode 1 0 0; ElNode 2 (1 # 100) 0; ElWay 10 [1; 2]%Z None].

(** Every edge of the graph has its reverse, of the same length. *)
Definition two_way (g : Obj.t Legacy.GraphNode) : Prop :=
  forall u v d, legacy_length g u v = Some d -> legacy_length g v u = Some d.

(** The distance from [point] to an entry of [this.osmNodes]. *)
Definition legacyDistance (cd : Point -> Point -> Q) (point : Point)
  (kv : string * Legacy.OSMNode) : Q :=
  cd point {| latitude := Legacy.lat (snd kv); longitude := Legacy.lon (snd kv) |}.

(** The entry's node lies on one of the ways. *)
Definition onWay (st : Legacy.PathFinder) (kv : string * Legacy.OSMNode) : bool :=
  mem (Legacy.graphNodeId (fst kv)) (Legacy.nodesInWays st).

(** A junction on a street, and a lone node next to the origin. *)
Definition streetAndLoneNode : list Element :=
  [ElNode 1 (1 # 1000) 0; ElNode 2 (2 # 1000) 0; ElNode 3 0 0;
   ElWay 10 [1; 2]%Z (Some residential)].

(** [s.replace(pattern, '')]: the first occurrence of [pattern] is taken
    out. *)
Fixpoint dropChars (n : nat) (s : string) : string :=
  match n, s with
  | S n', String _ r => dropChars n' r
  | _, _ => s
  end.

Fixpoint removeFirst (pattern s : string) : string :=
  if String.prefix pattern s then dropChars (String.length pattern) s
  else match s with
       | String c r => String c (removeFirst pattern r)
       | EmptyString => EmptyString
       end.

(** [nodes.indexOf(x)]; [None] is [-1]. *)
Fixpoint indexOf (x : Z) (nodes : list Z) : option Z :=
  match nodes with
  | [] => None
  | y :: r =>
      if (y =? x)%Z then Some 0%Z
      else option_map Z.succ (indexOf x r)
  end.

(** [total / divisor] on numbers, for a divisor that is not zero. *)
Definition ext_div (total : ext) (divisor : Q) : ext :=
  match total with
  | Fin q => Fin (q / divisor)
  | Inf => Inf
  end.

Module RouterSearch.

Record PathResult : Type :=
  { path : list string;
    distance : Q;
    estimatedTime : ext;
    fare : Q }.

(** The priority queue: [items] holds [[priority, value]] pairs. *)
Definition Item : Type := (ext * string)%type.

(** [items.sort(compare)] with [compare = (a, b) => a[0] - b[0]]: a stable
    sort, by insertion. *)
Fixpoint insertItem (item : Item) (items : list Item) : list Item :=
  match items with
  | [] => [item]
  | x :: r =>
      if ext_ltb (fst item) (fst x) then item :: items
      else x :: insertItem item r
  end.

Definition sortItems (items : list Item) : list Item :=
  fold_left (fun sorted item => insertItem item sorted) items [].

(** [enqueue]: [this.items.push(item); this.items.sort(this.compare)]. *)
Definition enqueue (items : list Item) (item : Item) : list Item :=
  sortItems (items ++ [item]).

Record Search : Type :=
  { distances : Obj.t ext;
    previous : Obj.t (option string);
    items : list Item }.

Definition initSearch (g : Obj.t Router.GraphNode) (startId : string) : Search :=
  {| distances :=
       Obj.set (fold_left (fun o k => Obj.set o k Inf) (Obj.keys g) [])
         startId (Fin 0);
     previous := fold_left (fun o k => Obj.set o k None) (Obj.keys g) [];
     items := enqueue [] (Fin 0, startId) |}.

(** One round of [for (const neighborId in currentNode.neighbors)]. *)
Definition relax (currentId : string) (s : Search) (edge : string * ext) : Search :=
  match Obj.get (distances s) currentId, Obj.get (distances s) (fst edge) with
  | Some dc, Some dn =>
      let newDistance := ext_add dc (snd edge) in
      if ext_ltb newDistance dn
      then {| distances := Obj.set (distances s) (fst edge) newDistance;
              previous := Obj.set (previous s) (fst edge) (Some currentId);
              items := enqueue (items s) (newDistance, fst edge) |}
      else s
  | _, _ => s
  end.

(** [reconstructPath]: the loop [while (current !== null)].  Once
    [cameFrom[current]] is [undefined] it goes on for ever. *)
Fixpoint reconstructPath (fuel : nat) (cameFrom : Obj.t (option string))
  (current : string) (path : list string) : Result (list string) :=
  match fuel with
  | O => OutOfFuel
  | S fuel' =>
      match Obj.get cameFrom current with
      | Some (Some prev) => reconstructPath fuel' cameFrom prev (current :: path)
      | Some None => Returned (current :: path)
      | None => OutOfFuel
      end
  end.

(** [parseInt(nodeId.replace('osm_', ''))]. *)
Definition osmIdOf (nodeId : string) : option Z :=
  parseInt (removeFirst "osm_" nodeId).

(** [getPathCoordinates]. *)
Definition getPathCoordinates (st : Router.PathFinder) (path : list string)
  : list Point :=
  flat_map
    (fun nodeId =>
       match Obj.get (Router.nodes st) nodeId with
       | Some node => [Router.point node]
       | None => []
       end)
    path.

Definition adjacentIn (way : Router.OSMWay) (osmId1 osmId2 : Z) : bool :=
  match indexOf osmId1 (Router.wayNodes way), indexOf osmId2 (Router.wayNodes way) with
  | Some node1Index, Some node2Index =>
      (Z.abs (node1Index - node2Index) =? 1)%Z
  | _, _ => false
  end.

Definition findConnectingWay (st : Router.PathFinder) (node1Id node2Id : string)
  : option Router.OSMWay :=
  match osmIdOf node1Id, osmIdOf node2Id with
  | Some osmId1, Some osmId2 =>
      match Obj.get (Router.nodes st) node1Id, Obj.get (Router.nodes st) node2Id with
      | Some _, Some _ =>
          find (fun way => adjacentIn way osmId1 osmId2)
            (Obj.values (Router.osmWays st))
      | _, _ => None
      end
  | _, _ => None
  end.

(** [this.osmNodes[way.nodes[i]]]. *)
Definition osmNodeAt (st : Router.PathFinder) (way : Router.OSMWay) (i : Z)
  : option Router.OSMNode :=
  match (if (i <? 0)%Z then None else nth_error (Router.wayNodes way) (Z.to_nat i)) with
  | Some nodeId => Obj.get (Router.osmNodes st) (keyOf nodeId)
  | None => Obj.get (Router.osmNodes st) "undefined"
  end.

(** The loop [for (let i = startIndex + step; i !== endIndex; i += step)]. *)
Fixpoint between (fuel : nat) (st : Router.PathFinder) (way : Router.OSMWay)
  (i endIndex step : Z) (points : list Point) : Result (list Point) :=
  if (i =? endIndex)%Z then Returned points
  else
    match fuel with
    | O => OutOfFuel
    | S fuel' =>
        between fuel' st way (i + step)%Z endIndex step
          (match osmNodeAt st way i with
           | Some osmNode =>
               points ++ [{| latitude := Router.lat osmNode;
                             longitude := Router.lon osmNode |}]
           | None => points
           end)
    end.

Definition getIntermediatePoints (fuel : nat) (st : Router.PathFinder)
  (way : Router.OSMWay) (startNodeId endNodeId : string) : Result (list Point) :=
  let indexOfId nodeId :=
    match osmIdOf nodeId with
    | Some osmId => indexOf osmId (Router.wayNodes way)
    | None => None
    end in
  match indexOfId startNodeId, indexOfId endNodeId with
  | Some startIndex, Some endIndex =>
      let step := if (startIndex <? endIndex)%Z then 1%Z else (-1)%Z in
      between fuel st way (startIndex + step)%Z endIndex step []
  | _, _ => Returned []
  end.

(** The loop over the pairs [path[i]], [path[i + 1]] of
    [getDetailedPathCoordinates]. *)
Fixpoint detailSegments (fuel : nat) (st : Router.PathFinder)
  (pairs : list (string * string)) (detailedPath : list Point)
  : Result (list Point) :=
  match pairs with
  | [] => Returned detailedPath
  | (currentId, nextId) :: more =>
      match Obj.get (Router.nodes st) currentId, Obj.get (Router.nodes st) nextId with
      | Some currentNode, Some _ =>
          let detailedPath := detailedPath ++ [Router.point currentNode] in
          match findConnectingWay st currentId nextId with
          | Some connectingWay =>
              match getIntermediatePoints fuel st connectingWay currentId nextId with
              | Returned intermediatePoints =>
                  detailSegments fuel st more (detailedPath ++ intermediatePoints)
              | Threw => Threw
              | OutOfFuel => OutOfFuel
              end
          | None => detailSegments fuel st more detailedPath
          end
      | _, _ => detailSegments fuel st more detailedPath
      end
  end.

Definition getDetailedPathCoordinates (fuel : nat) (st : Router.PathFinder)
  (path : list string) : Result (list Point) :=
  match path with
  | [] => Returned []
  | _ :: _ =>
      match detailSegments fuel st (segments path) [] with
      | Returned detailedPath =>
          Returned
            (match Obj.get (Router.nodes st) (last path "") with
             | Some lastNode => detailedPath ++ [Router.point lastNode]
             | None => detailedPath
             end)
      | Threw => Threw
      | OutOfFuel => OutOfFuel
      end
  end.

Definition EPSILON : Q := 1 # 100000.

(** The OSM node lies within [EPSILON] of the point, in both coordinates. *)
Definition near (osmNode : Router.OSMNode) (point : Point) : bool :=
  Qltb (Qabs (Router.lat osmNode - latitude point)) EPSILON
  && Qltb (Qabs (Router.lon osmNode - longitude point)) EPSILON.

(** The loop over [way.nodes] of [findRoadTypeBetweenPoints]: [true] when
    it returns the way's road type. *)
Fixpoint holdsBoth (st : Router.PathFinder) (point1 point2 : Point)
  (nodeIds : list Z) (found1 found2 : bool) : bool :=
  match nodeIds with
  | [] => false
  | nodeId :: more =>
      let '(found1, found2) :=
        match Obj.get (Router.osmNodes st) (keyOf nodeId) with
        | Some osmNode =>
            (found1 || near osmNode point1, found2 || near osmNode point2)
        | None => (found1, found2)
        end in
      if found1 && found2 then true
      else holdsBoth st point1 point2 more found1 found2
  end.

Definition findRoadTypeBetweenPoints (st : Router.PathFinder)
  (point1 point2 : Point) : string :=
  match
    find
      (fun way =>
         truthy (Obj.get (Router.tags way) "highway")
         && holdsBoth st point1 point2 (Router.wayNodes way) false false)
      (Obj.values (Router.osmWays st))
  with
  | Some way =>
      match Obj.get (Router.tags way) "highway" with
      | Some highway => highway
      | None => "unclassified"
      end
  | None => "unclassified"
  end.

Section WithDistance.
Variable calculateDistance : Point -> Point -> Q.

(** [calculatePathDistance], in metres. *)
Definition calculatePathDistance (points : list Point) : Q :=
  fold_left
    (fun totalDistance seg => totalDistance + calculateDistance (fst seg) (snd seg))
    (segments points) 0.

(** [calculateEstimatedTime], in seconds. *)
Definition calculateEstimatedTime (st : Router.PathFinder) (points : list Point)
  : ext :=
  fold_left
    (fun totalTimeSeconds seg =>
       let distanceMeters := calculateDistance (fst seg) (snd seg) in
       let roadType := findRoadTypeBetweenPoints st (fst seg) (snd seg) in
       let speedLimitKmH := Router.defaultSpeed roadType in
       let speedLimitMps := speedLimitKmH * 1000 / 3600 in
       if Qltb 0 speedLimitMps
       then ext_add totalTimeSeconds (Fin (distanceMeters / speedLimitMps))
       else ext_add totalTimeSeconds Inf)
    (segments points) (Fin 0).

(** The branch [if (currentId === endId)] of [findShortestPath]. *)
Definition finish (fuel : nat) (st : Router.PathFinder)
  (previous : Obj.t (option string)) (endId : string)
  : Result (option PathResult) :=
  match reconstructPath fuel previous endId [] with
  | Returned path =>
      match getDetailedPathCoordinates fuel st path with
      | Returned detailedPathCoords =>
          let totalDistanceMeters := calculatePathDistance detailedPathCoords in
          let totalEstimatedTimeSeconds :=
            calculateEstimatedTime st detailedPathCoords in
          let totalDistanceKm := totalDistanceMeters / 1000 in
          let totalEstimatedTimeMinutes := ext_div totalEstimatedTimeSeconds 60 in
          let fare := Fare.calculateFare totalDistanceKm in
          Returned (Some {| path := path;
                            distance := totalDistanceKm;
                            estimatedTime := totalEstimatedTimeMinutes;
                            fare := fare |})
      | Threw => Threw
      | OutOfFuel => OutOfFuel
      end
  | Threw => Threw
  | OutOfFuel => OutOfFuel
  end.

(** The loop [while (!priorityQueue.isEmpty())]; [budget] is the fuel of
    the loops that build the result. *)
Fixpoint loop (fuel budget : nat) (st : Router.PathFinder) (endId : string)
  (s : Search) : Result (option PathResult) :=
  match items s with
  | [] => Returned None
  | (currentDistance, currentId) :: rest =>
      match fuel with
      | O => OutOfFuel
      | S fuel' =>
          let s1 :=
            {| distances := distances s; previous := previous s; items := rest |} in
          if match Obj.get (distances s) currentId with
             | Some d => ext_ltb d currentDistance
             | None => false
             end
          then loop fuel' budget st endId s1
          else if String.eqb currentId endId
               then finish budget st (previous s) endId
               else
                 match Obj.get (Router.nodes st) currentId with
                 | Some currentNode =>
                     loop fuel' budget st endId
                       (fold_left (relax currentId) (Router.neighbors currentNode) s1)
                 | None => loop fuel' budget st endId s1
                 end
      end
  end.

Definition findShortestPath (fuel : nat) (st : Router.PathFinder)
  (startId endId : string) : Result (option PathResult) :=
  if negb (Router.isInitialized st) then Returned None
  else if negb (Obj.has (Router.nodes st) startId)
          || negb (Obj.has (Router.nodes st) endId)
       then Returned None
       else loop fuel fuel st endId (initSearch (Router.nodes st) startId).
End WithDistance.
End RouterSearch.

(** [Journey g s k p W]: the list [p] runs from [s] to [k] along edges of
    the graph whose weights, the seconds they take, are finite and add up
    to [W]. *)
Inductive Journey (g : Obj.t Router.GraphNode) (s : string)
  : string -> list string -> Q -> Prop :=
| Journey_here : Journey g s s [s] 0
| Journey_step (u k : string) (p : list string) (W w : Q) (n : Router.GraphNode) :
    Journey g s u p W -> Obj.get g u = Some n ->
    In (k, Fin w) (Router.neighbors n) ->
    Journey g s k (p ++ [k]) (W + w).

(** No edge takes a negative time. *)
Definition timed (g : Obj.t Router.GraphNode) : Prop :=
  forall u n v w,
    Obj.get g u = Some n -> In (v, Fin w) (Router.neighbors n) -> 0 <= w.

(** The same, as a check that can be run. *)
Definition timedb (g : Obj.t Router.GraphNode) : bool :=
  forallb
    (fun kn : string * Router.GraphNode =>
       forallb
         (fun vw : string * ext =>
            match snd vw with
            | Fin w => Qle_bool 0 w
            | Inf => true
            end)
         (Router.neighbors (snd kn)))
    g.

(** The edges of a neighbor map that a search can follow: those of finite
    weight that lead to a node of the graph. *)
Definition timeEdges (g : Obj.t Router.GraphNode) (adj : Obj.t ext) : Obj.t Q :=
  flat_map
    (fun vw : string * ext =>
       match snd vw with
       | Fin q => if Obj.has g (fst vw) then [(fst vw, q)] else []
       | Inf => []
       end)
    adj.

(** The graph of these edges, in the format of [dijkstra]. *)
Definition timeGraph (g : Obj.t Router.GraphNode) : Helper.Graph :=
  map (fun kn => (fst kn, timeEdges g (Router.neighbors (snd kn)))) g.

(** A queue entry of [dijkstra] as a [[priority, value]] pair. *)
Definition entryItem (e : Helper.Entry) : RouterSearch.Item :=
  (Helper.entryDistance e, Helper.node e).

(** The state of the search of the full PathFinder matches a state of
    [dijkstra]: same distances, same links, and the same queue once sorted. *)
Definition Matches (h : Helper.Search) (s : RouterSearch.Search) : Prop :=
  RouterSearch.distances s = Helper.distances h
  /\ RouterSearch.previous s = Helper.previous h
  /\ RouterSearch.items s = map entryItem (Helper.sort (Helper.priorityQueue h)).

(** [smoothPath], which the full PathFinder and the booking screens each
    define with a line-of-sight test of their own. *)
Module Smoothing.
Section WithSight.
Variable isLineOfSight : Point -> Point -> bool.

(** [points[i]]; the loops only read indices below [points.length]. *)
Definition at_ (points : list Point) (i : nat) : Point :=
  nth i points {| latitude := 0; longitude := 0 |}.

(** The loop [for (let i = currentIndex + 2; i < points.length; i++)]. *)
Definition furthestVisible (points : list Point) (currentIndex : nat) : nat :=
  fold_left
    (fun furthestVisible i =>
       if isLineOfSight (at_ points currentIndex) (at_ points i)
       then i else furthestVisible)
    (seq (currentIndex + 2) (List.length points - (currentIndex + 2)))
    (currentIndex + 1)%nat.

(** The loop [while (currentIndex < points.length - 1)]. *)
Fixpoint smoothFrom (fuel : nat) (points : list Point) (currentIndex : nat)
  (smoothed : list Point) : Result (list Point) :=
  if (currentIndex <? List.length points - 1)%nat
  then
    match fuel with
    | O => OutOfFuel
    | S fuel' =>
        let furthest := furthestVisible points currentIndex in
        smoothFrom fuel' points furthest (smoothed ++ [at_ points furthest])
    end
  else Returned smoothed.

Definition smoothPath (fuel : nat) (points : list Point) : Result (list Point) :=
  if (List.length points <=? 2)%nat then Returned points
  else smoothFrom fuel points 0 [at_ points 0].
End WithSight.

(** [isLineOfSight] of the full PathFinder: closer than 50 metres. *)
Definition routerSight (calculateDistance : Point -> Point -> Q)
  (point1 point2 : Point) : bool :=
  Qltb (calculateDistance point1 point2) 50.

(** [isLineOfSight] of the booking screens: closer than 100 metres. *)
Definition screenSight (calculateDistance : Point -> Point -> Q)
  (point1 point2 : Point) : bool :=
  Qltb (calculateDistance point1 point2) 100.
End Smoothing.

(** What the loop has kept so far: the points at the indices [kept], which
    grow, start at [0] and end at the current index. *)
Definition Kept (points : list Point) (kept : list nat) (c : nat)
  (smoothed : list Point) : Prop :=
  smoothed = map (Smoothing.at_ points) kept
  /\ StronglySorted lt kept
  /\ hd_error kept = Some O
  /\ last kept O = c
  /\ (c < List.length points)%nat.

Module RouterFetch.

(** An entry of [osmCache]. *)
Record Cached : Type := { data : list Element; timestamp : Q }.

(** The PathFinder with its cache. *)
Record Instance : Type :=
  { finder : Router.PathFinder; osmCache : Obj.t Cached }.

(** 24 hours in milliseconds. *)
Definition CACHE_DURATION : Q := 24 * 60 * 60 * 1000.
Definition MAX_RETRIES : nat := 3.

(** [this.nodes = {}; this.osmNodes = {}; this.osmWays = {};
    this.isInitialized = false]. *)
Definition cleared : Router.PathFinder :=
  {| Router.nodes := []; Router.osmNodes := []; Router.osmWays := [];
     Router.isInitialized := false |}.

Section WithWorld.
Variable calculateDistance : Point -> Point -> Q.
(** The text of a number in a template literal. *)
Variable numberToString : Q -> string.
(** What the network answers to the attempt [retryCount], and what
    [Date.now()] is when that answer is put in the cache. *)
Variable respond : nat -> Fetch.
Variable clock : nat -> Q.

Definition cacheKey (center : Point) (radius : Q) : string :=
  numberToString (latitude center) ++ "," ++ numberToString (longitude center)
  ++ "," ++ numberToString radius.

(** The loop [while (retryCount < this.MAX_RETRIES)]; [left] counts the
    rounds that remain.  The result says whether the call resolved; it is
    [OutOfFuel] if [processOSMData] does not end. *)
Fixpoint attempts (left retryCount : nat) (inst : Instance)
  (cacheKey : string) : Result (Instance * bool) :=
  match left with
  | O => Returned (inst, true)
  | S left' =>
      match respond retryCount with
      | FetchOk elements =>
          let osmCache :=
            Obj.set (osmCache inst) cacheKey
              {| data := elements; timestamp := clock retryCount |} in
          match Router.processOSMData calculateDistance cleared elements with
          | Some st => Returned ({| finder := st; osmCache := osmCache |}, true)
          | None => OutOfFuel
          end
      | FetchFailed =>
          let inst := {| finder := cleared; osmCache := osmCache inst |} in
          if (S retryCount <? MAX_RETRIES)%nat
          then attempts left' (S retryCount) inst cacheKey
          else Returned (inst, false)
      end
  end.

(** [fetchRoadNetwork]; [now] is [Date.now()] when the cache is read. *)
Definition fetchRoadNetwork (inst : Instance) (now : Q) (center : Point)
  (radius : Q) : Result (Instance * bool) :=
  let cacheKey := cacheKey center radius in
  let fresh :=
    match Obj.get (osmCache inst) cacheKey with
    | Some cachedData =>
        if Qltb (now - timestamp cachedData) CACHE_DURATION
        then Some cachedData else None
    | None => None
    end in
  match fresh with
  | Some cachedData =>
      match Router.processOSMData calculateDistance (finder inst) (data cachedData) with
      | Some st => Returned ({| finder := st; osmCache := osmCache inst |}, true)
      | None => OutOfFuel
      end
  | None => attempts MAX_RETRIES 0 inst cacheKey
  end.
End WithWorld.
End RouterFetch.

(** A network that fails once and then answers with one two-way street. *)
Definition secondTry (retryCount : nat) : Fetch :=
  if (retryCount =? 0)%nat then FetchFailed else FetchOk twoWayStreet.

(** A network that is down. *)
Definition networkDown (retryCount : nat) : Fetch := FetchFailed.

(** A formatter of whole numbers. *)
Definition wholeNumber (q : Q) : string := keyOf (Qfloor q).

Definition emptyInstance : RouterFetch.Instance :=
  {| RouterFetch.finder := Router.create; RouterFetch.osmCache := [] |}.

(** The PathFinder with another value of [isInitialized]. *)
Definition flagged (b : bool) (st : Router.PathFinder) : Router.PathFinder :=
  {| Router.nodes := Router.nodes st; Router.osmNodes := Router.osmNodes st;
     Router.osmWays := Router.osmWays st; Router.isInitialized := b |}.

(** [findClosestPointIndex] of the booking screens. *)
Module Screen.
Section WithDistance.
Variable calculateDistance : Point -> Point -> Q.

(** The state of the loop: [minDistance], [closestIndex] and [i]. *)
Definition closer (point : Point) (acc : ext * nat * nat) (pathPoint : Point)
  : ext * nat * nat :=
  let '(minDistance, closestIndex, i) := acc in
  let distance := calculateDistance point pathPoint in
  if ext_ltb (Fin distance) minDistance
  then (Fin distance, i, S i)
  else (minDistance, closestIndex, S i).

Definition findClosestPointIndex (point : Point) (path : list Point) : nat :=
  snd (fst (fold_left (closer point) path (Inf, O, O))).
End WithDistance.
End Screen.

(** What the loop knows after the points [seen]. *)
Definition Closest (cd : Point -> Point -> Q) (point : Point)
  (seen : list Point) (acc : ext * nat * nat) : Prop :=
  snd acc = List.length seen
  /\ ((seen = [] /\ fst acc = (Inf, O))
      \/ exists c p,
           fst acc = (Fin (cd point p), c)
           /\ nth_error seen c = Some p
           /\ (forall j q, nth_error seen j = Some q -> cd point p <= cd point q)
           /\ (forall j q, (j < c)%nat -> nth_error seen j = Some q ->
                           cd point p < cd point q)).

(** [Leg g s k p W]: the list [p] runs from [s] to [k] along edges of the
    graph whose lengths add up to [W]. *)
Inductive Leg (g : Obj.t Legacy.GraphNode) (s : string)
  : string -> list string -> Q -> Prop :=
| Leg_here : Leg g s s [s] 0
| Leg_step (u k : string) (p : list string) (W w : Q) (n : Legacy.GraphNode) :
    Leg g s u p W -> Obj.get g u = Some n -> In (k, w) (Legacy.neighbors n) ->
    Leg g s k (p ++ [k]) (W + w).

(** Every edge has a length above zero. *)
Definition positive (g : Obj.t Legacy.GraphNode) : Prop :=
  forall u n v w,
    Obj.get g u = Some n -> In (v, w) (Legacy.neighbors n) -> 0 < w.

Definition positiveb (g : Obj.t Legacy.GraphNode) : bool :=
  forallb
    (fun kn : string * Legacy.GraphNode =>
       forallb (fun vw : string * Q => Qltb 0 (snd vw)) (Legacy.neighbors (snd kn)))
    g.

(** The invariant of the loop of [findShortestPath].  The visited nodes
    have their final distance; those of [relaxed] have had their edges
    examined. *)
Record Visiting (g : Obj.t Legacy.GraphNode) (start : string)
  (relaxed : list string) (s : Legacy.Search) : Prop :=
  { vis_dom : forall k,
      In k (Obj.keys g) <-> exists d, Obj.get (Legacy.distances s) k = Some d;
    vis_start :
      Obj.get (Legacy.distances s) start = Some (Fin 0)
      /\ Obj.get (Legacy.previous s) start = Some None;
    vis_nonneg : forall k q,
      Obj.get (Legacy.distances s) k = Some (Fin q) -> 0 <= q;
    vis_cover : forall k,
      In k (Obj.keys g) -> In k (Legacy.visited s) \/ In k (Legacy.unvisited s);
    vis_unvisited : forall k,
      In k (Legacy.unvisited s) ->
      In k (Obj.keys g) /\ ~ In k (Legacy.visited s);
    vis_visited : forall u, In u (Legacy.visited s) ->
      exists q, Obj.get (Legacy.distances s) u = Some (Fin q);
    vis_done : forall u, In u relaxed -> In u (Legacy.visited s);
    vis_relaxed : forall u q n v w,
      In u relaxed ->
      Obj.get (Legacy.distances s) u = Some (Fin q) ->
      Obj.get g u = Some n -> In (v, w) (Legacy.neighbors n) ->
      In v (Obj.keys g) ->
      exists d, Obj.get (Legacy.distances s) v = Some d /\ ext_le d (Fin (q + w));
    vis_min : forall u q k d,
      In u (Legacy.visited s) ->
      Obj.get (Legacy.distances s) u = Some (Fin q) ->
      In k (Legacy.unvisited s) ->
      Obj.get (Legacy.distances s) k = Some d -> ext_le (Fin q) d;
    vis_link : forall k u,
      Obj.get (Legacy.previous s) k = Some (Some u) ->
      In u (Legacy.visited s)
      /\ exists qu n w,
           Obj.get (Legacy.distances s) u = Some (Fin qu)
           /\ Obj.get g u = Some n /\ In (k, w) (Legacy.neighbors n)
           /\ Obj.get (Legacy.distances s) k = Some (Fin (qu + w));
    vis_chain : forall k q,
      Obj.get (Legacy.distances s) k = Some (Fin q) ->
      exists p, Chain (Legacy.previous s) (Legacy.visited s) start k p }.

(** The invariant inside the loop over the neighbors of [current], whose
    distance is [qc]. *)
Definition Relaxing (g : Obj.t Legacy.GraphNode) (start current : string) (qc : Q)
  (relaxed : list string) (s : Legacy.Search) : Prop :=
  Visiting g start relaxed s
  /\ In current (Legacy.visited s)
  /\ Obj.get (Legacy.distances s) current = Some (Fin qc)
  /\ (forall u q, In u (Legacy.visited s) ->
                  Obj.get (Legacy.distances s) u = Some (Fin q) -> q <= qc).

(** [isOneWayStreet(way.tags, way.tags.highway)], as [buildGraphFromOSM]
    calls it. *)
Definition wayIsOneWay (way : Router.OSMWay) : bool :=
  match Obj.get (Router.tags way) "highway" with
  | Some roadType => Router.isOneWayStreet (Router.tags way) roadType
  | None => false
  end.

(** The edge from [u] to [v] is a step of the way: forward along two
    consecutive nodes, or backward if the way is not one-way. *)
Definition stepOf (way : Router.OSMWay) (u v : string) : Prop :=
  exists a b,
    In (a, b) (segments (Router.wayNodes way))
    /\ ((u = Router.graphNodeId (keyOf a) /\ v = Router.graphNodeId (keyOf b))
        \/ (u = Router.graphNodeId (keyOf b) /\ v = Router.graphNodeId (keyOf a)
            /\ wayIsOneWay way = false)).

(** Every edge of the graph is a step of one of the ways. *)
Definition Sourced (ways : list Router.OSMWay) (g : Obj.t Router.GraphNode) : Prop :=
  forall u n v,
    Obj.get g u = Some n -> In v (Obj.keys (Router.neighbors n)) ->
    exists way, In way ways /\ stepOf way u v.

(** [calculateDistance] of the full PathFinder (the one of
    [utils/pathfinding.ts] is the same): the haversine formula, in metres.
    [Math.sin], [Math.cos], [Math.sqrt], [Math.atan2] and [Math.PI] belong
    to the runtime and are parameters. *)
Module Haversine.
Section WithMath.
Variables sin cos sqrt : Q -> Q.
Variable atan2 : Q -> Q -> Q.
Variable PI : Q.

Definition calculateDistance (point1 point2 : Point) : Q :=
  let R := 6371000 in
  let phi1 := latitude point1 * PI / 180 in
  let phi2 := latitude point2 * PI / 180 in
  let dphi := (latitude point2 - latitude point1) * PI / 180 in
  let dlambda := (longitude point2 - longitude point1) * PI / 180 in
  let a :=
    sin (dphi / 2) * sin (dphi / 2)
    + cos phi1 * cos phi2 * sin (dlambda / 2) * sin (dlambda / 2) in
  let c := 2 * atan2 (sqrt a) (sqrt (1 - a)) in
  R * c.
End WithMath.
End Haversine.

(** A rational [Math] to run examples with: [Math.PI] as 355/113, sine and
    cosine by the first terms of their series, one Newton step from 1 for
    the square root, and the quotient of its arguments for [atan2]. *)
Module RationalMath.
Definition PI : Q := 355 # 113.
Definition sin (x : Q) : Q := x - x * x * x / 6.
Definition cos (x : Q) : Q := 1 - x * x / 2.
Definition sqrt (x : Q) : Q := if Qle_bool x 0 then 0 else (x + 1) / 2.
Definition atan2 (y x : Q) : Q :=
  if Qle_bool x 0
  then (if Qle_bool 0 y then PI / 2 else - (PI / 2))
  else y / x.
Definition calculateDistance : Point -> Point -> Q :=
  Haversine.calculateDistance sin cos sqrt atan2 PI.
End RationalMath.

(** [this.nodes[u].neighbors[v]]. *)
Definition edgeWeight (g : Obj.t Router.GraphNode) (u v : string) : option ext :=
  match Obj.get g u with
  | Some node => Obj.get (Router.neighbors node) v
  | None => None
  end.

(** * Properties *)

(** ** Comparisons on rationals *)

Lemma Qle_bool_false (x y : Q) : Qle_bool x y = false -> y < x.
Proof.
  intros H. apply Qnot_le_lt. intros Hle.
  apply Qle_bool_iff in Hle. congruence.
Qed.

Lemma Qltb_true (x y : Q) : Qltb x y = true <-> x < y.
Proof.
  unfold Qltb. split; intros H.
  - apply negb_true_iff in H. now apply Qle_bool_false.
  - apply negb_true_iff. destruct (Qle_bool y x) eqn:E; trivial.
    apply Qle_bool_iff in E. lra.
Qed.

Lemma Qltb_false (x y : Q) : Qltb x y = false <-> y <= x.
Proof.
  unfold Qltb. rewrite negb_false_iff. apply Qle_bool_iff.
Qed.

Lemma Math_max_ge_r (a b : Q) : b <= Math_max a b.
Proof.
  unfold Math_max. destruct (Qle_bool a b) eqn:E.
  - lra.
  - apply Qle_bool_false in E. lra.
Qed.

Lemma Math_max_ge_l (a b : Q) : a <= Math_max a b.
Proof.
  unfold Math_max. destruct (Qle_bool a b) eqn:E.
  - now apply Qle_bool_iff.
  - lra.
Qed.

Lemma Math_max_l (a b : Q) : b <= a -> Math_max a b == a.
Proof.
  unfold Math_max. intros H. destruct (Qle_bool a b) eqn:E.
  - apply Qle_bool_iff in E. lra.
  - reflexivity.
Qed.

Lemma Math_max_mono (a a' b : Q) : a <= a' -> Math_max a b <= Math_max a' b.
Proof.
  intros H. unfold Math_max.
  destruct (Qle_bool a b) eqn:E1; destruct (Qle_bool a' b) eqn:E2;
    try apply Qle_bool_iff in E1; try apply Qle_bool_iff in E2;
    try apply Qle_bool_false in E1; try apply Qle_bool_false in E2; lra.
Qed.

Lemma Math_max_compat (a a' b : Q) : a == a' -> Math_max a b == Math_max a' b.
Proof.
  intros H. apply Qle_antisym; apply Math_max_mono; lra.
Qed.

(** ** Fares *)

Lemma calculateFare_piecewise (d : Q) :
  Fare.calculateFare d
  = Fare.piecewise Fare.BASE_FARE Fare.BASE_KM Fare.RATE_PER_KM d.
Proof. reflexivity. Qed.

Lemma calculateFare_ge_base (d : Q) : Fare.BASE_FARE <= Fare.calculateFare d.
Proof.
  unfold Fare.calculateFare, Fare.BASE_FARE, Fare.BASE_KM, Fare.RATE_PER_KM.
  destruct (Qle_bool d 1) eqn:E.
  - lra.
  - apply Qle_bool_false in E. lra.
Qed.

Lemma fareOfMeters_spec (baseFare perKmRate minimumFare d : Q) :
  0 <= d ->
  Fare.fareOfMeters baseFare perKmRate minimumFare (d * 1000)
  == Fare.fare_spec baseFare 0 perKmRate minimumFare d.
Proof.
  intros Hd. unfold Fare.fareOfMeters, Fare.fare_spec, Fare.piecewise.
  apply Math_max_compat.
  destruct (Qle_bool d 0) eqn:E.
  - apply Qle_bool_iff in E. assert (Hz : d == 0) by lra.
    rewrite Hz. field.
  - field.
Qed.

(** C2, as stated, fails on the fare table of [app/locationcommuter.tsx]:
    a trip of length zero costs the minimum fare, 70, and not the base
    fare, 50. *)
Lemma fare_of_zero_is_not_base_fare :
  Fare.LocationCommuter.fareOfMeters 0 == 70
  /\ ~ Fare.LocationCommuter.fareOfMeters 0 == Fare.LocationCommuter.baseFare.
Proof.
  split.
  - reflexivity.
  - intros H. vm_compute in H. discriminate.
Qed.

(** C2, amended: for every non-negative distance [d] in kilometres each
    fare function returns the piecewise value (the base fare up to the base
    distance, the base fare plus the rate times the excess beyond it)
    clamped from below to its minimum fare, so it is never below that
    minimum, and it is exactly the piecewise value whenever that value is
    at least the minimum.  [PathFinder.calculateFare] has base distance 1
    and no clamp of its own: its value is exactly the piecewise one and
    never below the base fare.  The screens' [calculateEstimatedFare] has
    base distance 0. *)
Theorem fare_is_clamped_piecewise (d : Q) :
  0 <= d ->
  (Fare.calculateFare d
   == Fare.piecewise Fare.BASE_FARE Fare.BASE_KM Fare.RATE_PER_KM d
   /\ Fare.calculateFare d
      == Fare.fare_spec Fare.BASE_FARE Fare.BASE_KM Fare.RATE_PER_KM Fare.BASE_FARE d
   /\ Fare.BASE_FARE <= Fare.calculateFare d)
  /\ (Fare.Part001.fareOfMeters (d * 1000)
      == Fare.fare_spec Fare.Part001.baseFare 0 Fare.Part001.perKmRate
           Fare.Part001.minimumFare d
      /\ Fare.Part001.fareOfMeters (d * 1000)
         == Fare.piecewise Fare.Part001.baseFare 0 Fare.Part001.perKmRate d
      /\ Fare.Part001.minimumFare <= Fare.Part001.fareOfMeters (d * 1000))
  /\ (Fare.LocationCommuter.fareOfMeters (d * 1000)
      == Fare.fare_spec Fare.LocationCommuter.baseFare 0
           Fare.LocationCommuter.perKmRate Fare.LocationCommuter.minimumFare d
      /\ (Fare.LocationCommuter.minimumFare
          <= Fare.piecewise Fare.LocationCommuter.baseFare 0
               Fare.LocationCommuter.perKmRate d ->
          Fare.LocationCommuter.fareOfMeters (d * 1000)
          == Fare.piecewise Fare.LocationCommuter.baseFare 0
               Fare.LocationCommuter.perKmRate d)
      /\ Fare.LocationCommuter.minimumFare
         <= Fare.LocationCommuter.fareOfMeters (d * 1000)).
Proof.
  intros Hd.
  split; [split; [| split] | split; [split; [| split] | split; [| split]]].
  - rewrite calculateFare_piecewise. reflexivity.
  - rewrite calculateFare_piecewise. unfold Fare.fare_spec.
    symmetry. apply Math_max_l.
    rewrite <- calculateFare_piecewise. apply calculateFare_ge_base.
  - apply calculateFare_ge_base.
  - now apply fareOfMeters_spec.
  - unfold Fare.Part001.fareOfMeters.
    rewrite fareOfMeters_spec by assumption.
    unfold Fare.fare_spec. apply Math_max_l.
    unfold Fare.piecewise, Fare.Part001.minimumFare, Fare.Part001.baseFare,
      Fare.Part001.perKmRate.
    destruct (Qle_bool d 0); nra.
  - apply Math_max_ge_r.
  - now apply fareOfMeters_spec.
  - intros Hmin. unfold Fare.LocationCommuter.fareOfMeters.
    rewrite fareOfMeters_spec by assumption.
    unfold Fare.fare_spec. now apply Math_max_l.
  - apply Math_max_ge_r.
Qed.

Lemma fare_is_clamped_piecewise_witness :
  Fare.calculateFare 3 == 37
  /\ Fare.Part001.fareOfMeters (3 * 1000) == 30
  /\ Fare.LocationCommuter.fareOfMeters (3 * 1000) == 95.
Proof.
  assert (H3 : 0 <= 3) by (vm_compute; discriminate).
  destruct (fare_is_clamped_piecewise H3) as [[Ha _] [[_ [Hb _]] [Hc _]]].
  split; [| split].
  - rewrite Ha. reflexivity.
  - rewrite Hb. reflexivity.
  - rewrite Hc. reflexivity.
Defined.

Lemma fareOfMeters_mono (baseFare perKmRate minimumFare d1 d2 : Q) :
  0 <= perKmRate -> d1 <= d2 ->
  Fare.fareOfMeters baseFare perKmRate minimumFare d1
  <= Fare.fareOfMeters baseFare perKmRate minimumFare d2.
Proof.
  intros Hr H. unfold Fare.fareOfMeters. apply Math_max_mono.
  assert (Hk : d1 / 1000 <= d2 / 1000).
  { apply Qmult_le_compat_r; [exact H | vm_compute; discriminate]. }
  nra.
Qed.

(** C9: the fare is monotone in the distance, for [PathFinder.calculateFare]
    (kilometres) and for the screens' fare of a distance in metres. *)
Theorem fare_monotone (d1 d2 : Q) :
  d1 <= d2 ->
  Fare.calculateFare d1 <= Fare.calculateFare d2
  /\ Fare.Part001.fareOfMeters d1 <= Fare.Part001.fareOfMeters d2
  /\ Fare.LocationCommuter.fareOfMeters d1 <= Fare.LocationCommuter.fareOfMeters d2.
Proof.
  intros H. split; [| split].
  - unfold Fare.calculateFare, Fare.BASE_FARE, Fare.BASE_KM, Fare.RATE_PER_KM.
    destruct (Qle_bool d1 1) eqn:E1; destruct (Qle_bool d2 1) eqn:E2;
      try apply Qle_bool_iff in E1; try apply Qle_bool_iff in E2;
      try apply Qle_bool_false in E1; try apply Qle_bool_false in E2; lra.
  - apply fareOfMeters_mono; [vm_compute; discriminate | exact H].
  - apply fareOfMeters_mono; [vm_compute; discriminate | exact H].
Qed.

Lemma fare_monotone_witness :
  (1 # 2) <= 3
  /\ Fare.calculateFare (1 # 2) <= Fare.calculateFare 3
  /\ Fare.Part001.fareOfMeters (1 # 2) <= Fare.Part001.fareOfMeters 3
  /\ Fare.LocationCommuter.fareOfMeters (1 # 2)
     <= Fare.LocationCommuter.fareOfMeters 3.
Proof.
  assert (H : (1 # 2) <= 3) by (vm_compute; discriminate).
  split; [exact H | exact (fare_monotone H)].
Defined.

(** ** Objects *)

Section ObjFacts.
Variable V : Type.
Implicit Types (o : Obj.t V) (k : string) (v : V).

Lemma get_set_eq o k v : Obj.get (Obj.set o k v) k = Some v.
Proof.
  induction o as [| [k' v'] r IH]; simpl.
  - now rewrite String.eqb_refl.
  - destruct (String.eqb k' k) eqn:E; simpl.
    + now rewrite E.
    + destruct (before k k'); simpl.
      * now rewrite String.eqb_refl.
      * now rewrite E.
Qed.

Lemma get_set_neq o k k' v : k <> k' -> Obj.get (Obj.set o k v) k' = Obj.get o k'.
Proof.
  intros Hk. induction o as [| [k0 v0] r IH]; simpl.
  - apply String.eqb_neq in Hk. now rewrite Hk.
  - destruct (String.eqb k0 k) eqn:E; simpl.
    + apply String.eqb_eq in E. subst k0.
      apply String.eqb_neq in Hk. now rewrite Hk.
    + destruct (before k k0); simpl.
      * apply String.eqb_neq in Hk. now rewrite Hk.
      * now rewrite IH.
Qed.

Lemma get_In o k v : Obj.get o k = Some v -> In (k, v) o.
Proof.
  induction o as [| [k' v'] r IH]; simpl; [discriminate |].
  destruct (String.eqb k' k) eqn:E.
  - apply String.eqb_eq in E. intros [= ->]. subst. now left.
  - intros H. right. now apply IH.
Qed.

Lemma get_keys o k v : Obj.get o k = Some v -> In k (Obj.keys o).
Proof.
  intros H. apply get_In in H. unfold Obj.keys.
  change k with (fst (k, v)). now apply in_map.
Qed.

Lemma keys_get o k : In k (Obj.keys o) -> exists v, Obj.get o k = Some v.
Proof.
  induction o as [| [k' v'] r IH]; simpl; [tauto |].
  intros [-> | H].
  - rewrite String.eqb_refl. eauto.
  - destruct (String.eqb k' k); eauto.
Qed.

Lemma get_None_keys o k : Obj.get o k = None <-> ~ In k (Obj.keys o).
Proof.
  split.
  - intros H Hin. apply keys_get in Hin as [v Hv]. congruence.
  - intros H. destruct (Obj.get o k) eqn:E; trivial.
    apply get_keys in E. contradiction.
Qed.

Lemma has_true o k : Obj.has o k = true <-> In k (Obj.keys o).
Proof.
  unfold Obj.has. split.
  - destruct (Obj.get o k) eqn:E; [| discriminate].
    intros _. eapply get_keys; eauto.
  - intros H. apply keys_get in H as [v ->]. reflexivity.
Qed.

Lemma set_nonempty o k v : Obj.set o k v <> [].
Proof.
  destruct o as [| [k' v'] r]; simpl; [discriminate |].
  destruct (String.eqb k' k); [discriminate |].
  destruct (before k k'); discriminate.
Qed.

Lemma keys_set o k v x :
  In x (Obj.keys (Obj.set o k v)) <-> x = k \/ In x (Obj.keys o).
Proof.
  split.
  - intros H. apply keys_get in H as [w Hw].
    destruct (String.eqb k x) eqn:E.
    + apply String.eqb_eq in E. now left.
    + apply String.eqb_neq in E. rewrite get_set_neq in Hw by assumption.
      right. eapply get_keys; eauto.
  - intros [-> | H].
    + eapply get_keys. apply get_set_eq.
    + apply keys_get in H as [w Hw].
      destruct (String.eqb k x) eqn:E.
      * apply String.eqb_eq in E. subst. eapply get_keys. apply get_set_eq.
      * apply String.eqb_neq in E. eapply get_keys.
        rewrite get_set_neq by assumption. eauto.
Qed.

Lemma In_remove o k kv : In kv (Obj.remove o k) -> In kv o.
Proof.
  induction o as [| [k' v'] r IH]; simpl; [tauto |].
  destruct (String.eqb k' k); simpl; intuition.
Qed.

Lemma In_remove_neq o k x v : In (x, v) o -> x <> k -> In (x, v) (Obj.remove o k).
Proof.
  induction o as [| [k' v'] r IH]; simpl; [tauto |].
  intros [H | H] Hx.
  - inversion H; subst. apply String.eqb_neq in Hx. rewrite Hx. now left.
  - destruct (String.eqb k' k); [assumption |]. right. now apply IH.
Qed.
End ObjFacts.

Lemma mem_In (k : string) (l : list string) : mem k l = true <-> In k l.
Proof.
  unfold mem. rewrite existsb_exists. split.
  - intros [x [Hx E]]. apply String.eqb_eq in E. now subst.
  - intros H. exists k. split; [assumption | apply String.eqb_refl].
Qed.

Lemma mem_false (k : string) (l : list string) : mem k l = false <-> ~ In k l.
Proof.
  rewrite <- mem_In. destruct (mem k l); split; congruence.
Qed.

(** ** Speed limits and edge weights (full PathFinder) *)

Lemma defaultSpeed_pos (k : string) : 0 < Router.defaultSpeed k.
Proof.
  unfold Router.defaultSpeed.
  destruct (Obj.get Router.DEFAULT_SPEEDS k) as [v |] eqn:E.
  - apply get_In in E. simpl in E.
    repeat (destruct E as [E | E]; [inversion E; subst; reflexivity |]).
    contradiction.
  - reflexivity.
Qed.

(** [getSpeedLimit] never returns a speed that is zero or negative. *)
Lemma getSpeedLimit_pos (tags : Router.Tags) : 0 < Router.getSpeedLimit tags.
Proof.
  unfold Router.getSpeedLimit.
  destruct (truthy (Obj.get tags "maxspeed")); [| apply defaultSpeed_pos].
  destruct (Obj.get tags "maxspeed") as [s |]; [| apply defaultSpeed_pos].
  destruct (parseInt s) as [speed |]; [| apply defaultSpeed_pos].
  destruct (0 <? speed)%Z eqn:E; [| apply defaultSpeed_pos].
  apply Z.ltb_lt in E. unfold Qlt. simpl. lia.
Qed.

Lemma checked_div_nonzero (a b : Q) :
  ~ b == 0 -> Router.checked_div a b = Some (a / b).
Proof.
  intros H. unfold Router.checked_div.
  destruct (Qeq_bool b 0) eqn:E; trivial.
  apply Qeq_bool_iff in E. contradiction.
Qed.

Lemma segmentWeight_stop (speedLimit distance : Q) :
  Router.effectiveSpeedMps speedLimit <= 0 ->
  Router.segmentWeight speedLimit distance = Some Inf.
Proof.
  intros H. unfold Router.segmentWeight.
  apply Qltb_false in H. now rewrite H.
Qed.

Lemma segmentWeight_go (speedLimit distance : Q) :
  0 < Router.effectiveSpeedMps speedLimit ->
  Router.segmentWeight speedLimit distance
  = Some (Fin (distance / Router.effectiveSpeedMps speedLimit)).
Proof.
  intros H. unfold Router.segmentWeight.
  pose proof H as Hb. apply Qltb_true in Hb. rewrite Hb.
  rewrite checked_div_nonzero; [reflexivity | lra].
Qed.

Lemma segmentWeight_defined (speedLimit distance : Q) :
  exists w, Router.segmentWeight speedLimit distance = Some w.
Proof.
  destruct (Qlt_le_dec 0 (Router.effectiveSpeedMps speedLimit)) as [H | H].
  - rewrite segmentWeight_go by assumption. eauto.
  - rewrite segmentWeight_stop by assumption. eauto.
Qed.

Lemma segmentWeight_nonneg (speedLimit distance : Q) (w : ext) :
  0 <= distance ->
  Router.segmentWeight speedLimit distance = Some w -> ext_le (Fin 0) w.
Proof.
  intros Hd. destruct (Qlt_le_dec 0 (Router.effectiveSpeedMps speedLimit)) as [H | H].
  - rewrite segmentWeight_go by assumption. intros [= <-].
    unfold ext_le, ext_leb. apply Qle_bool_iff.
    apply Qle_shift_div_l; [assumption | lra].
  - rewrite segmentWeight_stop by assumption. intros [= <-]. reflexivity.
Qed.

(** ** Nodes and edges (full PathFinder) *)

Lemma Router_addNode_existing (st : Router.PathFinder) (id : string) (p : Point) :
  In id (Obj.keys (Router.nodes st)) -> Router.addNode st id p = st.
Proof.
  intros H. apply keys_get in H as [n Hn].
  unfold Router.addNode. now rewrite Hn.
Qed.

Lemma Router_addEdge_from (st : Router.PathFinder) (x y : string) (w : ext)
  (nx ny : Router.GraphNode) :
  Obj.get (Router.nodes st) x = Some nx ->
  Obj.get (Router.nodes st) y = Some ny ->
  exists nx',
    Obj.get (Router.nodes (Router.addEdge st x y w)) x = Some nx'
    /\ Router.point nx' = Router.point nx
    /\ Obj.get (Router.neighbors nx') y = Some w
    /\ forall z, z <> y ->
         Obj.get (Router.neighbors nx') z = Obj.get (Router.neighbors nx) z.
Proof.
  intros Hx Hy. unfold Router.addEdge. rewrite Hx, Hy. simpl.
  eexists. split; [apply get_set_eq |]. simpl.
  split; [reflexivity |]. split; [apply get_set_eq |].
  intros z Hz. apply get_set_neq. congruence.
Qed.

Lemma Router_addEdge_other (st : Router.PathFinder) (x y z : string) (w : ext) :
  z <> x ->
  Obj.get (Router.nodes (Router.addEdge st x y w)) z = Obj.get (Router.nodes st) z.
Proof.
  intros Hz. unfold Router.addEdge.
  destruct (Obj.get (Router.nodes st) x) as [nx |]; trivial.
  destruct (Obj.get (Router.nodes st) y) as [ny |]; trivial.
  simpl. apply get_set_neq. congruence.
Qed.

Lemma Router_addEdge_osmNodes (st : Router.PathFinder) (x y : string) (w : ext) :
  Router.osmNodes (Router.addEdge st x y w) = Router.osmNodes st.
Proof.
  unfold Router.addEdge.
  destruct (Obj.get (Router.nodes st) x); trivial.
  destruct (Obj.get (Router.nodes st) y); trivial.
Qed.

Lemma addSegment_forward (st : Router.PathFinder)
  (isOneWay : bool) (x y : string) (w : ext) (nx ny : Router.GraphNode) :
  Obj.get (Router.nodes st) x = Some nx ->
  Obj.get (Router.nodes st) y = Some ny ->
  exists nx',
    Obj.get
      (Router.nodes
         (if isOneWay then Router.addEdge st x y w
          else Router.addEdge (Router.addEdge st x y w) y x w)) x = Some nx'
    /\ Obj.get (Router.neighbors nx') y = Some w.
Proof.
  intros Hx Hy.
  destruct (Router_addEdge_from st x y w Hx Hy) as [nx1 [H1 [_ [H1w _]]]].
  destruct isOneWay; [eauto |].
  destruct (String.eqb y x) eqn:E.
  - apply String.eqb_eq in E. subst y.
    destruct (Router_addEdge_from (Router.addEdge st x x w) x x w H1 H1)
      as [nx2 [H2 [_ [H2w _]]]].
    eauto.
  - apply String.eqb_neq in E.
    rewrite Router_addEdge_other by congruence. eauto.
Qed.

(** ** Re-adding a node *)

(** The [addNode] of [utils/pathfinding.ts] stores a fresh node whatever the
    graph held for the id. *)
Lemma Legacy_addNode_resets (st : Legacy.PathFinder) (id : string) (p : Point) :
  Obj.get (Legacy.nodes (Legacy.addNode st id p)) id
  = Some {| Legacy.id := id; Legacy.point := p; Legacy.neighbors := [] |}.
Proof. unfold Legacy.addNode. simpl. apply get_set_eq. Qed.

(** C8 at a failing input: in the graph of one two-way street, re-adding
    [osm_1] with the [addNode] of [utils/pathfinding.ts] moves the node to
    the new point and clears its neighbor map; the [addNode] of the full
    PathFinder leaves the same graph as it is. *)
Theorem Legacy_addNode_overwrites :
  legacyAdjacency (legacyOn twoWayStreet)
  = [("osm_1", ["osm_2"]); ("osm_2", ["osm_1"])]
  /\ legacyAdjacency (Legacy.addNode (legacyOn twoWayStreet) "osm_1" (mkPoint 5 5))
     = [("osm_1", []); ("osm_2", ["osm_1"])]
  /\ option_map Legacy.point (Obj.get (Legacy.nodes (legacyOn twoWayStreet)) "osm_1")
     = Some (mkPoint 0 0)
  /\ option_map Legacy.point
       (Obj.get
          (Legacy.nodes (Legacy.addNode (legacyOn twoWayStreet) "osm_1" (mkPoint 5 5)))
          "osm_1")
     = Some (mkPoint 5 5)
  /\ (forall cd,
        option_map (fun st => Router.addNode st "osm_1" (mkPoint 5 5))
          (routerOn cd twoWayStreet)
        = routerOn cd twoWayStreet).
Proof.
  repeat split; intros; vm_compute; reflexivity.
Qed.

(** ** One-way streets *)

Lemma is_str_true (s : option string) (v : string) :
  is_str s v = true <-> s = Some v.
Proof.
  destruct s as [x |]; simpl.
  - rewrite String.eqb_eq. split; congruence.
  - split; discriminate.
Qed.

(** The one-way rule of the full PathFinder. *)
Lemma isOneWayStreet_iff (tags : Router.Tags) (roadType : string) :
  Router.isOneWayStreet tags roadType = true
  <-> Obj.get tags "oneway" = Some "yes"
      \/ Obj.get tags "junction" = Some "roundabout"
      \/ roadType = "motorway" \/ roadType = "motorway_link".
Proof.
  unfold Router.isOneWayStreet.
  rewrite !orb_true_iff, !is_str_true, mem_In. simpl. intuition.
Qed.

(** The edges one segment adds in the full PathFinder: the forward edge
    always, the backward edge, with the same weight, unless the way is
    one-way, in which case the backward direction stays as it was. *)
Lemma addSegment_directions (st : Router.PathFinder) (isOneWay : bool)
  (x y : string) (w : ext) (nx ny : Router.GraphNode) :
  x <> y ->
  Obj.get (Router.nodes st) x = Some nx ->
  Obj.get (Router.nodes st) y = Some ny ->
  let st' := if isOneWay then Router.addEdge st x y w
             else Router.addEdge (Router.addEdge st x y w) y x w in
  exists nx' ny',
    Obj.get (Router.nodes st') x = Some nx'
    /\ Obj.get (Router.nodes st') y = Some ny'
    /\ Obj.get (Router.neighbors nx') y = Some w
    /\ Obj.get (Router.neighbors ny') x
       = if isOneWay then Obj.get (Router.neighbors ny) x else Some w.
Proof.
  intros Hxy Hx Hy st'.
  destruct (Router_addEdge_from st x y w Hx Hy) as [nx1 [H1 [_ [H1w _]]]].
  assert (Hy1 : Obj.get (Router.nodes (Router.addEdge st x y w)) y = Some ny).
  { rewrite Router_addEdge_other by congruence. exact Hy. }
  subst st'. destruct isOneWay.
  - exists nx1, ny. auto.
  - destruct (Router_addEdge_from (Router.addEdge st x y w) y x w Hy1 H1)
      as [ny2 [H2 [_ [H2w _]]]].
    exists nx1, ny2. split; [| auto].
    rewrite Router_addEdge_other by congruence. exact H1.
Qed.

(** C6 at a failing input: a motorway segment from node 1 to node 2 that
    carries no [oneway] tag.  The full PathFinder infers that it is one-way
    and adds the forward edge only; the [buildGraph] of the dijkstra-helper
    variant, which looks at the [oneway] tag alone, adds both directions. *)
Theorem Helper_motorway_gets_both_directions :
  Router.isOneWayStreet motorway "motorway" = true
  /\ Helper.isOneWay
       {| Helper.wayId := 10; Helper.wayNodes := [1; 2]%Z;
          Helper.tags := Some motorway |} = false
  /\ (forall cd,
        option_map routerAdjacency (routerOn cd motorwaySegment)
        = Some [("osm_1", ["osm_2"]); ("osm_2", [])])
  /\ helperAdjacency (helperOn motorwaySegment) = [("1", ["2"]); ("2", ["1"])].
Proof.
  repeat split; intros; vm_compute; reflexivity.
Qed.

(** ** The connectivity pass at two inputs *)

(** C3 at a failing input: the node with the smallest id lies on no road.
    The traversal starts from it, reaches nothing else, and the pass
    deletes the road and keeps the stray node, which has no edge. *)
Theorem stray_start_node_survives (cd : Point -> Point -> Q) :
  routerAdjacency
    (Router.addWays cd
       (Router.addOsmNodes
          (fold_left Router.processElement strayFirstNode Router.create)))
  = [("osm_1", []); ("osm_2", ["osm_3"]); ("osm_3", ["osm_2"])]
  /\ option_map routerAdjacency (routerOn cd strayFirstNode)
     = Some [("osm_1", [])].
Proof.
  split; vm_compute; reflexivity.
Qed.

(** C5 at a failing input: a single one-way street from node 1 to node 2.
    The [buildGraph] of the dijkstra-helper variant drops node 2, which has
    no neighbor of its own, and keeps it in the neighbor list of node 1;
    every later [findShortestPath] throws on it.  The full PathFinder keeps
    both nodes, the second with no neighbor. *)
Theorem Helper_one_way_leaves_dangling_neighbor :
  helperAdjacency (helperOn oneWayStreet) = [("1", ["2"])]
  /\ Obj.has (Helper.nodes (helperOn oneWayStreet)) "2" = false
  /\ (forall hav bearing fuel,
        Helper.findShortestPath hav bearing fuel (helperOn oneWayStreet) "1" "1"
        = Threw)
  /\ (forall cd,
        option_map routerAdjacency (routerOn cd oneWayStreet)
        = Some [("osm_1", ["osm_2"]); ("osm_2", [])]).
Proof.
  repeat split; intros; vm_compute; reflexivity.
Qed.

(** ** The traversal of the connectivity pass ends *)

Section Traversal.
Variable g : Obj.t Router.GraphNode.

Let U : list string := Router.universe g.
Let N : nat := List.length (nodup string_dec U).

Lemma visited_bound (visited : list string) :
  NoDup visited -> incl visited U -> (List.length visited <= N)%nat.
Proof.
  intros Hnd Hin. unfold N. apply NoDup_incl_length; [assumption |].
  intros x Hx. apply nodup_In. now apply Hin.
Qed.

Lemma neighbors_in_universe (k : string) (n : Router.GraphNode) :
  Obj.get g k = Some n -> incl (Obj.keys (Router.neighbors n)) U.
Proof.
  intros H x Hx. unfold U, Router.universe. apply in_or_app. right.
  apply in_flat_map. exists n. split; [| assumption].
  apply get_In in H. unfold Obj.values.
  change n with (snd (k, n)). now apply in_map.
Qed.

Lemma visitNeighbors_spec (ids visited queue : list string) :
  NoDup visited -> incl queue visited -> incl visited U -> incl ids U ->
  let vq := Router.visitNeighbors ids (visited, queue) in
  NoDup (fst vq) /\ incl (snd vq) (fst vq) /\ incl (fst vq) U
  /\ incl visited (fst vq) /\ incl ids (fst vq)
  /\ (forall x, In x (fst vq) -> In x visited \/ In x ids)
  /\ (List.length (snd vq) + List.length visited
      = List.length queue + List.length (fst vq))%nat.
Proof.
  revert visited queue. induction ids as [| i ids IH]; intros visited queue Hnd Hq Hv Hi.
  - simpl. repeat split; auto using incl_refl. intros x Hx; contradiction.
  - unfold Router.visitNeighbors. simpl fold_left.
    assert (HiU : In i U) by (apply Hi; now left).
    assert (Hids : incl ids U) by (intros x Hx; apply Hi; now right).
    destruct (mem i visited) eqn:E.
    + apply mem_In in E.
      destruct (IH visited queue Hnd Hq Hv Hids) as [A [B [C [D [F [G H]]]]]].
      unfold Router.visitNeighbors in *.
      repeat split; auto.
      * intros x [<- | Hx]; [now apply D | now apply F].
      * intros x Hx. destruct (G x Hx); [now left | right; now right].
    + apply mem_false in E.
      assert (Hnd' : NoDup (visited ++ [i])).
      { apply NoDup_app; [assumption | repeat constructor; simpl; tauto |].
        intros x Hx [<- | []]. contradiction. }
      assert (Hq' : incl (queue ++ [i]) (visited ++ [i])).
      { intros x Hx. apply in_app_or in Hx as [Hx | Hx]; apply in_or_app;
          [left; now apply Hq | now right]. }
      assert (Hv' : incl (visited ++ [i]) U).
      { intros x Hx. apply in_app_or in Hx as [Hx | [<- | []]]; auto. }
      destruct (IH (visited ++ [i]) (queue ++ [i]) Hnd' Hq' Hv' Hids)
        as [A [B [C [D [F [G H]]]]]].
      unfold Router.visitNeighbors in *.
      repeat split; auto.
      * intros x Hx. apply D. apply in_or_app. now left.
      * intros x [<- | Hx]; [apply D; apply in_or_app; right; now left | now apply F].
      * intros x Hx. destruct (G x Hx) as [Hx' | Hx'].
        -- apply in_app_or in Hx' as [Hx' | [<- | []]]; [now left | right; now left].
        -- right. now right.
      * rewrite !length_app in H. simpl in H. lia.
Qed.

(** With more fuel than the nodes left to visit and the queue together,
    the loop ends; everything visited before is still visited. *)
Lemma traverse_ends (fuel : nat) (visited queue : list string) :
  NoDup visited -> incl queue visited -> incl visited U ->
  (List.length queue + (N - List.length visited) < fuel)%nat ->
  exists visited',
    Router.traverse fuel g visited queue = Some visited'
    /\ incl visited visited' /\ incl visited' U.
Proof.
  revert visited queue.
  induction fuel as [| fuel IH]; intros visited queue Hnd Hq Hv Hfuel; [lia |].
  destruct queue as [| currentId rest]; simpl.
  - exists visited. auto using incl_refl.
  - assert (Hrest : incl rest visited) by (intros x Hx; apply Hq; now right).
    destruct (Obj.get g currentId) as [currentNode |] eqn:E.
    + pose proof (visitNeighbors_spec Hnd Hrest Hv (neighbors_in_universe _ E))
        as [A [B [C [D [_ [_ H]]]]]].
      destruct (Router.visitNeighbors (Obj.keys (Router.neighbors currentNode))
                  (visited, rest)) as [visited' queue'].
      simpl in *.
      pose proof (visited_bound A C). pose proof (visited_bound Hnd Hv).
      destruct (IH visited' queue' A B C) as [v [Hv1 [Hv2 Hv3]]]; [lia |].
      exists v. split; [assumption |]. split; [| assumption].
      intros x Hx. apply Hv2. now apply D.
    + apply IH; auto. simpl in Hfuel. lia.
Qed.
End Traversal.

Lemma keys_remove_neq (V : Type) (o : Obj.t V) (k id : string) :
  In k (Obj.keys o) -> k <> id -> In k (Obj.keys (Obj.remove o id)).
Proof.
  induction o as [| [k' v'] r IH]; simpl; [tauto |].
  intros [-> | H] Hk.
  - apply String.eqb_neq in Hk. rewrite Hk. now left.
  - destruct (String.eqb k' id); [assumption |]. right. now apply IH.
Qed.

Lemma keys_removeIsolated (g : Obj.t Router.GraphNode) (id : string) :
  Obj.keys (Router.removeIsolated g id) = Obj.keys (Obj.remove g id).
Proof.
  unfold Router.removeIsolated, Obj.keys. rewrite map_map. reflexivity.
Qed.

Lemma removeIsolated_keeps (ids : list string) (g : Obj.t Router.GraphNode)
  (k : string) :
  In k (Obj.keys g) -> ~ In k ids ->
  In k (Obj.keys (fold_left Router.removeIsolated ids g)).
Proof.
  revert g. induction ids as [| i ids IH]; intros g Hk Hn; simpl; [assumption |].
  apply IH.
  - rewrite keys_removeIsolated. apply keys_remove_neq; [assumption |].
    intros ->. apply Hn. now left.
  - intros H. apply Hn. now right.
Qed.

(** The pass always ends, touches the graph only, and keeps the node the
    traversal started from. *)
Lemma validateGraphConnectivity_total (st : Router.PathFinder) :
  exists st',
    Router.validateGraphConnectivity st = Some st'
    /\ Router.osmNodes st' = Router.osmNodes st
    /\ Router.osmWays st' = Router.osmWays st
    /\ Router.isInitialized st' = Router.isInitialized st
    /\ (Router.nodes st <> [] -> Router.nodes st' <> []).
Proof.
  unfold Router.validateGraphConnectivity, Router.validateGraphConnectivityIn.
  destruct (Obj.keys (Router.nodes st)) as [| startNodeId more] eqn:Ek.
  - exists st. auto.
  - destruct (String.eqb startNodeId ""); [exists st; auto |].
    assert (Hstart : In startNodeId (Router.universe (Router.nodes st))).
    { unfold Router.universe. apply in_or_app. left. rewrite Ek. now left. }
    destruct (@traverse_ends (Router.nodes st)
                (S (List.length (Router.universe (Router.nodes st))))
                [startNodeId] [startNodeId])
      as [visited [Ht [Hin _]]].
    + repeat constructor. simpl. tauto.
    + apply incl_refl.
    + intros x [<- | []]. assumption.
    + simpl.
      assert (List.length (nodup string_dec (Router.universe (Router.nodes st)))
              <= List.length (Router.universe (Router.nodes st)))%nat.
      { apply NoDup_incl_length; [apply NoDup_nodup |].
        intros x Hx. now apply nodup_In in Hx. }
      assert (0 < List.length (Router.universe (Router.nodes st)))%nat.
      { destruct (Router.universe (Router.nodes st)); [contradiction | simpl; lia]. }
      lia.
    + rewrite Ht. eexists. split; [reflexivity |].
      unfold Router.withNodes.
      cbn [Router.osmNodes Router.osmWays Router.isInitialized Router.nodes].
      repeat split; trivial. intros _ Hnil.
      assert (Hk : In startNodeId
                     (Obj.keys
                        (fold_left Router.removeIsolated
                           (filter (fun id => negb (mem id visited))
                              (startNodeId :: more))
                           (Router.nodes st)))).
      { apply removeIsolated_keeps.
        - rewrite Ek. now left.
        - intros Hf. apply filter_In in Hf as [_ Hf].
          apply negb_true_iff, mem_false in Hf. apply Hf, Hin. now left. }
      rewrite Hnil in Hk. contradiction.
Qed.

(** ** The shape of a built graph (full PathFinder) *)

Lemma same_tables_refl (st : Router.PathFinder) : same_tables st st.
Proof. unfold same_tables. tauto. Qed.

Lemma same_tables_trans (a b c : Router.PathFinder) :
  same_tables a b -> same_tables b c -> same_tables a c.
Proof.
  unfold same_tables. intros [A1 [A2 [A3 A4]]] [B1 [B2 [B3 B4]]].
  repeat split; try congruence; tauto.
Qed.

Lemma same_tables_fold (A : Type) (f : Router.PathFinder -> A -> Router.PathFinder)
  (l : list A) (st : Router.PathFinder) :
  (forall s a, same_tables s (f s a)) -> same_tables st (fold_left f l st).
Proof.
  intros Hf. revert st. induction l as [| a l IH]; intros st; simpl.
  - apply same_tables_refl.
  - eapply same_tables_trans; [apply Hf | apply IH].
Qed.

Lemma addEdge_same_tables (st : Router.PathFinder) (x y : string) (w : ext) :
  same_tables st (Router.addEdge st x y w).
Proof.
  unfold Router.addEdge.
  destruct (Obj.get (Router.nodes st) x) as [nx |] eqn:Ex;
    [| apply same_tables_refl].
  destruct (Obj.get (Router.nodes st) y) as [ny |]; [| apply same_tables_refl].
  unfold same_tables. simpl. repeat split; trivial.
  - intros H. now apply set_nonempty in H.
  - intros H. rewrite H in Ex. discriminate.
Qed.

Lemma addSegment_same_tables (cd : Point -> Point -> Q) (speedLimit : Q)
  (isOneWay : bool) (st : Router.PathFinder) (seg : Z * Z) :
  same_tables st (Router.addSegment cd speedLimit isOneWay st seg).
Proof.
  unfold Router.addSegment.
  destruct (Obj.get (Router.osmNodes st) (keyOf (fst seg)));
    [| apply same_tables_refl].
  destruct (Obj.get (Router.osmNodes st) (keyOf (snd seg)));
    [| apply same_tables_refl].
  destruct (Obj.get (Router.nodes st) (Router.graphNodeId (keyOf (fst seg))));
    [| apply same_tables_refl].
  destruct (Obj.get (Router.nodes st) (Router.graphNodeId (keyOf (snd seg))));
    [| apply same_tables_refl].
  destruct isOneWay.
  - apply addEdge_same_tables.
  - eapply same_tables_trans; apply addEdge_same_tables.
Qed.

Lemma addWays_same_tables (cd : Point -> Point -> Q) (st : Router.PathFinder) :
  same_tables st (Router.addWays cd st).
Proof.
  unfold Router.addWays. apply same_tables_fold. intros s way.
  unfold Router.addWay.
  destruct (truthy (Obj.get (Router.tags way) "highway"));
    [| apply same_tables_refl].
  destruct (Obj.get (Router.tags way) "highway"); [| apply same_tables_refl].
  apply same_tables_fold. intros. apply addSegment_same_tables.
Qed.

Lemma addNode_nonempty (st : Router.PathFinder) (id : string) (p : Point) :
  Router.nodes (Router.addNode st id p) <> [].
Proof.
  unfold Router.addNode.
  destruct (Obj.get (Router.nodes st) id) eqn:E; simpl.
  - intros H. rewrite H in E. discriminate.
  - apply set_nonempty.
Qed.

Lemma addNode_tables (st : Router.PathFinder) (id : string) (p : Point) :
  Router.osmNodes (Router.addNode st id p) = Router.osmNodes st
  /\ Router.osmWays (Router.addNode st id p) = Router.osmWays st
  /\ Router.isInitialized (Router.addNode st id p) = Router.isInitialized st.
Proof.
  unfold Router.addNode. destruct (Obj.get (Router.nodes st) id); simpl; auto.
Qed.

Lemma addNodes_fold (l : list Router.OSMNode) (st : Router.PathFinder) :
  let st' :=
    fold_left
      (fun st osmNode =>
         Router.addNode st (Router.graphNodeId (keyOf (Router.osmId osmNode)))
           {| latitude := Router.lat osmNode; longitude := Router.lon osmNode |})
      l st in
  Router.osmNodes st' = Router.osmNodes st
  /\ Router.osmWays st' = Router.osmWays st
  /\ Router.isInitialized st' = Router.isInitialized st
  /\ (Router.nodes st' = [] <-> Router.nodes st = [] /\ l = []).
Proof.
  revert st. induction l as [| a l IH]; intros st; simpl.
  - intuition.
  - destruct (IH (Router.addNode st
                    (Router.graphNodeId (keyOf (Router.osmId a)))
                    {| latitude := Router.lat a; longitude := Router.lon a |}))
      as [A [B [C D]]].
    destruct (addNode_tables st (Router.graphNodeId (keyOf (Router.osmId a)))
                {| latitude := Router.lat a; longitude := Router.lon a |})
      as [A' [B' C']].
    split; [congruence |]. split; [congruence |]. split; [congruence |]. split.
    + intros H. apply D in H. destruct H as [H1 _].
      now apply addNode_nonempty in H1.
    + intros [_ H]. discriminate.
Qed.

Lemma processElements_nodes (elements : list Element) (st : Router.PathFinder) :
  Router.nodes (fold_left Router.processElement elements st) = Router.nodes st
  /\ Router.isInitialized (fold_left Router.processElement elements st)
     = Router.isInitialized st.
Proof.
  revert st. induction elements as [| e l IH]; intros st; simpl; [auto |].
  destruct (IH (Router.processElement st e)) as [A B]. rewrite A, B.
  destruct e as [i la lo | i ns tg |]; simpl; auto.
  destruct (Router.isValidRoadWay ns tg); auto.
  destruct tg; auto.
Qed.

(** Processing a payload always ends, marks the instance initialized, and
    leaves a graph that is empty exactly when the node table is. *)
Lemma processOSMData_shape (cd : Point -> Point -> Q) (st0 : Router.PathFinder)
  (elements : list Element) :
  exists st,
    Router.processOSMData cd st0 elements = Some st
    /\ Router.isInitialized st = true
    /\ (Router.nodes st = [] <-> Router.osmNodes st = []).
Proof.
  unfold Router.processOSMData, Router.buildGraphFromOSM.
  set (cleared := {| Router.nodes := []; Router.osmNodes := [];
                     Router.osmWays := [];
                     Router.isInitialized := Router.isInitialized st0 |}).
  set (c := fold_left Router.processElement elements cleared).
  destruct (processElements_nodes elements cleared) as [Hc _]. fold c in Hc.
  simpl in Hc.
  pose proof (addNodes_fold (Obj.values (Router.osmNodes c)) c) as [A1 [_ [_ A4]]].
  fold (Router.addOsmNodes c) in A1, A4.
  pose proof (addWays_same_tables cd (Router.addOsmNodes c)) as [B1 [_ [_ B4]]].
  destruct (validateGraphConnectivity_total (Router.addWays cd (Router.addOsmNodes c)))
    as [v [Hv [C1 [_ [_ C4]]]]].
  rewrite Hv. eexists. split; [reflexivity |]. simpl. split; [reflexivity |].
  assert (Hempty : Router.nodes (Router.addWays cd (Router.addOsmNodes c)) = []
                   -> Router.nodes v = []).
  { intros H. unfold Router.validateGraphConnectivity,
      Router.validateGraphConnectivityIn in Hv.
    rewrite H in Hv. simpl in Hv. now inversion Hv. }
  assert (Hvals : Obj.values (Router.osmNodes c) = [] <-> Router.osmNodes c = []).
  { unfold Obj.values. destruct (Router.osmNodes c); simpl; split; congruence. }
  rewrite C1, B1, A1. split.
  - intros H. apply Hvals.
    destruct (Obj.values (Router.osmNodes c)) eqn:E; trivial.
    exfalso. apply C4; [| exact H].
    intros H1. apply B4, A4 in H1 as [_ H1]. discriminate.
  - intros H. apply Hempty, B4, A4. split; [exact Hc | now apply Hvals].
Qed.

(** ** Nearest node (full PathFinder) *)

Section RouterNearest.
Variable cd : Point -> Point -> Q.
Variable st : Router.PathFinder.
Variable point : Point.

Lemma Router_nearest_uninitialized (searchRadius : Q) :
  Router.isInitialized st = false ->
  Router.findNearestOsmNode cd st point searchRadius = None.
Proof. intros H. unfold Router.findNearestOsmNode. now rewrite H. Qed.
End RouterNearest.

(** ** Nearest node and built graph ([utils/pathfinding.ts]) *)

Section LegacyNearest.
Variable cd : Point -> Point -> Q.
Variable st : Legacy.PathFinder.
Variable point : Point.

Lemma Legacy_nearest_uninitialized (searchRadius : Q) :
  Legacy.isInitialized st = false ->
  Legacy.findNearestOsmNode cd st point searchRadius = None.
Proof. intros H. unfold Legacy.findNearestOsmNode. now rewrite H. Qed.
End LegacyNearest.

Lemma legacy_same_tables_refl (st : Legacy.PathFinder) : legacy_same_tables st st.
Proof. unfold legacy_same_tables. tauto. Qed.

Lemma legacy_same_tables_trans (a b c : Legacy.PathFinder) :
  legacy_same_tables a b -> legacy_same_tables b c -> legacy_same_tables a c.
Proof.
  unfold legacy_same_tables. intros [A1 [A2 [A3 A4]]] [B1 [B2 [B3 B4]]].
  repeat split; try congruence; tauto.
Qed.

Lemma legacy_same_tables_fold (A : Type)
  (f : Legacy.PathFinder -> A -> Legacy.PathFinder)
  (l : list A) (st : Legacy.PathFinder) :
  (forall s a, legacy_same_tables s (f s a)) ->
  legacy_same_tables st (fold_left f l st).
Proof.
  intros Hf. revert st. induction l as [| a l IH]; intros st; simpl.
  - apply legacy_same_tables_refl.
  - eapply legacy_same_tables_trans; [apply Hf | apply IH].
Qed.

Lemma setNeighbor_empty (g : Obj.t Legacy.GraphNode) (x y : string) (d : Q) :
  Legacy.setNeighbor g x y d = [] <-> g = [].
Proof.
  unfold Legacy.setNeighbor. destruct (Obj.get g x) eqn:E.
  - split; intros H.
    + now apply set_nonempty in H.
    + rewrite H in E. discriminate.
  - tauto.
Qed.

Lemma Legacy_addSegment_same_tables (cd : Point -> Point -> Q)
  (st : Legacy.PathFinder) (seg : Z * Z) :
  legacy_same_tables st (Legacy.addSegment cd st seg).
Proof.
  unfold Legacy.addSegment.
  destruct (Obj.has _ _ && Obj.has _ _); [| apply legacy_same_tables_refl].
  unfold Legacy.addEdge.
  destruct (Obj.get (Legacy.nodes st) _); [| apply legacy_same_tables_refl].
  destruct (Obj.get (Legacy.nodes st) _); [| apply legacy_same_tables_refl].
  unfold legacy_same_tables. simpl. repeat split; trivial.
  - intros H. now apply setNeighbor_empty, setNeighbor_empty in H.
  - intros H. now apply setNeighbor_empty, setNeighbor_empty.
Qed.

Lemma Legacy_addNodes_fold (l : list Legacy.OSMNode) (st : Legacy.PathFinder) :
  let st' :=
    fold_left
      (fun st osmNode =>
         Legacy.addNode st (Legacy.graphNodeId (keyOf (Legacy.osmId osmNode)))
           {| latitude := Legacy.lat osmNode; longitude := Legacy.lon osmNode |})
      l st in
  Legacy.osmNodes st' = Legacy.osmNodes st
  /\ Legacy.osmWays st' = Legacy.osmWays st
  /\ Legacy.isInitialized st' = Legacy.isInitialized st
  /\ (Legacy.nodes st' = [] <-> Legacy.nodes st = [] /\ l = []).
Proof.
  revert st. induction l as [| a l IH]; intros st; simpl.
  - intuition.
  - destruct (IH (Legacy.addNode st
                    (Legacy.graphNodeId (keyOf (Legacy.osmId a)))
                    {| latitude := Legacy.lat a; longitude := Legacy.lon a |}))
      as [A [B [C D]]].
    simpl in A, B, C. split; [exact A |]. split; [exact B |].
    split; [exact C |]. split.
    + intros H. apply D in H. destruct H as [H1 _]. simpl in H1.
      now apply set_nonempty in H1.
    + intros [_ H]. discriminate.
Qed.

Lemma Legacy_processElements_nodes (elements : list Element)
  (st : Legacy.PathFinder) :
  Legacy.nodes (fst (Legacy.processElements st elements)) = Legacy.nodes st.
Proof.
  revert st. induction elements as [| e l IH]; intros st; simpl; [reflexivity |].
  destruct (Legacy.processElement st e) as [st' |] eqn:E; [| reflexivity].
  rewrite IH. destruct e as [i la lo | i ns tg |]; simpl in E.
  - now inversion E.
  - destruct tg as [tg |]; [| discriminate].
    destruct (truthy _ && negb _); now inversion E.
  - now inversion E.
Qed.

(** ** Order on numbers with [Infinity] *)

Lemma ext_le_refl (a : ext) : ext_le a a.
Proof.
  destruct a; unfold ext_le; simpl; trivial. apply Qle_bool_iff. lra.
Qed.

Lemma ext_le_trans (a b c : ext) : ext_le a b -> ext_le b c -> ext_le a c.
Proof.
  unfold ext_le. destruct a, b, c; simpl; trivial; try discriminate.
  rewrite !Qle_bool_iff. lra.
Qed.

Lemma ext_le_Fin (x y : Q) : ext_le (Fin x) (Fin y) <-> x <= y.
Proof. unfold ext_le. simpl. apply Qle_bool_iff. Qed.

Lemma ext_ltb_false (a b : ext) : ext_ltb a b = false <-> ext_le b a.
Proof.
  unfold ext_le. destruct a, b; simpl; try tauto; try (split; congruence).
  apply negb_false_iff.
Qed.

Lemma ext_ltb_true (a b : ext) : ext_ltb a b = true -> ext_le a b.
Proof.
  unfold ext_le. destruct a, b; simpl; trivial.
  intros H. apply negb_true_iff, Qle_bool_false in H. apply Qle_bool_iff. lra.
Qed.

Lemma ext_ltb_Fin (x y : Q) : ext_ltb (Fin x) (Fin y) = true <-> x < y.
Proof. apply Qltb_true. Qed.

Lemma ext_ltb_finite (a b : ext) : ext_ltb a b = true -> is_finite a.
Proof. destruct a; simpl; [trivial | discriminate]. Qed.

Lemma ext_le_finite (a b : ext) : ext_le a b -> is_finite b -> is_finite a.
Proof. unfold ext_le. destruct a, b; simpl; trivial; discriminate. Qed.

(** ** The priority queue of [dijkstra] *)

Lemma insert_perm (e : Helper.Entry) (l : list Helper.Entry) :
  Permutation (Helper.insert e l) (e :: l).
Proof.
  induction l as [| x r IH]; simpl; [reflexivity |].
  destruct (ext_ltb (Helper.entryDistance e) (Helper.entryDistance x)).
  - reflexivity.
  - rewrite IH. apply perm_swap.
Qed.

Lemma sort_fold_perm (l acc : list Helper.Entry) :
  Permutation (fold_left (fun sorted e => Helper.insert e sorted) l acc) (l ++ acc).
Proof.
  revert acc. induction l as [| x r IH]; intros acc; simpl; [reflexivity |].
  rewrite IH. rewrite insert_perm. symmetry. apply Permutation_middle.
Qed.

Lemma sort_perm (l : list Helper.Entry) : Permutation (Helper.sort l) l.
Proof.
  unfold Helper.sort. rewrite sort_fold_perm. now rewrite app_nil_r.
Qed.

Lemma insert_sorted (e : Helper.Entry) (l : list Helper.Entry) :
  StronglySorted entry_le l -> StronglySorted entry_le (Helper.insert e l).
Proof.
  induction l as [| x r IH]; intros Hs; simpl.
  - repeat constructor.
  - inversion Hs as [| ? ? Hr Hx]; subst.
    destruct (ext_ltb (Helper.entryDistance e) (Helper.entryDistance x)) eqn:E.
    + apply ext_ltb_true in E. constructor; [assumption |].
      constructor; [exact E |].
      eapply Forall_impl; [| exact Hx]. intros y Hy.
      unfold entry_le in *. eapply ext_le_trans; eauto.
    + apply ext_ltb_false in E. constructor; [now apply IH |].
      apply Forall_forall. intros y Hy.
      apply (Permutation_in _ (insert_perm e r)) in Hy as [<- | Hy].
      * exact E.
      * rewrite Forall_forall in Hx. now apply Hx.
Qed.

Lemma sort_sorted (l : list Helper.Entry) : StronglySorted entry_le (Helper.sort l).
Proof.
  unfold Helper.sort.
  assert (H : forall acc, StronglySorted entry_le acc ->
                          StronglySorted entry_le
                            (fold_left (fun sorted e => Helper.insert e sorted) l acc)).
  { induction l as [| x r IH]; intros acc Hacc; simpl; [assumption |].
    apply IH. now apply insert_sorted. }
  apply H. constructor.
Qed.

(** The entry the loop takes is a smallest one; the others stay queued. *)
Lemma sort_head (l : list Helper.Entry) (current : Helper.Entry)
  (rest : list Helper.Entry) :
  Helper.sort l = current :: rest ->
  Permutation l (current :: rest)
  /\ (forall e, In e rest -> entry_le current e).
Proof.
  intros H. split.
  - rewrite <- H. symmetry. apply sort_perm.
  - pose proof (sort_sorted l) as Hs. rewrite H in Hs.
    inversion Hs as [| ? ? _ Hx]; subst. now apply Forall_forall.
Qed.

(** ** The invariant of [dijkstra] *)

Lemma get_set (V : Type) (o : Obj.t V) (k k' : string) (v : V) :
  Obj.get (Obj.set o k v) k' = if String.eqb k k' then Some v else Obj.get o k'.
Proof.
  destruct (String.eqb k k') eqn:E.
  - apply String.eqb_eq in E. subst. apply get_set_eq.
  - apply String.eqb_neq in E. now apply get_set_neq.
Qed.

Lemma chain_mono (previous : Obj.t (option string)) (settled settled' : list string)
  (s k : string) (p : list string) :
  incl settled settled' ->
  Chain previous settled s k p -> Chain previous settled' s k p.
Proof.
  intros Hincl H. induction H.
  - now constructor.
  - econstructor; eauto.
Qed.

Lemma chain_stable (previous : Obj.t (option string)) (settled : list string)
  (s k v : string) (x : option string) (p : list string) :
  ~ In v settled -> s <> v -> k <> v ->
  Chain previous settled s k p -> Chain (Obj.set previous v x) settled s k p.
Proof.
  intros Hv Hs Hk H. induction H as [H0 | k u p Hku Hu Hc IH].
  - constructor. rewrite get_set_neq; [assumption | congruence].
  - econstructor; eauto.
    + rewrite get_set_neq; [eassumption | congruence].
    + apply IH. intros ->. contradiction.
Qed.

Lemma chain_ends (previous : Obj.t (option string)) (settled : list string)
  (s k : string) (p : list string) :
  Chain previous settled s k p ->
  hd_error p = Some s /\ last p k = k /\ p <> [].
Proof.
  intros H. induction H as [H0 | k u p Hku Hu Hc [IH1 [IH2 IH3]]].
  - simpl. repeat split. discriminate.
  - repeat split.
    + destruct p; [congruence | exact IH1].
    + apply last_last.
    + intros E. apply app_eq_nil in E as [_ E]. discriminate.
Qed.

Section Relax.
Variable graph : Helper.Graph.
Variable start : string.
Hypothesis Hwf : well_formed graph.

Lemma relax_step (current : string) (qc : Q) (settled : list string)
  (s : Helper.Search) (adj : Obj.t Q) (v : string) (w : Q) :
  Mid graph start current qc settled s ->
  Obj.get graph current = Some adj -> In (v, w) adj ->
  let s' := Helper.relax current s (v, w) in
  Mid graph start current qc settled s'
  /\ (exists d, Obj.get (Helper.distances s') v = Some d /\ ext_le d (Fin (qc + w)))
  /\ (forall k d, Obj.get (Helper.distances s) k = Some d ->
        exists d', Obj.get (Helper.distances s') k = Some d' /\ ext_le d' d)
  /\ (List.length (Helper.priorityQueue s') <= S (List.length (Helper.priorityQueue s)))%nat.
Proof.
  intros [HI [Hc HM]] Hadj Hin s'.
  destruct (@Hwf current adj v w Hadj Hin) as [Hvk Hw].
  destruct (proj1 (inv_dom_d HI v) Hvk) as [dn Hdn].
  subst s'. unfold Helper.relax. simpl fst. simpl snd. rewrite Hc, Hdn.
  change (ext_add (Fin qc) (Fin w)) with (Fin (qc + w)).
  destruct (ext_ltb (Fin (qc + w)) dn) eqn:E.
  2:{ apply ext_ltb_false in E.
      split; [| split; [| split]].
      - split; [exact HI | split; assumption].
      - eauto.
      - intros k d Hk. exists d. split; [assumption | apply ext_le_refl].
      - lia. }
  pose proof (inv_nonneg HI _ Hc) as Hqc.
  assert (Hvc : v <> current).
  { intros ->. rewrite Hc in Hdn. inversion Hdn; subst dn.
    apply ext_ltb_Fin in E. lra. }
  assert (HvD : ~ In v settled).
  { intros Hs. destruct (inv_settled HI v (or_intror Hs)) as [qv Hqv].
    rewrite Hqv in Hdn. inversion Hdn; subst dn.
    apply ext_ltb_Fin in E.
    pose proof (HM v qv (or_intror Hs) Hqv). lra. }
  assert (Hvs : start <> v).
  { intros <-. destruct (inv_start HI) as [H0 _]. rewrite H0 in Hdn.
    inversion Hdn; subst dn. apply ext_ltb_Fin in E. lra. }
  assert (HvS : ~ In v (current :: settled)).
  { intros [Hx | Hx]; [congruence | contradiction]. }
  pose proof (ext_ltb_true _ _ E) as Hle.
  cbn [Helper.distances Helper.previous Helper.priorityQueue].
  split; [| split; [| split]].
  - split; [| split].
    + constructor; cbn [Helper.distances Helper.previous Helper.priorityQueue].
      * intros k. rewrite get_set. destruct (String.eqb v k) eqn:Ek.
        -- apply String.eqb_eq in Ek. subst k. split; eauto.
        -- apply (inv_dom_d HI).
      * intros k. rewrite get_set. destruct (String.eqb v k) eqn:Ek.
        -- apply String.eqb_eq in Ek. subst k. split; eauto.
        -- apply (inv_dom_p HI).
      * destruct (inv_start HI) as [H0 H1].
        rewrite !get_set_neq by congruence. auto.
      * intros k q. rewrite get_set. destruct (String.eqb v k) eqn:Ek.
        -- intros [= <-]. lra.
        -- apply (inv_nonneg HI).
      * intros e He. apply in_app_or in He as [He | [<- | []]].
        -- destruct (inv_queue HI e He) as [q [d [He1 [He2 He3]]]].
           rewrite get_set. destruct (String.eqb v (Helper.node e)) eqn:Ek.
           ++ apply String.eqb_eq in Ek. rewrite <- Ek, Hdn in He2.
              inversion He2; subst d.
              exists q, (Fin (qc + w)). repeat split; trivial.
              eapply ext_le_trans; eauto.
           ++ exists q, d. auto.
        -- simpl. exists (qc + w), (Fin (qc + w)).
           rewrite get_set_eq. repeat split. apply ext_le_refl.
      * intros k q. rewrite get_set. destruct (String.eqb v k) eqn:Ek.
        -- apply String.eqb_eq in Ek. subst k. intros [= <-].
           right. apply in_or_app. right. now left.
        -- intros Hk. destruct (inv_pending HI _ Hk) as [H | H]; [now left |].
           right. apply in_or_app. now left.
      * intros u Hu. rewrite get_set_neq; [now apply (inv_settled HI) |].
        intros ->. contradiction.
      * intros u q adj' v' w' Hu.
        rewrite get_set_neq by (intros ->; contradiction).
        intros Hq Hadj' Hin'.
        destruct (inv_relaxed HI _ _ _ Hu Hq Hadj' Hin') as [d [Hd1 Hd2]].
        rewrite get_set. destruct (String.eqb v v') eqn:Ek.
        -- apply String.eqb_eq in Ek. subst v'. rewrite Hdn in Hd1.
           inversion Hd1; subst d. exists (Fin (qc + w)). split; trivial.
           eapply ext_le_trans; eauto.
        -- eauto.
      * intros u q e Hu.
        rewrite get_set_neq by (intros ->; contradiction).
        intros Hq He. apply in_app_or in He as [He | [<- | []]].
        -- eapply (inv_min HI); eauto.
        -- simpl. apply ext_le_Fin. pose proof (HM u q Hu Hq). lra.
      * intros k q. rewrite get_set. destruct (String.eqb v k) eqn:Ek.
        -- apply String.eqb_eq in Ek. subst k. intros _.
           eapply reach_step; [eapply (inv_sound HI); eauto |].
           exists adj, w. auto.
        -- apply (inv_sound HI).
      * intros k. rewrite !get_set. destruct (String.eqb v k) eqn:Ek.
        -- discriminate.
        -- apply (inv_unreached HI).
      * intros k u. rewrite get_set. destruct (String.eqb v k) eqn:Ek.
        -- apply String.eqb_eq in Ek. subst k. intros [= <-].
           split; [now left | exists adj, w; auto].
        -- apply (inv_link HI).
      * intros k q. rewrite get_set. destruct (String.eqb v k) eqn:Ek.
        -- apply String.eqb_eq in Ek. subst k. intros _.
           destruct (inv_chain HI _ Hc) as [p Hp].
           exists (p ++ [v]). econstructor.
           ++ apply get_set_eq.
           ++ now left.
           ++ apply chain_stable; auto.
        -- intros Hk. destruct (inv_chain HI _ Hk) as [p Hp].
           exists p. apply chain_stable; auto.
           intros ->. rewrite String.eqb_refl in Ek. discriminate.
    + cbn [Helper.distances]. rewrite get_set_neq by assumption. exact Hc.
    + cbn [Helper.distances]. intros u q Hu.
      rewrite get_set_neq by (intros ->; contradiction).
      now apply HM.
  - exists (Fin (qc + w)). rewrite get_set_eq. split; [reflexivity | apply ext_le_refl].
  - intros k d Hk. rewrite get_set. destruct (String.eqb v k) eqn:Ek.
    + apply String.eqb_eq in Ek. subst k. rewrite Hdn in Hk.
      inversion Hk; subst d. eauto.
    + exists d. split; [assumption | apply ext_le_refl].
  - rewrite length_app. simpl. lia.
Qed.
End Relax.

Lemma pending_cons (k : string) (a : Obj.t Q) (g : Helper.Graph)
  (settled : list string) :
  pending ((k, a) :: g) settled
  = ((if mem k settled then O else List.length a) + pending g settled)%nat.
Proof. reflexivity. Qed.

Lemma mem_cons (k c : string) (l : list string) :
  mem k (c :: l) = String.eqb k c || mem k l.
Proof. reflexivity. Qed.

Lemma pending_mono (graph : Helper.Graph) (current : string) (settled : list string) :
  (pending graph (current :: settled) <= pending graph settled)%nat.
Proof.
  induction graph as [| [k a] g IH]; [apply Nat.le_refl |].
  rewrite !pending_cons, mem_cons.
  destruct (String.eqb k current); cbn [orb]; destruct (mem k settled); lia.
Qed.

Lemma pending_settle (graph : Helper.Graph) (current : string)
  (settled : list string) (adj : Obj.t Q) :
  Obj.get graph current = Some adj -> ~ In current settled ->
  (pending graph (current :: settled) + List.length adj <= pending graph settled)%nat.
Proof.
  intros Hget Hn. apply mem_false in Hn.
  induction graph as [| [k a] g IH]; [discriminate |].
  rewrite !pending_cons, mem_cons.
  cbn [Obj.get] in Hget.
  destruct (String.eqb k current) eqn:E; cbn [orb].
  - inversion Hget; subst a. apply String.eqb_eq in E. subst k.
    rewrite Hn. pose proof (pending_mono g current settled). lia.
  - specialize (IH Hget). destruct (mem k settled); lia.
Qed.

Section Loop.
Variable graph : Helper.Graph.
Variable start : string.
Hypothesis Hwf : well_formed graph.

Lemma relax_fold (current : string) (qc : Q) (settled : list string)
  (adj : Obj.t Q) :
  Obj.get graph current = Some adj ->
  forall (rest seen : list (string * Q)) (s : Helper.Search),
    incl rest adj ->
    Mid graph start current qc settled s ->
    (forall vw, In vw seen -> relaxed_at s qc vw) ->
    let s' := fold_left (Helper.relax current) rest s in
    Mid graph start current qc settled s'
    /\ (forall vw, In vw (seen ++ rest) -> relaxed_at s' qc vw)
    /\ (List.length (Helper.priorityQueue s')
        <= List.length (Helper.priorityQueue s) + List.length rest)%nat.
Proof.
  intros Hadj. induction rest as [| [v w] rest IH]; intros seen s Hincl HM Hseen.
  - cbv zeta. cbn [fold_left]. rewrite app_nil_r.
    split; [exact HM | split; [exact Hseen | cbn [List.length]; lia]].
  - cbv zeta. cbn [fold_left].
    assert (Hin : In (v, w) adj) by (apply Hincl; now left).
    destruct (@relax_step graph start Hwf current qc settled s adj v w HM Hadj Hin)
      as [HM1 [Hv [Hmono Hlen]]].
    destruct (IH (seen ++ [(v, w)]) (Helper.relax current s (v, w)))
      as [A [B C]].
    + intros x Hx. apply Hincl. now right.
    + exact HM1.
    + intros vw Hvw. apply in_app_or in Hvw as [Hvw | [<- | []]].
      * destruct (Hseen vw Hvw) as [d [Hd1 Hd2]].
        destruct (Hmono _ _ Hd1) as [d' [Hd1' Hd2']].
        exists d'. split; [assumption |]. eapply ext_le_trans; eauto.
      * exact Hv.
    + split; [exact A |]. split.
      * intros vw Hvw. apply B. rewrite <- app_assoc. exact Hvw.
      * cbn [List.length]. lia.
Qed.

Lemma inv_relax_more (current : string) (qc : Q) (settled : list string)
  (s : Helper.Search) :
  Inv graph start (current :: settled) settled s ->
  Obj.get (Helper.distances s) current = Some (Fin qc) ->
  (forall adj vw, Obj.get graph current = Some adj -> In vw adj ->
                  relaxed_at s qc vw) ->
  Inv graph start (current :: settled) (current :: settled) s.
Proof.
  intros HI Hc Hrel. destruct HI. constructor; trivial.
  intros u q adj v w [<- | Hu] Hq Hadj Hin.
  - rewrite Hc in Hq. inversion Hq; subst q.
    exact (Hrel adj (v, w) Hadj Hin).
  - eauto.
Qed.

Lemma relax_noop (current : string) (qc : Q) (s : Helper.Search)
  (vw : string * Q) :
  Obj.get (Helper.distances s) current = Some (Fin qc) ->
  relaxed_at s qc vw -> Helper.relax current s vw = s.
Proof.
  intros Hc [d [Hd Hle]]. unfold Helper.relax. rewrite Hc, Hd.
  change (ext_add (Fin qc) (Fin (snd vw))) with (Fin (qc + snd vw)).
  apply ext_ltb_false in Hle. now rewrite Hle.
Qed.

Lemma relax_noop_fold (current : string) (qc : Q) (s : Helper.Search)
  (adj : list (string * Q)) :
  Obj.get (Helper.distances s) current = Some (Fin qc) ->
  (forall vw, In vw adj -> relaxed_at s qc vw) ->
  fold_left (Helper.relax current) adj s = s.
Proof.
  intros Hc. induction adj as [| vw adj IH]; intros H; simpl; [reflexivity |].
  rewrite relax_noop with (qc := qc); [| assumption | apply H; now left].
  apply IH. intros x Hx. apply H. now right.
Qed.

(** Taking from the queue the entry of a node that is not settled yet. *)
Lemma pop_unsettled (settled : list string) (s : Helper.Search)
  (e0 : Helper.Entry) (rest : list Helper.Entry) :
  Inv graph start settled settled s ->
  Helper.sort (Helper.priorityQueue s) = e0 :: rest ->
  ~ In (Helper.node e0) settled ->
  exists qc,
    Mid graph start (Helper.node e0) qc settled
      {| Helper.distances := Helper.distances s;
         Helper.previous := Helper.previous s;
         Helper.priorityQueue := rest |}.
Proof.
  intros HI Hsort Hn. destruct (sort_head _ Hsort) as [Hperm Hmin].
  assert (He0 : In e0 (Helper.priorityQueue s)).
  { apply (Permutation_in _ (Permutation_sym Hperm)). now left. }
  assert (Hrest : forall e, In e rest -> In e (Helper.priorityQueue s)).
  { intros e He. apply (Permutation_in _ (Permutation_sym Hperm)). now right. }
  destruct (inv_queue HI e0 He0) as [q0 [d [Hq0 [Hd Hle]]]].
  destruct d as [qc |]; [| discriminate Hle].
  apply ext_le_Fin in Hle.
  assert (Hge : q0 <= qc).
  { destruct (inv_pending HI _ Hd) as [H | H]; [contradiction |].
    apply (Permutation_in _ Hperm) in H as [H | H].
    - rewrite H in Hq0. simpl in Hq0. inversion Hq0. lra.
    - specialize (Hmin _ H). unfold entry_le in Hmin. rewrite Hq0 in Hmin.
      simpl in Hmin. now apply ext_le_Fin in Hmin. }
  exists qc. split; [| split].
  - constructor; simpl; try (now destruct HI).
    + intros e He. apply (inv_queue HI). auto.
    + intros k q Hk. destruct (inv_pending HI _ Hk) as [H | H].
      * left. now right.
      * apply (Permutation_in _ Hperm) in H as [H | H].
        -- left. left. rewrite H. reflexivity.
        -- now right.
    + intros u [<- | Hu]; [eauto | now apply (inv_settled HI)].
    + intros u q e [<- | Hu] Hq He.
      * rewrite Hd in Hq. inversion Hq; subst q.
        specialize (Hmin _ He). unfold entry_le in Hmin. rewrite Hq0 in Hmin.
        eapply ext_le_trans; [| exact Hmin]. apply ext_le_Fin. lra.
      * eapply (inv_min HI); eauto.
    + intros k u Hk. destruct (inv_link HI _ Hk) as [A B].
      split; [now right | exact B].
    + intros k q Hk. destruct (inv_chain HI _ Hk) as [p Hp].
      exists p. eapply chain_mono; [| exact Hp]. intros x Hx. now right.
  - exact Hd.
  - simpl. intros u q [<- | Hu] Hq.
    + rewrite Hd in Hq. inversion Hq. lra.
    + pose proof (inv_min HI _ _ Hu Hq He0) as H. rewrite Hq0 in H.
      apply ext_le_Fin in H. lra.
Qed.

(** Taking from the queue a left-over entry of a settled node. *)
Lemma pop_settled (settled : list string) (s : Helper.Search)
  (e0 : Helper.Entry) (rest : list Helper.Entry) :
  Inv graph start settled settled s ->
  Helper.sort (Helper.priorityQueue s) = e0 :: rest ->
  In (Helper.node e0) settled ->
  let s1 := {| Helper.distances := Helper.distances s;
               Helper.previous := Helper.previous s;
               Helper.priorityQueue := rest |} in
  Inv graph start settled settled s1
  /\ fold_left (Helper.relax (Helper.node e0))
       (Helper.neighborsOf graph (Helper.node e0)) s1 = s1.
Proof.
  intros HI Hsort Hs s1. destruct (sort_head _ Hsort) as [Hperm Hmin].
  assert (Hrest : forall e, In e rest -> In e (Helper.priorityQueue s)).
  { intros e He. apply (Permutation_in _ (Permutation_sym Hperm)). now right. }
  assert (HI1 : Inv graph start settled settled s1).
  { constructor; simpl; try (now destruct HI).
    - intros e He. apply (inv_queue HI). auto.
    - intros k q Hk. destruct (inv_pending HI _ Hk) as [H | H]; [now left |].
      apply (Permutation_in _ Hperm) in H as [H | H].
      + left. rewrite H in Hs. exact Hs.
      + now right.
    - intros u q e Hu Hq He. eapply (inv_min HI); eauto. }
  split; [exact HI1 |].
  destruct (inv_settled HI1 _ Hs) as [qc Hqc].
  apply relax_noop_fold with (qc := qc); [exact Hqc |].
  intros [v w] Hvw. unfold Helper.neighborsOf in Hvw.
  destruct (Obj.get graph (Helper.node e0)) as [adj |] eqn:E; [| contradiction].
  exact (inv_relaxed HI1 _ _ _ Hs Hqc E Hvw).
Qed.
End Loop.

Section Search.
Variable graph : Helper.Graph.
Variable start : string.
Hypothesis Hwf : well_formed graph.

(** Once the queue is empty every node that can be reached has a finite
    distance. *)
Lemma reached_when_queue_empty (settled : list string) (s : Helper.Search)
  (k : string) :
  Inv graph start settled settled s -> Helper.priorityQueue s = [] ->
  reachable (edge graph) start k ->
  exists q, Obj.get (Helper.distances s) k = Some (Fin q).
Proof.
  intros HI Hpq Hr. induction Hr as [| u v Hu IH [adj [w [Hadj Hin]]]].
  - exists 0. apply (inv_start HI).
  - destruct IH as [qu Hqu].
    assert (Hs : In u settled).
    { destruct (inv_pending HI _ Hqu) as [H | H]; [exact H |].
      rewrite Hpq in H. contradiction. }
    destruct (inv_relaxed HI _ _ _ Hs Hqu Hadj Hin) as [d [Hd Hle]].
    destruct d as [q |]; [eauto | discriminate Hle].
Qed.

Lemma loop_unfold (fuel : nat) (endNode : string) (s : Helper.Search) :
  Helper.loop (S fuel) graph endNode s
  = match Helper.priorityQueue s with
    | [] => Returned s
    | _ :: _ =>
        match Helper.sort (Helper.priorityQueue s) with
        | [] => Returned s
        | current :: rest =>
            let s1 :=
              {| Helper.distances := Helper.distances s;
                 Helper.previous := Helper.previous s;
                 Helper.priorityQueue := rest |} in
            if String.eqb (Helper.node current) endNode then Returned s1
            else
              Helper.loop fuel graph endNode
                (fold_left (Helper.relax (Helper.node current))
                   (Helper.neighborsOf graph (Helper.node current)) s1)
        end
    end.
Proof. reflexivity. Qed.

(** The loop ends within as many rounds as there are queue entries and
    edges out of nodes still to settle; it keeps the invariant, and the
    destination has a finite distance at the end if it can be reached. *)
Lemma loop_ends (endNode : string) (fuel : nat) :
  forall (s : Helper.Search) (settled : list string),
    Inv graph start settled settled s ->
    (List.length (Helper.priorityQueue s) + pending graph settled < fuel)%nat ->
    exists s' settled' relaxed',
      Helper.loop fuel graph endNode s = Returned s'
      /\ Inv graph start settled' relaxed' s'
      /\ (reachable (edge graph) start endNode ->
          exists q, Obj.get (Helper.distances s') endNode = Some (Fin q)).
Proof.
  induction fuel as [| fuel IH]; intros s settled HI Hfuel; [lia |].
  rewrite loop_unfold.
  destruct (Helper.priorityQueue s) as [| x l] eqn:Epq.
  - exists s, settled, settled. split; [reflexivity |]. split; [exact HI |].
    intros Hr. eapply reached_when_queue_empty; eauto.
  - rewrite <- Epq in *.
    destruct (Helper.sort (Helper.priorityQueue s)) as [| e0 rest] eqn:Esort.
    { pose proof (sort_perm (Helper.priorityQueue s)) as Hp.
      rewrite Esort, Epq in Hp. apply Permutation_nil in Hp. discriminate. }
    destruct (sort_head _ Esort) as [Hperm _].
    pose proof (Permutation_length Hperm) as Hlen. simpl in Hlen.
    cbv zeta.
    destruct (in_dec string_dec (Helper.node e0) settled) as [Hs | Hs].
    + destruct (@pop_settled graph start settled s e0 rest HI Esort Hs) as [HI1 Hnoop].
      destruct (String.eqb (Helper.node e0) endNode) eqn:Eend.
      * apply String.eqb_eq in Eend. subst endNode.
        eexists _, settled, settled. split; [reflexivity |].
        split; [exact HI1 |]. intros _. apply (inv_settled HI1 _ Hs).
      * rewrite Hnoop. apply IH with (settled := settled); [exact HI1 |].
        simpl. lia.
    + destruct (@pop_unsettled graph start settled s e0 rest HI Esort Hs) as [qc HM].
      destruct (String.eqb (Helper.node e0) endNode) eqn:Eend.
      * apply String.eqb_eq in Eend. subst endNode.
        destruct HM as [HI1 [Hc _]].
        eexists _, (Helper.node e0 :: settled), settled.
        split; [reflexivity |]. split; [exact HI1 |]. intros _. eauto.
      * unfold Helper.neighborsOf.
        destruct (Obj.get graph (Helper.node e0)) as [adj |] eqn:Eadj.
        -- destruct (@relax_fold graph start Hwf (Helper.node e0) qc settled adj
                       Eadj adj [] _ (incl_refl _) HM)
             as [[HI2 [Hc2 _]] [Hrel Hlen2]];
             [intros vw []|].
           apply IH with (settled := Helper.node e0 :: settled).
           ++ apply inv_relax_more with (qc := qc); [exact HI2 | exact Hc2 |].
              intros adj' vw Hadj' Hvw. rewrite Eadj in Hadj'.
              inversion Hadj'; subst adj'. apply Hrel. exact Hvw.
           ++ pose proof (@pending_settle graph (Helper.node e0) settled adj Eadj Hs).
              cbn [Helper.priorityQueue] in Hlen2. lia.
        -- cbn [fold_left]. destruct HM as [HI1 [Hc _]].
           apply IH with (settled := Helper.node e0 :: settled).
           ++ apply inv_relax_more with (qc := qc); [exact HI1 | exact Hc |].
              intros adj' vw Hadj'. congruence.
           ++ pose proof (pending_mono graph (Helper.node e0) settled).
              cbn [Helper.priorityQueue]. lia.
Qed.
End Search.

(** ** [dijkstra] on a well-formed graph *)

Lemma get_fold_set (V : Type) (c : V) (l : list string) (acc : Obj.t V) (k : string) :
  Obj.get (fold_left (fun o x => Obj.set o x c) l acc) k
  = if mem k l then Some c else Obj.get acc k.
Proof.
  revert acc. induction l as [| a l IH]; intros acc; simpl; [reflexivity |].
  rewrite IH, get_set. rewrite (String.eqb_sym k a).
  destruct (String.eqb a k); simpl; destruct (mem k l); reflexivity.
Qed.

Lemma init_inv (graph : Helper.Graph) (start : string) :
  In start (Obj.keys graph) ->
  Inv graph start [] [] (Helper.initSearch graph start).
Proof.
  intros Hs. pose proof Hs as Hm. apply mem_In in Hm.
  assert (Hd : forall k,
             Obj.get (Helper.distances (Helper.initSearch graph start)) k
             = if String.eqb start k then Some (Fin 0)
               else if mem k (Obj.keys graph) then Some Inf else None).
  { intros k. simpl. rewrite get_set, get_fold_set. reflexivity. }
  assert (Hp : forall k,
             Obj.get (Helper.previous (Helper.initSearch graph start)) k
             = if mem k (Obj.keys graph) then Some None else None).
  { intros k. simpl. rewrite get_fold_set. reflexivity. }
  assert (Hfin : forall k q,
             Obj.get (Helper.distances (Helper.initSearch graph start)) k
             = Some (Fin q) -> k = start /\ Fin q = Fin 0).
  { intros k q. rewrite Hd. destruct (String.eqb start k) eqn:E.
    - apply String.eqb_eq in E. intros [= <-]. auto.
    - destruct (mem k (Obj.keys graph)); discriminate. }
  constructor.
  - intros k. rewrite Hd. destruct (String.eqb start k) eqn:E.
    + apply String.eqb_eq in E. subst k. split; eauto.
    + destruct (mem k (Obj.keys graph)) eqn:M.
      * apply mem_In in M. split; eauto.
      * apply mem_false in M. split; [contradiction | intros [d Hdd]; discriminate].
  - intros k. rewrite Hp. destruct (mem k (Obj.keys graph)) eqn:M.
    + apply mem_In in M. split; eauto.
    + apply mem_false in M. split; [contradiction | intros [d Hdd]; discriminate].
  - rewrite Hd, Hp, String.eqb_refl, Hm. auto.
  - intros k q H. apply Hfin in H as [_ H]. inversion H. lra.
  - intros e [<- | []]. simpl. exists 0, (Fin 0).
    rewrite get_set_eq.
    split; [reflexivity | split; [reflexivity | apply ext_le_refl]].
  - intros k q H. apply Hfin in H as [-> H]. inversion H. right. now left.
  - intros u [].
  - intros u q adj v w [].
  - intros u q e [].
  - intros k q H. apply Hfin in H as [-> _]. constructor.
  - intros k. rewrite Hd, Hp. destruct (String.eqb start k); [discriminate |].
    destruct (mem k (Obj.keys graph)); [trivial | discriminate].
  - intros k u. rewrite Hp. destruct (mem k (Obj.keys graph)); discriminate.
  - intros k q H. apply Hfin in H as [-> _]. exists [start]. constructor.
    rewrite Hp, Hm. reflexivity.
Qed.

Lemma loop_more_fuel (graph : Helper.Graph) (endNode : string) (fuel : nat) :
  forall (s s' : Helper.Search) (fuel' : nat),
    Helper.loop fuel graph endNode s = Returned s' -> (fuel <= fuel')%nat ->
    Helper.loop fuel' graph endNode s = Returned s'.
Proof.
  induction fuel as [| fuel IH]; intros s s' fuel' H Hle.
  - destruct fuel'; [exact H |]. rewrite loop_unfold.
    simpl in H. destruct (Helper.priorityQueue s); [exact H | discriminate].
  - destruct fuel' as [| fuel']; [lia |].
    rewrite loop_unfold in *.
    destruct (Helper.priorityQueue s); [exact H |].
    destruct (Helper.sort _) as [| e0 rest]; [exact H |].
    cbv zeta in *. destruct (String.eqb (Helper.node e0) endNode); [exact H |].
    apply IH; [exact H | lia].
Qed.

Lemma buildPath_chain (previous : Obj.t (option string)) (settled : list string)
  (start k : string) (p : list string) :
  Chain previous settled start k p ->
  forall (fuel : nat) (acc : list string),
    (List.length p <= fuel)%nat ->
    Helper.buildPath fuel previous k acc = Returned (p ++ acc).
Proof.
  intros H. induction H as [H0 | k u p Hku Hu Hc IH]; intros fuel acc Hfuel.
  - destruct fuel; [simpl in Hfuel; lia |]. simpl. now rewrite H0.
  - rewrite length_app in Hfuel. simpl in Hfuel.
    destruct fuel; [lia |]. simpl. rewrite Hku.
    rewrite IH by lia. now rewrite <- app_assoc.
Qed.

Lemma chain_walk (graph : Helper.Graph) (start : string)
  (settled relaxed : list string) (s : Helper.Search) (k : string) (p : list string) :
  Inv graph start settled relaxed s ->
  Chain (Helper.previous s) settled start k p -> Walk (edge graph) start k p.
Proof.
  intros HI H. induction H as [H0 | k u p Hku Hu Hc IH].
  - constructor.
  - econstructor; [exact IH |]. apply (inv_link HI _ Hku).
Qed.

Lemma walk_reachable (R : string -> string -> Prop) (s k : string) (p : list string) :
  Walk R s k p -> reachable R s k.
Proof.
  intros H. induction H; [constructor | econstructor; eauto].
Qed.

(** On a well-formed graph [dijkstra] returns for every large enough
    [fuel]: a walk from the start to the destination with a finite
    distance when the destination can be reached, and otherwise the
    destination alone with distance [Infinity]. *)
Lemma dijkstra_spec (graph : Helper.Graph) (startNode endNode : string) :
  well_formed graph ->
  In startNode (Obj.keys graph) -> In endNode (Obj.keys graph) ->
  exists (fuel0 : nat) (r : Helper.ShortestPaths),
    (forall fuel, (fuel0 <= fuel)%nat ->
                  Helper.dijkstra fuel graph startNode endNode = Returned r)
    /\ ((exists q, Helper.distance r = Some (Fin q))
        /\ Walk (edge graph) startNode endNode (Helper.path r)
        \/ Helper.distance r = Some Inf
           /\ Helper.path r = [endNode]
           /\ ~ reachable (edge graph) startNode endNode).
Proof.
  intros Hwf Hs He.
  pose proof (@init_inv graph startNode Hs) as HI0.
  set (fuel1 := S (1 + pending graph [])).
  destruct (@loop_ends graph startNode Hwf endNode fuel1 _ [] HI0)
    as [s [settled [relaxed [Hloop [HI Hreach]]]]].
  { simpl. unfold fuel1. lia. }
  destruct (proj1 (inv_dom_d HI endNode) He) as [d Hd].
  destruct d as [q |].
  - destruct (inv_chain HI _ Hd) as [p Hp].
    exists (Nat.max fuel1 (List.length p)),
      {| Helper.distance := Some (Fin q); Helper.path := p |}.
    split.
    + intros fuel Hfuel. unfold Helper.dijkstra.
      rewrite (@loop_more_fuel graph endNode fuel1 _ s fuel Hloop) by lia.
      rewrite (@buildPath_chain _ _ _ _ _ Hp fuel []) by lia.
      rewrite app_nil_r, Hd. reflexivity.
    + left. split; [exists q; reflexivity | eapply chain_walk; eauto].
  - exists fuel1, {| Helper.distance := Some Inf; Helper.path := [endNode] |}.
    split.
    + intros fuel Hfuel. unfold Helper.dijkstra.
      rewrite (@loop_more_fuel graph endNode fuel1 _ s fuel Hloop) by lia.
      destruct fuel; [unfold fuel1 in Hfuel; lia |].
      simpl. rewrite (inv_unreached HI _ Hd), Hd. reflexivity.
    + right. repeat split. intros Hr. apply Hreach in Hr as [q Hq]. congruence.
Qed.

(** ** From the PathFinder's graph to the graph of [dijkstra] *)

Lemma In_set (V : Type) (o : Obj.t V) (k x : string) (v y : V) :
  In (x, y) (Obj.set o k v) -> x = k /\ y = v \/ In (x, y) o.
Proof.
  induction o as [| [k' v'] r IH]; simpl.
  - intros [H | []]. inversion H. auto.
  - destruct (String.eqb k' k) eqn:E.
    + apply String.eqb_eq in E. subst k'.
      intros [H | H]; [inversion H; auto | auto].
    + destruct (before k k').
      * intros [H | H]; [inversion H; auto | auto].
      * intros [H | H]; [auto | destruct (IH H); auto].
Qed.

Lemma In_get_NoDup (V : Type) (o : Obj.t V) (k : string) (v : V) :
  NoDup (Obj.keys o) -> In (k, v) o -> Obj.get o k = Some v.
Proof.
  induction o as [| [k' v'] r IH]; simpl; [tauto |].
  intros Hnd [H | H].
  - inversion H; subst. now rewrite String.eqb_refl.
  - inversion Hnd as [| ? ? Hk' Hr]; subst.
    destruct (String.eqb k' k) eqn:E.
    + apply String.eqb_eq in E. subst k'. exfalso. apply Hk'.
      change k with (fst (k, v)). now apply in_map.
    + now apply IH.
Qed.

Lemma keys_In (V : Type) (o : Obj.t V) (k : string) :
  In k (Obj.keys o) -> exists v, In (k, v) o.
Proof.
  intros H. apply keys_get in H as [v Hv]. exists v. now apply get_In.
Qed.

Lemma In_keys (V : Type) (o : Obj.t V) (k : string) (v : V) :
  In (k, v) o -> In k (Obj.keys o).
Proof.
  intros H. unfold Obj.keys. change k with (fst (k, v)). now apply in_map.
Qed.

Section Convert.
Variable hav : Point -> Point -> Q.
Hypothesis hav_nonneg : forall a b, 0 <= hav a b.
Variable g : Obj.t Helper.Node.

Lemma convertNeighbors_spec (p : Point) (ids : list string) :
  (forall v, In v ids -> In v (Obj.keys g)) ->
  forall adj,
    (forall v w, In (v, w) adj -> 0 <= w) ->
    exists adj',
      Helper.convertNeighbors hav g p ids adj = Some adj'
      /\ (forall v, In v (Obj.keys adj') <-> In v ids \/ In v (Obj.keys adj))
      /\ (forall v w, In (v, w) adj' -> 0 <= w).
Proof.
  induction ids as [| i ids IH]; intros Hids adj Hadj; simpl.
  - exists adj. repeat split; auto. tauto.
  - destruct (keys_get _ _ (Hids i (or_introl eq_refl))) as [n Hn]. rewrite Hn.
    destruct (IH (fun v Hv => Hids v (or_intror Hv))
                (Obj.set adj i (hav p (Helper.point n)))) as [adj' [A [B C]]].
    + intros v w Hvw. apply In_set in Hvw as [[_ ->] | Hvw]; eauto.
    + exists adj'. split; [exact A |]. split; [| exact C].
      intros v. rewrite B, keys_set. intuition.
Qed.

Lemma convertEntries_spec (entries : list (string * Helper.Node)) :
  (forall k n v, In (k, n) entries -> In v (Helper.neighbors n) ->
                 In v (Obj.keys g)) ->
  NoDup (Obj.keys entries) ->
  forall graph,
    exists graph',
      Helper.convertEntries hav g entries graph = Some graph'
      /\ (forall k n, In (k, n) entries ->
            exists adj,
              Obj.get graph' k = Some adj
              /\ (forall v, In v (Obj.keys adj) <-> In v (Helper.neighbors n))
              /\ (forall v w, In (v, w) adj -> 0 <= w))
      /\ (forall k, ~ In k (Obj.keys entries) -> Obj.get graph' k = Obj.get graph k).
Proof.
  induction entries as [| [nodeId n] more IH]; intros Hcl Hnd graph; simpl.
  - exists graph. repeat split; auto. intros k n' [].
  - inversion Hnd as [| ? ? Hk Hmore]; subst.
    destruct (@convertNeighbors_spec (Helper.point n) (Helper.neighbors n)
                (fun v Hv => Hcl nodeId n v (or_introl eq_refl) Hv) [])
      as [adj [A [B C]]]; [intros v w [] |].
    rewrite A.
    destruct (IH (fun k n' v Hin Hv => Hcl k n' v (or_intror Hin) Hv) Hmore
                (Obj.set graph nodeId adj)) as [graph' [D [E F]]].
    exists graph'. split; [exact D |]. split.
    + intros k n' [H | H].
      * inversion H; subst k n'. exists adj. split.
        -- rewrite F by exact Hk. apply get_set_eq.
        -- split; [| exact C]. intros v. rewrite B. simpl. tauto.
      * now apply E.
    + intros k Hnk. rewrite F.
      * apply get_set_neq. intros ->. apply Hnk. now left.
      * intros H. apply Hnk. now right.
Qed.
End Convert.

(** The conversion succeeds on a closed graph without repeated keys; the
    result has the same nodes and the same edges, and it is well formed
    when the distance function is never negative. *)
Lemma convert_spec (hav : Point -> Point -> Q) (st : Helper.PathFinder) :
  (forall a b, 0 <= hav a b) ->
  NoDup (Obj.keys (Helper.nodes st)) -> closed st ->
  exists graph,
    Helper.convertGraphToDijkstraFormat hav st = Some graph
    /\ well_formed graph
    /\ (forall k, In k (Obj.keys graph) <-> In k (Obj.keys (Helper.nodes st)))
    /\ (forall u v, edge graph u v <-> linked st u v).
Proof.
  intros Hhav Hnd Hcl.
  destruct (@convertEntries_spec hav Hhav (Helper.nodes st) (Helper.nodes st)
              Hcl Hnd []) as [graph [A [B C]]].
  assert (Hkeys : forall k,
             In k (Obj.keys graph) <-> In k (Obj.keys (Helper.nodes st))).
  { intros k. split; intros H.
    - destruct (in_dec string_dec k (Obj.keys (Helper.nodes st))) as [Hin | Hin];
        [exact Hin |].
      apply keys_get in H as [adj Hadj]. rewrite C in Hadj by exact Hin.
      discriminate.
    - apply keys_In in H as [n Hn]. destruct (B _ _ Hn) as [adj [Hadj _]].
      eapply get_keys; eauto. }
  assert (Hnode : forall u adj,
             Obj.get graph u = Some adj ->
             exists n,
               Obj.get (Helper.nodes st) u = Some n
               /\ (forall v, In v (Obj.keys adj) <-> In v (Helper.neighbors n))
               /\ (forall v w, In (v, w) adj -> 0 <= w)).
  { intros u adj Hadj.
    assert (Hu : In u (Obj.keys (Helper.nodes st))).
    { apply Hkeys. eapply get_keys; eauto. }
    apply keys_In in Hu as [n Hn]. destruct (B _ _ Hn) as [adj' [Hadj' H]].
    rewrite Hadj in Hadj'. inversion Hadj'; subst adj'.
    exists n. split; [now apply In_get_NoDup | exact H]. }
  exists graph. split; [exact A |]. split; [| split; [exact Hkeys |]].
  - intros u adj v w Hadj Hvw.
    destruct (Hnode _ _ Hadj) as [n [Hn [Hk Hw]]]. split; [| eauto].
    apply Hkeys. apply (Hcl u n v); [now apply get_In |].
    apply Hk. eapply In_keys; eauto.
  - intros u v. split.
    + intros [adj [w [Hadj Hvw]]].
      destruct (Hnode _ _ Hadj) as [n [Hn [Hk _]]].
      exists n. split; [exact Hn |]. apply Hk. eapply In_keys; eauto.
    + intros [n [Hn Hv]]. destruct (B _ _ (get_In _ _ Hn)) as [adj [Hadj [Hk _]]].
      apply Hk in Hv. apply keys_In in Hv. destruct Hv as [w Hvw].
      exists adj, w. auto.
Qed.

(** ** [findShortestPath] of the dijkstra-helper variant *)

Lemma walk_impl (R R' : string -> string -> Prop) (s k : string) (p : list string) :
  (forall u v, R u v -> R' u v) -> Walk R s k p -> Walk R' s k p.
Proof.
  intros HR H. induction H; [constructor | econstructor; eauto].
Qed.

Lemma reachable_impl (R R' : string -> string -> Prop) (s k : string) :
  (forall u v, R u v -> R' u v) -> reachable R s k -> reachable R' s k.
Proof.
  intros HR H. induction H; [constructor | econstructor; eauto].
Qed.

Lemma walk_nonempty (R : string -> string -> Prop) (s k : string) (p : list string) :
  Walk R s k p -> p <> [].
Proof.
  intros H. destruct H; [discriminate |].
  intros E. apply app_eq_nil in E as [_ E]. discriminate.
Qed.

Lemma walk_ends (R : string -> string -> Prop) (s k : string) (p : list string) :
  Walk R s k p -> hd_error p = Some s /\ last p k = k.
Proof.
  intros H. induction H as [| u k p Hw [IH1 IH2] Hr].
  - auto.
  - split; [| apply last_last].
    destruct p; [discriminate IH1 | exact IH1].
Qed.

Lemma walk_in_graph (st : Helper.PathFinder) (a b : string) (p : list string) :
  closed st -> In a (Obj.keys (Helper.nodes st)) ->
  Walk (linked st) a b p ->
  forall k, In k p -> In k (Obj.keys (Helper.nodes st)).
Proof.
  intros Hcl Ha H. induction H as [| u k p Hw IH [n [Hn Hv]]]; intros x Hx.
  - destruct Hx as [<- | []]. exact Ha.
  - apply in_app_or in Hx as [Hx | [<- | []]]; [now apply IH |].
    eapply Hcl; [eapply get_In; eauto | exact Hv].
Qed.

Lemma pointsOf_defined (g : Obj.t Helper.Node) (p : list string) :
  (forall k, In k p -> In k (Obj.keys g)) ->
  exists ps, Helper.pointsOf g p = Some ps.
Proof.
  induction p as [| k p IH]; intros H; simpl; [eauto |].
  destruct (keys_get _ _ (H k (or_introl eq_refl))) as [n Hn]. rewrite Hn.
  destruct IH as [ps Hps]; [intros x Hx; apply H; now right |].
  rewrite Hps. eauto.
Qed.

(** On a closed graph without repeated keys, with a distance function that
    is never negative, [findShortestPath] returns a result for every two
    nodes and every large enough [fuel]: a walk from the first to the
    second with a finite distance if there is one, and otherwise the
    destination alone with distance [Infinity]. *)
Lemma Helper_findShortestPath_spec (hav bearing : Point -> Point -> Q)
  (st : Helper.PathFinder) (startId endId : string) :
  (forall a b, 0 <= hav a b) ->
  NoDup (Obj.keys (Helper.nodes st)) -> closed st ->
  In startId (Obj.keys (Helper.nodes st)) ->
  In endId (Obj.keys (Helper.nodes st)) ->
  exists (fuel0 : nat) (r : Helper.PathResult),
    (forall fuel, (fuel0 <= fuel)%nat ->
       Helper.findShortestPath hav bearing fuel st startId endId
       = Returned (Some r))
    /\ (Walk (linked st) startId endId (Helper.resultPath r)
        /\ (exists q, Helper.resultDistance r = Some (Fin q))
        \/ ~ reachable (linked st) startId endId
           /\ Helper.resultPath r = [endId]
           /\ Helper.resultDistance r = Some Inf).
Proof.
  intros Hhav Hnd Hcl Hs He.
  destruct (@convert_spec hav st Hhav Hnd Hcl) as [graph [Hconv [Hwf [Hkeys Hedge]]]].
  destruct (@dijkstra_spec graph startId endId Hwf
              (proj2 (Hkeys _) Hs) (proj2 (Hkeys _) He))
    as [fuel0 [r [Hrun Hr]]].
  assert (Hpts : exists ps, Helper.pointsOf (Helper.nodes st) (Helper.path r) = Some ps
                            /\ Helper.path r <> []).
  { destruct Hr as [[_ Hw] | [_ [Hp _]]].
    - apply walk_impl with (R' := linked st) in Hw; [| intros u v; apply Hedge].
      destruct (@pointsOf_defined (Helper.nodes st) (Helper.path r)) as [ps Hps].
      + exact (@walk_in_graph st startId endId (Helper.path r) Hcl Hs Hw).
      + exists ps. split; [exact Hps | eapply walk_nonempty; eauto].
    - rewrite Hp. destruct (@pointsOf_defined (Helper.nodes st) [endId]) as [ps Hps].
      + intros k [<- | []]. exact He.
      + exists ps. split; [exact Hps | discriminate]. }
  destruct Hpts as [ps [Hps Hne]].
  exists fuel0,
    {| Helper.resultPath := Helper.path r;
       Helper.resultDistance := Helper.distance r;
       Helper.coordinates := ps;
       Helper.instructions := Helper.generateInstructions hav bearing ps |}.
  split.
  - intros fuel Hfuel. unfold Helper.findShortestPath.
    apply has_true in Hs. apply has_true in He. rewrite Hs, He. simpl.
    rewrite Hconv, (Hrun fuel Hfuel), Hps.
    destruct (Helper.path r); [congruence | reflexivity].
  - simpl. destruct Hr as [[Hq Hw] | [Hd [Hp Hn]]].
    + left. split; [| exact Hq].
      eapply walk_impl; [| exact Hw]. intros u v. apply Hedge.
    + right. split; [| auto]. intros H. apply Hn.
      eapply reachable_impl; [| exact H]. intros u v. apply Hedge.
Qed.

(** ** [findShortestPath] of [utils/pathfinding.ts] *)

Lemma Legacy_relax_inv (g : Obj.t Legacy.GraphNode) (start current : string)
  (n : Legacy.GraphNode) (s : Legacy.Search) (e : string * Q) :
  Obj.get g current = Some n -> In e (Legacy.neighbors n) ->
  LegacyInv g start s -> LegacyInv g start (Legacy.relax current s e).
Proof.
  intros Hn He HI. unfold Legacy.relax.
  destruct (mem (fst e) (Legacy.visited s)); [exact HI |].
  destruct (Obj.get (Legacy.distances s) current) as [dc |] eqn:Hc; [| exact HI].
  destruct (Obj.get (Legacy.distances s) (fst e)) as [dn |] eqn:Hd; [| exact HI].
  destruct (ext_ltb (ext_add dc (Fin (snd e))) dn) eqn:E; [| exact HI].
  destruct dc as [qc |]; [| discriminate E].
  constructor; cbn [Legacy.distances Legacy.unvisited].
  - intros k Hk. rewrite get_set. destruct (String.eqb (fst e) k); [eauto |].
    now apply (linv_dom HI).
  - intros k q. rewrite get_set. destruct (String.eqb (fst e) k) eqn:Ek.
    + apply String.eqb_eq in Ek. subst k. intros _.
      eapply reach_step; [exact (linv_sound HI _ Hc) |].
      exists n. split; [exact Hn |]. destruct e as [v w]. eapply In_keys; eauto.
    + apply (linv_sound HI).
  - exact (linv_unvisited HI).
Qed.

Lemma Legacy_relax_fold_inv (g : Obj.t Legacy.GraphNode) (start current : string)
  (n : Legacy.GraphNode) (edges : list (string * Q)) :
  Obj.get g current = Some n -> incl edges (Legacy.neighbors n) ->
  forall s, LegacyInv g start s ->
            LegacyInv g start (fold_left (Legacy.relax current) edges s).
Proof.
  intros Hn. induction edges as [| e r IH]; intros Hincl s HI; [exact HI |].
  cbn [fold_left]. apply IH.
  - intros x Hx. apply Hincl. now right.
  - eapply Legacy_relax_inv; eauto. apply Hincl. now left.
Qed.

Lemma Legacy_relax_unvisited (current : string) (s : Legacy.Search) (e : string * Q) :
  Legacy.unvisited (Legacy.relax current s e) = Legacy.unvisited s.
Proof.
  unfold Legacy.relax.
  destruct (mem (fst e) (Legacy.visited s)); [reflexivity |].
  destruct (Obj.get (Legacy.distances s) current); [| reflexivity].
  destruct (Obj.get (Legacy.distances s) (fst e)); [| reflexivity].
  destruct (ext_ltb _ _); reflexivity.
Qed.

Lemma Legacy_relax_fold_unvisited (current : string) (edges : list (string * Q)) :
  forall s, Legacy.unvisited (fold_left (Legacy.relax current) edges s)
            = Legacy.unvisited s.
Proof.
  induction edges as [| e r IH]; intros s; [reflexivity |].
  cbn [fold_left]. rewrite IH. apply Legacy_relax_unvisited.
Qed.

Lemma Legacy_smallest_spec (s : Legacy.Search) (c : string) (q : Q) :
  Legacy.smallest s = (c, Fin q) ->
  In c (Legacy.unvisited s) /\ Obj.get (Legacy.distances s) c = Some (Fin q).
Proof.
  unfold Legacy.smallest.
  assert (H : forall l acc,
             fold_left
               (fun (acc : string * ext) nodeId =>
                  match Obj.get (Legacy.distances s) nodeId with
                  | Some d => if ext_ltb d (snd acc) then (nodeId, d) else acc
                  | None => acc
                  end) l acc = (c, Fin q) ->
             acc = (c, Fin q)
             \/ In c l /\ Obj.get (Legacy.distances s) c = Some (Fin q)).
  { induction l as [| x r IH]; intros acc Hf; [now left |].
    cbn [fold_left] in Hf. apply IH in Hf as [Hf | [Hf1 Hf2]].
    - destruct (Obj.get (Legacy.distances s) x) as [d |] eqn:Ex; [| now left].
      destruct (ext_ltb d (snd acc)); [| now left].
      inversion Hf; subst. right. split; [now left | exact Ex].
    - right. split; [now right | exact Hf2]. }
  intros Hs. apply H in Hs as [Hs | Hs]; [discriminate | exact Hs].
Qed.

Lemma removeId_length (c : string) (l : list string) :
  In c l -> (List.length (Legacy.removeId c l) < List.length l)%nat.
Proof.
  unfold Legacy.removeId. induction l as [| x r IH]; intros H; [contradiction |].
  cbn [filter]. destruct (String.eqb x c) eqn:E; cbn [negb List.length].
  - pose proof (filter_length_le (fun x0 => negb (String.eqb x0 c)) r). lia.
  - destruct H as [H | H]; [subst; rewrite String.eqb_refl in E; discriminate |].
    specialize (IH H). lia.
Qed.

Lemma removeId_incl (c : string) (l : list string) : incl (Legacy.removeId c l) l.
Proof. unfold Legacy.removeId. intros x Hx. now apply filter_In in Hx. Qed.

Lemma Legacy_search_unfold (fuel : nat) (g : Obj.t Legacy.GraphNode)
  (endId : string) (s : Legacy.Search) :
  Legacy.search (S fuel) g endId s
  = match Legacy.unvisited s with
    | [] => Returned (Some s)
    | _ :: _ =>
        let '(currentId, smallestDistance) := Legacy.smallest s in
        match smallestDistance with
        | Inf => Returned None
        | Fin _ =>
            if String.eqb currentId endId then Returned (Some s)
            else
              let s1 :=
                {| Legacy.distances := Legacy.distances s;
                   Legacy.previous := Legacy.previous s;
                   Legacy.visited := Legacy.visited s ++ [currentId];
                   Legacy.unvisited := Legacy.removeId currentId (Legacy.unvisited s) |} in
              match Obj.get g currentId with
              | Some currentNode =>
                  Legacy.search fuel g endId
                    (fold_left (Legacy.relax currentId)
                       (Legacy.neighbors currentNode) s1)
              | None => Threw
              end
        end
    end.
Proof. reflexivity. Qed.

Section LegacySearch.
Variable g : Obj.t Legacy.GraphNode.
Variables start endId : string.

Lemma Legacy_visit_inv (s : Legacy.Search) (c : string) (n : Legacy.GraphNode) :
  LegacyInv g start s -> Obj.get g c = Some n ->
  LegacyInv g start
    (fold_left (Legacy.relax c) (Legacy.neighbors n)
       {| Legacy.distances := Legacy.distances s;
          Legacy.previous := Legacy.previous s;
          Legacy.visited := Legacy.visited s ++ [c];
          Legacy.unvisited := Legacy.removeId c (Legacy.unvisited s) |}).
Proof.
  intros HI Hn. eapply Legacy_relax_fold_inv; [exact Hn | apply incl_refl |].
  constructor; cbn [Legacy.distances Legacy.unvisited].
  - apply (linv_dom HI).
  - apply (linv_sound HI).
  - intros x Hx. apply (linv_unvisited HI). eapply removeId_incl; eauto.
Qed.

(** The search keeps the invariant. *)
Lemma Legacy_search_inv (fuel : nat) :
  forall s s', LegacyInv g start s ->
               Legacy.search fuel g endId s = Returned (Some s') ->
               LegacyInv g start s'.
Proof.
  induction fuel as [| fuel IH]; intros s s' HI H.
  - simpl in H. destruct (Legacy.unvisited s); [| discriminate].
    inversion H; subst. exact HI.
  - rewrite Legacy_search_unfold in H.
    destruct (Legacy.unvisited s) as [| x l] eqn:Eu;
      [inversion H; subst; exact HI |].
    destruct (Legacy.smallest s) as [c [q |]] eqn:Es; [| discriminate].
    destruct (String.eqb c endId); [inversion H; subst; exact HI |].
    cbv zeta in H.
    destruct (Obj.get g c) as [n |] eqn:En; [| discriminate].
    rewrite <- Eu in H.
    eapply IH; [| exact H]. now apply Legacy_visit_inv.
Qed.

(** The search ends within as many rounds as there are unvisited nodes. *)
Lemma Legacy_search_ends (fuel : nat) :
  forall s, LegacyInv g start s ->
            (List.length (Legacy.unvisited s) < fuel)%nat ->
            exists r, Legacy.search fuel g endId s = Returned r.
Proof.
  induction fuel as [| fuel IH]; intros s HI Hfuel; [lia |].
  rewrite Legacy_search_unfold.
  destruct (Legacy.unvisited s) as [| x l] eqn:Eu; [eauto |].
  destruct (Legacy.smallest s) as [c [q |]] eqn:Es; [| eauto].
  destruct (String.eqb c endId); [eauto |].
  cbv zeta.
  apply Legacy_smallest_spec in Es as [Hc _].
  assert (Hk : In c (Obj.keys g)) by (apply (linv_unvisited HI); exact Hc).
  apply keys_get in Hk as [n Hn]. rewrite Hn.
  pose proof (removeId_length c (Legacy.unvisited s) Hc) as Hlen.
  rewrite <- Eu.
  apply IH; [now apply Legacy_visit_inv |].
  rewrite Legacy_relax_fold_unvisited. cbn [Legacy.unvisited].
  rewrite <- Eu in Hfuel. lia.
Qed.
End LegacySearch.

Lemma Legacy_init_inv (g : Obj.t Legacy.GraphNode) (start : string) :
  LegacyInv g start (Legacy.initSearch g start).
Proof.
  constructor; unfold Legacy.initSearch; cbn [Legacy.distances Legacy.unvisited].
  - intros k Hk. rewrite get_set, get_fold_set.
    destruct (String.eqb start k); [eauto |].
    apply mem_In in Hk. rewrite Hk. eauto.
  - intros k q. rewrite get_set, get_fold_set.
    destruct (String.eqb start k) eqn:E.
    + apply String.eqb_eq in E. subst k. intros _. constructor.
    + destruct (mem k (Obj.keys g)); discriminate.
  - apply incl_refl.
Qed.

Lemma Legacy_rebuild_spec (previous : Obj.t (option string)) (startId : string)
  (fuel : nat) :
  forall (currentId : string) (acc p : list string),
    Legacy.rebuild fuel previous startId currentId acc = Returned (Some p) ->
    hd_error p = Some startId /\ exists pre, p = pre ++ currentId :: acc.
Proof.
  induction fuel as [| fuel IH]; intros c acc p H.
  - simpl in H. destruct (String.eqb c startId) eqn:E; [| discriminate].
    apply String.eqb_eq in E. subst c. inversion H; subst.
    split; [reflexivity | exists []; reflexivity].
  - simpl in H. destruct (String.eqb c startId) eqn:E.
    + apply String.eqb_eq in E. subst c. inversion H; subst.
      split; [reflexivity | exists []; reflexivity].
    + destruct (Obj.get previous c) as [[pv |] |]; try discriminate.
      apply IH in H as [H1 [pre H2]]. split; [exact H1 |].
      exists (pre ++ [pv]). rewrite <- app_assoc. exact H2.
Qed.

(** When the [findShortestPath] of [utils/pathfinding.ts] returns a
    result, its path runs from the source to the destination over edges of
    the graph and its distance is finite. *)
Lemma Legacy_findShortestPath_success (fuel : nat) (st : Legacy.PathFinder)
  (startId endId : string) (r : Legacy.PathResult) :
  Legacy.findShortestPath fuel st startId endId = Returned (Some r) ->
  hd_error (Legacy.path r) = Some startId
  /\ last (Legacy.path r) startId = endId
  /\ Legacy.connected (Legacy.nodes st) (Legacy.path r) = true
  /\ (exists q, Legacy.distance r = Some (Fin q))
  /\ reachable (legacy_edge (Legacy.nodes st)) startId endId.
Proof.
  unfold Legacy.findShortestPath.
  destruct (negb (Legacy.isInitialized st)
            || negb (Obj.has (Legacy.nodes st) startId)
            || negb (Obj.has (Legacy.nodes st) endId)) eqn:G; [discriminate |].
  apply orb_false_iff in G as [_ He]. apply negb_false_iff in He.
  destruct (Legacy.search fuel (Legacy.nodes st) endId
              (Legacy.initSearch (Legacy.nodes st) startId))
    as [[s |] | |] eqn:Es; try discriminate.
  apply Legacy_search_inv with (start := startId) in Es;
    [| apply Legacy_init_inv].
  assert (Hk : In endId (Obj.keys (Legacy.nodes st))).
  { unfold Obj.has in He. destruct (Obj.get (Legacy.nodes st) endId) eqn:E;
      [eapply get_keys; eauto | discriminate]. }
  destruct (linv_dom Es _ Hk) as [d Hd]. rewrite Hd.
  destruct d as [q |]; [| discriminate].
  destruct (Legacy.rebuild fuel (Legacy.previous s) startId endId [])
    as [[p |] | |] eqn:Er; try discriminate.
  destruct (List.length p <? 2)%nat; [discriminate |].
  destruct (Legacy.connected (Legacy.nodes st) p) eqn:Ec; [| discriminate].
  intros [= <-]. cbn [Legacy.path Legacy.distance].
  apply Legacy_rebuild_spec in Er as [H1 [pre H2]].
  split; [exact H1 |]. split; [rewrite H2; apply last_last |].
  split; [exact Ec |]. split; [eauto |].
  exact (linv_sound Es _ Hd).
Qed.

(** It fails, within as many rounds as the graph has nodes, when the
    destination cannot be reached. *)
Lemma Legacy_findShortestPath_unreachable (fuel : nat) (st : Legacy.PathFinder)
  (startId endId : string) :
  ~ reachable (legacy_edge (Legacy.nodes st)) startId endId ->
  (List.length (Obj.keys (Legacy.nodes st)) < fuel)%nat ->
  Legacy.findShortestPath fuel st startId endId = Returned None.
Proof.
  intros Hn Hfuel. unfold Legacy.findShortestPath.
  destruct (negb (Legacy.isInitialized st)
            || negb (Obj.has (Legacy.nodes st) startId)
            || negb (Obj.has (Legacy.nodes st) endId)) eqn:G; [reflexivity |].
  apply orb_false_iff in G as [_ He]. apply negb_false_iff in He.
  pose proof (Legacy_init_inv (Legacy.nodes st) startId) as HI.
  destruct (@Legacy_search_ends (Legacy.nodes st) startId endId fuel _ HI Hfuel)
    as [r Hr].
  rewrite Hr. destruct r as [s |]; [| reflexivity].
  apply Legacy_search_inv with (start := startId) in Hr; [| exact HI].
  assert (Hk : In endId (Obj.keys (Legacy.nodes st))).
  { unfold Obj.has in He. destruct (Obj.get (Legacy.nodes st) endId) eqn:E;
      [eapply get_keys; eauto | discriminate]. }
  destruct (linv_dom Hr _ Hk) as [d Hd]. rewrite Hd.
  destruct d as [q |]; [| reflexivity].
  exfalso. apply Hn. exact (linv_sound Hr _ Hd).
Qed.

(** ** An unreachable destination *)

(** C1 at a failing input: two roads that do not meet.  Asked for a path
    from node 1 to node 3, the [findShortestPath] of the dijkstra-helper
    variant returns a result whose path is the destination alone and whose
    distance is [Infinity]; that of [utils/pathfinding.ts] returns [null]
    on the same roads.  The same happens on every graph whose neighbor
    lists name nodes of the graph only: whenever the destination cannot be
    reached, the dijkstra-helper variant returns such a result for every
    large enough [fuel].  The [findShortestPath] of [utils/pathfinding.ts]
    does what the claim says: its results run from the source to the
    destination with a finite distance, and it fails when the destination
    cannot be reached. *)
Theorem Helper_unreachable_destination_yields_result :
  helperAdjacency (helperOn twoIslands)
  = [("1", ["2"]); ("2", ["1"]); ("3", ["4"]); ("4", ["3"])]
  /\ Helper.findShortestPath cityBlock northBearing 10
       (helperOn twoIslands) "1" "3"
     = Returned
         (Some {| Helper.resultPath := ["3"];
                  Helper.resultDistance := Some Inf;
                  Helper.coordinates := [mkPoint (2 # 100) 0];
                  Helper.instructions := [] |})
  /\ Legacy.findShortestPath 10 (legacyOn twoIslands) "osm_1" "osm_3"
     = Returned None
  /\ (forall (hav bearing : Point -> Point -> Q) (st : Helper.PathFinder)
             (startId endId : string),
        (forall a b, 0 <= hav a b) ->
        NoDup (Obj.keys (Helper.nodes st)) -> closed st ->
        In startId (Obj.keys (Helper.nodes st)) ->
        In endId (Obj.keys (Helper.nodes st)) ->
        ~ reachable (linked st) startId endId ->
        exists (fuel0 : nat) (r : Helper.PathResult),
          (forall fuel, (fuel0 <= fuel)%nat ->
             Helper.findShortestPath hav bearing fuel st startId endId
             = Returned (Some r))
          /\ Helper.resultPath r = [endId]
          /\ Helper.resultDistance r = Some Inf)
  /\ (forall (fuel : nat) (st : Legacy.PathFinder) (startId endId : string)
             (r : Legacy.PathResult),
        Legacy.findShortestPath fuel st startId endId = Returned (Some r) ->
        hd_error (Legacy.path r) = Some startId
        /\ last (Legacy.path r) startId = endId
        /\ exists q, Legacy.distance r = Some (Fin q))
  /\ (forall (fuel : nat) (st : Legacy.PathFinder) (startId endId : string),
        ~ reachable (legacy_edge (Legacy.nodes st)) startId endId ->
        (List.length (Obj.keys (Legacy.nodes st)) < fuel)%nat ->
        Legacy.findShortestPath fuel st startId endId = Returned None).
Proof.
  split; [vm_compute; reflexivity |].
  split; [vm_compute; reflexivity |].
  split; [vm_compute; reflexivity |].
  split; [| split].
  - intros hav bearing st startId endId Hhav Hnd Hcl Hs He Hn.
    destruct (@Helper_findShortestPath_spec hav bearing st startId endId
                Hhav Hnd Hcl Hs He)
      as [fuel0 [r [Hrun [[Hw _] | [_ [Hp Hd]]]]]].
    + exfalso. apply Hn. eapply walk_reachable. exact Hw.
    + exists fuel0, r. auto.
  - intros fuel st startId endId r H.
    apply Legacy_findShortestPath_success in H as [H1 [H2 [_ [H3 _]]]]. auto.
  - intros fuel st startId endId. apply Legacy_findShortestPath_unreachable.
Qed.

(** ** Checked properties of adjacency lists *)

Lemma distinct_NoDup (l : list string) : distinct l = true -> NoDup l.
Proof.
  induction l as [| x r IH]; simpl; [constructor |].
  intros H. apply andb_true_iff in H as [H1 H2].
  apply negb_true_iff, mem_false in H1. constructor; auto.
Qed.

Lemma helperAdjacency_keys (st : Helper.PathFinder) :
  map fst (helperAdjacency st) = Obj.keys (Helper.nodes st).
Proof. unfold helperAdjacency, Obj.keys. rewrite map_map. reflexivity. Qed.

Lemma neighborsIn_adjacency (st : Helper.PathFinder) (u : string) :
  neighborsIn (helperAdjacency st) u
  = match Obj.get (Helper.nodes st) u with
    | Some n => Helper.neighbors n
    | None => []
    end.
Proof.
  unfold neighborsIn, helperAdjacency.
  induction (Helper.nodes st) as [| [k n] g IH]; simpl; [reflexivity |].
  destruct (String.eqb k u); [reflexivity | exact IH].
Qed.

Lemma linked_neighborsIn (st : Helper.PathFinder) (u v : string) :
  linked st u v <-> In v (neighborsIn (helperAdjacency st) u).
Proof.
  rewrite neighborsIn_adjacency. unfold linked. split.
  - intros [n [Hn Hv]]. now rewrite Hn.
  - destruct (Obj.get (Helper.nodes st) u) as [n |]; [eauto | contradiction].
Qed.

Lemma closedb_closed (st : Helper.PathFinder) :
  closedb (helperAdjacency st) = true -> closed st.
Proof.
  unfold closedb. rewrite helperAdjacency_keys. intros H k n v Hkn Hv.
  rewrite forallb_forall in H.
  specialize (H (k, Helper.neighbors n)). simpl in H.
  rewrite forallb_forall in H. apply mem_In. apply H; [| exact Hv].
  unfold helperAdjacency.
  change (k, Helper.neighbors n)
    with ((fun kn : string * Helper.Node => (fst kn, Helper.neighbors (snd kn))) (k, n)).
  now apply in_map.
Qed.

Lemma union_In (seen xs : list string) (x : string) :
  In x (union seen xs) -> In x seen \/ In x xs.
Proof.
  revert seen. induction xs as [| y r IH]; intros seen H; simpl in H; [auto |].
  apply IH in H as [H | H]; [| now right; right].
  destruct (mem y seen); [now left |].
  destruct H as [<- | H]; [right; now left | now left].
Qed.

Lemma closure_sound (st : Helper.PathFinder) (a : string) (n : nat) :
  forall frontier,
    (forall x, In x frontier -> reachable (linked st) a x) ->
    forall y, In y (closure (helperAdjacency st) n frontier) ->
              reachable (linked st) a y.
Proof.
  induction n as [| n IH]; intros frontier Hf y Hy; simpl in Hy; [auto |].
  apply IH in Hy; [exact Hy |].
  intros x Hx. apply union_In in Hx as [Hx | Hx]; [auto |].
  apply in_flat_map in Hx as [u [Hu Hx]].
  eapply reach_step; [apply Hf; exact Hu | now apply linked_neighborsIn].
Qed.

Lemma connectedb_connected (st : Helper.PathFinder) (n : nat) :
  connectedb (helperAdjacency st) n = true ->
  forall a b,
    In a (Obj.keys (Helper.nodes st)) -> In b (Obj.keys (Helper.nodes st)) ->
    reachable (linked st) a b.
Proof.
  unfold connectedb. rewrite helperAdjacency_keys. intros H a b Ha Hb.
  rewrite forallb_forall in H. specialize (H a Ha).
  rewrite forallb_forall in H. specialize (H b Hb). apply mem_In in H.
  eapply closure_sound; [| exact H].
  intros x [<- | []]. constructor.
Qed.

(** ** The demo network *)

Lemma demo_adjacency (st : Helper.PathFinder) (center : Point) :
  helperAdjacency (Helper.createDemoNetwork st center) = demoGrid.
Proof. vm_compute. reflexivity. Qed.

Lemma range_gridSize (i : Z) :
  (0 <= i < 5)%Z -> In i (Helper.range Helper.gridSize).
Proof.
  intros H. assert (Hi : i = 0%Z \/ i = 1%Z \/ i = 2%Z \/ i = 3%Z \/ i = 4%Z) by lia.
  simpl. intuition.
Qed.

Lemma demo_node (st : Helper.PathFinder) (center : Point) (i j : Z) :
  (0 <= i < 5)%Z -> (0 <= j < 5)%Z ->
  Obj.get (Helper.nodes (Helper.createDemoNetwork st center)) (Helper.gridId i j)
  = Some (Helper.gridNode center i j).
Proof.
  intros Hi Hj.
  assert (Hi' : i = 0%Z \/ i = 1%Z \/ i = 2%Z \/ i = 3%Z \/ i = 4%Z) by lia.
  assert (Hj' : j = 0%Z \/ j = 1%Z \/ j = 2%Z \/ j = 3%Z \/ j = 4%Z) by lia.
  destruct Hi' as [-> | [-> | [-> | [-> | ->]]]];
    destruct Hj' as [-> | [-> | [-> | [-> | ->]]]];
    vm_compute; reflexivity.
Qed.

Lemma demo_orthogonal (i j i' j' : Z) :
  (0 <= i < 5)%Z -> (0 <= j < 5)%Z -> (0 <= i' < 5)%Z -> (0 <= j' < 5)%Z ->
  In (Helper.gridId i' j') (neighborsIn demoGrid (Helper.gridId i j))
  <-> (Z.abs (i - i') + Z.abs (j - j') = 1)%Z.
Proof.
  intros Hi Hj Hi' Hj'.
  assert (H : orthogonalb demoGrid = true) by (vm_compute; reflexivity).
  unfold orthogonalb in H.
  rewrite forallb_forall in H. specialize (H i (range_gridSize Hi)).
  rewrite forallb_forall in H. specialize (H j (range_gridSize Hj)).
  rewrite forallb_forall in H. specialize (H i' (range_gridSize Hi')).
  rewrite forallb_forall in H. specialize (H j' (range_gridSize Hj')).
  apply Bool.eqb_prop in H. rewrite <- mem_In, H. apply Z.eqb_eq.
Qed.

Lemma cityBlock_nonneg (a b : Point) : 0 <= cityBlock a b.
Proof.
  unfold cityBlock.
  pose proof (Qabs_nonneg (latitude a - latitude b)).
  pose proof (Qabs_nonneg (longitude a - longitude b)).
  nra.
Qed.

Lemma demo_position (center : Point) (i j : Z) :
  latitude (Helper.point (Helper.gridNode center i j))
  == latitude center + (inject_Z i - 5 / 2) * (1 # 1000)
  /\ longitude (Helper.point (Helper.gridNode center i j))
     == longitude center + (inject_Z j - 5 / 2) * (1 # 1000).
Proof. split; reflexivity. Qed.

Lemma demo_offset (c : Q) (i : Z) :
  (0 <= i < 5)%Z ->
  Qabs (c + (inject_Z i - 5 / 2) * (1 # 1000) - c) <= 25 # 10000.
Proof.
  intros Hi.
  assert (H0 : inject_Z 0 <= inject_Z i) by (rewrite <- Zle_Qle; lia).
  assert (H4 : inject_Z i <= inject_Z 4) by (rewrite <- Zle_Qle; lia).
  change (inject_Z 0) with 0 in H0. change (inject_Z 4) with 4 in H4.
  change (5 / 2) with (5 # 2).
  generalize dependent (inject_Z i). intros x H0 H4.
  apply Qabs_Qle_condition. split; lra.
Qed.

Lemma demo_keys (st : Helper.PathFinder) (center : Point) :
  Obj.keys (Helper.nodes (Helper.createDemoNetwork st center))
  = ["0-0"; "0-1"; "0-2"; "0-3"; "0-4";
     "1-0"; "1-1"; "1-2"; "1-3"; "1-4";
     "2-0"; "2-1"; "2-2"; "2-3"; "2-4";
     "3-0"; "3-1"; "3-2"; "3-3"; "3-4";
     "4-0"; "4-1"; "4-2"; "4-3"; "4-4"].
Proof. vm_compute. reflexivity. Qed.

(** C10: in the dijkstra-helper variant, when the fetch is attempted and
    fails, [fetchRoadNetwork] returns with the instance marked initialized
    and the graph replaced by a grid of 25 nodes around the center, with
    the keys ["0-0"] to ["4-4"] row by row: the node [i-j] carries its key
    as id, sits at latitude [center.latitude + (i - 5/2) * 0.001] and
    longitude [center.longitude + (j - 5/2) * 0.001], so that no two nodes
    share a position and all lie within 0.0025 degrees of the center, and
    its neighbors are exactly the grid nodes next to it in its row and its
    column; every grid node can be reached from every other; and
    [findShortestPath] between any two grid nodes returns, for every large
    enough [fuel], a result whose path walks from the first to the second
    and whose distance is finite.  The distance function is assumed never
    negative. *)
Theorem demo_network_on_failed_fetch (hav bearing : Point -> Point -> Q)
  (st : Helper.PathFinder) (center : Point) (radius : Q) :
  (forall a b, 0 <= hav a b) ->
  Helper.alreadyFetched hav st center radius = false ->
  let st' := Helper.fetchRoadNetwork hav st center radius FetchFailed in
  Helper.initialized st' = true
  /\ List.length (Helper.nodes st') = 25%nat
  /\ NoDup (Obj.keys (Helper.nodes st'))
  /\ closed st'
  /\ Obj.keys (Helper.nodes st')
     = ["0-0"; "0-1"; "0-2"; "0-3"; "0-4";
        "1-0"; "1-1"; "1-2"; "1-3"; "1-4";
        "2-0"; "2-1"; "2-2"; "2-3"; "2-4";
        "3-0"; "3-1"; "3-2"; "3-3"; "3-4";
        "4-0"; "4-1"; "4-2"; "4-3"; "4-4"]
  /\ (forall i j, (0 <= i < 5)%Z -> (0 <= j < 5)%Z ->
        exists node,
          Obj.get (Helper.nodes st') (Helper.gridId i j) = Some node
          /\ node = Helper.gridNode center i j
          /\ Helper.id node = Helper.gridId i j
          /\ latitude (Helper.point node)
             == latitude center + (inject_Z i - 5 / 2) * (1 # 1000)
          /\ longitude (Helper.point node)
             == longitude center + (inject_Z j - 5 / 2) * (1 # 1000)
          /\ Qabs (latitude (Helper.point node) - latitude center) <= 25 # 10000
          /\ Qabs (longitude (Helper.point node) - longitude center) <= 25 # 10000
          /\ (forall i' j', (0 <= i' < 5)%Z -> (0 <= j' < 5)%Z ->
                (In (Helper.gridId i' j') (Helper.neighbors node)
                 <-> (Z.abs (i - i') + Z.abs (j - j') = 1)%Z))
          /\ (forall i' j' node', (0 <= i' < 5)%Z -> (0 <= j' < 5)%Z ->
                Obj.get (Helper.nodes st') (Helper.gridId i' j') = Some node' ->
                latitude (Helper.point node') == latitude (Helper.point node) ->
                longitude (Helper.point node') == longitude (Helper.point node) ->
                i' = i /\ j' = j))
  /\ (forall a b,
        In a (Obj.keys (Helper.nodes st')) -> In b (Obj.keys (Helper.nodes st')) ->
        reachable (linked st') a b)
  /\ (forall a b,
        In a (Obj.keys (Helper.nodes st')) -> In b (Obj.keys (Helper.nodes st')) ->
        exists (fuel0 : nat) (r : Helper.PathResult),
          (forall fuel, (fuel0 <= fuel)%nat ->
             Helper.findShortestPath hav bearing fuel st' a b = Returned (Some r))
          /\ Walk (linked st') a b (Helper.resultPath r)
          /\ exists q, Helper.resultDistance r = Some (Fin q)).
Proof.
  intros Hhav Hnot st'.
  assert (Est : st' = Helper.createDemoNetwork st center).
  { unfold st', Helper.fetchRoadNetwork. now rewrite Hnot. }
  rewrite Est. clear st' Est.
  set (st' := Helper.createDemoNetwork st center).
  pose proof (demo_adjacency st center) as Hadj. fold st' in Hadj.
  assert (Hkeys : Obj.keys (Helper.nodes st') = map fst demoGrid).
  { rewrite <- Hadj. symmetry. apply helperAdjacency_keys. }
  assert (Hnd : NoDup (Obj.keys (Helper.nodes st'))).
  { rewrite Hkeys. apply distinct_NoDup. vm_compute. reflexivity. }
  assert (Hcl : closed st').
  { apply closedb_closed. rewrite Hadj. vm_compute. reflexivity. }
  assert (Hconn : forall a b,
             In a (Obj.keys (Helper.nodes st')) ->
             In b (Obj.keys (Helper.nodes st')) -> reachable (linked st') a b).
  { apply connectedb_connected with (n := 8%nat). rewrite Hadj.
    vm_compute. reflexivity. }
  split; [reflexivity |]. split.
  { rewrite <- (length_map fst). fold (Obj.keys (Helper.nodes st')).
    rewrite Hkeys. reflexivity. }
  split; [exact Hnd |]. split; [exact Hcl |].
  split; [apply demo_keys |]. split; [| split; [exact Hconn |]].
  - intros i j Hi Hj. exists (Helper.gridNode center i j).
    destruct (demo_position center i j) as [Hlat Hlon].
    split; [now apply demo_node |]. split; [reflexivity |].
    split; [reflexivity |]. split; [exact Hlat |]. split; [exact Hlon |].
    split; [rewrite Hlat; now apply demo_offset |].
    split; [rewrite Hlon; now apply demo_offset |].
    split.
    + intros i' j' Hi' Hj'.
      rewrite <- (demo_orthogonal Hi Hj Hi' Hj').
      rewrite <- Hadj, neighborsIn_adjacency. unfold st'.
      rewrite demo_node by assumption. reflexivity.
    + intros i' j' node' Hi' Hj' Hget Elat Elon.
      unfold st' in Hget. rewrite demo_node in Hget by assumption.
      injection Hget as <-.
      destruct (demo_position center i' j') as [Hlat' Hlon'].
      rewrite Hlat, Hlat' in Elat. rewrite Hlon, Hlon' in Elon.
      change (5 / 2) with (5 # 2) in Elat, Elon.
      assert (Ei : inject_Z i' == inject_Z i).
      { revert Elat. generalize (inject_Z i'), (inject_Z i), (latitude center).
        intros; lra. }
      assert (Ej : inject_Z j' == inject_Z j).
      { revert Elon. generalize (inject_Z j'), (inject_Z j), (longitude center).
        intros; lra. }
      split; apply (proj1 (inject_Z_injective _ _)); assumption.
  - intros a b Ha Hb.
    destruct (@Helper_findShortestPath_spec hav bearing st' a b Hhav Hnd Hcl Ha Hb)
      as [fuel0 [r [Hrun [[Hw Hq] | [Hn _]]]]].
    + exists fuel0, r. auto.
    + exfalso. apply Hn. now apply Hconn.
Qed.

Lemma demo_network_on_failed_fetch_witness :
  let st' :=
    Helper.fetchRoadNetwork cityBlock Helper.create (mkPoint 0 0) 1 FetchFailed in
  Helper.initialized st' = true
  /\ List.length (Helper.nodes st') = 25%nat
  /\ (exists node,
         Obj.get (Helper.nodes st') "3-1" = Some node
         /\ latitude (Helper.point node) == 5 # 10000
         /\ longitude (Helper.point node) == - (15 # 10000))
  /\ (exists (fuel0 : nat) (r : Helper.PathResult),
         (forall fuel, (fuel0 <= fuel)%nat ->
            Helper.findShortestPath cityBlock northBearing fuel st' "0-0" "4-4"
            = Returned (Some r))
         /\ Walk (linked st') "0-0" "4-4" (Helper.resultPath r)
         /\ exists q, Helper.resultDistance r = Some (Fin q)).
Proof.
  destruct (@demo_network_on_failed_fetch cityBlock northBearing Helper.create
              (mkPoint 0 0) 1 cityBlock_nonneg eq_refl)
    as [Hi [Hlen [_ [_ [_ [Hgrid [_ Hpath]]]]]]].
  split; [exact Hi |]. split; [exact Hlen |]. split.
  - destruct (Hgrid 3%Z 1%Z) as [node [Hget [_ [_ [Hlat [Hlon _]]]]]]; [lia | lia |].
    exists node. split; [exact Hget |].
    split; [rewrite Hlat | rewrite Hlon]; reflexivity.
  - apply Hpath; vm_compute; tauto.
Defined.

(** * Further properties *)

(** ** [dijkstra] finds shortest routes *)

Section Shortest.
Variable graph : Helper.Graph.
Variable start : string.
Hypothesis Hwf : well_formed graph.

Lemma route_nonneg (k : string) (p : list string) (W : Q) :
  Route graph start k p W -> 0 <= W.
Proof.
  intros H. induction H as [| u k p W w adj Hr IH Hadj Hin]; [lra |].
  destruct (@Hwf u adj k w Hadj Hin) as [_ Hw]. lra.
Qed.

Lemma relax_linked (current : string) (qc : Q) (settled : list string)
  (s : Helper.Search) (adj : Obj.t Q) (v : string) (w : Q) :
  Mid graph start current qc settled s ->
  Obj.get graph current = Some adj -> In (v, w) adj ->
  Linked graph s -> Linked graph (Helper.relax current s (v, w)).
Proof.
  intros [HI [Hc HM]] Hadj Hin HL.
  destruct (@Hwf current adj v w Hadj Hin) as [Hvk Hw].
  unfold Helper.relax. cbn [fst snd]. rewrite Hc.
  destruct (Obj.get (Helper.distances s) v) as [dn |] eqn:Hdn; [| exact HL].
  change (ext_add (Fin qc) (Fin w)) with (Fin (qc + w)).
  destruct (ext_ltb (Fin (qc + w)) dn) eqn:E; [| exact HL].
  assert (Hvc : v <> current).
  { intros ->. rewrite Hc in Hdn. inversion Hdn; subst dn.
    apply ext_ltb_Fin in E. lra. }
  assert (HvD : ~ In v settled).
  { intros Hs. destruct (inv_settled HI v (or_intror Hs)) as [qv Hqv].
    rewrite Hqv in Hdn. inversion Hdn; subst dn.
    apply ext_ltb_Fin in E.
    pose proof (HM v qv (or_intror Hs) Hqv). lra. }
  intros k u. cbn [Helper.distances Helper.previous].
  rewrite get_set. destruct (String.eqb v k) eqn:Ek.
  - apply String.eqb_eq in Ek. subst k. intros [= <-].
    exists qc, adj, w. rewrite get_set_neq by exact Hvc.
    rewrite get_set_eq. auto.
  - intros Hk. apply String.eqb_neq in Ek.
    destruct (inv_link HI _ Hk) as [Hu _].
    destruct (HL k u Hk) as [qu [adj' [w' [H1 [H2 [H3 H4]]]]]].
    exists qu, adj', w'.
    assert (Hvu : v <> u).
    { intros ->. destruct Hu as [Hu | Hu]; [congruence | contradiction]. }
    rewrite !get_set_neq by assumption. auto.
Qed.

Lemma relax_fold_linked (current : string) (qc : Q) (settled : list string)
  (adj : Obj.t Q) :
  Obj.get graph current = Some adj ->
  forall (rest : list (string * Q)) (s : Helper.Search),
    incl rest adj ->
    Mid graph start current qc settled s -> Linked graph s ->
    Linked graph (fold_left (Helper.relax current) rest s).
Proof.
  intros Hadj. induction rest as [| [v w] rest IH]; intros s Hincl HM HL;
    [exact HL |].
  cbn [fold_left].
  assert (Hin : In (v, w) adj) by (apply Hincl; now left).
  destruct (@relax_step graph start Hwf current qc settled s adj v w HM Hadj Hin)
    as [HM1 _].
  apply IH; [intros x Hx; apply Hincl; now right | exact HM1 |].
  eapply relax_linked; eauto.
Qed.

(** Following the links back from a node spells a route whose length is
    the distance of the node. *)
Lemma chain_route (settled relaxed chained : list string) (s : Helper.Search)
  (k : string) (p : list string) :
  Inv graph start settled relaxed s -> Linked graph s ->
  Chain (Helper.previous s) chained start k p ->
  forall q, Obj.get (Helper.distances s) k = Some (Fin q) ->
            Route graph start k p q.
Proof.
  intros HI HL H. induction H as [H0 | k u p Hku Hu Hc IH]; intros q Hq.
  - destruct (inv_start HI) as [Hs _]. rewrite Hs in Hq.
    inversion Hq; subst q. constructor.
  - destruct (HL k u Hku) as [qu [adj [w [H1 [H2 [H3 H4]]]]]].
    rewrite H4 in Hq. inversion Hq; subst q.
    econstructor; eauto.
Qed.

(** At the top of the loop: a route of length [W] ends at a settled node
    whose distance is at most [W], or some queue entry is at most [W]. *)
Lemma route_bound (settled : list string) (s : Helper.Search)
  (k : string) (p : list string) (W : Q) :
  Inv graph start settled settled s ->
  Route graph start k p W ->
  (In k settled
   /\ exists q, Obj.get (Helper.distances s) k = Some (Fin q) /\ q <= W)
  \/ exists e, In e (Helper.priorityQueue s)
               /\ ext_le (Helper.entryDistance e) (Fin W).
Proof.
  intros HI H. induction H as [| u k p W w adj Hr IH Hadj Hin].
  - destruct (inv_start HI) as [Hs _].
    destruct (inv_pending HI _ Hs) as [H | H].
    + left. split; [exact H |]. exists 0. split; [exact Hs | lra].
    + right. exists (queued start 0). split; [exact H |].
      apply ext_le_Fin. lra.
  - destruct (@Hwf u adj k w Hadj Hin) as [_ Hw].
    destruct IH as [[Hu [qu [Hqu Hle]]] | [e [He Hle]]].
    + destruct (inv_relaxed HI _ _ _ Hu Hqu Hadj Hin) as [d [Hd Hdle]].
      destruct d as [qk |]; [| discriminate Hdle].
      apply ext_le_Fin in Hdle.
      destruct (inv_pending HI _ Hd) as [H | H].
      * left. split; [exact H |]. exists qk. split; [exact Hd | lra].
      * right. exists (queued k qk). split; [exact H |].
        apply ext_le_Fin. lra.
    + right. exists e. split; [exact He |].
      eapply ext_le_trans; [exact Hle |]. apply ext_le_Fin. lra.
Qed.

(** What the loop returns: the links still add up, and the distance of the
    destination is at most the length of any route to it. *)
Lemma loop_shortest (endNode : string) (fuel : nat) :
  forall (s s' : Helper.Search) (settled : list string),
    Inv graph start settled settled s -> Linked graph s ->
    Helper.loop fuel graph endNode s = Returned s' ->
    Linked graph s'
    /\ forall p W, Route graph start endNode p W ->
         exists q, Obj.get (Helper.distances s') endNode = Some (Fin q) /\ q <= W.
Proof.
  induction fuel as [| fuel IH]; intros s s' settled HI HL Hrun.
  - simpl in Hrun. destruct (Helper.priorityQueue s) eqn:Epq; [| discriminate].
    inversion Hrun; subst s'. split; [exact HL |].
    intros p W Hr. destruct (route_bound HI Hr) as [[_ H] | [e [He _]]];
      [exact H |]. rewrite Epq in He. contradiction.
  - rewrite loop_unfold in Hrun.
    destruct (Helper.priorityQueue s) as [| x l] eqn:Epq.
    { inversion Hrun; subst s'. split; [exact HL |].
      intros p W Hr. destruct (route_bound HI Hr) as [[_ H] | [e [He _]]];
        [exact H |]. rewrite Epq in He. contradiction. }
    rewrite <- Epq in *.
    destruct (Helper.sort (Helper.priorityQueue s)) as [| e0 rest] eqn:Esort.
    { inversion Hrun; subst s'. split; [exact HL |].
      pose proof (sort_perm (Helper.priorityQueue s)) as Hp.
      rewrite Esort, Epq in Hp. apply Permutation_nil in Hp. discriminate. }
    destruct (sort_head _ Esort) as [Hperm Hmin].
    cbv zeta in Hrun.
    destruct (String.eqb (Helper.node e0) endNode) eqn:Eend.
    + apply String.eqb_eq in Eend. inversion Hrun; subst s'. clear Hrun.
      split; [exact HL |]. cbn [Helper.distances].
      intros p W Hr. destruct (route_bound HI Hr) as [[_ H] | [e [He Hle]]];
        [exact H |].
      assert (He0 : In e0 (Helper.priorityQueue s)).
      { apply (Permutation_in _ (Permutation_sym Hperm)). now left. }
      destruct (inv_queue HI e0 He0) as [q0 [d [Hq0 [Hd Hdle]]]].
      destruct d as [qd |]; [| discriminate Hdle].
      apply ext_le_Fin in Hdle.
      assert (Hq0W : q0 <= W).
      { apply (Permutation_in _ Hperm) in He as [He | He].
        - subst e. rewrite Hq0 in Hle. now apply ext_le_Fin in Hle.
        - specialize (Hmin _ He). unfold entry_le in Hmin. rewrite Hq0 in Hmin.
          pose proof (ext_le_trans Hmin Hle) as H.
          now apply ext_le_Fin in H. }
      exists qd. rewrite <- Eend. split; [exact Hd | lra].
    + destruct (in_dec string_dec (Helper.node e0) settled) as [Hs | Hs].
      * destruct (@pop_settled graph start settled s e0 rest HI Esort Hs)
          as [HI1 Hnoop].
        rewrite Hnoop in Hrun.
        eapply IH; [exact HI1 | | exact Hrun].
        intros k u. cbn [Helper.distances Helper.previous]. apply HL.
      * destruct (@pop_unsettled graph start settled s e0 rest HI Esort Hs)
          as [qc HM].
        assert (HL1 : Linked graph
                        {| Helper.distances := Helper.distances s;
                           Helper.previous := Helper.previous s;
                           Helper.priorityQueue := rest |}).
        { intros k u. cbn [Helper.distances Helper.previous]. apply HL. }
        unfold Helper.neighborsOf in Hrun.
        destruct (Obj.get graph (Helper.node e0)) as [adj |] eqn:Eadj.
        -- destruct (@relax_fold graph start Hwf (Helper.node e0) qc settled adj
                       Eadj adj [] _ (incl_refl _) HM)
             as [[HI2 [Hc2 _]] [Hrel _]]; [intros vw [] |].
           eapply IH; [| | exact Hrun].
           ++ apply inv_relax_more with (qc := qc); [exact HI2 | exact Hc2 |].
              intros adj' vw Hadj' Hvw. rewrite Eadj in Hadj'.
              inversion Hadj'; subst adj'. apply Hrel. exact Hvw.
           ++ eapply relax_fold_linked; eauto. apply incl_refl.
        -- cbn [fold_left] in Hrun. destruct HM as [HI1 [Hc _]].
           eapply IH; [| exact HL1 | exact Hrun].
           apply inv_relax_more with (qc := qc); [exact HI1 | exact Hc |].
           intros adj' vw Hadj'. congruence.
Qed.
End Shortest.

Lemma init_linked (graph : Helper.Graph) (start : string) :
  Linked graph (Helper.initSearch graph start).
Proof.
  intros k u. unfold Helper.initSearch. cbn [Helper.previous].
  rewrite get_fold_set. destruct (mem k (Obj.keys graph)); discriminate.
Qed.

Lemma well_formedb_sound (graph : Helper.Graph) :
  well_formedb graph = true -> well_formed graph.
Proof.
  unfold well_formedb. intros H u adj v w Hadj Hin.
  rewrite forallb_forall in H. apply get_In in Hadj. specialize (H _ Hadj).
  cbn [snd] in H. rewrite forallb_forall in H. specialize (H _ Hin).
  cbn [fst snd] in H. apply andb_true_iff in H as [H1 H2].
  split; [now apply mem_In | now apply Qle_bool_iff].
Qed.

(** On a graph whose neighbors are nodes and whose lengths are not
    negative, [dijkstra] finds a shortest route to a destination that can
    be reached. *)
Lemma dijkstra_shortest (graph : Helper.Graph)
  (startNode endNode : string) :
  well_formed graph ->
  In startNode (Obj.keys graph) -> In endNode (Obj.keys graph) ->
  reachable (edge graph) startNode endNode ->
  exists (fuel0 : nat) (q : Q) (p : list string),
    (forall fuel, (fuel0 <= fuel)%nat ->
       Helper.dijkstra fuel graph startNode endNode
       = Returned {| Helper.distance := Some (Fin q); Helper.path := p |})
    /\ Route graph startNode endNode p q
    /\ forall p' W, Route graph startNode endNode p' W -> q <= W.
Proof.
  intros Hwf Hs He Hr.
  pose proof (@init_inv graph startNode Hs) as HI0.
  set (fuel1 := S (1 + pending graph [])).
  destruct (@loop_ends graph startNode Hwf endNode fuel1 _ [] HI0)
    as [s [settled [relaxed [Hloop [HI Hreach]]]]].
  { simpl. unfold fuel1. lia. }
  destruct (@loop_shortest graph startNode Hwf endNode fuel1 _ s [] HI0
              (init_linked graph startNode) Hloop) as [HL Hopt].
  destruct (Hreach Hr) as [q Hq].
  destruct (inv_chain HI _ Hq) as [p Hp].
  exists (Nat.max fuel1 (List.length p)), q, p. split; [| split].
  - intros fuel Hfuel. unfold Helper.dijkstra.
    rewrite (@loop_more_fuel graph endNode fuel1 _ s fuel Hloop) by lia.
    rewrite (@buildPath_chain _ _ _ _ _ Hp fuel []) by lia.
    rewrite app_nil_r, Hq. reflexivity.
  - exact (chain_route HI HL Hp Hq).
  - intros p' W Hr'. destruct (Hopt p' W Hr') as [q' [Hq' Hle]].
    rewrite Hq in Hq'. inversion Hq'; subst q'. exact Hle.
Qed.

Lemma route_reachable (graph : Helper.Graph) (s k : string) (p : list string)
  (W : Q) :
  Route graph s k p W -> reachable (edge graph) s k.
Proof.
  intros H. induction H as [| u k p W w adj Hr IH Hadj Hin]; [constructor |].
  eapply reach_step; [exact IH |]. exists adj, w. auto.
Qed.

(** X1: on a graph whose neighbors are nodes and whose lengths are not
    negative, [dijkstra] returns for every large enough [fuel].  When the
    destination can be reached, the path is a route from the start to it,
    the distance is the length of that route, and no route to the
    destination is shorter; when it cannot, the path is the destination
    alone and the distance is [Infinity]. *)
Theorem dijkstra_returns_a_shortest_route (graph : Helper.Graph)
  (startNode endNode : string) :
  well_formed graph ->
  In startNode (Obj.keys graph) -> In endNode (Obj.keys graph) ->
  exists (fuel0 : nat) (r : Helper.ShortestPaths),
    (forall fuel, (fuel0 <= fuel)%nat ->
       Helper.dijkstra fuel graph startNode endNode = Returned r)
    /\ ((exists q,
           Helper.distance r = Some (Fin q)
           /\ Route graph startNode endNode (Helper.path r) q
           /\ forall p' W, Route graph startNode endNode p' W -> q <= W)
        \/ (Helper.distance r = Some Inf
            /\ Helper.path r = [endNode]
            /\ forall p' W, ~ Route graph startNode endNode p' W)).
Proof.
  intros Hwf Hs He.
  destruct (@dijkstra_spec graph startNode endNode Hwf Hs He)
    as [fuel0 [r [Hrun [[_ Hw] | [Hd [Hp Hn]]]]]].
  - apply walk_reachable in Hw.
    destruct (@dijkstra_shortest graph startNode endNode Hwf Hs He Hw)
      as [fuel1 [q [p [Hrun1 [Hroute Hopt]]]]].
    exists (Nat.max fuel0 fuel1), r. split.
    + intros fuel Hfuel. apply Hrun. lia.
    + left. exists q.
      assert (Hr : r = {| Helper.distance := Some (Fin q); Helper.path := p |}).
      { pose proof (Hrun (Nat.max fuel0 fuel1) (Nat.le_max_l _ _)) as H0.
        rewrite (Hrun1 (Nat.max fuel0 fuel1) (Nat.le_max_r _ _)) in H0.
        inversion H0. reflexivity. }
      rewrite Hr. cbn [Helper.distance Helper.path]. auto.
  - exists fuel0, r. split; [exact Hrun |]. right.
    split; [exact Hd |]. split; [exact Hp |].
    intros p' W Hr. apply Hn. eapply route_reachable. exact Hr.
Qed.

Lemma dijkstra_returns_a_shortest_route_witness :
  exists (fuel0 : nat) (r : Helper.ShortestPaths),
    (forall fuel, (fuel0 <= fuel)%nat ->
       Helper.dijkstra fuel threeCrossings "a" "c" = Returned r)
    /\ ((exists q,
           Helper.distance r = Some (Fin q)
           /\ Route threeCrossings "a" "c" (Helper.path r) q
           /\ forall p' W, Route threeCrossings "a" "c" p' W -> q <= W)
        \/ (Helper.distance r = Some Inf
            /\ Helper.path r = ["c"]
            /\ forall p' W, ~ Route threeCrossings "a" "c" p' W)).
Proof.
  apply (@dijkstra_returns_a_shortest_route threeCrossings "a" "c").
  - apply well_formedb_sound. reflexivity.
  - simpl. tauto.
  - simpl. tauto.
Defined.

Lemma tripLength_snoc (hav : Point -> Point -> Q) (ps : list Point) (a b : Point) :
  tripLength hav ((ps ++ [a]) ++ [b]) == tripLength hav (ps ++ [a]) + hav a b.
Proof.
  induction ps as [| x r IH].
  - simpl. ring.
  - destruct r as [| y r].
    + simpl. ring.
    + change (tripLength hav (((x :: y :: r) ++ [a]) ++ [b]))
        with (hav x y + tripLength hav (((y :: r) ++ [a]) ++ [b])).
      change (tripLength hav ((x :: y :: r) ++ [a]))
        with (hav x y + tripLength hav ((y :: r) ++ [a])).
      rewrite IH. ring.
Qed.

Lemma pointsOf_app (g : Obj.t Helper.Node) (p : list string) (k : string) :
  Helper.pointsOf g (p ++ [k])
  = match Helper.pointsOf g p, Obj.get g k with
    | Some ps, Some n => Some (ps ++ [Helper.point n])
    | _, _ => None
    end.
Proof.
  induction p as [| x r IH].
  - simpl. destruct (Obj.get g k); reflexivity.
  - cbn [app Helper.pointsOf]. rewrite IH.
    destruct (Obj.get g x); [| destruct (Helper.pointsOf g r); reflexivity].
    destruct (Helper.pointsOf g r); [| reflexivity].
    destruct (Obj.get g k); reflexivity.
Qed.

Section Measured.
Variable hav : Point -> Point -> Q.
Variable g : Obj.t Helper.Node.

Lemma convertNeighbors_measured (p : Point) (ids : list string) :
  forall adj adj',
    Helper.convertNeighbors hav g p ids adj = Some adj' ->
    (forall v w, In (v, w) adj ->
       exists nv, Obj.get g v = Some nv /\ w = hav p (Helper.point nv)) ->
    forall v w, In (v, w) adj' ->
      exists nv, Obj.get g v = Some nv /\ w = hav p (Helper.point nv).
Proof.
  induction ids as [| i ids IH]; intros adj adj' H Hadj; simpl in H.
  - inversion H; subst. exact Hadj.
  - destruct (Obj.get g i) as [n |] eqn:En; [| discriminate].
    eapply IH; [exact H |].
    intros v w Hvw. apply In_set in Hvw as [[-> ->] | Hvw]; eauto.
Qed.

Lemma convertEntries_measured (entries : list (string * Helper.Node)) :
  (forall k n, In (k, n) entries -> Obj.get g k = Some n) ->
  forall graph graph',
    Helper.convertEntries hav g entries graph = Some graph' ->
    measured hav g graph -> measured hav g graph'.
Proof.
  induction entries as [| [nodeId n] more IH]; intros Hent graph graph' H Hm;
    simpl in H.
  - inversion H; subst. exact Hm.
  - destruct (Helper.convertNeighbors hav g (Helper.point n) (Helper.neighbors n) [])
      as [adj |] eqn:Ea; [| discriminate].
    eapply IH; [| exact H |].
    + intros k n' Hin. apply Hent. now right.
    + intros u adj' v w. rewrite get_set.
      destruct (String.eqb nodeId u) eqn:Eu.
      * apply String.eqb_eq in Eu. subst u. intros [= <-] Hin.
        destruct (convertNeighbors_measured _ _ Ea
                    (fun v w (H0 : In (v, w) []) => match H0 with end) v w Hin)
          as [nv [Hnv Hw]].
        exists n, nv. split; [apply Hent; now left | auto].
      * apply Hm.
Qed.
End Measured.

Lemma convert_measured (hav : Point -> Point -> Q) (st : Helper.PathFinder)
  (graph : Helper.Graph) :
  NoDup (Obj.keys (Helper.nodes st)) ->
  Helper.convertGraphToDijkstraFormat hav st = Some graph ->
  measured hav (Helper.nodes st) graph.
Proof.
  intros Hnd H. unfold Helper.convertGraphToDijkstraFormat in H.
  eapply convertEntries_measured; [| exact H |].
  - intros k n Hin. now apply In_get_NoDup.
  - intros u adj v w Hu. discriminate.
Qed.

Section Trips.
Variable hav : Point -> Point -> Q.
Variable st : Helper.PathFinder.
Variable graph : Helper.Graph.
Hypothesis Hm : measured hav (Helper.nodes st) graph.
Hypothesis Hedge : forall u v, edge graph u v <-> linked st u v.

(** A route of the converted graph is a walk of the PathFinder's graph,
    and its length is the length of the trip through its points. *)
Lemma route_trip (s k : string) (p : list string) (W : Q) :
  In s (Obj.keys (Helper.nodes st)) ->
  Route graph s k p W ->
  Walk (linked st) s k p
  /\ exists ps nk,
       Helper.pointsOf (Helper.nodes st) p = Some (ps ++ [Helper.point nk])
       /\ Obj.get (Helper.nodes st) k = Some nk
       /\ W == tripLength hav (ps ++ [Helper.point nk]).
Proof.
  intros Hs H. induction H as [| u k p W w adj Hr [IHw [ps [nu [Hps [Hnu HW]]]]] Hadj Hin].
  - split; [constructor |]. apply keys_get in Hs as [ns Hns].
    exists [], ns. cbn [Helper.pointsOf app]. rewrite Hns.
    split; [reflexivity | split; reflexivity].
  - destruct (@Hm u adj k w Hadj Hin) as [n [nk [Hn [Hnk Hw]]]].
    rewrite Hnu in Hn. inversion Hn; subst n. split.
    + econstructor; [exact IHw |]. apply Hedge. exists adj, w. auto.
    + exists (ps ++ [Helper.point nu]), nk. split; [| split; [exact Hnk |]].
      * rewrite pointsOf_app, Hps, Hnk. reflexivity.
      * rewrite tripLength_snoc, <- HW, Hw. reflexivity.
Qed.

(** A walk of the PathFinder's graph is a route of the converted graph of
    the same length. *)
Lemma trip_route (s k : string) (p : list string) :
  In s (Obj.keys (Helper.nodes st)) ->
  Walk (linked st) s k p ->
  forall ps, Helper.pointsOf (Helper.nodes st) p = Some ps ->
    exists W, Route graph s k p W /\ W == tripLength hav ps.
Proof.
  intros Hs H. induction H as [| u k p Hw IH Hl]; intros ps Hps.
  - simpl in Hps. destruct (Obj.get (Helper.nodes st) s) as [ns |]; [| discriminate].
    inversion Hps; subst. exists 0. split; [constructor | reflexivity].
  - rewrite pointsOf_app in Hps.
    destruct (Helper.pointsOf (Helper.nodes st) p) as [ps0 |] eqn:Ep; [| discriminate].
    destruct (Obj.get (Helper.nodes st) k) as [nk |] eqn:Ek; [| discriminate].
    inversion Hps; subst ps. clear Hps.
    destruct (IH ps0 eq_refl) as [W [Hr HW]].
    apply Hedge in Hl as [adj [w [Hadj Hin]]].
    destruct (@Hm u adj k w Hadj Hin) as [n [nk' [Hn [Hnk Hw']]]].
    rewrite Ek in Hnk. inversion Hnk; subst nk'.
    destruct (@route_trip s u p W Hs Hr) as [_ [ps1 [nu [Hps1 [Hnu _]]]]].
    rewrite Ep in Hps1. inversion Hps1; subst ps0.
    rewrite Hnu in Hn. inversion Hn; subst n.
    exists (W + w). split; [econstructor; eauto |].
    rewrite tripLength_snoc, <- HW, Hw'. reflexivity.
Qed.
End Trips.

(** On a closed graph without repeated keys, with a distance function that
    is never negative, [findShortestPath] finds a shortest walk to a node
    that can be reached. *)
Lemma Helper_findShortestPath_shortest (hav bearing : Point -> Point -> Q)
  (st : Helper.PathFinder) (startId endId : string) :
  (forall a b, 0 <= hav a b) ->
  NoDup (Obj.keys (Helper.nodes st)) -> closed st ->
  In startId (Obj.keys (Helper.nodes st)) ->
  In endId (Obj.keys (Helper.nodes st)) ->
  reachable (linked st) startId endId ->
  exists (fuel0 : nat) (r : Helper.PathResult) (q : Q),
    (forall fuel, (fuel0 <= fuel)%nat ->
       Helper.findShortestPath hav bearing fuel st startId endId
       = Returned (Some r))
    /\ Walk (linked st) startId endId (Helper.resultPath r)
    /\ Helper.pointsOf (Helper.nodes st) (Helper.resultPath r)
       = Some (Helper.coordinates r)
    /\ Helper.resultDistance r = Some (Fin q)
    /\ q == tripLength hav (Helper.coordinates r)
    /\ forall p' ps',
         Walk (linked st) startId endId p' ->
         Helper.pointsOf (Helper.nodes st) p' = Some ps' ->
         q <= tripLength hav ps'.
Proof.
  intros Hhav Hnd Hcl Hs He Hr.
  destruct (@convert_spec hav st Hhav Hnd Hcl) as [graph [Hconv [Hwf [Hkeys Hedge]]]].
  pose proof (@convert_measured hav st graph Hnd Hconv) as Hm.
  destruct (@dijkstra_shortest graph startId endId Hwf
              (proj2 (Hkeys _) Hs) (proj2 (Hkeys _) He))
    as [fuel0 [q [p [Hrun [Hroute Hopt]]]]].
  { eapply reachable_impl; [| exact Hr]. intros u v. apply Hedge. }
  destruct (@route_trip hav st graph Hm Hedge startId endId p q Hs Hroute) as [Hw [ps [nk [Hps [_ HW]]]]].
  exists fuel0,
    {| Helper.resultPath := p;
       Helper.resultDistance := Some (Fin q);
       Helper.coordinates := ps ++ [Helper.point nk];
       Helper.instructions :=
         Helper.generateInstructions hav bearing (ps ++ [Helper.point nk]) |}, q.
  cbn [Helper.resultPath Helper.resultDistance Helper.coordinates].
  split; [| split; [exact Hw | split; [exact Hps | split; [reflexivity |
    split; [exact HW |]]]]].
  - intros fuel Hfuel. unfold Helper.findShortestPath.
    apply has_true in Hs. apply has_true in He. rewrite Hs, He.
    cbn [negb orb]. rewrite Hconv, (Hrun fuel Hfuel).
    cbn [Helper.path Helper.distance]. rewrite Hps.
    pose proof (walk_nonempty Hw) as Hne.
    destruct p; [congruence | reflexivity].
  - intros p' ps' Hw' Hps'.
    destruct (@trip_route hav st graph Hm Hedge startId endId p' Hs Hw' ps' Hps')
      as [W [Hr' HW']].
    rewrite <- HW'. eapply Hopt. exact Hr'.
Qed.

(** X2: on a graph whose neighbor lists name nodes of the graph only, with
    a distance function that is never negative, the [findShortestPath] of
    the dijkstra-helper variant returns a result for every two nodes and
    every large enough [fuel].  When the second node can be reached from
    the first, the path is a walk from the first to the second, the
    coordinates are the points of its nodes, the distance is the length of
    the trip through these points, and no walk from the first to the
    second makes a shorter trip; when it cannot be reached, the path is the
    second node alone and the distance is [Infinity]. *)
Theorem Helper_findShortestPath_returns_a_shortest_walk
  (hav bearing : Point -> Point -> Q)
  (st : Helper.PathFinder) (startId endId : string) :
  (forall a b, 0 <= hav a b) ->
  NoDup (Obj.keys (Helper.nodes st)) -> closed st ->
  In startId (Obj.keys (Helper.nodes st)) ->
  In endId (Obj.keys (Helper.nodes st)) ->
  exists (fuel0 : nat) (r : Helper.PathResult),
    (forall fuel, (fuel0 <= fuel)%nat ->
       Helper.findShortestPath hav bearing fuel st startId endId
       = Returned (Some r))
    /\ ((exists q,
           Walk (linked st) startId endId (Helper.resultPath r)
           /\ Helper.pointsOf (Helper.nodes st) (Helper.resultPath r)
              = Some (Helper.coordinates r)
           /\ Helper.resultDistance r = Some (Fin q)
           /\ q == tripLength hav (Helper.coordinates r)
           /\ forall p' ps',
                Walk (linked st) startId endId p' ->
                Helper.pointsOf (Helper.nodes st) p' = Some ps' ->
                q <= tripLength hav ps')
        \/ (~ reachable (linked st) startId endId
            /\ Helper.resultPath r = [endId]
            /\ Helper.resultDistance r = Some Inf)).
Proof.
  intros Hhav Hnd Hcl Hs He.
  destruct (@Helper_findShortestPath_spec hav bearing st startId endId
              Hhav Hnd Hcl Hs He)
    as [fuel0 [r [Hrun [[Hw _] | Hno]]]].
  - apply walk_reachable in Hw.
    destruct (@Helper_findShortestPath_shortest hav bearing st startId endId
                Hhav Hnd Hcl Hs He Hw)
      as [fuel1 [r1 [q [Hrun1 Hbest]]]].
    exists (Nat.max fuel0 fuel1), r. split.
    + intros fuel Hfuel. apply Hrun. lia.
    + left. exists q.
      assert (Hr : r = r1).
      { pose proof (Hrun (Nat.max fuel0 fuel1) (Nat.le_max_l _ _)) as H0.
        rewrite (Hrun1 (Nat.max fuel0 fuel1) (Nat.le_max_r _ _)) in H0.
        inversion H0. reflexivity. }
      rewrite Hr. exact Hbest.
  - exists fuel0, r. split; [exact Hrun | right; exact Hno].
Qed.

Lemma Helper_findShortestPath_returns_a_shortest_walk_witness :
  let st := Helper.createDemoNetwork Helper.create (mkPoint 0 0) in
  exists (fuel0 : nat) (r : Helper.PathResult),
    (forall fuel, (fuel0 <= fuel)%nat ->
       Helper.findShortestPath cityBlock northBearing fuel st "0-0" "2-1"
       = Returned (Some r))
    /\ ((exists q,
           Walk (linked st) "0-0" "2-1" (Helper.resultPath r)
           /\ Helper.pointsOf (Helper.nodes st) (Helper.resultPath r)
              = Some (Helper.coordinates r)
           /\ Helper.resultDistance r = Some (Fin q)
           /\ q == tripLength cityBlock (Helper.coordinates r)
           /\ forall p' ps',
                Walk (linked st) "0-0" "2-1" p' ->
                Helper.pointsOf (Helper.nodes st) p' = Some ps' ->
                q <= tripLength cityBlock ps')
        \/ (~ reachable (linked st) "0-0" "2-1"
            /\ Helper.resultPath r = ["2-1"]
            /\ Helper.resultDistance r = Some Inf)).
Proof.
  intros st.
  apply (@Helper_findShortestPath_returns_a_shortest_walk
           cityBlock northBearing st "0-0" "2-1" cityBlock_nonneg).
  - apply distinct_NoDup. vm_compute. reflexivity.
  - apply closedb_closed. vm_compute. reflexivity.
  - vm_compute. tauto.
  - vm_compute. tauto.
Defined.

(** ** The connectivity pass keeps what the first node reaches *)

Lemma visitNeighbors_cons (i : string) (ids visited queue : list string) :
  Router.visitNeighbors (i :: ids) (visited, queue)
  = Router.visitNeighbors ids
      (if mem i visited then (visited, queue)
       else (visited ++ [i], queue ++ [i])).
Proof. reflexivity. Qed.

Lemma visitNeighbors_marks (ids : list string) :
  forall visited queue,
    let vq := Router.visitNeighbors ids (visited, queue) in
    incl visited (fst vq) /\ incl ids (fst vq) /\ incl queue (snd vq)
    /\ (forall x, In x (fst vq) -> In x visited \/ In x ids)
    /\ (forall x, In x (snd vq) -> In x queue \/ In x ids)
    /\ (forall x, In x (fst vq) -> In x visited \/ In x (snd vq)).
Proof.
  induction ids as [| i ids IH]; intros visited queue.
  - cbv zeta. unfold Router.visitNeighbors. cbn [fold_left fst snd].
    split; [apply incl_refl |]. split; [intros x [] |].
    split; [apply incl_refl |]. auto.
  - cbv zeta. rewrite visitNeighbors_cons.
    destruct (mem i visited) eqn:E.
    + apply mem_In in E.
      destruct (IH visited queue) as [A [B [C [D [F G]]]]].
      split; [exact A |]. split.
      { intros x [<- | Hx]; [now apply A | now apply B]. }
      split; [exact C |]. split.
      { intros x Hx. destruct (D x Hx); [now left | right; now right]. }
      split; [| exact G].
      intros x Hx. destruct (F x Hx); [now left | right; now right].
    + destruct (IH (visited ++ [i]) (queue ++ [i])) as [A [B [C [D [F G]]]]].
      split.
      { intros x Hx. apply A. apply in_or_app. now left. }
      split.
      { intros x [<- | Hx]; [apply A; apply in_or_app; right; now left | now apply B]. }
      split.
      { intros x Hx. apply C. apply in_or_app. now left. }
      split.
      { intros x Hx. destruct (D x Hx) as [H | H]; [| right; now right].
        apply in_app_or in H as [H | [<- | []]]; [now left | right; now left]. }
      split.
      { intros x Hx. destruct (F x Hx) as [H | H]; [| right; now right].
        apply in_app_or in H as [H | [<- | []]]; [now left | right; now left]. }
      intros x Hx. destruct (G x Hx) as [H | H]; [| now right].
      apply in_app_or in H as [H | [<- | []]]; [now left |].
      right. apply C. apply in_or_app. right. now left.
Qed.

Section Sweep.
Variable g : Obj.t Router.GraphNode.
Variable start : string.

Lemma swept_step (visited rest : list string) (c : string) (n : Router.GraphNode) :
  Swept g start visited (c :: rest) -> Obj.get g c = Some n ->
  let vq := Router.visitNeighbors (Obj.keys (Router.neighbors n)) (visited, rest) in
  Swept g start (fst vq) (snd vq).
Proof.
  intros HS Hn vq.
  destruct (visitNeighbors_marks (Obj.keys (Router.neighbors n)) visited rest)
    as [A [B [C [D [F G]]]]].
  fold vq in A, B, C, D, F, G.
  assert (Hc : In c visited) by (apply (swept_queue HS); now left).
  constructor.
  - apply A. exact (swept_start HS).
  - intros x Hx. destruct (D x Hx) as [H | H]; [now apply (swept_sound HS) |].
    eapply reach_step; [apply (swept_sound HS); exact Hc |].
    exists n. auto.
  - intros x Hx. destruct (F x Hx) as [H | H]; [| now apply B].
    apply A. apply (swept_queue HS). now right.
  - intros u nu Hu Hnu. destruct (G u Hu) as [H | H]; [| now left].
    destruct (@swept_done _ _ _ _ HS u nu H Hnu) as [[<- | H1] | H1].
    + right. rewrite Hn in Hnu. inversion Hnu; subst nu. exact B.
    + left. now apply C.
    + right. intros x Hx. apply A. now apply H1.
Qed.

Lemma swept_skip (visited rest : list string) (c : string) :
  Swept g start visited (c :: rest) -> Obj.get g c = None ->
  Swept g start visited rest.
Proof.
  intros HS Hn. constructor.
  - exact (swept_start HS).
  - exact (swept_sound HS).
  - intros x Hx. apply (swept_queue HS). now right.
  - intros u nu Hu Hnu. destruct (@swept_done _ _ _ _ HS u nu Hu Hnu) as [[<- | H] | H];
      [congruence | now left | now right].
Qed.

(** What the traversal returns is what the start reaches. *)
Lemma traverse_reaches (fuel : nat) :
  forall visited queue result,
    Swept g start visited queue ->
    Router.traverse fuel g visited queue = Some result ->
    forall x, In x result <-> reachable (router_edge g) start x.
Proof.
  induction fuel as [| fuel IH]; intros visited queue result HS H.
  - destruct queue as [| c rest]; [| discriminate].
    simpl in H. inversion H; subst result. clear H. intros x. split.
    + apply (swept_sound HS).
    + intros Hr. induction Hr as [| u v Hu IHu [n [Hn Hv]]].
      * exact (swept_start HS).
      * destruct (@swept_done _ _ _ _ HS u n IHu Hn) as [[] | Hd]. now apply Hd.
  - destruct queue as [| c rest].
    + simpl in H. inversion H; subst result. clear H. intros x. split.
      * apply (swept_sound HS).
      * intros Hr. induction Hr as [| u v Hu IHu [n [Hn Hv]]].
        -- exact (swept_start HS).
        -- destruct (@swept_done _ _ _ _ HS u n IHu Hn) as [[] | Hd]. now apply Hd.
    + cbn [Router.traverse] in H.
      destruct (Obj.get g c) as [n |] eqn:En.
      * pose proof (swept_step HS En) as HS1. cbv zeta in HS1.
        destruct (Router.visitNeighbors (Obj.keys (Router.neighbors n))
                    (visited, rest)) as [visited' queue'].
        eapply IH; [exact HS1 | exact H].
      * eapply IH; [exact (swept_skip HS En) | exact H].
Qed.
End Sweep.

Lemma swept_init (g : Obj.t Router.GraphNode) (start : string) :
  Swept g start [start] [start].
Proof.
  constructor.
  - now left.
  - intros x [<- | []]. constructor.
  - apply incl_refl.
  - intros u n [<- | []] _. left. now left.
Qed.

Lemma get_remove_neq (V : Type) (o : Obj.t V) (k id : string) :
  k <> id -> Obj.get (Obj.remove o id) k = Obj.get o k.
Proof.
  intros Hk. induction o as [| [k' v'] r IH]; [reflexivity |].
  cbn [Obj.remove Obj.get]. destruct (String.eqb k' id) eqn:E.
  - apply String.eqb_eq in E. subst k'.
    destruct (String.eqb id k) eqn:E'; [| reflexivity].
    apply String.eqb_eq in E'. congruence.
  - cbn [Obj.get]. destruct (String.eqb k' k); [reflexivity | exact IH].
Qed.

Lemma filter_all (A : Type) (f : A -> bool) (l : list A) :
  (forall x, In x l -> f x = true) -> filter f l = l.
Proof.
  induction l as [| a l IH]; intros H; [reflexivity |].
  cbn [filter]. rewrite (H a (or_introl eq_refl)). f_equal.
  apply IH. intros x Hx. apply H. now right.
Qed.

Lemma keys_remove_filter (V : Type) (o : Obj.t V) (id : string) :
  NoDup (Obj.keys o) ->
  Obj.keys (Obj.remove o id)
  = filter (fun x => negb (String.eqb x id)) (Obj.keys o).
Proof.
  induction o as [| [k' v'] r IH]; intros Hnd; [reflexivity |].
  inversion Hnd as [| ? ? Hk Hr]; subst.
  cbn [Obj.remove Obj.keys map fst filter].
  destruct (String.eqb k' id) eqn:E; cbn [negb].
  - apply String.eqb_eq in E. subst k'.
    symmetry. apply filter_all.
    intros x Hx. apply negb_true_iff, String.eqb_neq. intros ->. contradiction.
  - cbn [Obj.keys map fst]. f_equal. now apply IH.
Qed.

Lemma get_map_values (V W : Type) (f : V -> W) (o : Obj.t V) (k : string) :
  Obj.get (map (fun kn => (fst kn, f (snd kn))) o) k = option_map f (Obj.get o k).
Proof.
  induction o as [| [k' v'] r IH]; [reflexivity |].
  cbn [map Obj.get fst snd]. destruct (String.eqb k' k); [reflexivity | exact IH].
Qed.

Lemma dropReference_absent (id : string) (n : Router.GraphNode) :
  ~ In id (Obj.keys (Router.neighbors n)) -> Router.dropReference id n = n.
Proof.
  intros H. apply get_None_keys in H. unfold Router.dropReference. now rewrite H.
Qed.

Lemma mem_cons_eqb (k c : string) (l : list string) :
  mem k (c :: l) = String.eqb k c || mem k l.
Proof. reflexivity. Qed.

(** Deleting nodes that none of the nodes of [keep] refers to leaves the
    nodes of [keep] as they were. *)
Lemma removeIsolated_fold (keep : list string) (ids : list string) :
  forall g : Obj.t Router.GraphNode,
    NoDup (Obj.keys g) ->
    (forall id, In id ids -> ~ In id keep) ->
    (forall k n, In k keep -> Obj.get g k = Some n ->
                 incl (Obj.keys (Router.neighbors n)) keep) ->
    Obj.keys (fold_left Router.removeIsolated ids g)
    = filter (fun k => negb (mem k ids)) (Obj.keys g)
    /\ forall k, In k keep ->
         Obj.get (fold_left Router.removeIsolated ids g) k = Obj.get g k.
Proof.
  induction ids as [| id ids IH]; intros g Hnd Hids Hcl.
  - cbn [fold_left]. split; [| reflexivity].
    symmetry. apply filter_all. reflexivity.
  - cbn [fold_left].
    assert (Hid : ~ In id keep) by (apply Hids; now left).
    assert (Hget : forall k, In k keep ->
                     Obj.get (Router.removeIsolated g id) k = Obj.get g k).
    { intros k Hk. unfold Router.removeIsolated.
      rewrite get_map_values, get_remove_neq by (intros ->; contradiction).
      destruct (Obj.get g k) as [n |] eqn:En; [| reflexivity].
      cbn [option_map]. rewrite dropReference_absent; [reflexivity |].
      intros Hin. apply Hid. exact (Hcl k n Hk En id Hin). }
    destruct (IH (Router.removeIsolated g id)) as [A B].
    + rewrite keys_removeIsolated, keys_remove_filter by exact Hnd.
      now apply NoDup_filter.
    + intros x Hx. apply Hids. now right.
    + intros k n Hk Hn. rewrite Hget in Hn by exact Hk. exact (Hcl k n Hk Hn).
    + split.
      * rewrite A, keys_removeIsolated, keys_remove_filter by exact Hnd.
        clear. induction (Obj.keys g) as [| a l IH]; [reflexivity |].
        cbn [filter]. rewrite mem_cons_eqb.
        destruct (String.eqb a id); cbn [negb orb]; [exact IH |].
        cbn [filter]. destruct (mem a ids); cbn [negb]; [exact IH |].
        now rewrite IH.
      * intros k Hk. rewrite B by exact Hk. now apply Hget.
Qed.

(** The connectivity pass of the full PathFinder, on a graph whose first
    key is [start]: it ends, and it leaves the nodes that [start] reaches,
    in their order and as they were. *)
Lemma validateGraphConnectivity_reach (st : Router.PathFinder)
  (start : string) (more : list string) :
  NoDup (Obj.keys (Router.nodes st)) ->
  Obj.keys (Router.nodes st) = start :: more -> start <> "" ->
  exists (st' : Router.PathFinder) (visited : list string),
    Router.validateGraphConnectivity st = Some st'
    /\ (forall k, In k visited
                  <-> reachable (router_edge (Router.nodes st)) start k)
    /\ Obj.keys (Router.nodes st')
       = filter (fun k => mem k visited) (Obj.keys (Router.nodes st))
    /\ (forall k, In k visited ->
          Obj.get (Router.nodes st') k = Obj.get (Router.nodes st) k)
    /\ Router.osmNodes st' = Router.osmNodes st
    /\ Router.osmWays st' = Router.osmWays st
    /\ Router.isInitialized st' = Router.isInitialized st.
Proof.
  intros Hnd Hk Hne.
  unfold Router.validateGraphConnectivity, Router.validateGraphConnectivityIn.
  rewrite Hk. apply String.eqb_neq in Hne. rewrite Hne.
  assert (Hstart : In start (Router.universe (Router.nodes st))).
  { unfold Router.universe. apply in_or_app. left. rewrite Hk. now left. }
  destruct (@traverse_ends (Router.nodes st)
              (S (List.length (Router.universe (Router.nodes st))))
              [start] [start])
    as [visited [Ht _]].
  - repeat constructor. simpl. tauto.
  - apply incl_refl.
  - intros x [<- | []]. assumption.
  - simpl.
    assert (List.length (nodup string_dec (Router.universe (Router.nodes st)))
            <= List.length (Router.universe (Router.nodes st)))%nat.
    { apply NoDup_incl_length; [apply NoDup_nodup |].
      intros x Hx. now apply nodup_In in Hx. }
    assert (0 < List.length (Router.universe (Router.nodes st)))%nat.
    { destruct (Router.universe (Router.nodes st)); [contradiction | simpl; lia]. }
    lia.
  - rewrite Ht.
    pose proof (@traverse_reaches (Router.nodes st) start _ [start] [start] visited
                  (swept_init (Router.nodes st) start) Ht) as Hv.
    destruct (@removeIsolated_fold visited
                (filter (fun id => negb (mem id visited)) (start :: more))
                (Router.nodes st) Hnd) as [A B].
    + intros id Hid. apply filter_In in Hid as [_ Hid].
      now apply negb_true_iff, mem_false in Hid.
    + intros k n Hkv Hn x Hx. apply Hv. eapply reach_step.
      * apply Hv. exact Hkv.
      * exists n. auto.
    + eexists _, visited. split; [reflexivity |].
      unfold Router.withNodes.
      cbn [Router.nodes Router.osmNodes Router.osmWays Router.isInitialized].
      split; [exact Hv |]. split; [| split; [exact B | auto]].
      rewrite A, Hk. apply filter_ext_in. intros k Hkin.
      destruct (mem k visited) eqn:E.
      * apply negb_true_iff, mem_false. intros Hf.
        apply filter_In in Hf as [_ Hf]. rewrite E in Hf. discriminate.
      * apply negb_false_iff, mem_In. apply filter_In. split; [exact Hkin |].
        now rewrite E.
Qed.

(** X3: [validateGraphConnectivity] on a graph with a first key [start]:
    the pass ends and leaves exactly the nodes that can be reached from
    [start] along neighbor maps, in the order they had, each with the
    point and the neighbor map it had; [start] is still the first key, and
    a neighbor of a node that is left can be reached from [start] as
    well.  The OSM tables and the flag are not touched. *)
Theorem connectivity_pass_keeps_what_the_first_node_reaches
  (st : Router.PathFinder) (start : string) (more : list string) :
  NoDup (Obj.keys (Router.nodes st)) ->
  Obj.keys (Router.nodes st) = start :: more -> start <> "" ->
  exists (st' : Router.PathFinder) (visited : list string),
    Router.validateGraphConnectivity st = Some st'
    /\ (forall k, In k visited
                  <-> reachable (router_edge (Router.nodes st)) start k)
    /\ Obj.keys (Router.nodes st')
       = filter (fun k => mem k visited) (Obj.keys (Router.nodes st))
    /\ hd_error (Obj.keys (Router.nodes st')) = Some start
    /\ (forall k, In k (Obj.keys (Router.nodes st')) ->
          Obj.get (Router.nodes st') k = Obj.get (Router.nodes st) k)
    /\ (forall k n v,
          Obj.get (Router.nodes st') k = Some n ->
          In v (Obj.keys (Router.neighbors n)) ->
          reachable (router_edge (Router.nodes st)) start v)
    /\ Router.osmNodes st' = Router.osmNodes st
    /\ Router.osmWays st' = Router.osmWays st
    /\ Router.isInitialized st' = Router.isInitialized st.
Proof.
  intros Hnd Hk Hne.
  destruct (@validateGraphConnectivity_reach st start more Hnd Hk Hne)
    as [st' [visited [Hv [Hvis [Hkeys [Hget Htab]]]]]].
  exists st', visited.
  assert (Hin : forall k, In k (Obj.keys (Router.nodes st')) -> In k visited).
  { intros k Hin. rewrite Hkeys in Hin. apply filter_In in Hin as [_ Hin].
    now apply mem_In. }
  split; [exact Hv |]. split; [exact Hvis |]. split; [exact Hkeys |].
  split; [| split; [| split; [| exact Htab]]].
  - rewrite Hkeys, Hk. cbn [filter].
    assert (Hs : mem start visited = true) by (apply mem_In, Hvis; constructor).
    now rewrite Hs.
  - intros k Hkin. apply Hget. now apply Hin.
  - intros k n v Hn Hv'.
    assert (Hkv : In k visited) by (apply Hin; eapply get_keys; eauto).
    rewrite (Hget k Hkv) in Hn.
    eapply reach_step; [apply Hvis; exact Hkv |]. exists n. auto.
Qed.

Lemma connectivity_pass_keeps_what_the_first_node_reaches_witness :
  exists (st' : Router.PathFinder) (visited : list string),
    Router.validateGraphConnectivity junctionAndIsland = Some st'
    /\ (forall k, In k visited
                  <-> reachable (router_edge (Router.nodes junctionAndIsland))
                        "osm_1" k)
    /\ Obj.keys (Router.nodes st')
       = filter (fun k => mem k visited) (Obj.keys (Router.nodes junctionAndIsland))
    /\ hd_error (Obj.keys (Router.nodes st')) = Some "osm_1"
    /\ (forall k, In k (Obj.keys (Router.nodes st')) ->
          Obj.get (Router.nodes st') k = Obj.get (Router.nodes junctionAndIsland) k)
    /\ (forall k n v,
          Obj.get (Router.nodes st') k = Some n ->
          In v (Obj.keys (Router.neighbors n)) ->
          reachable (router_edge (Router.nodes junctionAndIsland)) "osm_1" v)
    /\ Router.osmNodes st' = Router.osmNodes junctionAndIsland
    /\ Router.osmWays st' = Router.osmWays junctionAndIsland
    /\ Router.isInitialized st' = Router.isInitialized junctionAndIsland.
Proof.
  apply (@connectivity_pass_keeps_what_the_first_node_reaches
           junctionAndIsland "osm_1" ["osm_2"; "osm_3"; "osm_4"]).
  - apply distinct_NoDup. vm_compute. reflexivity.
  - reflexivity.
  - discriminate.
Defined.

(** ** The graph the full PathFinder builds *)

Lemma graphNodeId_plain (x : string) : index_of (Router.graphNodeId x) = None.
Proof. reflexivity. Qed.

Lemma before_plain (k k' : string) : index_of k = None -> before k k' = false.
Proof. intros H. unfold before. now rewrite H. Qed.

(** Writing under a key that is no array index: a new key goes last. *)
Lemma keys_set_plain (V : Type) (o : Obj.t V) (k : string) (v : V) :
  index_of k = None ->
  Obj.keys (Obj.set o k v)
  = if mem k (Obj.keys o) then Obj.keys o else Obj.keys o ++ [k].
Proof.
  intros Hk. induction o as [| [k' v'] r IH]; [reflexivity |].
  cbn [Obj.set]. rewrite (@before_plain k k' Hk).
  cbn [Obj.keys map fst]. fold (Obj.keys r). rewrite mem_cons_eqb.
  rewrite (String.eqb_sym k k').
  destruct (String.eqb k' k); cbn [orb]; [reflexivity |].
  cbn [Obj.keys map fst]. fold (Obj.keys (Obj.set r k v)). rewrite IH.
  destruct (mem k (Obj.keys r)); reflexivity.
Qed.

Lemma NoDup_set_plain (V : Type) (o : Obj.t V) (k : string) (v : V) :
  index_of k = None -> NoDup (Obj.keys o) -> NoDup (Obj.keys (Obj.set o k v)).
Proof.
  intros Hk Hnd. rewrite keys_set_plain by exact Hk.
  destruct (mem k (Obj.keys o)) eqn:E; [exact Hnd |].
  apply mem_false in E. apply NoDup_app; [exact Hnd | repeat constructor; simpl; tauto |].
  intros x Hx [<- | []]. contradiction.
Qed.

Lemma Built_empty : Built [].
Proof.
  constructor; [constructor | intros k [] |]. intros k n v H. discriminate.
Qed.

Lemma addNode_built (st : Router.PathFinder) (x : string) (p : Point) :
  Built (Router.nodes st) ->
  Built (Router.nodes (Router.addNode st (Router.graphNodeId x) p)).
Proof.
  intros HB. unfold Router.addNode.
  destruct (Obj.get (Router.nodes st) (Router.graphNodeId x)) eqn:E; [exact HB |].
  cbn [Router.nodes]. constructor.
  - apply NoDup_set_plain; [apply graphNodeId_plain | exact (built_nodup HB)].
  - intros k Hk. apply keys_set in Hk as [-> | Hk]; [eauto |].
    exact (@built_keys _ HB k Hk).
  - intros k n v. rewrite get_set.
    destruct (String.eqb (Router.graphNodeId x) k).
    + intros [= <-] Hv. contradiction.
    + intros Hn Hv. apply keys_set. right. exact (@built_closed _ HB k n v Hn Hv).
Qed.

Lemma addEdge_built (st : Router.PathFinder) (a b : string) (w : ext) :
  Built (Router.nodes st) -> Built (Router.nodes (Router.addEdge st a b w)).
Proof.
  intros HB. unfold Router.addEdge.
  destruct (Obj.get (Router.nodes st) a) as [na |] eqn:Ea; [| exact HB].
  destruct (Obj.get (Router.nodes st) b) as [nb |] eqn:Eb; [| exact HB].
  cbn [Router.nodes].
  assert (Ha : In a (Obj.keys (Router.nodes st))) by (eapply get_keys; eauto).
  assert (Hb : In b (Obj.keys (Router.nodes st))) by (eapply get_keys; eauto).
  destruct (@built_keys _ HB a Ha) as [x Hx].
  constructor.
  - apply NoDup_set_plain; [rewrite Hx; apply graphNodeId_plain |].
    exact (built_nodup HB).
  - intros k Hk. apply keys_set in Hk as [-> | Hk]; [eauto |].
    exact (@built_keys _ HB k Hk).
  - intros k n v. rewrite get_set. destruct (String.eqb a k) eqn:E.
    + intros [= <-]. cbn [Router.neighbors]. intros Hv. apply keys_set. right.
      apply keys_set in Hv as [-> | Hv]; [exact Hb |].
      exact (@built_closed _ HB a na v Ea Hv).
    + intros Hn Hv. apply keys_set. right. exact (@built_closed _ HB k n v Hn Hv).
Qed.

Lemma fold_kept (P : Obj.t Router.GraphNode -> Prop) (A : Type)
  (f : Router.PathFinder -> A -> Router.PathFinder) (l : list A) :
  (forall s a, P (Router.nodes s) -> P (Router.nodes (f s a))) ->
  forall st, P (Router.nodes st) -> P (Router.nodes (fold_left f l st)).
Proof.
  intros Hf. induction l as [| a l IH]; intros st HB; [exact HB |].
  cbn [fold_left]. apply IH. now apply Hf.
Qed.

Lemma addSegment_built (cd : Point -> Point -> Q) (speedLimit : Q)
  (isOneWay : bool) (st : Router.PathFinder) (seg : Z * Z) :
  Built (Router.nodes st) ->
  Built (Router.nodes (Router.addSegment cd speedLimit isOneWay st seg)).
Proof.
  intros HB. unfold Router.addSegment.
  destruct (Obj.get (Router.osmNodes st) (keyOf (fst seg))); [| exact HB].
  destruct (Obj.get (Router.osmNodes st) (keyOf (snd seg))); [| exact HB].
  destruct (Obj.get (Router.nodes st) (Router.graphNodeId (keyOf (fst seg))));
    [| exact HB].
  destruct (Obj.get (Router.nodes st) (Router.graphNodeId (keyOf (snd seg))));
    [| exact HB].
  cbv zeta. destruct isOneWay; repeat apply addEdge_built; exact HB.
Qed.

Lemma addWays_built (cd : Point -> Point -> Q) (st : Router.PathFinder) :
  Built (Router.nodes st) -> Built (Router.nodes (Router.addWays cd st)).
Proof.
  unfold Router.addWays. apply (@fold_kept Built). intros s way HB.
  unfold Router.addWay.
  destruct (truthy (Obj.get (Router.tags way) "highway")); [| exact HB].
  destruct (Obj.get (Router.tags way) "highway"); [| exact HB].
  apply (@fold_kept Built); [| exact HB]. intros. now apply addSegment_built.
Qed.

Lemma addOsmNodes_built (st : Router.PathFinder) :
  Built (Router.nodes st) -> Built (Router.nodes (Router.addOsmNodes st)).
Proof.
  unfold Router.addOsmNodes. apply (@fold_kept Built). intros s a HB.
  now apply addNode_built.
Qed.

(** Keeping what the first node reaches keeps the walks from it. *)
Lemma reachable_kept (g g' : Obj.t Router.GraphNode) (start k : string) :
  (forall u, reachable (router_edge g) start u -> Obj.get g' u = Obj.get g u) ->
  reachable (router_edge g) start k -> reachable (router_edge g') start k.
Proof.
  intros Hsame H. induction H as [| u v Hu IH [n [Hn Hv]]]; [constructor |].
  eapply reach_step; [exact IH |]. exists n. split; [| exact Hv].
  rewrite Hsame by exact Hu. exact Hn.
Qed.

(** Every payload gives a graph without repeated keys whose neighbors are
    nodes of the graph, and whose nodes can all be reached from the first
    one. *)
Lemma processOSMData_graph (cd : Point -> Point -> Q) (st0 : Router.PathFinder)
  (elements : list Element) :
  exists st,
    Router.processOSMData cd st0 elements = Some st
    /\ Built (Router.nodes st)
    /\ forall start more,
         Obj.keys (Router.nodes st) = start :: more ->
         forall k, In k (Obj.keys (Router.nodes st)) ->
                   reachable (router_edge (Router.nodes st)) start k.
Proof.
  unfold Router.processOSMData, Router.buildGraphFromOSM.
  set (cleared := {| Router.nodes := []; Router.osmNodes := [];
                     Router.osmWays := [];
                     Router.isInitialized := Router.isInitialized st0 |}).
  set (c := fold_left Router.processElement elements cleared).
  set (b := Router.addWays cd (Router.addOsmNodes c)).
  assert (HB : Built (Router.nodes b)).
  { apply addWays_built, addOsmNodes_built. unfold c.
    rewrite (proj1 (processElements_nodes elements cleared)). apply Built_empty. }
  destruct (Obj.keys (Router.nodes b)) as [| start more] eqn:Ek.
  - assert (Hv : Router.validateGraphConnectivity b = Some b).
    { unfold Router.validateGraphConnectivity, Router.validateGraphConnectivityIn.
      now rewrite Ek. }
    rewrite Hv. eexists. split; [reflexivity |]. cbn [Router.nodes].
    split; [exact HB |]. intros s m Hs. congruence.
  - assert (Hne : start <> "").
    { destruct (@built_keys _ HB start) as [x Hx]; [rewrite Ek; now left |].
      rewrite Hx. discriminate. }
    destruct (@validateGraphConnectivity_reach b start more (built_nodup HB) Ek Hne)
      as [v [visited [Hv [Hvis [Hkeys [Hget _]]]]]].
    rewrite Hv. eexists. split; [reflexivity |]. cbn [Router.nodes].
    assert (Hin : forall k, In k (Obj.keys (Router.nodes v))
                            <-> In k (Obj.keys (Router.nodes b)) /\ In k visited).
    { intros k. rewrite Hkeys, filter_In, mem_In. reflexivity. }
    split.
    + constructor.
      * rewrite Hkeys. apply NoDup_filter. exact (built_nodup HB).
      * intros k Hk. apply Hin in Hk as [Hk _]. exact (@built_keys _ HB k Hk).
      * intros k n x Hn Hx.
        assert (Hk : In k (Obj.keys (Router.nodes v))) by (eapply get_keys; eauto).
        apply Hin in Hk as [_ Hk]. rewrite (Hget k Hk) in Hn.
        apply Hin. split; [exact (@built_closed _ HB k n x Hn Hx) |].
        apply Hvis. eapply reach_step; [apply Hvis; exact Hk |]. exists n. auto.
    + intros s m Hs k Hk.
      assert (s = start).
      { rewrite Hkeys, Ek in Hs. cbn [filter] in Hs.
        assert (Hst : mem start visited = true).
        { apply mem_In, Hvis. constructor. }
        rewrite Hst in Hs. congruence. }
      subst s. apply Hin in Hk as [_ Hk].
      apply reachable_kept with (g := Router.nodes b).
      * intros u Hu. apply Hget, Hvis. exact Hu.
      * apply Hvis. exact Hk.
Qed.

(** X4: whatever payload [processOSMData] is given, it returns with a graph
    in which no key is repeated, every key of a neighbor map is a node of
    the graph, and every node can be reached from the first node along
    neighbor maps. *)
Theorem processOSMData_builds_a_closed_graph_around_its_first_node
  (cd : Point -> Point -> Q) (st0 : Router.PathFinder) (elements : list Element) :
  exists st,
    Router.processOSMData cd st0 elements = Some st
    /\ NoDup (Obj.keys (Router.nodes st))
    /\ (forall k n v,
          Obj.get (Router.nodes st) k = Some n ->
          In v (Obj.keys (Router.neighbors n)) ->
          In v (Obj.keys (Router.nodes st)))
    /\ forall start more,
         Obj.keys (Router.nodes st) = start :: more ->
         forall k, In k (Obj.keys (Router.nodes st)) ->
                   reachable (router_edge (Router.nodes st)) start k.
Proof.
  destruct (processOSMData_graph cd st0 elements) as [st [H [HB Hr]]].
  exists st. split; [exact H |]. split; [exact (built_nodup HB) |].
  split; [| exact Hr]. intros k n v. apply (@built_closed _ HB).
Qed.

(** ** Travel times in the built graph *)

Lemma addNode_timed (st : Router.PathFinder) (id : string) (p : Point) :
  Timed (Router.nodes st) -> Timed (Router.nodes (Router.addNode st id p)).
Proof.
  intros HT. unfold Router.addNode.
  destruct (Obj.get (Router.nodes st) id) eqn:E; [exact HT |].
  cbn [Router.nodes]. intros k n v w. rewrite get_set.
  destruct (String.eqb id k).
  - intros [= <-] Hv. contradiction.
  - apply HT.
Qed.

Lemma addEdge_timed (st : Router.PathFinder) (a b : string) (q : Q) :
  0 <= q ->
  Timed (Router.nodes st) -> Timed (Router.nodes (Router.addEdge st a b (Fin q))).
Proof.
  intros Hq HT. unfold Router.addEdge.
  destruct (Obj.get (Router.nodes st) a) as [na |] eqn:Ea; [| exact HT].
  destruct (Obj.get (Router.nodes st) b) as [nb |] eqn:Eb; [| exact HT].
  cbn [Router.nodes]. intros k n v w. rewrite get_set.
  destruct (String.eqb a k) eqn:E.
  - intros [= <-]. cbn [Router.neighbors]. intros Hv.
    apply In_set in Hv as [[_ ->] | Hv]; [eauto |].
    exact (HT a na v w Ea Hv).
  - apply HT.
Qed.

Lemma addSegment_timed (cd : Point -> Point -> Q) (speedLimit : Q)
  (isOneWay : bool) (st : Router.PathFinder) (seg : Z * Z) :
  (forall a b, 0 <= cd a b) -> 0 < speedLimit ->
  Timed (Router.nodes st) ->
  Timed (Router.nodes (Router.addSegment cd speedLimit isOneWay st seg)).
Proof.
  intros Hcd Hs HT. unfold Router.addSegment.
  destruct (Obj.get (Router.osmNodes st) (keyOf (fst seg))) as [n1 |]; [| exact HT].
  destruct (Obj.get (Router.osmNodes st) (keyOf (snd seg))) as [n2 |]; [| exact HT].
  destruct (Obj.get (Router.nodes st) (Router.graphNodeId (keyOf (fst seg))));
    [| exact HT].
  destruct (Obj.get (Router.nodes st) (Router.graphNodeId (keyOf (snd seg))));
    [| exact HT].
  cbv zeta.
  assert (He : 0 < Router.effectiveSpeedMps speedLimit).
  { unfold Router.effectiveSpeedMps. apply Qlt_shift_div_l; [reflexivity |]. lra. }
  rewrite segmentWeight_go by exact He.
  assert (Hq : 0 <= cd {| latitude := Router.lat n1; longitude := Router.lon n1 |}
                       {| latitude := Router.lat n2; longitude := Router.lon n2 |}
                    / Router.effectiveSpeedMps speedLimit).
  { apply Qle_shift_div_l; [exact He |]. rewrite Qmult_0_l. apply Hcd. }
  destruct isOneWay; repeat apply addEdge_timed; assumption.
Qed.

Lemma addWays_timed (cd : Point -> Point -> Q) (st : Router.PathFinder) :
  (forall a b, 0 <= cd a b) ->
  Timed (Router.nodes st) -> Timed (Router.nodes (Router.addWays cd st)).
Proof.
  intros Hcd. unfold Router.addWays. apply (@fold_kept Timed). intros s way HT.
  unfold Router.addWay.
  destruct (truthy (Obj.get (Router.tags way) "highway")); [| exact HT].
  destruct (Obj.get (Router.tags way) "highway"); [| exact HT].
  apply (@fold_kept Timed); [| exact HT]. intros.
  apply addSegment_timed; [exact Hcd | apply getSpeedLimit_pos | assumption].
Qed.

Lemma addOsmNodes_timed (st : Router.PathFinder) :
  Timed (Router.nodes st) -> Timed (Router.nodes (Router.addOsmNodes st)).
Proof.
  unfold Router.addOsmNodes. apply (@fold_kept Timed). intros s a HT.
  now apply addNode_timed.
Qed.

Lemma processOSMData_timed (cd : Point -> Point -> Q) (st0 st : Router.PathFinder)
  (elements : list Element) :
  (forall a b, 0 <= cd a b) ->
  Router.processOSMData cd st0 elements = Some st -> Timed (Router.nodes st).
Proof.
  intros Hcd. unfold Router.processOSMData, Router.buildGraphFromOSM.
  set (cleared := {| Router.nodes := []; Router.osmNodes := [];
                     Router.osmWays := [];
                     Router.isInitialized := Router.isInitialized st0 |}).
  set (c := fold_left Router.processElement elements cleared).
  set (b := Router.addWays cd (Router.addOsmNodes c)).
  assert (HB : Built (Router.nodes b)).
  { apply addWays_built, addOsmNodes_built. unfold c.
    rewrite (proj1 (processElements_nodes elements cleared)). apply Built_empty. }
  assert (HT : Timed (Router.nodes b)).
  { apply addWays_timed; [exact Hcd |]. apply addOsmNodes_timed. unfold c.
    rewrite (proj1 (processElements_nodes elements cleared)).
    intros k n v w H. discriminate. }
  destruct (Obj.keys (Router.nodes b)) as [| start more] eqn:Ek.
  - assert (Hv : Router.validateGraphConnectivity b = Some b).
    { unfold Router.validateGraphConnectivity, Router.validateGraphConnectivityIn.
      now rewrite Ek. }
    rewrite Hv. intros [= <-]. exact HT.
  - assert (Hne : start <> "").
    { destruct (@built_keys _ HB start) as [x Hx]; [rewrite Ek; now left |].
      rewrite Hx. discriminate. }
    destruct (@validateGraphConnectivity_reach b start more (built_nodup HB) Ek Hne)
      as [v [visited [Hv [Hvis [Hkeys [Hget _]]]]]].
    rewrite Hv. intros [= <-]. cbn [Router.nodes].
    intros k n x w Hn. 
    assert (Hk : In k (Obj.keys (Router.nodes v))) by (eapply get_keys; eauto).
    rewrite Hkeys in Hk. apply filter_In in Hk as [_ Hk]. apply mem_In in Hk.
    rewrite (Hget k Hk) in Hn. exact (HT k n x w Hn).
Qed.

(** X5: with a distance function that is never negative, every edge of a
    graph that [processOSMData] builds takes a finite time that is not
    negative: the speed limit that [getSpeedLimit] gives is positive, so
    the weight of a segment is never [Infinity]. *)
Theorem built_edges_take_finite_time (cd : Point -> Point -> Q)
  (st0 : Router.PathFinder) (elements : list Element) :
  (forall a b, 0 <= cd a b) ->
  exists st,
    Router.processOSMData cd st0 elements = Some st
    /\ forall k n v w,
         Obj.get (Router.nodes st) k = Some n ->
         In (v, w) (Router.neighbors n) ->
         exists q, w = Fin q /\ 0 <= q.
Proof.
  intros Hcd.
  destruct (processOSMData_graph cd st0 elements) as [st [H _]].
  exists st. split; [exact H |].
  exact (@processOSMData_timed cd st0 st elements Hcd H).
Qed.

Lemma built_edges_take_finite_time_witness :
  exists st,
    Router.processOSMData cityBlock Router.create twoWayStreet = Some st
    /\ forall k n v w,
         Obj.get (Router.nodes st) k = Some n ->
         In (v, w) (Router.neighbors n) ->
         exists q, w = Fin q /\ 0 <= q.
Proof.
  exact (@built_edges_take_finite_time cityBlock Router.create twoWayStreet
           cityBlock_nonneg).
Defined.

(** ** The nearest-node searches pick a closest candidate *)

Lemma fold_left_ext (A B : Type) (f g : A -> B -> A) (l : list B) (a : A) :
  (forall x y, f x y = g x y) -> fold_left f l a = fold_left g l a.
Proof.
  intros H. revert a. induction l as [| b l IH]; intros a; [reflexivity |].
  cbn [fold_left]. rewrite H. apply IH.
Qed.

Section Pick.
Variable A : Type.
Variable ok : A -> bool.
Variable name : A -> string.
Variable d : A -> Q.

Lemma pickNearest_step (seen : list A) (acc : option string * ext) (x : A) :
  Picked ok name d seen acc ->
  Picked ok name d (seen ++ [x])
    (if ok x && ext_ltb (Fin (d x)) (snd acc)
     then (Some (name x), Fin (d x)) else acc).
Proof.
  intros [[-> Hnone] | [m [Hm [Hok [-> Hmin]]]]].
  - destruct (ok x) eqn:Ex; cbn [andb snd ext_ltb].
    + right. exists x. split; [apply in_or_app; right; now left |].
      split; [exact Ex |]. split; [reflexivity |].
      intros y Hy Hoky. apply in_app_or in Hy as [Hy | [<- | []]]; [| lra].
      rewrite (Hnone y Hy) in Hoky. discriminate.
    + left. split; [reflexivity |].
      intros y Hy. apply in_app_or in Hy as [Hy | [<- | []]]; auto.
  - destruct (ok x) eqn:Ex; cbn [andb snd].
    + destruct (ext_ltb (Fin (d x)) (Fin (d m))) eqn:E.
      * apply ext_ltb_Fin in E. right. exists x.
        split; [apply in_or_app; right; now left |].
        split; [exact Ex |]. split; [reflexivity |].
        intros y Hy Hoky. apply in_app_or in Hy as [Hy | [<- | []]]; [| lra].
        pose proof (Hmin y Hy Hoky). lra.
      * apply ext_ltb_false, ext_le_Fin in E. right. exists m.
        split; [apply in_or_app; now left |].
        split; [exact Hok |]. split; [reflexivity |].
        intros y Hy Hoky. apply in_app_or in Hy as [Hy | [<- | []]]; [auto | exact E].
    + right. exists m. split; [apply in_or_app; now left |].
      split; [exact Hok |]. split; [reflexivity |].
      intros y Hy Hoky. apply in_app_or in Hy as [Hy | [<- | []]]; [auto |].
      congruence.
Qed.

Lemma pickNearest_fold (l : list A) :
  forall seen acc,
    Picked ok name d seen acc ->
    Picked ok name d (seen ++ l) (pickNearest ok name d l acc).
Proof.
  induction l as [| x l IH]; intros seen acc H.
  - rewrite app_nil_r. exact H.
  - unfold pickNearest. cbn [fold_left].
    replace (seen ++ x :: l) with ((seen ++ [x]) ++ l)
      by (rewrite <- app_assoc; reflexivity).
    apply IH. now apply pickNearest_step.
Qed.

(** A scan from nothing finds the first of the closest candidates that
    pass the test, or nothing when none passes. *)
Lemma pickNearest_spec (l : list A) :
  Picked ok name d l (pickNearest ok name d l (None, Inf)).
Proof.
  apply (@pickNearest_fold l [] (None, Inf)). left. split; [reflexivity |].
  intros x [].
Qed.
End Pick.

Section RouterPick.
Variable cd : Point -> Point -> Q.
Variable st : Router.PathFinder.
Variable point : Point.

Lemma nearestWithin_pick (radius : ext) :
  Router.nearestWithin cd st point radius
  = pickNearest
      (fun kv => ext_leb (Fin (cd point (osmPoint (snd kv)))) radius && usable st kv)
      (fun kv => Router.graphNodeId (fst kv))
      (fun kv => cd point (osmPoint (snd kv)))
      (Router.osmNodes st) (None, Inf).
Proof.
  unfold Router.nearestWithin, pickNearest. apply fold_left_ext.
  intros acc kv. cbv zeta. unfold usable, osmPoint.
  destruct (ext_leb _ radius); cbn [andb]; [| reflexivity].
  destruct (ext_ltb _ (snd acc)); cbn [andb].
  - destruct (0 <? _)%nat; cbn [andb]; [| reflexivity].
    destruct (mem _ _); reflexivity.
  - destruct (0 <? _)%nat; cbn [andb]; [| reflexivity].
    destruct (mem _ _); reflexivity.
Qed.

Lemma absoluteNearest_pick :
  Router.absoluteNearest cd st point
  = pickNearest (fun _ => true) fst
      (fun kv : string * Router.GraphNode => cd point (Router.point (snd kv)))
      (Router.nodes st) (None, Inf).
Proof. reflexivity. Qed.

(** The radii are tried in turn; the first one with a usable node within it
    gives the closest of all usable nodes. *)
Lemma firstWithin_best (radii : list ext) :
  (exists kv, In kv (Router.osmNodes st) /\ usable st kv = true
              /\ exists r, In r radii
                           /\ ext_leb (Fin (cd point (osmPoint (snd kv)))) r = true) ->
  exists kv,
    In kv (Router.osmNodes st) /\ usable st kv = true
    /\ Router.firstWithin cd st point radii = Some (Router.graphNodeId (fst kv))
    /\ forall kv', In kv' (Router.osmNodes st) -> usable st kv' = true ->
                   cd point (osmPoint (snd kv)) <= cd point (osmPoint (snd kv')).
Proof.
  induction radii as [| r radii IH]; intros [kv [Hin [Hu [r0 [Hr0 Hle]]]]];
    [contradiction |].
  cbn [Router.firstWithin]. rewrite nearestWithin_pick.
  destruct (pickNearest_spec
              (fun kv => ext_leb (Fin (cd point (osmPoint (snd kv)))) r && usable st kv)
              (fun kv => Router.graphNodeId (fst kv))
              (fun kv => cd point (osmPoint (snd kv)))
              (Router.osmNodes st))
    as [[-> Hnone] | [m [Hm [Hok [-> Hmin]]]]].
  - cbn [fst]. apply IH. exists kv. split; [exact Hin |]. split; [exact Hu |].
    destruct Hr0 as [<- | Hr0]; [| eauto].
    specialize (Hnone kv Hin). cbv beta in Hnone. rewrite Hle, Hu in Hnone.
    discriminate.
  - cbn [fst]. apply andb_true_iff in Hok as [Hmr Hmu].
    exists m. split; [exact Hm |]. split; [exact Hmu |]. split; [reflexivity |].
    intros kv' Hin' Hu'.
    destruct (ext_leb (Fin (cd point (osmPoint (snd kv')))) r) eqn:E.
    + apply Hmin; [exact Hin' |]. cbv beta. now rewrite E, Hu'.
    + destruct r as [q |]; [| discriminate E].
      cbn [ext_leb] in E, Hmr. apply Qle_bool_iff in Hmr.
      apply Qle_bool_false in E. lra.
Qed.

(** When no node is usable every radius fails. *)
Lemma firstWithin_none (radii : list ext) :
  (forall kv, In kv (Router.osmNodes st) -> usable st kv = false) ->
  Router.firstWithin cd st point radii = None.
Proof.
  intros Hnone. induction radii as [| r radii IH]; [reflexivity |].
  cbn [Router.firstWithin]. rewrite nearestWithin_pick.
  destruct (pickNearest_spec
              (fun kv => ext_leb (Fin (cd point (osmPoint (snd kv)))) r && usable st kv)
              (fun kv => Router.graphNodeId (fst kv))
              (fun kv => cd point (osmPoint (snd kv)))
              (Router.osmNodes st))
    as [[-> _] | [m [Hm [Hok _]]]].
  - exact IH.
  - apply andb_true_iff in Hok as [_ Hmu]. rewrite (Hnone m Hm) in Hmu.
    discriminate.
Qed.
End RouterPick.

(** X6: in an initialized full PathFinder with a node table,
    [findNearestOsmNode] returns the usable node (one with an edge of its
    own, on a way) closest to the point, whatever the search radius, as
    soon as one node is usable; when none is, it returns the graph node
    closest to the point. *)
Theorem nearest_node_is_the_closest_usable_one (cd : Point -> Point -> Q)
  (st : Router.PathFinder) (point : Point) (searchRadius : Q) :
  Router.isInitialized st = true -> Router.osmNodes st <> [] ->
  ((exists kv, In kv (Router.osmNodes st) /\ usable st kv = true) ->
   exists kv,
     In kv (Router.osmNodes st) /\ usable st kv = true
     /\ Router.findNearestOsmNode cd st point searchRadius
        = Some (Router.graphNodeId (fst kv))
     /\ forall kv', In kv' (Router.osmNodes st) -> usable st kv' = true ->
                    cd point (osmPoint (snd kv)) <= cd point (osmPoint (snd kv')))
  /\ ((forall kv, In kv (Router.osmNodes st) -> usable st kv = false) ->
      Router.nodes st <> [] ->
      exists kn,
        In kn (Router.nodes st)
        /\ Router.findNearestOsmNode cd st point searchRadius = Some (fst kn)
        /\ forall kn', In kn' (Router.nodes st) ->
             cd point (Router.point (snd kn)) <= cd point (Router.point (snd kn'))).
Proof.
  intros Hi Ho.
  assert (Hg : negb (Router.isInitialized st)
               || (List.length (Obj.keys (Router.osmNodes st)) =? 0)%nat = false).
  { rewrite Hi. destruct (Router.osmNodes st); [congruence | reflexivity]. }
  unfold Router.findNearestOsmNode. rewrite Hg. cbv beta iota zeta. split.
  - intros [kv [Hin Hu]].
    destruct (@firstWithin_best cd st point
                [Fin searchRadius; Fin (searchRadius * 2);
                 Fin (searchRadius * 4); Inf])
      as [m [Hm [Hmu [Hf Hmin]]]].
    { exists kv. split; [exact Hin |]. split; [exact Hu |].
      exists Inf. split; [simpl; tauto | reflexivity]. }
    exists m. rewrite Hf. auto.
  - intros Hnone Hn.
    rewrite (@firstWithin_none cd st point _ Hnone), absoluteNearest_pick.
    destruct (pickNearest_spec (fun _ => true) fst
                (fun kv : string * Router.GraphNode =>
                   cd point (Router.point (snd kv)))
                (Router.nodes st))
      as [[_ Hno] | [m [Hm [_ [-> Hmin]]]]].
    + destruct (Router.nodes st) as [| kn g]; [congruence |].
      specialize (Hno kn (or_introl eq_refl)). discriminate.
    + exists m. split; [exact Hm |]. split; [reflexivity |].
      intros kn' Hin'. now apply Hmin.
Qed.

Lemma nearest_node_is_the_closest_usable_one_witness :
  ((exists kv, In kv (Router.osmNodes twoWayRouter) /\ usable twoWayRouter kv = true) ->
   exists kv,
     In kv (Router.osmNodes twoWayRouter) /\ usable twoWayRouter kv = true
     /\ Router.findNearestOsmNode cityBlock twoWayRouter (mkPoint 1 1) 500
        = Some (Router.graphNodeId (fst kv))
     /\ forall kv', In kv' (Router.osmNodes twoWayRouter) ->
                    usable twoWayRouter kv' = true ->
                    cityBlock (mkPoint 1 1) (osmPoint (snd kv))
                    <= cityBlock (mkPoint 1 1) (osmPoint (snd kv')))
  /\ ((forall kv, In kv (Router.osmNodes twoWayRouter) -> usable twoWayRouter kv = false) ->
      Router.nodes twoWayRouter <> [] ->
      exists kn,
        In kn (Router.nodes twoWayRouter)
        /\ Router.findNearestOsmNode cityBlock twoWayRouter (mkPoint 1 1) 500
           = Some (fst kn)
        /\ forall kn', In kn' (Router.nodes twoWayRouter) ->
             cityBlock (mkPoint 1 1) (Router.point (snd kn))
             <= cityBlock (mkPoint 1 1) (Router.point (snd kn'))).
Proof.
  apply (@nearest_node_is_the_closest_usable_one cityBlock twoWayRouter
           (mkPoint 1 1) 500).
  - reflexivity.
  - discriminate.
Defined.

(** ** Nearest node and [findPath] of the dijkstra-helper variant *)

Lemma Helper_findNearestNode_pick (hav : Point -> Point -> Q)
  (st : Helper.PathFinder) (point : Point) :
  Helper.nodes st <> [] ->
  HelperSearch.findNearestNode hav st point
  = fst (pickNearest (fun _ => true) fst
           (fun kv : string * Helper.Node => hav point (Helper.point (snd kv)))
           (Helper.nodes st) (None, Inf)).
Proof.
  intros H. unfold HelperSearch.findNearestNode.
  destruct (Helper.nodes st) as [| kn g]; [congruence | reflexivity].
Qed.

(** On a graph that is not empty [findNearestNode] returns a node, and no
    node is closer to the point. *)
Lemma Helper_findNearestNode_closest (hav : Point -> Point -> Q)
  (st : Helper.PathFinder) (point : Point) :
  Helper.nodes st <> [] ->
  exists kn,
    In kn (Helper.nodes st)
    /\ HelperSearch.findNearestNode hav st point = Some (fst kn)
    /\ forall kn', In kn' (Helper.nodes st) ->
         hav point (Helper.point (snd kn)) <= hav point (Helper.point (snd kn')).
Proof.
  intros H. rewrite Helper_findNearestNode_pick by exact H.
  destruct (pickNearest_spec (fun _ => true) fst
              (fun kv : string * Helper.Node => hav point (Helper.point (snd kv)))
              (Helper.nodes st))
    as [[_ Hno] | [m [Hm [_ [-> Hmin]]]]].
  - destruct (Helper.nodes st) as [| kn g]; [congruence |].
    specialize (Hno kn (or_introl eq_refl)). discriminate.
  - exists m. split; [exact Hm |]. split; [reflexivity |].
    intros kn' Hin'. now apply Hmin.
Qed.

(** X7: [findNearestNode] of the dijkstra-helper variant returns [null]
    exactly when the graph has no node; otherwise it returns the id of a
    node of the graph, and no node of the graph is closer to the point. *)
Theorem Helper_findNearestNode_returns_a_closest_node
  (hav : Point -> Point -> Q) (st : Helper.PathFinder) (point : Point) :
  (HelperSearch.findNearestNode hav st point = None <-> Helper.nodes st = [])
  /\ (Helper.nodes st <> [] ->
      exists kn,
        In kn (Helper.nodes st)
        /\ HelperSearch.findNearestNode hav st point = Some (fst kn)
        /\ forall kn', In kn' (Helper.nodes st) ->
             hav point (Helper.point (snd kn))
             <= hav point (Helper.point (snd kn'))).
Proof.
  split; [| apply Helper_findNearestNode_closest].
  split.
  - intros H. destruct (Helper.nodes st) as [| kn g] eqn:E; [reflexivity |].
    destruct (@Helper_findNearestNode_closest hav st point) as [m [_ [Hm _]]];
      [rewrite E; discriminate | congruence].
  - intros H. unfold HelperSearch.findNearestNode. now rewrite H.
Qed.

(** The demo network, whatever the instance and the center: no key is
    repeated, every neighbor is a node, every node reaches every other,
    and no key is the empty string. *)
Lemma demo_network_shape (st : Helper.PathFinder) (center : Point) :
  let st' := Helper.createDemoNetwork st center in
  NoDup (Obj.keys (Helper.nodes st'))
  /\ closed st'
  /\ (forall a b,
        In a (Obj.keys (Helper.nodes st')) -> In b (Obj.keys (Helper.nodes st')) ->
        reachable (linked st') a b)
  /\ Helper.nodes st' <> []
  /\ ~ In "" (Obj.keys (Helper.nodes st')).
Proof.
  intros st'.
  pose proof (demo_adjacency st center) as Hadj. fold st' in Hadj.
  assert (Hkeys : Obj.keys (Helper.nodes st') = map fst demoGrid).
  { rewrite <- Hadj. symmetry. apply helperAdjacency_keys. }
  split; [| split; [| split; [| split]]].
  - rewrite Hkeys. apply distinct_NoDup. vm_compute. reflexivity.
  - apply closedb_closed. rewrite Hadj. vm_compute. reflexivity.
  - apply connectedb_connected with (n := 8%nat). rewrite Hadj.
    vm_compute. reflexivity.
  - intros H. assert (Hk : Obj.keys (Helper.nodes st') = []) by now rewrite H.
    rewrite Hkeys in Hk. discriminate.
  - rewrite Hkeys. apply mem_false. vm_compute. reflexivity.
Qed.

(** X8: [findPath] of the dijkstra-helper variant when the fetch is
    attempted and fails, with a distance function that is never negative:
    the instance takes the demo network, and for every large enough [fuel]
    the call resolves to a result, whose path walks from the grid node
    closest to the start point to the grid node closest to the end point
    and whose distance is finite. *)
Theorem findPath_on_failed_fetch_finds_a_route (hav bearing : Point -> Point -> Q)
  (st : Helper.PathFinder) (start end_ : Point) (searchRadius : Q) :
  let center :=
    {| latitude := (latitude start + latitude end_) / 2;
       longitude := (longitude start + longitude end_) / 2 |} in
  let st' := Helper.createDemoNetwork st center in
  (forall a b, 0 <= hav a b) ->
  Helper.alreadyFetched hav st center searchRadius = false ->
  exists (fuel0 : nat) (r : Helper.PathResult) (s e : string),
    (forall fuel, (fuel0 <= fuel)%nat ->
       HelperSearch.findPath hav bearing fuel st start end_ searchRadius FetchFailed
       = (st', Returned (Some r)))
    /\ HelperSearch.findNearestNode hav st' start = Some s
    /\ HelperSearch.findNearestNode hav st' end_ = Some e
    /\ Walk (linked st') s e (Helper.resultPath r)
    /\ exists q, Helper.resultDistance r = Some (Fin q).
Proof.
  intros center st' Hhav Hnot.
  destruct (demo_network_shape st center) as [Hnd [Hcl [Hconn [Hne Hempty]]]].
  fold st' in Hnd, Hcl, Hconn, Hne, Hempty.
  destruct (@Helper_findNearestNode_closest hav st' start Hne) as [ks [Hks [Hs _]]].
  destruct (@Helper_findNearestNode_closest hav st' end_ Hne) as [ke [Hke [He _]]].
  assert (Hsk : In (fst ks) (Obj.keys (Helper.nodes st'))).
  { unfold Obj.keys. now apply in_map. }
  assert (Hek : In (fst ke) (Obj.keys (Helper.nodes st'))).
  { unfold Obj.keys. now apply in_map. }
  destruct (@Helper_findShortestPath_spec hav bearing st' (fst ks) (fst ke)
              Hhav Hnd Hcl Hsk Hek)
    as [fuel0 [r [Hrun [[Hw Hq] | [Hn _]]]]];
    [| exfalso; apply Hn; now apply Hconn].
  exists fuel0, r, (fst ks), (fst ke).
  split; [| split; [exact Hs | split; [exact He | split; [exact Hw | exact Hq]]]].
  intros fuel Hfuel. unfold HelperSearch.findPath. fold center.
  assert (Hf : Helper.fetchRoadNetwork hav st center searchRadius FetchFailed = st').
  { unfold Helper.fetchRoadNetwork. now rewrite Hnot. }
  rewrite Hf, Hs, He.
  assert (Ht : forall k, In k (Obj.keys (Helper.nodes st')) -> truthy (Some k) = true).
  { intros k Hk. destruct k; [contradiction | reflexivity]. }
  rewrite (Ht _ Hsk), (Ht _ Hek). cbn [negb orb].
  now rewrite (Hrun fuel Hfuel).
Qed.

Lemma findPath_on_failed_fetch_finds_a_route_witness :
  let st' :=
    Helper.createDemoNetwork Helper.create
      (mkPoint ((-1 + 1) / 2) ((-1 + 1) / 2)) in
  exists (fuel0 : nat) (r : Helper.PathResult) (s e : string),
    (forall fuel, (fuel0 <= fuel)%nat ->
       HelperSearch.findPath cityBlock northBearing fuel Helper.create
         (mkPoint (-1) (-1)) (mkPoint 1 1) 1 FetchFailed
       = (st', Returned (Some r)))
    /\ HelperSearch.findNearestNode cityBlock st' (mkPoint (-1) (-1)) = Some s
    /\ HelperSearch.findNearestNode cityBlock st' (mkPoint 1 1) = Some e
    /\ Walk (linked st') s e (Helper.resultPath r)
    /\ exists q, Helper.resultDistance r = Some (Fin q).
Proof.
  exact (@findPath_on_failed_fetch_finds_a_route cityBlock northBearing
           Helper.create (mkPoint (-1) (-1)) (mkPoint 1 1) 1
           cityBlock_nonneg eq_refl).
Defined.

(** ** Turn directions and instructions *)

Lemma calculateTurnDirection_steps (bearing1 bearing2 : Q) :
  Helper.calculateTurnDirection bearing1 bearing2
  = turnName (turnAngle bearing1 bearing2).
Proof. reflexivity. Qed.

Lemma Qle_bool_gt (a b : Q) : b < a -> Qle_bool a b = false.
Proof.
  intros H. destruct (Qle_bool a b) eqn:E; [| reflexivity].
  apply Qle_bool_iff in E. lra.
Qed.

Ltac settle_comparisons :=
  repeat match goal with
         | |- context [Qltb ?a ?b] =>
             first [ rewrite (proj2 (Qltb_true a b)) by lra
                   | rewrite (proj2 (Qltb_false a b)) by lra ]
         | |- context [Qle_bool ?a ?b] =>
             first [ rewrite (proj2 (Qle_bool_iff a b)) by lra
                   | rewrite (@Qle_bool_gt a b) by lra ]
         end;
  cbn [andb].

Lemma turnName_sharp_left (d : Q) : d <= -135 -> turnName d = "sharp left".
Proof. intros H. unfold turnName, Helper.Qabs_lt. settle_comparisons. reflexivity. Qed.

Lemma turnName_left (d : Q) : -135 < d <= -45 -> turnName d = "turn left".
Proof. intros H. unfold turnName, Helper.Qabs_lt. settle_comparisons. reflexivity. Qed.

Lemma turnName_slight_left (d : Q) : -45 < d < -15 -> turnName d = "slight left".
Proof. intros H. unfold turnName, Helper.Qabs_lt. settle_comparisons. reflexivity. Qed.

Lemma turnName_straight (d : Q) : -15 <= d <= 15 -> turnName d = "straight".
Proof.
  intros H. unfold turnName, Helper.Qabs_lt.
  destruct (Qlt_le_dec d 15) as [H1 | H1]; destruct (Qlt_le_dec (-15) d) as [H2 | H2];
    settle_comparisons; reflexivity.
Qed.

Lemma turnName_slight_right (d : Q) : 15 < d < 45 -> turnName d = "slight right".
Proof. intros H. unfold turnName, Helper.Qabs_lt. settle_comparisons. reflexivity. Qed.

Lemma turnName_right (d : Q) : 45 <= d < 135 -> turnName d = "turn right".
Proof. intros H. unfold turnName, Helper.Qabs_lt. settle_comparisons. reflexivity. Qed.

Lemma turnName_sharp_right (d : Q) : 135 <= d -> turnName d = "sharp right".
Proof. intros H. unfold turnName, Helper.Qabs_lt. settle_comparisons. reflexivity. Qed.

Lemma turnName_opposite (d e : Q) : e == - d -> turnName e = mirror (turnName d).
Proof.
  intros He.
  destruct (Qlt_le_dec (-135) d) as [H1 | H1].
  2:{ rewrite (turnName_sharp_left H1), turnName_sharp_right by lra. reflexivity. }
  destruct (Qlt_le_dec (-45) d) as [H2 | H2].
  2:{ rewrite (@turnName_left d), turnName_right by lra. reflexivity. }
  destruct (Qlt_le_dec d (-15)) as [H3 | H3].
  { rewrite (@turnName_slight_left d), turnName_slight_right by lra. reflexivity. }
  destruct (Qlt_le_dec 15 d) as [H4 | H4].
  2:{ rewrite (@turnName_straight d), turnName_straight by lra. reflexivity. }
  destruct (Qlt_le_dec d 45) as [H5 | H5].
  { rewrite (@turnName_slight_right d), turnName_slight_left by lra. reflexivity. }
  destruct (Qlt_le_dec d 135) as [H6 | H6].
  { rewrite (@turnName_right d), turnName_left by lra. reflexivity. }
  rewrite (@turnName_sharp_right d), turnName_sharp_left by lra. reflexivity.
Qed.

Lemma turnAngle_opposite (bearing1 bearing2 : Q) :
  turnAngle bearing2 bearing1 == - turnAngle bearing1 bearing2.
Proof.
  unfold turnAngle. cbv zeta.
  destruct (Qlt_le_dec 180 (bearing2 - bearing1)) as [H | H].
  - rewrite (proj2 (Qltb_true 180 (bearing2 - bearing1))) by exact H.
    rewrite (proj2 (Qltb_false (bearing2 - bearing1 - 360) (-180))) by lra.
    rewrite (proj2 (Qltb_false 180 (bearing1 - bearing2))) by lra.
    rewrite (proj2 (Qltb_true (bearing1 - bearing2) (-180))) by lra. ring.
  - rewrite (proj2 (Qltb_false 180 (bearing2 - bearing1))) by exact H.
    destruct (Qlt_le_dec (bearing2 - bearing1) (-180)) as [H1 | H1].
    + rewrite (proj2 (Qltb_true (bearing2 - bearing1) (-180))) by exact H1.
      rewrite (proj2 (Qltb_true 180 (bearing1 - bearing2))) by lra.
      rewrite (proj2 (Qltb_false (bearing1 - bearing2 - 360) (-180))) by lra. ring.
    + rewrite (proj2 (Qltb_false (bearing2 - bearing1) (-180))) by exact H1.
      rewrite (proj2 (Qltb_false 180 (bearing1 - bearing2))) by lra.
      rewrite (proj2 (Qltb_false (bearing1 - bearing2) (-180))) by lra. ring.
Qed.

(** X9: [calculateTurnDirection] treats left and right alike: swapping the
    two bearings gives the same turn to the other side, and bearings that
    differ by at most 15 degrees, full turns apart, go straight. *)
Theorem turn_direction_mirrors (bearing1 bearing2 : Q) :
  Helper.calculateTurnDirection bearing2 bearing1
  = mirror (Helper.calculateTurnDirection bearing1 bearing2)
  /\ (- 15 <= turnAngle bearing1 bearing2 <= 15 ->
      Helper.calculateTurnDirection bearing1 bearing2 = "straight")
  /\ (Helper.calculateTurnDirection bearing1 bearing2 = "straight" ->
      - 15 <= turnAngle bearing1 bearing2 <= 15).
Proof.
  rewrite !calculateTurnDirection_steps. split; [| split].
  - apply turnName_opposite. apply turnAngle_opposite.
  - apply turnName_straight.
  - generalize (turnAngle bearing1 bearing2). intros d H.
    destruct (Qlt_le_dec d (-15)) as [H1 | H1].
    + exfalso. destruct (Qlt_le_dec (-45) d) as [H2 | H2].
      * rewrite turnName_slight_left in H by lra. discriminate.
      * destruct (Qlt_le_dec (-135) d) as [H3 | H3].
        -- rewrite turnName_left in H by lra. discriminate.
        -- rewrite turnName_sharp_left in H by lra. discriminate.
    + split; [exact H1 |].
      destruct (Qlt_le_dec 15 d) as [H2 | H2]; [| exact H2].
      exfalso. destruct (Qlt_le_dec d 45) as [H3 | H3].
      * rewrite turnName_slight_right in H by lra. discriminate.
      * destruct (Qlt_le_dec d 135) as [H4 | H4].
        -- rewrite turnName_right in H by lra. discriminate.
        -- rewrite turnName_sharp_right in H by lra. discriminate.
Qed.

Lemma narrate_length (hav bearing : Point -> Point -> Q) (points : list Point) :
  (List.length (Helper.narrate hav bearing points) <= List.length points - 2)%nat.
Proof.
  induction points as [| a r IH]; [apply Nat.le_refl |].
  destruct r as [| b r]; [apply Nat.le_refl |].
  destruct r as [| c r]; [apply Nat.le_refl |].
  change (Helper.narrate hav bearing (a :: b :: c :: r))
    with ((let turn := Helper.calculateTurnDirection (bearing a b) (bearing b c) in
           let distanceText :=
             if Qltb 1000 (hav b c)
             then String.append (Helper.toFixed1 (hav b c / 1000)) " km"
             else String.append (Helper.roundText (hav b c)) " m" in
           if negb (String.eqb turn "straight")
           then [String.append (Helper.capitalize turn)
                   (String.append " and continue for " distanceText)]
           else if Qltb 500 (hav b c)
                then [String.append "Continue straight for " distanceText]
                else [])
          ++ Helper.narrate hav bearing (b :: c :: r)).
  cbv zeta. rewrite length_app.
  cbn [List.length Nat.sub] in IH |- *.
  destruct (negb _); [cbn [List.length]; lia |].
  destruct (Qltb 500 _); cbn [List.length]; lia.
Qed.

(** X10: [generateInstructions] gives no instruction for a path of fewer
    than two nodes; for a longer path the instructions open with the
    start, close with the arrival, and there is at most one for each node
    of the path. *)
Theorem instructions_frame_the_trip (hav bearing : Point -> Point -> Q)
  (points : list Point) :
  let instructions := Helper.generateInstructions hav bearing points in
  ((List.length points < 2)%nat -> instructions = [])
  /\ ((2 <= List.length points)%nat ->
      hd_error instructions = Some "Start your journey"
      /\ last instructions "" = "You have arrived at your destination"
      /\ (2 <= List.length instructions <= List.length points)%nat).
Proof.
  intros instructions. subst instructions. unfold Helper.generateInstructions.
  split; intros H.
  - apply Nat.ltb_lt in H. now rewrite H.
  - assert (E : (List.length points <? 2)%nat = false) by (apply Nat.ltb_ge; exact H).
    rewrite E. split; [reflexivity |]. split.
    + rewrite app_assoc. apply last_last.
    + pose proof (narrate_length hav bearing points).
      rewrite !length_app. cbn [List.length]. lia.
Qed.

(** ** The graph the dijkstra-helper variant builds *)

Section BuildGraph.
Variable osm : Obj.t Helper.OverpassNode.

Lemma pushNeighbor_tidy (graph : Obj.t Helper.Node) (fromId toId : string) :
  In toId (Obj.keys osm) ->
  Tidy osm graph -> Tidy osm (Helper.pushNeighbor graph fromId toId).
Proof.
  intros Hto HT. unfold Helper.pushNeighbor.
  destruct (Obj.get graph fromId) as [n |] eqn:En; [| exact HT].
  destruct (mem toId (Helper.neighbors n)) eqn:Em; [exact HT |].
  apply mem_false in Em. apply get_In in En.
  destruct (HT fromId n En) as [Hid [Hk [Hnd Hnb]]].
  intros k m Hin. apply In_set in Hin as [[-> ->] | Hin]; [| now apply HT].
  cbn [Helper.id Helper.neighbors]. split; [exact Hid |]. split; [exact Hk |].
  split.
  - apply NoDup_app; [exact Hnd | repeat constructor; simpl; tauto |].
    intros x Hx [<- | []]. contradiction.
  - intros v Hv. apply in_app_or in Hv as [Hv | [<- | []]]; auto.
Qed.

Lemma has_tidy (graph : Obj.t Helper.Node) (k : string) :
  Tidy osm graph -> Obj.has graph k = true -> In k (Obj.keys osm).
Proof.
  intros HT H. apply has_true, keys_In in H as [n Hn].
  now destruct (HT k n Hn) as [_ [Hk _]].
Qed.

Lemma connect_tidy (oneWay : bool) (graph : Obj.t Helper.Node) (seg : Z * Z) :
  Tidy osm graph -> Tidy osm (Helper.connect oneWay graph seg).
Proof.
  intros HT. unfold Helper.connect.
  destruct (Obj.has graph (keyOf (fst seg))) eqn:E1; cbn [andb]; [| exact HT].
  destruct (Obj.has graph (keyOf (snd seg))) eqn:E2; [| exact HT].
  pose proof (has_tidy _ HT E1) as H1. pose proof (has_tidy _ HT E2) as H2.
  destruct oneWay; cbn [negb]; repeat apply pushNeighbor_tidy; assumption.
Qed.

Lemma fold_tidy (A : Type) (f : Obj.t Helper.Node -> A -> Obj.t Helper.Node)
  (l : list A) :
  (forall g a, Tidy osm g -> Tidy osm (f g a)) ->
  forall g, Tidy osm g -> Tidy osm (fold_left f l g).
Proof.
  intros Hf. induction l as [| a l IH]; intros g HT; [exact HT |].
  cbn [fold_left]. apply IH. now apply Hf.
Qed.

Lemma initial_tidy (entries : list (string * Helper.OverpassNode)) :
  incl entries osm ->
  forall g, Tidy osm g ->
    Tidy osm
      (fold_left
         (fun (graph : Obj.t Helper.Node) (kv : string * Helper.OverpassNode) =>
            Obj.set graph (fst kv)
              {| Helper.id := fst kv;
                 Helper.point :=
                   {| latitude := Helper.lat (snd kv);
                      longitude := Helper.lon (snd kv) |};
                 Helper.neighbors := [] |})
         entries g).
Proof.
  induction entries as [| kv entries IH]; intros Hincl g HT; [exact HT |].
  cbn [fold_left]. apply IH; [intros x Hx; apply Hincl; now right |].
  intros k n Hin. apply In_set in Hin as [[-> ->] | Hin]; [| now apply HT].
  cbn [Helper.id Helper.neighbors]. split; [reflexivity |]. split.
  - unfold Obj.keys. apply in_map. apply Hincl. now left.
  - split; [constructor | intros v []].
Qed.

Lemma kept_tidy (graph : Obj.t Helper.Node) :
  forall kept k n,
    In (k, n)
      (fold_left
         (fun (kept : Obj.t Helper.Node) (kv : string * Helper.Node) =>
            if (0 <? List.length (Helper.neighbors (snd kv)))%nat
            then Obj.set kept (fst kv) (snd kv)
            else kept)
         graph kept) ->
    In (k, n) kept \/ In (k, n) graph /\ Helper.neighbors n <> [].
Proof.
  induction graph as [| kv graph IH]; intros kept k n H; [now left |].
  cbn [fold_left] in H. apply IH in H as [H | [H1 H2]].
  - destruct (0 <? List.length (Helper.neighbors (snd kv)))%nat eqn:E; [| now left].
    apply In_set in H as [[-> ->] | H]; [| now left].
    right. split; [left; now destruct kv |].
    intros Hn. rewrite Hn in E. discriminate.
  - right. split; [now right | exact H2].
Qed.
End BuildGraph.

(** X11: every node of the graph that [processOverpassData] builds carries
    its key as id and has at least one neighbor; no neighbor is listed
    twice, and every neighbor, like the node itself, is a node of the
    payload. *)
Theorem built_nodes_have_neighbors (st : Helper.PathFinder)
  (elements : list Element) (k : string) (n : Helper.Node) :
  let st' := Helper.processOverpassData st elements in
  Obj.get (Helper.nodes st') k = Some n ->
  Helper.id n = k
  /\ Helper.neighbors n <> []
  /\ NoDup (Helper.neighbors n)
  /\ In k (Obj.keys (Helper.osmNodes st'))
  /\ forall v, In v (Helper.neighbors n) -> In v (Obj.keys (Helper.osmNodes st')).
Proof.
  intros st' H. apply get_In in H.
  unfold st', Helper.processOverpassData, Helper.buildGraph in H.
  cbn [Helper.nodes Helper.osmNodes Helper.ways] in H.
  apply kept_tidy in H as [[] | [H Hne]].
  set (osm := fst (Helper.separate elements)) in *.
  assert (HT : Tidy osm
                 (fold_left
                    (fun graph way =>
                       fold_left (Helper.connect (Helper.isOneWay way))
                         (segments (Helper.wayNodes way)) graph)
                    (snd (Helper.separate elements))
                    (fold_left
                       (fun (graph : Obj.t Helper.Node)
                            (kv : string * Helper.OverpassNode) =>
                          Obj.set graph (fst kv)
                            {| Helper.id := fst kv;
                               Helper.point :=
                                 {| latitude := Helper.lat (snd kv);
                                    longitude := Helper.lon (snd kv) |};
                               Helper.neighbors := [] |})
                       osm []))).
  { apply fold_tidy.
    - intros g way HT. apply fold_tidy; [| exact HT].
      intros. now apply connect_tidy.
    - apply initial_tidy; [apply incl_refl |]. intros k0 n0 []. }
  destruct (HT k n H) as [Hid [Hk [Hnd Hnb]]].
  unfold st', Helper.processOverpassData, Helper.buildGraph.
  cbn [Helper.osmNodes]. auto.
Qed.

Lemma built_nodes_have_neighbors_witness :
  Helper.id {| Helper.id := "1"; Helper.point := mkPoint 0 0;
               Helper.neighbors := ["2"] |} = "1"
  /\ Helper.neighbors {| Helper.id := "1"; Helper.point := mkPoint 0 0;
                         Helper.neighbors := ["2"] |} <> []
  /\ NoDup (Helper.neighbors {| Helper.id := "1"; Helper.point := mkPoint 0 0;
                                Helper.neighbors := ["2"] |})
  /\ In "1" (Obj.keys (Helper.osmNodes (Helper.processOverpassData Helper.create oneWayStreet)))
  /\ forall v,
       In v (Helper.neighbors {| Helper.id := "1"; Helper.point := mkPoint 0 0;
                                 Helper.neighbors := ["2"] |}) ->
       In v (Obj.keys (Helper.osmNodes (Helper.processOverpassData Helper.create oneWayStreet))).
Proof.
  exact (@built_nodes_have_neighbors Helper.create oneWayStreet "1"
           {| Helper.id := "1"; Helper.point := mkPoint 0 0;
              Helper.neighbors := ["2"] |} eq_refl).
Defined.

(** ** What [fetchRoadNetwork] of the dijkstra-helper variant remembers *)

(** X12: after a fetch that succeeded, [fetchRoadNetwork] for the same
    center and radius returns at once and changes nothing, whatever the
    network would answer, provided the distance from the center to itself
    is less than half the radius. *)
Theorem fetched_area_is_not_fetched_again (hav : Point -> Point -> Q)
  (st : Helper.PathFinder) (center : Point) (radius : Q)
  (elements : list Element) (response : Fetch) :
  Helper.alreadyFetched hav st center radius = false ->
  hav center center < radius * (1 # 2) ->
  let st1 := Helper.fetchRoadNetwork hav st center radius (FetchOk elements) in
  Helper.initialized st1 = true
  /\ Helper.lastFetchCenter st1 = Some center
  /\ Helper.lastFetchRadius st1 = radius
  /\ Helper.nodes st1 = Helper.nodes (Helper.processOverpassData st elements)
  /\ Helper.fetchRoadNetwork hav st1 center radius response = st1.
Proof.
  intros Hnot Hnear st1.
  assert (E : st1 =
              {| Helper.nodes := Helper.nodes (Helper.processOverpassData st elements);
                 Helper.ways := Helper.ways (Helper.processOverpassData st elements);
                 Helper.osmNodes := Helper.osmNodes (Helper.processOverpassData st elements);
                 Helper.initialized := true;
                 Helper.lastFetchCenter := Some center;
                 Helper.lastFetchRadius := radius |}).
  { unfold st1, Helper.fetchRoadNetwork. now rewrite Hnot. }
  rewrite E. cbn [Helper.initialized Helper.lastFetchCenter Helper.lastFetchRadius
                  Helper.nodes].
  repeat (split; [reflexivity |]).
  unfold Helper.fetchRoadNetwork, Helper.alreadyFetched.
  cbn [Helper.initialized Helper.lastFetchCenter Helper.lastFetchRadius andb].
  rewrite (proj2 (Qltb_true _ _) Hnear).
  rewrite (proj2 (Qle_bool_iff radius radius)) by apply Qle_refl.
  reflexivity.
Qed.

Lemma fetched_area_is_not_fetched_again_witness :
  let st1 :=
    Helper.fetchRoadNetwork cityBlock Helper.create (mkPoint 0 0) 1
      (FetchOk twoWayStreet) in
  Helper.initialized st1 = true
  /\ Helper.lastFetchCenter st1 = Some (mkPoint 0 0)
  /\ Helper.lastFetchRadius st1 = 1
  /\ Helper.nodes st1
     = Helper.nodes (Helper.processOverpassData Helper.create twoWayStreet)
  /\ Helper.fetchRoadNetwork cityBlock st1 (mkPoint 0 0) 1 FetchFailed = st1.
Proof.
  apply (@fetched_area_is_not_fetched_again cityBlock Helper.create
           (mkPoint 0 0) 1 twoWayStreet FetchFailed).
  - reflexivity.
  - reflexivity.
Defined.

(** X13: the demo network is not remembered as a fetched area.  After a
    failed fetch on an instance that has fetched nothing before, the
    instance is initialized but still has no last center, so every later
    [fetchRoadNetwork] asks the network again: a payload replaces the demo
    network, and another failure builds a demo network around the new
    center. *)
Theorem demo_network_is_not_remembered (hav : Point -> Point -> Q)
  (st : Helper.PathFinder) (center : Point) (radius : Q) :
  Helper.lastFetchCenter st = None ->
  let st1 := Helper.fetchRoadNetwork hav st center radius FetchFailed in
  st1 = Helper.createDemoNetwork st center
  /\ Helper.initialized st1 = true
  /\ Helper.lastFetchCenter st1 = None
  /\ forall center' radius' elements,
       Helper.nodes (Helper.fetchRoadNetwork hav st1 center' radius' (FetchOk elements))
       = Helper.nodes (Helper.processOverpassData st1 elements)
       /\ Helper.fetchRoadNetwork hav st1 center' radius' FetchFailed
          = Helper.createDemoNetwork st1 center'.
Proof.
  intros Hnone st1.
  assert (Hno : forall s c r, Helper.lastFetchCenter s = None ->
                              Helper.alreadyFetched hav s c r = false).
  { intros s c r H. unfold Helper.alreadyFetched. rewrite H. apply andb_false_r. }
  assert (E : st1 = Helper.createDemoNetwork st center).
  { unfold st1, Helper.fetchRoadNetwork. now rewrite (Hno st center radius Hnone). }
  assert (Hl : Helper.lastFetchCenter st1 = None) by (rewrite E; exact Hnone).
  split; [exact E |]. split; [rewrite E; reflexivity |]. split; [exact Hl |].
  intros center' radius' elements. unfold Helper.fetchRoadNetwork.
  rewrite (Hno st1 center' radius' Hl). split; reflexivity.
Qed.

Lemma demo_network_is_not_remembered_witness :
  let st1 :=
    Helper.fetchRoadNetwork cityBlock Helper.create (mkPoint 0 0) 1 FetchFailed in
  st1 = Helper.createDemoNetwork Helper.create (mkPoint 0 0)
  /\ Helper.initialized st1 = true
  /\ Helper.lastFetchCenter st1 = None
  /\ forall center' radius' elements,
       Helper.nodes (Helper.fetchRoadNetwork cityBlock st1 center' radius'
                       (FetchOk elements))
       = Helper.nodes (Helper.processOverpassData st1 elements)
       /\ Helper.fetchRoadNetwork cityBlock st1 center' radius' FetchFailed
          = Helper.createDemoNetwork st1 center'.
Proof.
  exact (@demo_network_is_not_remembered cityBlock Helper.create (mkPoint 0 0) 1
           eq_refl).
Defined.

(** ** The PathFinder of [utils/pathfinding.ts] *)

Lemma Legacy_processElements_flag (elements : list Element)
  (st : Legacy.PathFinder) :
  Legacy.isInitialized (fst (Legacy.processElements st elements))
  = Legacy.isInitialized st.
Proof.
  revert st. induction elements as [| e l IH]; intros st; simpl; [reflexivity |].
  destruct (Legacy.processElement st e) as [st' |] eqn:E; [| reflexivity].
  rewrite IH. destruct e as [i la lo | i ns tg |]; simpl in E.
  - now inversion E.
  - destruct tg as [tg |]; [| discriminate].
    destruct (truthy _ && negb _); now inversion E.
  - now inversion E.
Qed.

(** X14: when [fetchRoadNetwork] of [utils/pathfinding.ts] rejects, because
    the fetch failed or because reading the payload threw, the instance is
    left uninitialized with an empty graph: every nearest-node search and
    every [findShortestPath] on it returns [null]. *)
Theorem Legacy_rejected_fetch_leaves_nothing (cd : Point -> Point -> Q)
  (st st' : Legacy.PathFinder) (response : Fetch) :
  Legacy.fetchRoadNetwork cd st response = (st', false) ->
  Legacy.isInitialized st' = false
  /\ Legacy.nodes st' = []
  /\ (forall point searchRadius,
        Legacy.findNearestOsmNode cd st' point searchRadius = None)
  /\ (forall fuel startId endId,
        Legacy.findShortestPath fuel st' startId endId = Returned None).
Proof.
  intros H.
  assert (Hst : Legacy.isInitialized st' = false /\ Legacy.nodes st' = []).
  { unfold Legacy.fetchRoadNetwork in H. destruct response as [| elements].
    - inversion H. split; reflexivity.
    - pose proof (Legacy_processElements_flag elements Legacy.create) as Hf.
      pose proof (Legacy_processElements_nodes elements Legacy.create) as Hn.
      destruct (Legacy.processElements Legacy.create elements) as [c ok].
      destruct ok; [discriminate |]. inversion H; subst c. auto. }
  destruct Hst as [Hi Hn]. split; [exact Hi |]. split; [exact Hn |]. split.
  - intros point searchRadius. unfold Legacy.findNearestOsmNode. now rewrite Hi.
  - intros fuel startId endId. unfold Legacy.findShortestPath. now rewrite Hi.
Qed.

Lemma Legacy_rejected_fetch_leaves_nothing_witness :
  let st' := fst (Legacy.fetchRoadNetwork cityBlock Legacy.create (FetchOk taglessWay)) in
  Legacy.isInitialized st' = false
  /\ Legacy.nodes st' = []
  /\ (forall point searchRadius,
        Legacy.findNearestOsmNode cityBlock st' point searchRadius = None)
  /\ (forall fuel startId endId,
        Legacy.findShortestPath fuel st' startId endId = Returned None).
Proof.
  exact (@Legacy_rejected_fetch_leaves_nothing cityBlock Legacy.create
           (fst (Legacy.fetchRoadNetwork cityBlock Legacy.create (FetchOk taglessWay)))
           (FetchOk taglessWay) eq_refl).
Defined.

Lemma Legacy_smallest_init (g : Obj.t Legacy.GraphNode) (startId : string) :
  In startId (Obj.keys g) ->
  Legacy.smallest (Legacy.initSearch g startId) = (startId, Fin 0).
Proof.
  intros Hs. unfold Legacy.smallest, Legacy.initSearch.
  cbn [Legacy.distances Legacy.unvisited].
  set (d := Obj.set (fold_left (fun o nodeId => Obj.set o nodeId Inf) (Obj.keys g) [])
              startId (Fin 0)).
  assert (Hd : forall k, Obj.get d k = Some (Fin 0) /\ k = startId
                         \/ Obj.get d k = Some Inf \/ Obj.get d k = None).
  { intros k. unfold d. rewrite get_set, get_fold_set.
    destruct (String.eqb startId k) eqn:E.
    - apply String.eqb_eq in E. left. auto.
    - right. destruct (mem k (Obj.keys g)); auto. }
  assert (Hgen : forall l acc,
             (acc = ("", Inf) \/ acc = (startId, Fin 0)) ->
             let r :=
               fold_left
                 (fun (acc : string * ext) nodeId =>
                    match Obj.get d nodeId with
                    | Some x => if ext_ltb x (snd acc) then (nodeId, x) else acc
                    | None => acc
                    end) l acc in
             (r = ("", Inf) /\ ~ In startId l /\ acc = ("", Inf))
             \/ r = (startId, Fin 0)).
  { induction l as [| k l IH]; intros acc Hacc; cbv zeta.
    - cbn [fold_left]. destruct Hacc as [-> | ->]; [left | right]; auto.
    - cbn [fold_left].
      destruct (Hd k) as [[Hk ->] | [Hk | Hk]]; rewrite Hk.
      + destruct Hacc as [-> | ->]; cbn [snd ext_ltb].
        * destruct (IH (startId, Fin 0) (or_intror eq_refl)) as [[_ [_ H]] | H];
            [discriminate | now right].
        * change (Qle_bool 0 0) with true. cbn [negb].
          destruct (IH (startId, Fin 0) (or_intror eq_refl)) as [[_ [_ H]] | H];
            [discriminate | now right].
      + cbn [ext_ltb].
        destruct (IH acc Hacc) as [[H1 [H2 H3]] | H]; [| now right].
        destruct (String.eqb_spec k startId) as [-> | Hne].
        * unfold d in Hk. rewrite get_set_eq in Hk. discriminate.
        * left. split; [exact H1 |]. split; [| exact H3].
          intros [Hx | Hx]; [congruence | contradiction].
      + destruct (IH acc Hacc) as [[H1 [H2 H3]] | H]; [| now right].
        destruct (String.eqb_spec k startId) as [-> | Hne].
        * unfold d in Hk. rewrite get_set_eq in Hk. discriminate.
        * left. split; [exact H1 |]. split; [| exact H3].
          intros [Hx | Hx]; [congruence | contradiction]. }
  destruct (Hgen (Obj.keys g) ("", Inf) (or_introl eq_refl)) as [[_ [H _]] | H];
    [contradiction | exact H].
Qed.

(** X15: [findShortestPath] of [utils/pathfinding.ts] never returns a
    route from a node to itself: the path it rebuilds has one node, which
    it rejects as too short. *)
Theorem Legacy_no_route_from_a_node_to_itself (fuel : nat)
  (st : Legacy.PathFinder) (nodeId : string) :
  (0 < fuel)%nat ->
  Legacy.findShortestPath fuel st nodeId nodeId = Returned None.
Proof.
  intros Hfuel. unfold Legacy.findShortestPath.
  destruct (negb (Legacy.isInitialized st)
            || negb (Obj.has (Legacy.nodes st) nodeId)
            || negb (Obj.has (Legacy.nodes st) nodeId)) eqn:G; [reflexivity |].
  apply orb_false_iff in G as [_ Hh]. apply negb_false_iff, has_true in Hh.
  destruct fuel as [| fuel]; [lia |].
  rewrite Legacy_search_unfold, Legacy_smallest_init by exact Hh.
  replace (Legacy.unvisited (Legacy.initSearch (Legacy.nodes st) nodeId))
    with (Obj.keys (Legacy.nodes st)) by reflexivity.
  destruct (Obj.keys (Legacy.nodes st)) as [| k l] eqn:Ek; [contradiction |].
  rewrite String.eqb_refl.
  assert (Hd : Obj.get (Legacy.distances (Legacy.initSearch (Legacy.nodes st) nodeId))
                 nodeId = Some (Fin 0)).
  { unfold Legacy.initSearch. cbn [Legacy.distances]. apply get_set_eq. }
  rewrite Hd. cbn [Legacy.rebuild]. rewrite String.eqb_refl. reflexivity.
Qed.

Lemma Legacy_no_route_from_a_node_to_itself_witness :
  Legacy.findShortestPath 1 (legacyOn twoWayStreet) "osm_1" "osm_1" = Returned None.
Proof.
  apply (@Legacy_no_route_from_a_node_to_itself 1 (legacyOn twoWayStreet) "osm_1").
  lia.
Defined.

Lemma legacy_length_setNeighbor (g : Obj.t Legacy.GraphNode) (x y : string) (d : Q)
  (node : Legacy.GraphNode) (u v : string) :
  Obj.get g x = Some node ->
  legacy_length (Legacy.setNeighbor g x y d) u v
  = if String.eqb x u && String.eqb y v then Some d else legacy_length g u v.
Proof.
  intros Hx. unfold Legacy.setNeighbor. rewrite Hx. unfold legacy_length.
  rewrite get_set. destruct (String.eqb x u) eqn:E; cbn [andb]; [| reflexivity].
  apply String.eqb_eq in E. subst u. cbn [Legacy.neighbors].
  rewrite get_set, Hx. reflexivity.
Qed.

Lemma setNeighbor_keeps (g : Obj.t Legacy.GraphNode) (x y : string) (d : Q)
  (k : string) (node : Legacy.GraphNode) :
  Obj.get g k = Some node ->
  exists node', Obj.get (Legacy.setNeighbor g x y d) k = Some node'.
Proof.
  intros Hk. unfold Legacy.setNeighbor.
  destruct (Obj.get g x) as [n |] eqn:Ex; [| eauto].
  rewrite get_set. destruct (String.eqb x k); eauto.
Qed.

Lemma Legacy_addEdge_two_way (cd : Point -> Point -> Q) (st : Legacy.PathFinder)
  (a b : string) :
  two_way (Legacy.nodes st) -> two_way (Legacy.nodes (Legacy.addEdge cd st a b)).
Proof.
  intros H. unfold Legacy.addEdge.
  destruct (Obj.get (Legacy.nodes st) a) as [na |] eqn:Ea; [| exact H].
  destruct (Obj.get (Legacy.nodes st) b) as [nb |] eqn:Eb; [| exact H].
  cbv zeta. set (d := cd (Legacy.point na) (Legacy.point nb)).
  cbn [Legacy.withNodes Legacy.nodes].
  destruct (@setNeighbor_keeps (Legacy.nodes st) a b d b nb Eb) as [nb' Eb'].
  assert (L : forall u v,
             legacy_length
               (Legacy.setNeighbor (Legacy.setNeighbor (Legacy.nodes st) a b d) b a d) u v
             = if String.eqb b u && String.eqb a v then Some d
               else if String.eqb a u && String.eqb b v then Some d
                    else legacy_length (Legacy.nodes st) u v).
  { intros u v. rewrite (@legacy_length_setNeighbor _ b a d nb' u v Eb').
    rewrite (@legacy_length_setNeighbor _ a b d na u v Ea). reflexivity. }
  intros u v d' Huv. rewrite L in Huv. rewrite L.
  destruct (String.eqb_spec b u) as [Hbu | Hbu];
    destruct (String.eqb_spec a v) as [Hav | Hav];
    destruct (String.eqb_spec a u) as [Hau | Hau];
    destruct (String.eqb_spec b v) as [Hbv | Hbv];
    cbn [andb] in *; try exact Huv; try congruence; apply H; exact Huv.
Qed.

Lemma Legacy_addSegment_two_way (cd : Point -> Point -> Q) (st : Legacy.PathFinder)
  (seg : Z * Z) :
  two_way (Legacy.nodes st) -> two_way (Legacy.nodes (Legacy.addSegment cd st seg)).
Proof.
  intros H. unfold Legacy.addSegment. cbv zeta.
  destruct (Obj.has _ _ && Obj.has _ _); [| exact H].
  now apply Legacy_addEdge_two_way.
Qed.

Lemma Legacy_addWays_two_way (cd : Point -> Point -> Q) (ways : list Legacy.OSMWay)
  (st : Legacy.PathFinder) :
  two_way (Legacy.nodes st) ->
  two_way
    (Legacy.nodes
       (fold_left
          (fun st way =>
             fold_left (Legacy.addSegment cd) (segments (Legacy.wayNodes way)) st)
          ways st)).
Proof.
  revert st. induction ways as [| way ways IH]; intros st H; cbn [fold_left];
    [exact H |].
  apply IH. generalize (segments (Legacy.wayNodes way)). intros l.
  revert st H. induction l as [| seg l IHl]; intros st H; cbn [fold_left];
    [exact H |].
  apply IHl. now apply Legacy_addSegment_two_way.
Qed.

Lemma Legacy_addNodes_flat (l : list Legacy.OSMNode) (st : Legacy.PathFinder) :
  (forall k n, Obj.get (Legacy.nodes st) k = Some n -> Legacy.neighbors n = []) ->
  forall k n,
    Obj.get
      (Legacy.nodes
         (fold_left
            (fun st osmNode =>
               Legacy.addNode st (Legacy.graphNodeId (keyOf (Legacy.osmId osmNode)))
                 {| latitude := Legacy.lat osmNode; longitude := Legacy.lon osmNode |})
            l st)) k = Some n ->
    Legacy.neighbors n = [].
Proof.
  revert st. induction l as [| a l IH]; intros st H; cbn [fold_left]; [exact H |].
  apply IH. intros k n. unfold Legacy.addNode. cbn [Legacy.withNodes Legacy.nodes].
  rewrite get_set. destruct (String.eqb _ k).
  - intros [= <-]. reflexivity.
  - apply H.
Qed.

(** X16: in the graph a successful [fetchRoadNetwork] of
    [utils/pathfinding.ts] builds, every edge has its reverse, and both
    carry the same length: the end of an edge is a node of the graph whose
    neighbors hold the edge's start at that length (one-way tags are not
    read). *)
Theorem Legacy_graph_edges_go_both_ways (cd : Point -> Point -> Q)
  (st0 st : Legacy.PathFinder) (elements : list Element)
  (u v : string) (nodeU : Legacy.GraphNode) (d : Q) :
  Legacy.fetchRoadNetwork cd st0 (FetchOk elements) = (st, true) ->
  Obj.get (Legacy.nodes st) u = Some nodeU ->
  Obj.get (Legacy.neighbors nodeU) v = Some d ->
  exists nodeV,
    Obj.get (Legacy.nodes st) v = Some nodeV
    /\ Obj.get (Legacy.neighbors nodeV) u = Some d.
Proof.
  unfold Legacy.fetchRoadNetwork.
  pose proof (Legacy_processElements_nodes elements Legacy.create) as Hc.
  destruct (Legacy.processElements Legacy.create elements) as [c ok].
  cbn [fst Legacy.create Legacy.nodes] in Hc. destruct ok; [| discriminate].
  intros [= <-]. cbn [Legacy.nodes]. intros Hu Hv.
  assert (T : two_way (Legacy.nodes (Legacy.buildGraphFromOSM cd c))).
  { unfold Legacy.buildGraphFromOSM. cbv zeta. apply Legacy_addWays_two_way.
    intros x y e. unfold legacy_length.
    destruct (Obj.get _ x) as [n |] eqn:Ex; [| discriminate].
    rewrite (@Legacy_addNodes_flat (Obj.values (Legacy.osmNodes c)) c) with (k := x) (n := n).
    - discriminate.
    - intros k m. rewrite Hc. discriminate.
    - exact Ex. }
  specialize (T u v d). unfold legacy_length in T. rewrite Hu in T.
  specialize (T Hv).
  destruct (Obj.get (Legacy.nodes (Legacy.buildGraphFromOSM cd c)) v) as [nodeV |];
    [| discriminate].
  exists nodeV. split; [reflexivity | exact T].
Qed.

Lemma Legacy_graph_edges_go_both_ways_witness :
  exists nodeV,
    Obj.get (Legacy.nodes (legacyOn oneWayStreet)) "osm_2" = Some nodeV
    /\ Obj.get (Legacy.neighbors nodeV) "osm_1" = Some (111000 # 100).
Proof.
  apply (@Legacy_graph_edges_go_both_ways cityBlock Legacy.create
           (legacyOn oneWayStreet) oneWayStreet "osm_1" "osm_2"
           {| Legacy.id := "osm_1"; Legacy.point := mkPoint 0 0;
              Legacy.neighbors := [("osm_2", 111000 # 100)] |} (111000 # 100)).
  - vm_compute. reflexivity.
  - vm_compute. reflexivity.
  - vm_compute. reflexivity.
Defined.

Lemma Legacy_scan_pick (cd : Point -> Point -> Q) (st : Legacy.PathFinder)
  (point : Point) (ok : string -> Q -> bool) (acc : option string * ext) :
  Legacy.scan cd st point ok acc
  = pickNearest (fun kv => ok (fst kv) (legacyDistance cd point kv))
      (fun kv => Legacy.graphNodeId (fst kv)) (legacyDistance cd point)
      (Legacy.osmNodes st) acc.
Proof. reflexivity. Qed.

(** X17: on an initialized instance with OSM nodes, [findNearestOsmNode]
    of [utils/pathfinding.ts] returns the node closest to the point among
    the nodes that lie on a way, when one of those is within the search
    radius; when none is, it returns the node closest to the point among
    all nodes, on a way or not, however far away it is. *)
Theorem Legacy_nearest_prefers_nodes_on_ways (cd : Point -> Point -> Q)
  (st : Legacy.PathFinder) (point : Point) (searchRadius : Q) :
  Legacy.isInitialized st = true ->
  Legacy.osmNodes st <> [] ->
  exists x,
    In x (Legacy.osmNodes st)
    /\ Legacy.findNearestOsmNode cd st point searchRadius
       = Some (Legacy.graphNodeId (fst x))
    /\ ((onWay st x = true
         /\ legacyDistance cd point x <= searchRadius
         /\ forall y, In y (Legacy.osmNodes st) -> onWay st y = true ->
                      legacyDistance cd point x <= legacyDistance cd point y)
        \/ ((forall y, In y (Legacy.osmNodes st) -> onWay st y = true ->
                       ~ legacyDistance cd point y <= searchRadius)
            /\ forall y, In y (Legacy.osmNodes st) ->
                         legacyDistance cd point x <= legacyDistance cd point y)).
Proof.
  intros Hi Ho.
  assert (Hg : negb (Legacy.isInitialized st)
               || (List.length (Obj.keys (Legacy.osmNodes st)) =? 0)%nat = false).
  { rewrite Hi. destruct (Legacy.osmNodes st); [congruence | reflexivity]. }
  unfold Legacy.findNearestOsmNode. rewrite Hg. cbv beta iota zeta.
  rewrite !Legacy_scan_pick.
  set (dist := legacyDistance cd point).
  set (name := fun kv : string * Legacy.OSMNode => Legacy.graphNodeId (fst kv)).
  set (ok1 := fun kv : string * Legacy.OSMNode =>
                Qle_bool (dist kv) searchRadius
                && mem (Legacy.graphNodeId (fst kv)) (Legacy.nodesInWays st)).
  destruct (@pickNearest_spec _ ok1 name dist (Legacy.osmNodes st))
    as [[E1 N1] | [x [Hx [Hok [E1 Hmin]]]]].
  - (* no node on a way within the radius *)
    assert (Hfar : forall y, In y (Legacy.osmNodes st) -> onWay st y = true ->
                             ~ dist y <= searchRadius).
    { intros y Hy Hw Hle. specialize (N1 y Hy). unfold ok1 in N1.
      unfold onWay in Hw. rewrite Hw, Bool.andb_true_r in N1.
      apply Qle_bool_iff in Hle. congruence. }
    rewrite E1. cbn [fst].
    set (wide := (searchRadius * (3 # 2))%Q).
    set (ok2 := fun kv : string * Legacy.OSMNode => Qle_bool (dist kv) wide).
    destruct (@pickNearest_spec _ ok2 name dist (Legacy.osmNodes st))
      as [[E2 N2] | [x [Hx [Hok [E2 Hmin]]]]].
    + rewrite E2. cbn [fst].
      destruct (@pickNearest_spec _ (fun _ : string * Legacy.OSMNode => true)
                  name dist (Legacy.osmNodes st))
        as [[_ N3] | [x [Hx [_ [E3 Hmin]]]]].
      * destruct (Legacy.osmNodes st) as [| kv l]; [congruence |].
        specialize (N3 kv (or_introl eq_refl)). discriminate.
      * exists x. split; [exact Hx |]. rewrite E3. cbn [fst].
        split; [reflexivity |]. right. split; [exact Hfar |].
        intros y Hy. now apply Hmin.
    + exists x. split; [exact Hx |]. rewrite E2. cbn [fst].
      split; [reflexivity |]. right. split; [exact Hfar |].
      intros y Hy. destruct (ok2 y) eqn:Ey; [now apply Hmin |].
      unfold ok2 in Hok, Ey. apply Qle_bool_iff in Hok.
      destruct (Qlt_le_dec wide (dist y)) as [Hlt | Hle].
      * apply Qlt_le_weak. eapply Qle_lt_trans; eauto.
      * apply Qle_bool_iff in Hle. congruence.
  - exists x. split; [exact Hx |]. rewrite E1. cbn [fst].
    split; [reflexivity |]. left. unfold ok1 in Hok.
    apply andb_true_iff in Hok as [Hr Hw]. apply Qle_bool_iff in Hr.
    split; [exact Hw |]. split; [exact Hr |].
    intros y Hy Hwy. destruct (ok1 y) eqn:Ey; [now apply Hmin |].
    unfold ok1 in Ey. unfold onWay in Hwy. rewrite Hwy, Bool.andb_true_r in Ey.
    destruct (Qlt_le_dec searchRadius (dist y)) as [Hlt | Hle].
    + apply Qlt_le_weak. eapply Qle_lt_trans; eauto.
    + apply Qle_bool_iff in Hle. congruence.
Qed.

Lemma Legacy_nearest_prefers_nodes_on_ways_witness :
  exists x,
    In x (Legacy.osmNodes (legacyOn streetAndLoneNode))
    /\ Legacy.findNearestOsmNode cityBlock (legacyOn streetAndLoneNode)
         (mkPoint 0 0) 500
       = Some (Legacy.graphNodeId (fst x))
    /\ ((onWay (legacyOn streetAndLoneNode) x = true
         /\ legacyDistance cityBlock (mkPoint 0 0) x <= 500
         /\ forall y, In y (Legacy.osmNodes (legacyOn streetAndLoneNode)) ->
                      onWay (legacyOn streetAndLoneNode) y = true ->
                      legacyDistance cityBlock (mkPoint 0 0) x
                      <= legacyDistance cityBlock (mkPoint 0 0) y)
        \/ ((forall y, In y (Legacy.osmNodes (legacyOn streetAndLoneNode)) ->
                       onWay (legacyOn streetAndLoneNode) y = true ->
                       ~ legacyDistance cityBlock (mkPoint 0 0) y <= 500)
            /\ forall y, In y (Legacy.osmNodes (legacyOn streetAndLoneNode)) ->
                         legacyDistance cityBlock (mkPoint 0 0) x
                         <= legacyDistance cityBlock (mkPoint 0 0) y)).
Proof.
  apply (@Legacy_nearest_prefers_nodes_on_ways cityBlock
           (legacyOn streetAndLoneNode) (mkPoint 0 0) 500).
  - vm_compute. reflexivity.
  - vm_compute. discriminate.
Defined.

(** ** The route search of the full PathFinder *)

Lemma between_met (fuel : nat) (st : Router.PathFinder) (way : Router.OSMWay)
  (i step : Z) (points : list Point) :
  RouterSearch.between fuel st way i i step points = Returned points.
Proof. destruct fuel; cbn [RouterSearch.between]; now rewrite Z.eqb_refl. Qed.

(** Between two nodes that follow each other on a way there is no
    intermediate point. *)
Lemma getIntermediatePoints_adjacent (fuel : nat) (st : Router.PathFinder)
  (way : Router.OSMWay) (startNodeId endNodeId : string) (osmId1 osmId2 : Z) :
  RouterSearch.osmIdOf startNodeId = Some osmId1 ->
  RouterSearch.osmIdOf endNodeId = Some osmId2 ->
  RouterSearch.adjacentIn way osmId1 osmId2 = true ->
  RouterSearch.getIntermediatePoints fuel st way startNodeId endNodeId = Returned [].
Proof.
  intros H1 H2 Hadj. unfold RouterSearch.getIntermediatePoints. cbv zeta.
  rewrite H1, H2. unfold RouterSearch.adjacentIn in Hadj.
  destruct (indexOf osmId1 (Router.wayNodes way)) as [i |]; [| discriminate].
  destruct (indexOf osmId2 (Router.wayNodes way)) as [j |]; [| discriminate].
  apply Z.eqb_eq in Hadj.
  destruct (i <? j)%Z eqn:E.
  - apply Z.ltb_lt in E. replace (i + 1)%Z with j by lia. apply between_met.
  - apply Z.ltb_ge in E. replace (i + -1)%Z with j by lia. apply between_met.
Qed.

Lemma findConnectingWay_adjacent (st : Router.PathFinder) (node1Id node2Id : string)
  (way : Router.OSMWay) :
  RouterSearch.findConnectingWay st node1Id node2Id = Some way ->
  exists osmId1 osmId2,
    RouterSearch.osmIdOf node1Id = Some osmId1
    /\ RouterSearch.osmIdOf node2Id = Some osmId2
    /\ RouterSearch.adjacentIn way osmId1 osmId2 = true.
Proof.
  unfold RouterSearch.findConnectingWay.
  destruct (RouterSearch.osmIdOf node1Id) as [a |]; [| discriminate].
  destruct (RouterSearch.osmIdOf node2Id) as [b |]; [| discriminate].
  destruct (Obj.get (Router.nodes st) node1Id); [| discriminate].
  destruct (Obj.get (Router.nodes st) node2Id); [| discriminate].
  intros H. apply find_some in H as [_ H]. exists a, b. auto.
Qed.

(** One round of the loop of [getDetailedPathCoordinates] adds the point
    of [path[i]] when both nodes exist, and nothing else. *)
Lemma detailSegments_step (fuel : nat) (st : Router.PathFinder)
  (currentId nextId : string) (more : list (string * string))
  (detailedPath : list Point) :
  RouterSearch.detailSegments fuel st ((currentId, nextId) :: more) detailedPath
  = RouterSearch.detailSegments fuel st more
      (match Obj.get (Router.nodes st) currentId, Obj.get (Router.nodes st) nextId with
       | Some currentNode, Some _ => detailedPath ++ [Router.point currentNode]
       | _, _ => detailedPath
       end).
Proof.
  cbn [RouterSearch.detailSegments].
  destruct (Obj.get (Router.nodes st) currentId) as [currentNode |]; [| reflexivity].
  destruct (Obj.get (Router.nodes st) nextId) as [nextNode |]; [| reflexivity].
  cbv zeta.
  destruct (RouterSearch.findConnectingWay st currentId nextId) as [way |] eqn:E;
    [| reflexivity].
  destruct (findConnectingWay_adjacent _ _ _ E) as [a [b [Ha [Hb Hadj]]]].
  rewrite (@getIntermediatePoints_adjacent fuel st way currentId nextId a b Ha Hb Hadj).
  now rewrite app_nil_r.
Qed.

Lemma detailSegments_plain (fuel : nat) (st : Router.PathFinder) (path : list string) :
  (forall nodeId, In nodeId path -> In nodeId (Obj.keys (Router.nodes st))) ->
  forall detailedPath,
    RouterSearch.detailSegments fuel st (segments path) detailedPath
    = Returned (detailedPath
                ++ RouterSearch.getPathCoordinates st (removelast path)).
Proof.
  induction path as [| a path IH]; intros Hin acc.
  - cbn. now rewrite app_nil_r.
  - destruct path as [| b path].
    + cbn. now rewrite app_nil_r.
    + change (segments (a :: b :: path)) with ((a, b) :: segments (b :: path)).
      rewrite detailSegments_step.
      destruct (keys_get _ _ (Hin a (or_introl eq_refl))) as [na Hna].
      destruct (keys_get _ _ (Hin b (or_intror (or_introl eq_refl)))) as [nb Hnb].
      rewrite Hna, Hnb. rewrite IH by (intros x Hx; apply Hin; now right).
      change (removelast (a :: b :: path)) with (a :: removelast (b :: path)).
      unfold RouterSearch.getPathCoordinates at 2. cbn [flat_map]. rewrite Hna.
      rewrite <- app_assoc. reflexivity.
Qed.

Lemma getPathCoordinates_app (st : Router.PathFinder) (p q : list string) :
  RouterSearch.getPathCoordinates st (p ++ q)
  = RouterSearch.getPathCoordinates st p ++ RouterSearch.getPathCoordinates st q.
Proof. unfold RouterSearch.getPathCoordinates. apply flat_map_app. Qed.

Lemma getDetailedPathCoordinates_plain (fuel : nat) (st : Router.PathFinder)
  (path : list string) :
  (forall nodeId, In nodeId path -> In nodeId (Obj.keys (Router.nodes st))) ->
  RouterSearch.getDetailedPathCoordinates fuel st path
  = Returned (RouterSearch.getPathCoordinates st path).
Proof.
  intros Hin. unfold RouterSearch.getDetailedPathCoordinates.
  destruct path as [| a path]; [reflexivity |].
  rewrite detailSegments_plain by exact Hin.
  assert (Hne : a :: path <> []) by discriminate.
  pose proof (app_removelast_last "" Hne) as Hsplit.
  set (front := removelast (a :: path)) in *.
  set (final := last (a :: path) "") in *.
  assert (Hl : In final (a :: path)).
  { rewrite Hsplit. apply in_or_app. right. now left. }
  destruct (keys_get _ _ (Hin _ Hl)) as [n Hn]. rewrite Hn, Hsplit.
  rewrite getPathCoordinates_app.
  unfold RouterSearch.getPathCoordinates at 3. cbn [flat_map]. rewrite Hn.
  reflexivity.
Qed.

Lemma getPathCoordinates_length (st : Router.PathFinder) (path : list string) :
  (forall nodeId, In nodeId path -> In nodeId (Obj.keys (Router.nodes st))) ->
  List.length (RouterSearch.getPathCoordinates st path) = List.length path.
Proof.
  induction path as [| a path IH]; intros Hin; [reflexivity |].
  unfold RouterSearch.getPathCoordinates. cbn [flat_map].
  destruct (keys_get _ _ (Hin a (or_introl eq_refl))) as [na Hna]. rewrite Hna.
  cbn [app List.length]. f_equal. apply IH. intros x Hx. apply Hin. now right.
Qed.

(** X18: for a path whose ids are all nodes of the graph,
    [getDetailedPathCoordinates] returns the points of the nodes of the
    path, one for each id and nothing in between, exactly as
    [getPathCoordinates] does: the way it looks up for two consecutive
    nodes has them next to each other, so the loop for the intermediate
    points has nothing to visit. *)
Theorem detailed_path_has_no_intermediate_points (fuel : nat)
  (st : Router.PathFinder) (path : list string) :
  (forall nodeId, In nodeId path -> In nodeId (Obj.keys (Router.nodes st))) ->
  RouterSearch.getDetailedPathCoordinates fuel st path
  = Returned (RouterSearch.getPathCoordinates st path)
  /\ List.length (RouterSearch.getPathCoordinates st path) = List.length path
  /\ forall currentId nextId way,
       RouterSearch.findConnectingWay st currentId nextId = Some way ->
       RouterSearch.getIntermediatePoints fuel st way currentId nextId = Returned [].
Proof.
  intros Hin. split; [| split].
  - now apply getDetailedPathCoordinates_plain.
  - now apply getPathCoordinates_length.
  - intros currentId nextId way Hway.
    destruct (findConnectingWay_adjacent _ _ _ Hway) as [a [b [Ha [Hb Hadj]]]].
    exact (@getIntermediatePoints_adjacent fuel st way currentId nextId a b Ha Hb Hadj).
Qed.

Lemma detailed_path_has_no_intermediate_points_witness :
  RouterSearch.getDetailedPathCoordinates 0 twoWayRouter ["osm_1"; "osm_2"]
  = Returned (RouterSearch.getPathCoordinates twoWayRouter ["osm_1"; "osm_2"])
  /\ List.length (RouterSearch.getPathCoordinates twoWayRouter ["osm_1"; "osm_2"])
     = List.length ["osm_1"; "osm_2"]
  /\ forall currentId nextId way,
       RouterSearch.findConnectingWay twoWayRouter currentId nextId = Some way ->
       RouterSearch.getIntermediatePoints 0 twoWayRouter way currentId nextId
       = Returned [].
Proof.
  apply (@detailed_path_has_no_intermediate_points 0 twoWayRouter ["osm_1"; "osm_2"]).
  intros nodeId [<- | [<- | []]]; vm_compute; auto.
Defined.

Lemma initSearch_distances (g : Obj.t Router.GraphNode) (startId k : string) :
  Obj.get (RouterSearch.distances (RouterSearch.initSearch g startId)) k
  = if String.eqb startId k then Some (Fin 0)
    else if mem k (Obj.keys g) then Some Inf else None.
Proof.
  unfold RouterSearch.initSearch. cbn [RouterSearch.distances].
  now rewrite get_set, get_fold_set.
Qed.

Lemma initSearch_previous (g : Obj.t Router.GraphNode) (startId k : string) :
  Obj.get (RouterSearch.previous (RouterSearch.initSearch g startId)) k
  = if mem k (Obj.keys g) then Some None else None.
Proof.
  unfold RouterSearch.initSearch. cbn [RouterSearch.previous].
  now rewrite get_fold_set.
Qed.

(** X19: on an initialized PathFinder, [findShortestPath] from a node of
    the graph to itself returns a result: the path is that node alone, the
    distance and the estimated time are zero, and the fare is the base
    fare. *)
Theorem route_to_the_same_node_costs_the_base_fare (cd : Point -> Point -> Q)
  (fuel : nat) (st : Router.PathFinder) (nodeId : string) :
  Router.isInitialized st = true ->
  In nodeId (Obj.keys (Router.nodes st)) ->
  (0 < fuel)%nat ->
  exists res t,
    RouterSearch.findShortestPath cd fuel st nodeId nodeId = Returned (Some res)
    /\ RouterSearch.path res = [nodeId]
    /\ RouterSearch.distance res == 0
    /\ RouterSearch.estimatedTime res = Fin t /\ t == 0
    /\ RouterSearch.fare res = Fare.BASE_FARE.
Proof.
  intros Hi Hin Hfuel. destruct fuel as [| fuel]; [lia |].
  pose proof Hin as Hmem. apply mem_In in Hmem.
  pose proof Hin as Hhas. apply has_true in Hhas.
  unfold RouterSearch.findShortestPath. rewrite Hi, Hhas. cbn [negb orb].
  cbn [RouterSearch.loop RouterSearch.initSearch RouterSearch.items
       RouterSearch.enqueue RouterSearch.sortItems app fold_left
       RouterSearch.insertItem].
  change (Obj.get (Obj.set (fold_left (fun o k => Obj.set o k Inf)
                              (Obj.keys (Router.nodes st)) []) nodeId (Fin 0)) nodeId)
    with (Obj.get (RouterSearch.distances
                     (RouterSearch.initSearch (Router.nodes st) nodeId)) nodeId).
  rewrite initSearch_distances, String.eqb_refl.
  change (ext_ltb (Fin 0) (Fin 0)) with false. cbv iota.
  unfold RouterSearch.finish. cbn [RouterSearch.reconstructPath RouterSearch.previous].
  change (Obj.get (fold_left (fun o k => Obj.set o k None)
                     (Obj.keys (Router.nodes st)) []) nodeId)
    with (Obj.get (RouterSearch.previous
                     (RouterSearch.initSearch (Router.nodes st) nodeId)) nodeId).
  rewrite initSearch_previous, Hmem.
  rewrite getDetailedPathCoordinates_plain
    by (intros x [<- | []]; exact Hin).
  destruct (keys_get _ _ Hin) as [n Hn].
  unfold RouterSearch.getPathCoordinates. cbn [flat_map]. rewrite Hn. cbn [app].
  cbv zeta.
  eexists _, _. split; [reflexivity |].
  cbn [RouterSearch.path RouterSearch.distance RouterSearch.estimatedTime
       RouterSearch.fare].
  split; [reflexivity |]. split; [reflexivity |].
  split; [reflexivity |]. split; reflexivity.
Qed.

Lemma route_to_the_same_node_costs_the_base_fare_witness :
  exists res t,
    RouterSearch.findShortestPath cityBlock 1 twoWayRouter "osm_1" "osm_1"
    = Returned (Some res)
    /\ RouterSearch.path res = ["osm_1"]
    /\ RouterSearch.distance res == 0
    /\ RouterSearch.estimatedTime res = Fin t /\ t == 0
    /\ RouterSearch.fare res = Fare.BASE_FARE.
Proof.
  apply (@route_to_the_same_node_costs_the_base_fare cityBlock 1 twoWayRouter "osm_1").
  - reflexivity.
  - vm_compute. auto.
  - lia.
Defined.

(** ** [findShortestPath] returns a fastest route *)

Lemma timedb_sound (g : Obj.t Router.GraphNode) : timedb g = true -> timed g.
Proof.
  intros H u n v w Hu Hin. unfold timedb in H. rewrite forallb_forall in H.
  specialize (H (u, n) (get_In _ _ Hu)). cbn [snd] in H.
  rewrite forallb_forall in H. specialize (H (v, Fin w) Hin). cbn [snd] in H.
  now apply Qle_bool_iff.
Qed.

Lemma get_timeGraph (g : Obj.t Router.GraphNode) (u : string) :
  Obj.get (timeGraph g) u
  = option_map (fun n => timeEdges g (Router.neighbors n)) (Obj.get g u).
Proof.
  unfold timeGraph.
  exact (@get_map_values _ _ (fun n => timeEdges g (Router.neighbors n)) g u).
Qed.

Lemma keys_timeGraph (g : Obj.t Router.GraphNode) :
  Obj.keys (timeGraph g) = Obj.keys g.
Proof.
  unfold timeGraph, Obj.keys. rewrite map_map. reflexivity.
Qed.

Lemma In_timeEdges (g : Obj.t Router.GraphNode) (adj : Obj.t ext)
  (v : string) (q : Q) :
  In (v, q) (timeEdges g adj) <-> In (v, Fin q) adj /\ Obj.has g v = true.
Proof.
  unfold timeEdges. rewrite in_flat_map. split.
  - intros [[v' w] [Hin H]]. cbn [fst snd] in H.
    destruct w as [q' |]; [| contradiction].
    destruct (Obj.has g v') eqn:E; [| contradiction].
    destruct H as [H | []]. inversion H; subst. auto.
  - intros [Hin Hhas]. exists (v, Fin q). split; [exact Hin |].
    cbn [fst snd]. rewrite Hhas. now left.
Qed.

Lemma timeGraph_well_formed (g : Obj.t Router.GraphNode) :
  timed g -> well_formed (timeGraph g).
Proof.
  intros Ht u adj v w Hadj Hin. rewrite get_timeGraph in Hadj.
  destruct (Obj.get g u) as [n |] eqn:Hu; [| discriminate].
  cbn [option_map] in Hadj. inversion Hadj; subst adj.
  apply In_timeEdges in Hin as [Hin Hhas]. split.
  - rewrite keys_timeGraph. now apply has_true.
  - exact (Ht u n v w Hu Hin).
Qed.

(** Journeys to a node of the graph are the routes of the time graph. *)
Lemma journey_route (g : Obj.t Router.GraphNode) (s k : string)
  (p : list string) (W : Q) :
  Journey g s k p W -> In k (Obj.keys g) -> Route (timeGraph g) s k p W.
Proof.
  intros H. induction H as [| u k p W w n Hj IH Hu Hin]; intros Hk.
  - constructor.
  - apply Route_step with (u := u) (adj := timeEdges g (Router.neighbors n)).
    + apply IH. eapply get_keys; eauto.
    + rewrite get_timeGraph, Hu. reflexivity.
    + apply In_timeEdges. split; [exact Hin | now apply has_true].
Qed.

Lemma route_journey (g : Obj.t Router.GraphNode) (s k : string)
  (p : list string) (W : Q) :
  Route (timeGraph g) s k p W -> Journey g s k p W.
Proof.
  intros H. induction H as [| u k p W w adj Hr IH Hadj Hin].
  - constructor.
  - rewrite get_timeGraph in Hadj.
    destruct (Obj.get g u) as [n |] eqn:Hu; [| discriminate].
    cbn [option_map] in Hadj. inversion Hadj; subst adj.
    apply In_timeEdges in Hin as [Hin _].
    eapply Journey_step; eauto.
Qed.

Lemma journey_nodes (g : Obj.t Router.GraphNode) (s k : string)
  (p : list string) (W : Q) :
  Journey g s k p W ->
  forall x, In x p -> x = k \/ In x (Obj.keys g).
Proof.
  intros H. induction H as [| u k p W w n Hj IH Hu Hin]; intros x Hx.
  - destruct Hx as [<- | []]. now left.
  - apply in_app_or in Hx as [Hx | [<- | []]]; [| now left].
    right. destruct (IH x Hx) as [-> | H]; [| exact H].
    eapply get_keys; eauto.
Qed.

(** *** The two queues *)

Lemma insertItem_entry (e : Helper.Entry) (l : list Helper.Entry) :
  RouterSearch.insertItem (entryItem e) (map entryItem l)
  = map entryItem (Helper.insert e l).
Proof.
  induction l as [| x r IH]; [reflexivity |].
  cbn [map RouterSearch.insertItem Helper.insert]. cbn [entryItem fst].
  destruct (ext_ltb (Helper.entryDistance e) (Helper.entryDistance x)).
  - reflexivity.
  - cbn [map]. f_equal. exact IH.
Qed.

Lemma sortItems_entries (l acc : list Helper.Entry) :
  fold_left (fun sorted item => RouterSearch.insertItem item sorted)
    (map entryItem l) (map entryItem acc)
  = map entryItem (fold_left (fun sorted e => Helper.insert e sorted) l acc).
Proof.
  revert acc. induction l as [| x r IH]; intros acc; [reflexivity |].
  cbn [map fold_left]. rewrite insertItem_entry. apply IH.
Qed.

Lemma insert_last (e : Helper.Entry) (l : list Helper.Entry) :
  (forall x, In x l -> entry_le x e) -> Helper.insert e l = l ++ [e].
Proof.
  induction l as [| x r IH]; intros H; [reflexivity |].
  cbn [Helper.insert app].
  assert (Hx : ext_ltb (Helper.entryDistance e) (Helper.entryDistance x) = false).
  { apply ext_ltb_false. apply (H x). now left. }
  rewrite Hx. f_equal. apply IH. intros y Hy. apply H. now right.
Qed.

Lemma sort_fold_sorted (l acc : list Helper.Entry) :
  StronglySorted entry_le (acc ++ l) ->
  fold_left (fun sorted e => Helper.insert e sorted) l acc = acc ++ l.
Proof.
  revert acc. induction l as [| x r IH]; intros acc Hs.
  - cbn [fold_left]. now rewrite app_nil_r.
  - cbn [fold_left]. rewrite insert_last.
    + rewrite IH; rewrite <- app_assoc; [reflexivity | exact Hs].
    + intros y Hy. clear IH. induction acc as [| a acc IHa]; [contradiction |].
      cbn [app] in Hs. inversion Hs as [| ? ? Hs' Ha]; subst.
      destruct Hy as [<- | Hy].
      * rewrite Forall_forall in Ha. apply Ha. apply in_or_app. right. now left.
      * now apply IHa.
Qed.

(** Sorting a sorted queue changes nothing. *)
Lemma sort_sorted_same (l : list Helper.Entry) :
  StronglySorted entry_le l -> Helper.sort l = l.
Proof.
  intros H. unfold Helper.sort. now rewrite sort_fold_sorted.
Qed.

Lemma sort_snoc (l : list Helper.Entry) (e : Helper.Entry) :
  Helper.sort (l ++ [e]) = Helper.insert e (Helper.sort l).
Proof. unfold Helper.sort. now rewrite fold_left_app. Qed.

(** Adding an item to the sorted queue of the full PathFinder is adding the
    entry to the queue of [dijkstra] and sorting it. *)
Lemma enqueue_entry (l : list Helper.Entry) (e : Helper.Entry) :
  RouterSearch.enqueue (map entryItem (Helper.sort l)) (entryItem e)
  = map entryItem (Helper.sort (l ++ [e])).
Proof.
  unfold RouterSearch.enqueue, RouterSearch.sortItems.
  rewrite fold_left_app. cbn [fold_left].
  change (@nil RouterSearch.Item) with (map entryItem []).
  rewrite (sortItems_entries (Helper.sort l) []).
  change (fold_left (fun sorted e0 => Helper.insert e0 sorted) (Helper.sort l) [])
    with (Helper.sort (Helper.sort l)).
  rewrite (sort_sorted_same (sort_sorted l)).
  rewrite insertItem_entry, sort_snoc. reflexivity.
Qed.

(** *** The two loops over the neighbors *)

Lemma relax_matches (h : Helper.Search) (s : RouterSearch.Search)
  (u v : string) (q : Q) :
  Matches h s ->
  Matches (Helper.relax u h (v, q)) (RouterSearch.relax u s (v, Fin q)).
Proof.
  intros [HD [HP HQ]]. unfold Helper.relax, RouterSearch.relax. cbn [fst snd].
  rewrite HD.
  destruct (Obj.get (Helper.distances h) u) as [dc |]; [| now split].
  destruct (Obj.get (Helper.distances h) v) as [dn |]; [| now split].
  cbv zeta. destruct (ext_ltb (ext_add dc (Fin q)) dn); [| now split].
  split; [| split].
  - reflexivity.
  - cbn [RouterSearch.previous Helper.previous]. now rewrite HP.
  - cbn [RouterSearch.items Helper.priorityQueue]. rewrite HQ.
    exact (enqueue_entry (Helper.priorityQueue h)
             {| Helper.node := v; Helper.entryDistance := ext_add dc (Fin q) |}).
Qed.

(** An edge of weight [Infinity] is never followed. *)
Lemma relax_infinite (s : RouterSearch.Search) (u v : string) :
  RouterSearch.relax u s (v, Inf) = s.
Proof.
  unfold RouterSearch.relax. cbn [fst snd].
  destruct (Obj.get (RouterSearch.distances s) u) as [dc |]; [| reflexivity].
  destruct (Obj.get (RouterSearch.distances s) v) as [dn |]; [| reflexivity].
  cbv zeta. destruct dc; reflexivity.
Qed.

(** Nor is an edge to an id that has no distance. *)
Lemma relax_dangling (s : RouterSearch.Search) (u v : string) (w : ext) :
  Obj.get (RouterSearch.distances s) v = None ->
  RouterSearch.relax u s (v, w) = s.
Proof.
  intros H. unfold RouterSearch.relax. cbn [fst snd]. rewrite H.
  destruct (Obj.get (RouterSearch.distances s) u); reflexivity.
Qed.

Lemma relax_keeps_undefined (h : Helper.Search) (u : string) (vq : string * Q)
  (x : string) :
  Obj.get (Helper.distances h) x = None ->
  Obj.get (Helper.distances (Helper.relax u h vq)) x = None.
Proof.
  intros H. unfold Helper.relax.
  destruct (Obj.get (Helper.distances h) u) as [dc |]; [| exact H].
  destruct (Obj.get (Helper.distances h) (fst vq)) as [dn |] eqn:E; [| exact H].
  cbv zeta. destruct (ext_ltb _ dn); [| exact H].
  cbn [Helper.distances]. rewrite get_set.
  destruct (String.eqb (fst vq) x) eqn:Ex; [| exact H].
  apply String.eqb_eq in Ex. congruence.
Qed.

Lemma relax_fold_matches (g : Obj.t Router.GraphNode) (u : string)
  (adj : Obj.t ext) :
  forall (h : Helper.Search) (s : RouterSearch.Search),
    Matches h s ->
    (forall v, Obj.has g v = false -> Obj.get (Helper.distances h) v = None) ->
    Matches (fold_left (Helper.relax u) (timeEdges g adj) h)
      (fold_left (RouterSearch.relax u) adj s).
Proof.
  induction adj as [| [v w] adj IH]; intros h s HM Hdom; [exact HM |].
  change (timeEdges g ((v, w) :: adj))
    with ((match w with
           | Fin q => if Obj.has g v then [(v, q)] else []
           | Inf => []
           end) ++ timeEdges g adj).
  cbn [fold_left]. destruct w as [q |].
  - destruct (Obj.has g v) eqn:Hv.
    + cbn [app fold_left]. apply IH.
      * now apply relax_matches.
      * intros x Hx. apply relax_keeps_undefined. now apply Hdom.
    + cbn [app]. rewrite relax_dangling; [now apply IH |].
      destruct HM as [HD _]. rewrite HD. now apply Hdom.
  - cbn [app]. rewrite relax_infinite. now apply IH.
Qed.

(** *** The two searches *)

Lemma router_loop_unfold (cd : Point -> Point -> Q) (fuel budget : nat)
  (st : Router.PathFinder) (endId : string) (s : RouterSearch.Search)
  (currentDistance : ext) (currentId : string) (rest : list RouterSearch.Item) :
  RouterSearch.items s = (currentDistance, currentId) :: rest ->
  RouterSearch.loop cd (S fuel) budget st endId s
  = let s1 :=
      {| RouterSearch.distances := RouterSearch.distances s;
         RouterSearch.previous := RouterSearch.previous s;
         RouterSearch.items := rest |} in
    if match Obj.get (RouterSearch.distances s) currentId with
       | Some d => ext_ltb d currentDistance
       | None => false
       end
    then RouterSearch.loop cd fuel budget st endId s1
    else if String.eqb currentId endId
         then RouterSearch.finish cd budget st (RouterSearch.previous s) endId
         else
           match Obj.get (Router.nodes st) currentId with
           | Some currentNode =>
               RouterSearch.loop cd fuel budget st endId
                 (fold_left (RouterSearch.relax currentId)
                    (Router.neighbors currentNode) s1)
           | None => RouterSearch.loop cd fuel budget st endId s1
           end.
Proof. intros H. cbn [RouterSearch.loop]. rewrite H. reflexivity. Qed.

Lemma router_loop_empty (cd : Point -> Point -> Q) (fuel budget : nat)
  (st : Router.PathFinder) (endId : string) (s : RouterSearch.Search) :
  RouterSearch.items s = [] ->
  RouterSearch.loop cd fuel budget st endId s = Returned None.
Proof. intros H. destruct fuel; cbn [RouterSearch.loop]; now rewrite H. Qed.

Section Simulation.
Variable cd : Point -> Point -> Q.
Variable st : Router.PathFinder.
Variable start endId : string.
Variable budget : nat.
Hypothesis Ht : timed (Router.nodes st).

(** What the search returns, read off the state [dijkstra] ends in. *)
Lemma loop_simulates_empty (fuel : nat) (h : Helper.Search)
  (s : RouterSearch.Search) (settled : list string) :
  Inv (timeGraph (Router.nodes st)) start settled settled h ->
  ~ In endId settled ->
  Matches h s ->
  Helper.priorityQueue h = [] ->
  RouterSearch.loop cd fuel budget st endId s
  = match Obj.get (Helper.distances h) endId with
    | Some (Fin _) => RouterSearch.finish cd budget st (Helper.previous h) endId
    | _ => Returned None
    end.
Proof.
  intros HI Hend [_ [_ HQ]] Hq.
  rewrite router_loop_empty by (rewrite HQ, Hq; reflexivity).
  destruct (Obj.get (Helper.distances h) endId) as [[q |] |] eqn:E; try reflexivity.
  destruct (inv_pending HI _ E) as [H | H]; [contradiction |].
  rewrite Hq in H. contradiction.
Qed.

Lemma loop_simulates (fuel : nat) :
  forall (h h' : Helper.Search) (s : RouterSearch.Search) (settled : list string),
    Inv (timeGraph (Router.nodes st)) start settled settled h ->
    ~ In endId settled ->
    Matches h s ->
    Helper.loop fuel (timeGraph (Router.nodes st)) endId h = Returned h' ->
    RouterSearch.loop cd fuel budget st endId s
    = match Obj.get (Helper.distances h') endId with
      | Some (Fin _) => RouterSearch.finish cd budget st (Helper.previous h') endId
      | _ => Returned None
      end.
Proof.
  pose proof (timeGraph_well_formed Ht) as Hwf.
  induction fuel as [| fuel IH]; intros h h' s settled HI Hend HM Hloop.
  - cbn [Helper.loop] in Hloop.
    destruct (Helper.priorityQueue h) eqn:Eq; [| discriminate].
    inversion Hloop; subst h'. eapply loop_simulates_empty; eauto.
  - rewrite loop_unfold in Hloop.
    destruct (Helper.priorityQueue h) as [| x l] eqn:Eq.
    { inversion Hloop; subst h'. eapply loop_simulates_empty; eauto. }
    rewrite <- Eq in *. clear Eq x l.
    destruct (Helper.sort (Helper.priorityQueue h)) as [| e0 rest] eqn:Esort.
    { inversion Hloop; subst h'.
      pose proof (sort_perm (Helper.priorityQueue h)) as Hp.
      rewrite Esort in Hp. apply Permutation_nil in Hp.
      eapply loop_simulates_empty; eauto. }
    cbv zeta in Hloop.
    destruct (sort_head _ Esort) as [Hperm Hmin].
    assert (He0 : In e0 (Helper.priorityQueue h)).
    { apply (Permutation_in _ (Permutation_sym Hperm)). now left. }
    destruct (inv_queue HI e0 He0) as [q0 [d [Hq0 [Hd Hle]]]].
    destruct d as [qc |]; [| discriminate Hle].
    apply ext_le_Fin in Hle.
    assert (Hsorted : StronglySorted entry_le rest).
    { pose proof (sort_sorted (Helper.priorityQueue h)) as Hs.
      rewrite Esort in Hs. now inversion Hs. }
    set (h1 := {| Helper.distances := Helper.distances h;
                  Helper.previous := Helper.previous h;
                  Helper.priorityQueue := rest |}) in *.
    destruct HM as [HD [HP HQ]].
    set (s1 := {| RouterSearch.distances := RouterSearch.distances s;
                  RouterSearch.previous := RouterSearch.previous s;
                  RouterSearch.items := map entryItem rest |}).
    assert (HM1 : Matches h1 s1).
    { split; [exact HD |]. split; [exact HP |].
      cbn [RouterSearch.items s1 Helper.priorityQueue h1].
      now rewrite sort_sorted_same. }
    assert (Hitems : RouterSearch.items s
                     = (Fin q0, Helper.node e0) :: map entryItem rest).
    { rewrite HQ, Esort. cbn [map]. unfold entryItem at 1. now rewrite Hq0. }
    rewrite (@router_loop_unfold cd fuel budget st endId s _ _ _ Hitems).
    cbv zeta. fold s1. rewrite HD, Hd.
    assert (Hfresh : ~ In (Helper.node e0) settled ->
                     ext_ltb (Fin qc) (Fin q0) = false).
    { intros Hn. apply ext_ltb_false, ext_le_Fin.
      destruct (inv_pending HI _ Hd) as [H | H]; [contradiction |].
      apply (Permutation_in _ Hperm) in H as [H | H].
      - rewrite H in Hq0. cbn in Hq0. inversion Hq0. lra.
      - specialize (Hmin _ H). unfold entry_le in Hmin. rewrite Hq0 in Hmin.
        cbn in Hmin. now apply ext_le_Fin in Hmin. }
    assert (Hdom : forall hh settled' relaxed',
               Inv (timeGraph (Router.nodes st)) start settled' relaxed' hh ->
               forall v, Obj.has (Router.nodes st) v = false ->
                         Obj.get (Helper.distances hh) v = None).
    { intros hh settled' relaxed' HI' v Hv.
      destruct (Obj.get (Helper.distances hh) v) as [dv |] eqn:Ev; [| reflexivity].
      assert (Hk : In v (Obj.keys (timeGraph (Router.nodes st)))).
      { apply (inv_dom_d HI'). eauto. }
      rewrite keys_timeGraph in Hk. apply has_true in Hk. congruence. }
    assert (Hadj : Helper.neighborsOf (timeGraph (Router.nodes st)) (Helper.node e0)
                   = match Obj.get (Router.nodes st) (Helper.node e0) with
                     | Some n => timeEdges (Router.nodes st) (Router.neighbors n)
                     | None => []
                     end).
    { unfold Helper.neighborsOf. rewrite get_timeGraph.
      destruct (Obj.get (Router.nodes st) (Helper.node e0)); reflexivity. }
    destruct (String.eqb (Helper.node e0) endId) eqn:Eend.
    + (* the destination is taken from the queue *)
      inversion Hloop; subst h'. apply String.eqb_eq in Eend.
      rewrite Hfresh by (rewrite Eend; exact Hend).
      unfold h1. cbn [Helper.distances Helper.previous].
      rewrite Eend in Hd. rewrite Hd, HP. reflexivity.
    + destruct (in_dec string_dec (Helper.node e0) settled) as [Hs | Hs].
      * (* a left-over entry *)
        destruct (@pop_settled (timeGraph (Router.nodes st)) start settled h e0 rest
                    HI Esort Hs) as [HI1 Hnoop].
        fold h1 in HI1, Hnoop. rewrite Hnoop in Hloop.
        destruct (ext_ltb (Fin qc) (Fin q0)).
        -- exact (IH h1 h' s1 settled HI1 Hend HM1 Hloop).
        -- rewrite Hadj in Hnoop.
           destruct (Obj.get (Router.nodes st) (Helper.node e0)) as [n |] eqn:En.
           ++ eapply (IH h1 h' _ settled HI1 Hend); [| exact Hloop].
              rewrite <- Hnoop at 1.
              apply relax_fold_matches; [exact HM1 |].
              exact (Hdom h1 settled settled HI1).
           ++ exact (IH h1 h' s1 settled HI1 Hend HM1 Hloop).
      * (* a node is settled *)
        rewrite (Hfresh Hs).
        destruct (@pop_unsettled (timeGraph (Router.nodes st)) start settled h e0 rest
                    HI Esort Hs) as [qc' HMid].
        fold h1 in HMid.
        assert (Hend' : ~ In endId (Helper.node e0 :: settled)).
        { intros [H | H]; [| contradiction].
          rewrite H, String.eqb_refl in Eend. discriminate. }
        unfold Helper.neighborsOf in Hloop.
        destruct (Obj.get (timeGraph (Router.nodes st)) (Helper.node e0))
          as [adj |] eqn:Eadj.
        -- pose proof Eadj as Eadj'. rewrite get_timeGraph in Eadj'.
           destruct (Obj.get (Router.nodes st) (Helper.node e0)) as [n |] eqn:En;
             [| discriminate].
           cbn [option_map] in Eadj'. inversion Eadj'; subst adj.
           destruct (@relax_fold (timeGraph (Router.nodes st)) start Hwf
                       (Helper.node e0) qc' settled _ Eadj _ [] h1
                       (incl_refl _) HMid)
             as [[HI2 [Hc2 _]] [Hrel _]]; [intros vw [] |].
           eapply (IH (fold_left (Helper.relax (Helper.node e0))
                         (timeEdges (Router.nodes st) (Router.neighbors n)) h1)
                     h' _ (Helper.node e0 :: settled)).
           ++ apply inv_relax_more with (qc := qc'); [exact HI2 | exact Hc2 |].
              intros adj' vw Hadj' Hvw. rewrite Eadj in Hadj'.
              inversion Hadj'; subst adj'. apply Hrel. exact Hvw.
           ++ exact Hend'.
           ++ apply relax_fold_matches; [exact HM1 |].
              destruct HMid as [HI1 _].
              exact (Hdom h1 _ _ HI1).
           ++ exact Hloop.
        -- cbn [fold_left] in Hloop. destruct HMid as [HI1 [Hc _]].
           rewrite get_timeGraph in Eadj.
           destruct (Obj.get (Router.nodes st) (Helper.node e0)) as [n |] eqn:En;
             [discriminate |].
           apply (IH h1 h' s1 (Helper.node e0 :: settled)).
           ++ apply inv_relax_more with (qc := qc'); [exact HI1 | exact Hc |].
              intros adj' vw Hadj'. rewrite get_timeGraph, En in Hadj'. discriminate.
           ++ exact Hend'.
           ++ exact HM1.
           ++ exact Hloop.
Qed.
End Simulation.

Lemma initSearch_matches (g : Obj.t Router.GraphNode) (startId : string) :
  Matches (Helper.initSearch (timeGraph g) startId)
    (RouterSearch.initSearch g startId).
Proof.
  unfold Matches, Helper.initSearch, RouterSearch.initSearch.
  cbn [RouterSearch.distances RouterSearch.previous RouterSearch.items
       Helper.distances Helper.previous Helper.priorityQueue].
  rewrite keys_timeGraph. split; [reflexivity |]. split; reflexivity.
Qed.

Lemma reconstructPath_buildPath (fuel : nat) (cameFrom : Obj.t (option string)) :
  forall (current : string) (path : list string),
    RouterSearch.reconstructPath fuel cameFrom current path
    = Helper.buildPath fuel cameFrom current path.
Proof.
  induction fuel as [| fuel IH]; intros current path; [reflexivity |].
  cbn [RouterSearch.reconstructPath Helper.buildPath].
  destruct (Obj.get cameFrom current) as [[prev |] |]; auto.
Qed.

(** What [findShortestPath] returns when [dijkstra] on the time graph
    returns. *)
Lemma findShortestPath_by_dijkstra (cd : Point -> Point -> Q) (fuel : nat)
  (st : Router.PathFinder) (startId endId : string) (r : Helper.ShortestPaths) :
  Router.isInitialized st = true -> timed (Router.nodes st) ->
  In startId (Obj.keys (Router.nodes st)) ->
  In endId (Obj.keys (Router.nodes st)) ->
  Helper.dijkstra fuel (timeGraph (Router.nodes st)) startId endId = Returned r ->
  RouterSearch.findShortestPath cd fuel st startId endId
  = match Helper.distance r with
    | Some (Fin _) =>
        match RouterSearch.getDetailedPathCoordinates fuel st (Helper.path r) with
        | Returned detailed =>
            Returned
              (Some {| RouterSearch.path := Helper.path r;
                       RouterSearch.distance :=
                         RouterSearch.calculatePathDistance cd detailed / 1000;
                       RouterSearch.estimatedTime :=
                         ext_div (RouterSearch.calculateEstimatedTime cd st detailed) 60;
                       RouterSearch.fare :=
                         Fare.calculateFare
                           (RouterSearch.calculatePathDistance cd detailed / 1000) |})
        | Threw => Threw
        | OutOfFuel => OutOfFuel
        end
    | _ => Returned None
    end.
Proof.
  intros Hi Ht Hs He Hrun.
  unfold RouterSearch.findShortestPath. rewrite Hi.
  apply has_true in Hs as Hhs. apply has_true in He as Hhe.
  rewrite Hhs, Hhe. cbn [negb orb].
  unfold Helper.dijkstra in Hrun.
  destruct (Helper.loop fuel (timeGraph (Router.nodes st)) endId
              (Helper.initSearch (timeGraph (Router.nodes st)) startId))
    as [h' | |] eqn:Eloop; try discriminate.
  destruct (Helper.buildPath fuel (Helper.previous h') endId [])
    as [p | |] eqn:Epath; try discriminate.
  inversion Hrun; subst r. cbn [Helper.distance Helper.path].
  assert (HI : Inv (timeGraph (Router.nodes st)) startId [] []
                 (Helper.initSearch (timeGraph (Router.nodes st)) startId)).
  { apply init_inv. now rewrite keys_timeGraph. }
  rewrite (@loop_simulates cd st startId endId fuel Ht fuel _ h' _ []
             HI (fun H => H) (initSearch_matches (Router.nodes st) startId) Eloop).
  destruct (Obj.get (Helper.distances h') endId) as [[q |] |]; try reflexivity.
  unfold RouterSearch.finish. rewrite reconstructPath_buildPath, Epath.
  reflexivity.
Qed.

(** X20: on an initialized PathFinder whose edges take no negative time,
    [findShortestPath] between two nodes of the graph ends.  When the
    second node can be reached from the first along edges of finite
    weight, the returned path is such a journey, and no journey from the
    first node to the second takes less time; its distance is the length
    in kilometres of the trip through the points of the nodes of the path,
    its estimated time is the time of that trip in minutes, and its fare is
    the fare of that distance.  When the second node cannot be reached, the
    search returns [null]. *)
Theorem findShortestPath_returns_a_fastest_route (cd : Point -> Point -> Q)
  (st : Router.PathFinder) (startId endId : string) :
  Router.isInitialized st = true -> timed (Router.nodes st) ->
  In startId (Obj.keys (Router.nodes st)) ->
  In endId (Obj.keys (Router.nodes st)) ->
  exists (fuel0 : nat) (r : option RouterSearch.PathResult),
    (forall fuel, (fuel0 <= fuel)%nat ->
       RouterSearch.findShortestPath cd fuel st startId endId = Returned r)
    /\ ((exists res q,
           r = Some res
           /\ Journey (Router.nodes st) startId endId (RouterSearch.path res) q
           /\ (forall p' W, Journey (Router.nodes st) startId endId p' W -> q <= W)
           /\ RouterSearch.distance res
              = RouterSearch.calculatePathDistance cd
                  (RouterSearch.getPathCoordinates st (RouterSearch.path res)) / 1000
           /\ RouterSearch.estimatedTime res
              = ext_div
                  (RouterSearch.calculateEstimatedTime cd st
                     (RouterSearch.getPathCoordinates st (RouterSearch.path res))) 60
           /\ RouterSearch.fare res = Fare.calculateFare (RouterSearch.distance res))
        \/ (r = None
            /\ forall p' W, ~ Journey (Router.nodes st) startId endId p' W)).
Proof.
  intros Hi Ht Hs He.
  pose proof (timeGraph_well_formed Ht) as Hwf.
  assert (Hs' : In startId (Obj.keys (timeGraph (Router.nodes st))))
    by now rewrite keys_timeGraph.
  assert (He' : In endId (Obj.keys (timeGraph (Router.nodes st))))
    by now rewrite keys_timeGraph.
  destruct (@dijkstra_spec _ startId endId Hwf Hs' He')
    as [fuel0 [r [Hrun [[_ Hw] | [Hd [_ Hn]]]]]].
  - apply walk_reachable in Hw.
    destruct (@dijkstra_shortest _ startId endId Hwf Hs' He' Hw)
      as [fuel1 [q [p [Hrun1 [Hroute Hopt]]]]].
    apply route_journey in Hroute.
    assert (Hnodes : forall x, In x p -> In x (Obj.keys (Router.nodes st))).
    { intros x Hx. destruct (journey_nodes Hroute x Hx) as [-> | H]; assumption. }
    exists fuel1. eexists. split.
    + intros fuel Hfuel.
      rewrite (@findShortestPath_by_dijkstra cd fuel st startId endId _
                 Hi Ht Hs He (Hrun1 fuel Hfuel)).
      cbn [Helper.distance Helper.path].
      rewrite (getDetailedPathCoordinates_plain fuel st p Hnodes). reflexivity.
    + left. eexists _, q. split; [reflexivity |].
      cbn [RouterSearch.path RouterSearch.distance RouterSearch.estimatedTime
           RouterSearch.fare].
      split; [exact Hroute |]. split.
      * intros p' W Hj. apply (Hopt p' W). now apply journey_route.
      * split; [reflexivity |]. split; reflexivity.
  - exists fuel0, None. split.
    + intros fuel Hfuel.
      rewrite (@findShortestPath_by_dijkstra cd fuel st startId endId r
                 Hi Ht Hs He (Hrun fuel Hfuel)).
      now rewrite Hd.
    + right. split; [reflexivity |].
      intros p' W Hj. apply Hn. eapply route_reachable.
      apply journey_route; [exact Hj | exact He].
Qed.

Lemma findShortestPath_returns_a_fastest_route_witness :
  exists (fuel0 : nat) (r : option RouterSearch.PathResult),
    (forall fuel, (fuel0 <= fuel)%nat ->
       RouterSearch.findShortestPath cityBlock fuel twoWayRouter "osm_1" "osm_2"
       = Returned r)
    /\ ((exists res q,
           r = Some res
           /\ Journey (Router.nodes twoWayRouter) "osm_1" "osm_2"
                (RouterSearch.path res) q
           /\ (forall p' W,
                 Journey (Router.nodes twoWayRouter) "osm_1" "osm_2" p' W -> q <= W)
           /\ RouterSearch.distance res
              = RouterSearch.calculatePathDistance cityBlock
                  (RouterSearch.getPathCoordinates twoWayRouter
                     (RouterSearch.path res)) / 1000
           /\ RouterSearch.estimatedTime res
              = ext_div
                  (RouterSearch.calculateEstimatedTime cityBlock twoWayRouter
                     (RouterSearch.getPathCoordinates twoWayRouter
                        (RouterSearch.path res))) 60
           /\ RouterSearch.fare res = Fare.calculateFare (RouterSearch.distance res))
        \/ (r = None
            /\ forall p' W,
                 ~ Journey (Router.nodes twoWayRouter) "osm_1" "osm_2" p' W)).
Proof.
  apply (@findShortestPath_returns_a_fastest_route cityBlock twoWayRouter
           "osm_1" "osm_2").
  - reflexivity.
  - apply timedb_sound. vm_compute. reflexivity.
  - vm_compute. tauto.
  - vm_compute. tauto.
Defined.

(** ** Routes in the graph the full PathFinder builds *)

Lemma reachable_journey (g : Obj.t Router.GraphNode) (s k : string) :
  Timed g -> reachable (router_edge g) s k -> exists p W, Journey g s k p W.
Proof.
  intros HT H. induction H as [| u v Hu IH [n [Hn Hv]]].
  - exists [s], 0. constructor.
  - destruct IH as [p [W Hj]].
    apply keys_In in Hv as [w Hw].
    destruct (HT u n v w Hn Hw) as [q [-> _]].
    exists (p ++ [v]), (W + q). eapply Journey_step; eauto.
Qed.

Lemma Timed_timed (g : Obj.t Router.GraphNode) : Timed g -> timed g.
Proof.
  intros HT u n v w Hu Hin. destruct (HT u n v (Fin w) Hu Hin) as [q [E Hq]].
  inversion E. now subst.
Qed.

Lemma journey_ends (g : Obj.t Router.GraphNode) (s k : string)
  (p : list string) (W : Q) :
  Journey g s k p W -> hd_error p = Some s /\ last p "" = k.
Proof.
  intros H. induction H as [| u k p W w n Hj [IH1 IH2] Hu Hin].
  - split; reflexivity.
  - split.
    + destruct p as [| a p]; [discriminate | exact IH1].
    + apply last_last.
Qed.

(** X21: with a distance function that is never negative, the graph that
    [processOSMData] builds has a route from its first node to each of its
    nodes, and [findShortestPath] finds one: from the first node of the
    graph to any node of the graph it returns a result, never [null]; the
    path starts at the first node, ends at the node asked for, follows
    edges of the graph, and no other way through the graph takes less
    time. *)
Theorem built_graph_has_a_route_from_its_first_node (cd : Point -> Point -> Q)
  (st0 : Router.PathFinder) (elements : list Element) :
  (forall a b, 0 <= cd a b) ->
  exists st,
    Router.processOSMData cd st0 elements = Some st
    /\ forall first more endId,
         Obj.keys (Router.nodes st) = first :: more ->
         In endId (Obj.keys (Router.nodes st)) ->
         exists (fuel0 : nat) (res : RouterSearch.PathResult) (q : Q),
           (forall fuel, (fuel0 <= fuel)%nat ->
              RouterSearch.findShortestPath cd fuel st first endId
              = Returned (Some res))
           /\ Journey (Router.nodes st) first endId (RouterSearch.path res) q
           /\ hd_error (RouterSearch.path res) = Some first
           /\ last (RouterSearch.path res) "" = endId
           /\ forall p' W, Journey (Router.nodes st) first endId p' W -> q <= W.
Proof.
  intros Hcd.
  destruct (processOSMData_graph cd st0 elements) as [st [Hrun [_ Hreach]]].
  exists st. split; [exact Hrun |].
  intros first more endId Hkeys He.
  assert (Hi : Router.isInitialized st = true).
  { destruct (processOSMData_shape cd st0 elements) as [st' [Hrun' [Hi' _]]].
    rewrite Hrun in Hrun'. inversion Hrun'. now subst. }
  pose proof (@processOSMData_timed cd st0 st elements Hcd Hrun) as HT.
  pose proof (Timed_timed HT) as Ht.
  assert (Hs : In first (Obj.keys (Router.nodes st))) by (rewrite Hkeys; now left).
  destruct (reachable_journey HT (Hreach first more Hkeys endId He)) as [p0 [W0 Hj0]].
  pose proof (timeGraph_well_formed Ht) as Hwf.
  assert (Hs' : In first (Obj.keys (timeGraph (Router.nodes st))))
    by now rewrite keys_timeGraph.
  assert (He' : In endId (Obj.keys (timeGraph (Router.nodes st))))
    by now rewrite keys_timeGraph.
  assert (Hr : reachable (edge (timeGraph (Router.nodes st))) first endId).
  { eapply route_reachable. apply journey_route; [exact Hj0 | exact He]. }
  destruct (@dijkstra_shortest _ first endId Hwf Hs' He' Hr)
    as [fuel1 [q [p [Hrun1 [Hroute Hopt]]]]].
  apply route_journey in Hroute.
  assert (Hnodes : forall x, In x p -> In x (Obj.keys (Router.nodes st))).
  { intros x Hx. destruct (journey_nodes Hroute x Hx) as [-> | H]; assumption. }
  destruct (journey_ends Hroute) as [Hhd Hlast].
  exists fuel1. eexists. exists q. split; [| split; [| split; [| split]]].
  - intros fuel Hfuel.
    rewrite (@findShortestPath_by_dijkstra cd fuel st first endId _
               Hi Ht Hs He (Hrun1 fuel Hfuel)).
    cbn [Helper.distance Helper.path].
    rewrite (getDetailedPathCoordinates_plain fuel st p Hnodes). reflexivity.
  - exact Hroute.
  - exact Hhd.
  - exact Hlast.
  - intros p' W Hj. apply (Hopt p' W). now apply journey_route.
Qed.

Lemma built_graph_has_a_route_from_its_first_node_witness :
  exists st,
    Router.processOSMData cityBlock Router.create oneWayStreet = Some st
    /\ forall first more endId,
         Obj.keys (Router.nodes st) = first :: more ->
         In endId (Obj.keys (Router.nodes st)) ->
         exists (fuel0 : nat) (res : RouterSearch.PathResult) (q : Q),
           (forall fuel, (fuel0 <= fuel)%nat ->
              RouterSearch.findShortestPath cityBlock fuel st first endId
              = Returned (Some res))
           /\ Journey (Router.nodes st) first endId (RouterSearch.path res) q
           /\ hd_error (RouterSearch.path res) = Some first
           /\ last (RouterSearch.path res) "" = endId
           /\ forall p' W, Journey (Router.nodes st) first endId p' W -> q <= W.
Proof.
  exact (@built_graph_has_a_route_from_its_first_node cityBlock Router.create
           oneWayStreet cityBlock_nonneg).
Defined.

(** ** Path smoothing *)

Section Smooth.
Variable isLineOfSight : Point -> Point -> bool.
Variable points : list Point.

Lemma furthestVisible_fold (c : nat) (l : list nat) (acc : nat) :
  (c < acc < List.length points)%nat ->
  (forall i, In i l -> (c < i < List.length points)%nat) ->
  let r :=
    fold_left
      (fun furthestVisible i =>
         if isLineOfSight (Smoothing.at_ points c) (Smoothing.at_ points i)
         then i else furthestVisible)
      l acc in
  (c < r < List.length points)%nat
  /\ ((forall i, In i l ->
         isLineOfSight (Smoothing.at_ points c) (Smoothing.at_ points i) = false) ->
      r = acc).
Proof.
  revert acc. induction l as [| i l IH]; intros acc Hacc Hl; cbv zeta.
  - cbn [fold_left]. split; [exact Hacc | reflexivity].
  - cbn [fold_left].
    destruct (isLineOfSight (Smoothing.at_ points c) (Smoothing.at_ points i)) eqn:E.
    + destruct (IH i) as [A B].
      * apply Hl. now left.
      * intros j Hj. apply Hl. now right.
      * split; [exact A |]. intros Hno.
        rewrite (Hno i (or_introl eq_refl)) in E. discriminate.
    + destruct (IH acc Hacc) as [A B].
      * intros j Hj. apply Hl. now right.
      * split; [exact A |]. intros Hno. apply B.
        intros j Hj. apply Hno. now right.
Qed.

(** The next point kept lies further along the path, and is the next one
    when nothing beyond it is in sight. *)
Lemma furthestVisible_spec (c : nat) :
  (c < List.length points - 1)%nat ->
  (c < Smoothing.furthestVisible isLineOfSight points c < List.length points)%nat
  /\ ((forall i, (c + 2 <= i < List.length points)%nat ->
         isLineOfSight (Smoothing.at_ points c) (Smoothing.at_ points i) = false) ->
      Smoothing.furthestVisible isLineOfSight points c = (c + 1)%nat).
Proof.
  intros Hc. unfold Smoothing.furthestVisible.
  destruct (@furthestVisible_fold c
              (seq (c + 2) (List.length points - (c + 2))) (c + 1)%nat)
    as [A B].
  - lia.
  - intros i Hi. apply in_seq in Hi. lia.
  - split; [exact A |]. intros Hno. apply B.
    intros i Hi. apply in_seq in Hi. apply Hno. lia.
Qed.

Lemma sorted_snoc (kept : list nat) (x : nat) :
  StronglySorted lt kept -> kept <> [] -> (last kept O < x)%nat ->
  StronglySorted lt (kept ++ [x]).
Proof.
  induction kept as [| a kept IH]; intros Hs Hne Hx; [congruence |].
  inversion Hs as [| ? ? Hs' Ha]; subst.
  destruct kept as [| b kept].
  - cbn in *. repeat constructor. exact Hx.
  - cbn [app]. constructor.
    + apply IH; [exact Hs' | discriminate | exact Hx].
    + rewrite Forall_forall in *. intros y Hy.
      change (In y ((b :: kept) ++ [x])) in Hy.
      apply in_app_or in Hy as [Hy | [<- | []]]; [now apply Ha |].
      assert (Hl : In (last (b :: kept) O) (b :: kept)).
      { rewrite (app_removelast_last O (l := b :: kept)) at 2 by discriminate.
        apply in_or_app. right. now left. }
      specialize (Ha _ Hl).
      change (last (a :: b :: kept) O) with (last (b :: kept) O) in Hx. lia.
Qed.

Lemma smoothFrom_spec (fuel : nat) :
  forall (c : nat) (kept : list nat) (smoothed : list Point),
    Kept points kept c smoothed ->
    (List.length points - c <= fuel)%nat ->
    exists kept',
      Smoothing.smoothFrom isLineOfSight fuel points c smoothed
      = Returned (map (Smoothing.at_ points) kept')
      /\ StronglySorted lt kept'
      /\ hd_error kept' = Some O
      /\ last kept' O = (List.length points - 1)%nat
      /\ ((forall i j, (i + 2 <= j < List.length points)%nat ->
             isLineOfSight (Smoothing.at_ points i) (Smoothing.at_ points j) = false) ->
          kept' = kept ++ seq (c + 1) (List.length points - (c + 1))).
Proof.
  induction fuel as [| fuel IH]; intros c kept smoothed HK Hfuel.
  - destruct HK as [_ [_ [_ [_ Hc]]]]. lia.
  - destruct HK as [Hsm [Hs [Hhd [Hlast Hc]]]].
    cbn [Smoothing.smoothFrom].
    destruct (c <? List.length points - 1)%nat eqn:E.
    + apply Nat.ltb_lt in E. cbv zeta.
      destruct (furthestVisible_spec E) as [Hfv Hnext].
      set (fv := Smoothing.furthestVisible isLineOfSight points c) in *.
      assert (Hne : kept <> []) by (intros ->; discriminate).
      destruct (IH fv (kept ++ [fv]) (smoothed ++ [Smoothing.at_ points fv]))
        as [kept' [Hrun [Hs' [Hhd' [Hlast' Hall]]]]].
      * split; [| split; [| split; [| split]]].
        -- rewrite Hsm, map_app. reflexivity.
        -- apply sorted_snoc; [exact Hs | exact Hne | lia].
        -- destruct kept; [congruence | exact Hhd].
        -- apply last_last.
        -- lia.
      * lia.
      * exists kept'. split; [exact Hrun |]. split; [exact Hs' |].
        split; [exact Hhd' |]. split; [exact Hlast' |].
        intros Hno. rewrite (Hall Hno).
        rewrite Hnext by (intros i Hi; apply Hno; lia).
        rewrite <- app_assoc. f_equal.
        replace (List.length points - (c + 1))%nat
          with (S (List.length points - (c + 1 + 1)))%nat by lia.
        cbn [seq app]. f_equal. f_equal. lia.
    + apply Nat.ltb_ge in E. exists kept. split; [now rewrite Hsm |].
      split; [exact Hs |]. split; [exact Hhd |]. split; [lia |].
      intros _. replace (List.length points - (c + 1))%nat with O by lia.
      cbn [seq]. now rewrite app_nil_r.
Qed.
End Smooth.

Lemma map_at_seq (points : list Point) :
  map (Smoothing.at_ points) (seq 0 (List.length points)) = points.
Proof.
  unfold Smoothing.at_.
  induction points as [| a points IH]; [reflexivity |].
  cbn [List.length seq map nth]. f_equal.
  rewrite <- seq_shift, map_map. exact IH.
Qed.

Lemma smoothFrom_more_fuel (isLineOfSight : Point -> Point -> bool)
  (points : list Point) (fuel : nat) :
  forall (fuel' c : nat) (smoothed r : list Point),
    Smoothing.smoothFrom isLineOfSight fuel points c smoothed = Returned r ->
    (fuel <= fuel')%nat ->
    Smoothing.smoothFrom isLineOfSight fuel' points c smoothed = Returned r.
Proof.
  induction fuel as [| fuel IH]; intros fuel' c smoothed r H Hle.
  - cbn [Smoothing.smoothFrom] in H.
    destruct (c <? List.length points - 1)%nat eqn:E; [discriminate |].
    destruct fuel'; cbn [Smoothing.smoothFrom]; now rewrite E.
  - destruct fuel' as [| fuel']; [lia |].
    cbn [Smoothing.smoothFrom] in *.
    destruct (c <? List.length points - 1)%nat; [| exact H].
    cbv zeta in *. apply IH; [exact H | lia].
Qed.

Lemma sorted_below_last (kept : list nat) :
  StronglySorted lt kept -> forall i, In i kept -> (i <= last kept O)%nat.
Proof.
  induction kept as [| a kept IH]; intros Hs i Hi; [contradiction |].
  inversion Hs as [| ? ? Hs' Ha]; subst.
  destruct kept as [| b kept].
  - destruct Hi as [<- | []]. cbn. lia.
  - change (last (a :: b :: kept) O) with (last (b :: kept) O).
    destruct Hi as [<- | Hi]; [| now apply IH].
    rewrite Forall_forall in Ha.
    assert (Hb : (a < b)%nat) by (apply Ha; now left).
    specialize (IH Hs' b (or_introl eq_refl)). lia.
Qed.

(** X22: [smoothPath], whatever line-of-sight test it is given, ends on
    every path.  A path of at most two points comes back as it is; of a
    longer one the function keeps points in their order, picked at growing
    indices: the first point is kept first, the last point is kept last,
    and when no point is in sight of a point two or more places further,
    every point is kept. *)
Theorem smoothPath_keeps_the_ends (isLineOfSight : Point -> Point -> bool)
  (points : list Point) :
  exists kept : list nat,
    (forall fuel, (List.length points <= fuel)%nat ->
       Smoothing.smoothPath isLineOfSight fuel points
       = Returned (map (Smoothing.at_ points) kept))
    /\ StronglySorted lt kept
    /\ (forall i, In i kept -> (i < List.length points)%nat)
    /\ (points <> [] ->
        hd_error kept = Some O /\ last kept O = (List.length points - 1)%nat)
    /\ ((List.length points <= 2)%nat
        \/ (forall i j, (i + 2 <= j < List.length points)%nat ->
              isLineOfSight (Smoothing.at_ points i) (Smoothing.at_ points j) = false) ->
        kept = seq 0 (List.length points)).
Proof.
  destruct (List.length points <=? 2)%nat eqn:E.
  - apply Nat.leb_le in E. exists (seq 0 (List.length points)).
    split; [| split; [| split; [| split]]].
    + intros fuel _. unfold Smoothing.smoothPath.
      apply Nat.leb_le in E. rewrite E. now rewrite map_at_seq.
    + destruct points as [| a [| b [| c r]]]; cbn in *; try lia;
        repeat constructor.
    + intros i Hi. apply in_seq in Hi. lia.
    + intros Hne. destruct points as [| a [| b [| c r]]]; cbn in *;
        try congruence; try lia; split; reflexivity.
    + intros _. reflexivity.
  - apply Nat.leb_gt in E.
    destruct (@smoothFrom_spec isLineOfSight points (List.length points) 0 [O]
                [Smoothing.at_ points 0])
      as [kept [Hrun [Hs [Hhd [Hlast Hall]]]]].
    + split; [reflexivity |]. split; [repeat constructor |].
      split; [reflexivity |]. split; [reflexivity | lia].
    + lia.
    + exists kept. split; [| split; [| split; [| split]]].
      * intros fuel Hfuel. unfold Smoothing.smoothPath.
        apply Nat.leb_gt in E. rewrite E.
        exact (@smoothFrom_more_fuel isLineOfSight points (List.length points)
                 fuel 0 _ _ Hrun Hfuel).
      * exact Hs.
      * intros i Hi. pose proof (@sorted_below_last kept Hs i Hi). lia.
      * intros _. split; [exact Hhd | exact Hlast].
      * intros [H | H]; [lia |]. rewrite (Hall H).
        destruct (List.length points) as [| n]; [lia |].
        cbn [seq app Nat.add Nat.sub]. now rewrite Nat.sub_0_r.
Qed.

(** ** Fetching the road network, with its cache and its retries *)

Lemma fold_flagged (A : Type) (f : Router.PathFinder -> A -> Router.PathFinder)
  (b : bool) (l : list A) :
  (forall st a, f (flagged b st) a = flagged b (f st a)) ->
  forall st, fold_left f l (flagged b st) = flagged b (fold_left f l st).
Proof.
  intros Hf. induction l as [| a l IH]; intros st; [reflexivity |].
  cbn [fold_left]. rewrite Hf. apply IH.
Qed.

Lemma processElement_flagged (b : bool) (st : Router.PathFinder) (e : Element) :
  Router.processElement (flagged b st) e = flagged b (Router.processElement st e).
Proof.
  destruct e as [i la lo | i ns tg |]; cbn [Router.processElement]; try reflexivity.
  destruct (Router.isValidRoadWay ns tg); [| reflexivity].
  destruct tg; reflexivity.
Qed.

Lemma addNode_flagged (b : bool) (st : Router.PathFinder) (id : string) (p : Point) :
  Router.addNode (flagged b st) id p = flagged b (Router.addNode st id p).
Proof.
  unfold Router.addNode. cbn [flagged Router.nodes].
  destruct (Obj.get (Router.nodes st) id); reflexivity.
Qed.

Lemma addEdge_flagged (b : bool) (st : Router.PathFinder) (u v : string) (w : ext) :
  Router.addEdge (flagged b st) u v w = flagged b (Router.addEdge st u v w).
Proof.
  unfold Router.addEdge. cbn [flagged Router.nodes].
  destruct (Obj.get (Router.nodes st) u); [| reflexivity].
  destruct (Obj.get (Router.nodes st) v); reflexivity.
Qed.

Lemma addSegment_flagged (cd : Point -> Point -> Q) (speedLimit : Q)
  (isOneWay b : bool) (st : Router.PathFinder) (seg : Z * Z) :
  Router.addSegment cd speedLimit isOneWay (flagged b st) seg
  = flagged b (Router.addSegment cd speedLimit isOneWay st seg).
Proof.
  unfold Router.addSegment. cbv zeta. cbn [flagged Router.nodes Router.osmNodes].
  destruct (Obj.get (Router.osmNodes st) (keyOf (fst seg))); [| reflexivity].
  destruct (Obj.get (Router.osmNodes st) (keyOf (snd seg))); [| reflexivity].
  destruct (Obj.get (Router.nodes st) _); [| reflexivity].
  destruct (Obj.get (Router.nodes st) _); [| reflexivity].
  fold (flagged b st).
  destruct isOneWay; rewrite !addEdge_flagged; reflexivity.
Qed.

Lemma addWay_flagged (cd : Point -> Point -> Q) (b : bool)
  (st : Router.PathFinder) (way : Router.OSMWay) :
  Router.addWay cd (flagged b st) way = flagged b (Router.addWay cd st way).
Proof.
  unfold Router.addWay.
  destruct (truthy (Obj.get (Router.tags way) "highway")); [| reflexivity].
  destruct (Obj.get (Router.tags way) "highway"); [| reflexivity].
  cbv zeta. apply fold_flagged. intros x a. apply addSegment_flagged.
Qed.

Lemma validateGraphConnectivity_flagged (b : bool) (st : Router.PathFinder) :
  Router.validateGraphConnectivity (flagged b st)
  = option_map (flagged b) (Router.validateGraphConnectivity st).
Proof.
  unfold Router.validateGraphConnectivity, Router.validateGraphConnectivityIn.
  cbn [flagged Router.nodes].
  destruct (Obj.keys (Router.nodes st)) as [| k l]; [reflexivity |].
  destruct (String.eqb k ""); [reflexivity |].
  destruct (Router.traverse _ _ _ _); reflexivity.
Qed.

Lemma buildGraphFromOSM_flagged (cd : Point -> Point -> Q) (b : bool)
  (st : Router.PathFinder) :
  Router.buildGraphFromOSM cd (flagged b st)
  = option_map (flagged b) (Router.buildGraphFromOSM cd st).
Proof.
  unfold Router.buildGraphFromOSM, Router.addWays, Router.addOsmNodes.
  cbn [flagged Router.osmNodes].
  rewrite (fold_flagged
             (fun st osmNode =>
                Router.addNode st (Router.graphNodeId (keyOf (Router.osmId osmNode)))
                  {| latitude := Router.lat osmNode; longitude := Router.lon osmNode |}))
    by (intros x a; apply addNode_flagged).
  cbn [flagged Router.osmWays].
  rewrite (fold_flagged (Router.addWay cd)) by (intros x a; apply addWay_flagged).
  apply validateGraphConnectivity_flagged.
Qed.

(** What [processOSMData] leaves does not depend on the state it is called
    in. *)
Lemma processOSMData_forgets (cd : Point -> Point -> Q)
  (st st' : Router.PathFinder) (elements : list Element) :
  Router.processOSMData cd st elements = Router.processOSMData cd st' elements.
Proof.
  assert (H : forall x,
             Router.processOSMData cd x elements
             = Router.processOSMData cd RouterFetch.cleared elements).
  { intros x. unfold Router.processOSMData. cbv zeta.
    change {| Router.nodes := []; Router.osmNodes := []; Router.osmWays := [];
              Router.isInitialized := Router.isInitialized x |}
      with (flagged (Router.isInitialized x) RouterFetch.cleared).
    change {| Router.nodes := []; Router.osmNodes := []; Router.osmWays := [];
              Router.isInitialized := Router.isInitialized RouterFetch.cleared |}
      with RouterFetch.cleared.
    rewrite (fold_flagged Router.processElement)
      by (intros y a; apply processElement_flagged).
    rewrite buildGraphFromOSM_flagged.
    destruct (Router.buildGraphFromOSM cd
                (fold_left Router.processElement elements RouterFetch.cleared));
      reflexivity. }
  now rewrite (H st), (H st').
Qed.

(** X23: when no fresh entry of the cache answers a call of
    [fetchRoadNetwork] and one of the three attempts gets a payload, after
    failures of the attempts before it, the call resolves with the graph
    built from that payload and the payload in the cache.  A second call
    for the same center and radius less than 24 hours after that resolves
    to the very same instance, whatever the network would answer: it is
    served from the cache. *)
Theorem fetched_network_is_served_from_the_cache (cd : Point -> Point -> Q)
  (numberToString : Q -> string) (respond respond' : nat -> Fetch)
  (clock clock' : nat -> Q) (inst : RouterFetch.Instance) (now now' : Q)
  (center : Point) (radius : Q) (elements : list Element) (k : nat) :
  let key := RouterFetch.cacheKey numberToString center radius in
  (forall cached,
     Obj.get (RouterFetch.osmCache inst) key = Some cached ->
     RouterFetch.CACHE_DURATION <= now - RouterFetch.timestamp cached) ->
  (k < RouterFetch.MAX_RETRIES)%nat ->
  (forall j, (j < k)%nat -> respond j = FetchFailed) ->
  respond k = FetchOk elements ->
  now' - clock k < RouterFetch.CACHE_DURATION ->
  exists inst1,
    RouterFetch.fetchRoadNetwork cd numberToString respond clock inst now
      center radius = Returned (inst1, true)
    /\ Router.processOSMData cd Router.create elements
       = Some (RouterFetch.finder inst1)
    /\ Obj.get (RouterFetch.osmCache inst1) key
       = Some {| RouterFetch.data := elements; RouterFetch.timestamp := clock k |}
    /\ RouterFetch.fetchRoadNetwork cd numberToString respond' clock' inst1 now'
         center radius = Returned (inst1, true).
Proof.
  intros key Hstale Hk Hfail Hok Hsoon.
  destruct (processOSMData_shape cd RouterFetch.cleared elements)
    as [st [Hst _]].
  exists {| RouterFetch.finder := st;
            RouterFetch.osmCache :=
              Obj.set (RouterFetch.osmCache inst) key
                {| RouterFetch.data := elements;
                   RouterFetch.timestamp := clock k |} |}.
  split; [| split; [| split]].
  - unfold RouterFetch.fetchRoadNetwork. cbv zeta. fold key.
    assert (Hmiss :
              match Obj.get (RouterFetch.osmCache inst) key with
              | Some cachedData =>
                  if Qltb (now - RouterFetch.timestamp cachedData)
                       RouterFetch.CACHE_DURATION
                  then Some cachedData else None
              | None => None
              end = None).
    { destruct (Obj.get (RouterFetch.osmCache inst) key) as [c |] eqn:E;
        [| reflexivity].
      specialize (Hstale c eq_refl).
      destruct (Qltb _ _) eqn:Eq; [| reflexivity].
      apply Qltb_true in Eq. lra. }
    rewrite Hmiss. unfold RouterFetch.MAX_RETRIES in *.
    destruct k as [| [| [| k]]]; [| | | lia].
    + cbn [RouterFetch.attempts]. rewrite Hok. cbv zeta. now rewrite Hst.
    + cbn [RouterFetch.attempts]. rewrite (Hfail 0%nat) by lia.
      cbn [Nat.ltb Nat.leb RouterFetch.MAX_RETRIES RouterFetch.osmCache].
      cbv zeta. cbn [RouterFetch.osmCache]. rewrite Hok. now rewrite Hst.
    + cbn [RouterFetch.attempts]. rewrite (Hfail 0%nat) by lia.
      cbn [Nat.ltb Nat.leb RouterFetch.MAX_RETRIES RouterFetch.osmCache].
      cbv zeta. cbn [RouterFetch.osmCache]. rewrite (Hfail 1%nat) by lia.
      cbn [Nat.ltb Nat.leb RouterFetch.MAX_RETRIES RouterFetch.osmCache].
      cbv zeta. cbn [RouterFetch.osmCache]. rewrite Hok. now rewrite Hst.
  - cbn [RouterFetch.finder]. exact Hst.
  - cbn [RouterFetch.osmCache]. apply get_set_eq.
  - unfold RouterFetch.fetchRoadNetwork. cbv zeta. fold key.
    cbn [RouterFetch.osmCache RouterFetch.finder]. rewrite get_set_eq.
    cbn [RouterFetch.timestamp RouterFetch.data].
    assert (Hq : Qltb (now' - clock k) RouterFetch.CACHE_DURATION = true)
      by now apply Qltb_true.
    rewrite Hq. cbv iota. cbn [RouterFetch.data].
    rewrite (processOSMData_forgets cd st RouterFetch.cleared elements), Hst.
    reflexivity.
Qed.

Lemma fetched_network_is_served_from_the_cache_witness :
  exists inst1,
    RouterFetch.fetchRoadNetwork cityBlock wholeNumber secondTry (fun _ => 1000)
      emptyInstance 0 (mkPoint 0 0) 1000 = Returned (inst1, true)
    /\ Router.processOSMData cityBlock Router.create twoWayStreet
       = Some (RouterFetch.finder inst1)
    /\ Obj.get (RouterFetch.osmCache inst1)
         (RouterFetch.cacheKey wholeNumber (mkPoint 0 0) 1000)
       = Some {| RouterFetch.data := twoWayStreet; RouterFetch.timestamp := 1000 |}
    /\ RouterFetch.fetchRoadNetwork cityBlock wholeNumber networkDown (fun _ => 5000)
         inst1 2000 (mkPoint 0 0) 1000 = Returned (inst1, true).
Proof.
  apply (@fetched_network_is_served_from_the_cache cityBlock wholeNumber
           secondTry networkDown (fun _ => 1000) (fun _ => 5000) emptyInstance
           0 2000 (mkPoint 0 0) 1000 twoWayStreet 1).
  - intros cached H. discriminate H.
  - unfold RouterFetch.MAX_RETRIES. lia.
  - intros j Hj. destruct j; [reflexivity | lia].
  - reflexivity.
  - reflexivity.
Defined.

(** X24: when no fresh entry of the cache answers a call of
    [fetchRoadNetwork] and all three attempts fail, the call rejects and
    leaves an empty instance that is not initialized, with the cache as it
    was: every nearest-node search and every [findShortestPath] on it
    returns [null]. *)
Theorem three_failed_attempts_leave_nothing (cd : Point -> Point -> Q)
  (numberToString : Q -> string) (respond : nat -> Fetch) (clock : nat -> Q)
  (inst : RouterFetch.Instance) (now : Q) (center : Point) (radius : Q) :
  (forall cached,
     Obj.get (RouterFetch.osmCache inst)
       (RouterFetch.cacheKey numberToString center radius) = Some cached ->
     RouterFetch.CACHE_DURATION <= now - RouterFetch.timestamp cached) ->
  (forall j, (j < RouterFetch.MAX_RETRIES)%nat -> respond j = FetchFailed) ->
  exists inst1,
    RouterFetch.fetchRoadNetwork cd numberToString respond clock inst now
      center radius = Returned (inst1, false)
    /\ Router.nodes (RouterFetch.finder inst1) = []
    /\ Router.isInitialized (RouterFetch.finder inst1) = false
    /\ RouterFetch.osmCache inst1 = RouterFetch.osmCache inst
    /\ (forall point searchRadius,
          Router.findNearestOsmNode cd (RouterFetch.finder inst1) point searchRadius
          = None)
    /\ (forall fuel startId endId,
          RouterSearch.findShortestPath cd fuel (RouterFetch.finder inst1)
            startId endId = Returned None).
Proof.
  intros Hstale Hfail.
  exists {| RouterFetch.finder := RouterFetch.cleared;
            RouterFetch.osmCache := RouterFetch.osmCache inst |}.
  split; [| split; [| split; [| split; [| split]]]]; try reflexivity.
  unfold RouterFetch.fetchRoadNetwork. cbv zeta.
  set (key := RouterFetch.cacheKey numberToString center radius) in *.
  assert (Hmiss :
            match Obj.get (RouterFetch.osmCache inst) key with
            | Some cachedData =>
                if Qltb (now - RouterFetch.timestamp cachedData)
                     RouterFetch.CACHE_DURATION
                then Some cachedData else None
            | None => None
            end = None).
  { destruct (Obj.get (RouterFetch.osmCache inst) key) as [c |] eqn:E;
      [| reflexivity].
    specialize (Hstale c eq_refl).
    destruct (Qltb _ _) eqn:Eq; [| reflexivity].
    apply Qltb_true in Eq. lra. }
  rewrite Hmiss. unfold RouterFetch.MAX_RETRIES in *.
  cbn [RouterFetch.attempts]. rewrite (Hfail 0%nat) by lia.
  cbn [Nat.ltb Nat.leb RouterFetch.MAX_RETRIES RouterFetch.osmCache].
  cbv zeta. cbn [RouterFetch.osmCache]. rewrite (Hfail 1%nat) by lia.
  cbn [Nat.ltb Nat.leb RouterFetch.MAX_RETRIES RouterFetch.osmCache].
  cbv zeta. cbn [RouterFetch.osmCache]. rewrite (Hfail 2%nat) by lia.
  cbn [Nat.ltb Nat.leb RouterFetch.MAX_RETRIES RouterFetch.osmCache].
  reflexivity.
Qed.

Lemma three_failed_attempts_leave_nothing_witness :
  exists inst1,
    RouterFetch.fetchRoadNetwork cityBlock wholeNumber networkDown (fun _ => 1000)
      emptyInstance 0 (mkPoint 0 0) 1000 = Returned (inst1, false)
    /\ Router.nodes (RouterFetch.finder inst1) = []
    /\ Router.isInitialized (RouterFetch.finder inst1) = false
    /\ RouterFetch.osmCache inst1 = RouterFetch.osmCache emptyInstance
    /\ (forall point searchRadius,
          Router.findNearestOsmNode cityBlock (RouterFetch.finder inst1) point
            searchRadius = None)
    /\ (forall fuel startId endId,
          RouterSearch.findShortestPath cityBlock fuel (RouterFetch.finder inst1)
            startId endId = Returned None).
Proof.
  apply (@three_failed_attempts_leave_nothing cityBlock wholeNumber networkDown
           (fun _ => 1000) emptyInstance 0 (mkPoint 0 0) 1000).
  - intros cached H. discriminate H.
  - intros j Hj. reflexivity.
Defined.

(** ** The point of the path closest to the rider *)

Section Closest.
Variable cd : Point -> Point -> Q.
Variable point : Point.

Lemma closer_step (seen : list Point) (acc : ext * nat * nat) (x : Point) :
  Closest cd point seen acc ->
  Closest cd point (seen ++ [x]) (Screen.closer cd point acc x).
Proof.
  destruct acc as [[m c] i]. intros [Hi H]. cbn [fst snd] in *. subst i.
  unfold Screen.closer. cbv zeta.
  assert (Hx : nth_error (seen ++ [x]) (List.length seen) = Some x).
  { rewrite nth_error_app2 by lia. now rewrite Nat.sub_diag. }
  assert (Hold : forall j q, nth_error (seen ++ [x]) j = Some q ->
                             nth_error seen j = Some q
                             \/ (j = List.length seen /\ q = x)).
  { intros j q Hj. destruct (Nat.lt_ge_cases j (List.length seen)) as [Hlt | Hge].
    - left. now rewrite nth_error_app1 in Hj.
    - right. rewrite nth_error_app2 in Hj by lia.
      destruct (j - List.length seen)%nat as [| d] eqn:Ed.
      + cbn in Hj. inversion Hj. split; [lia | reflexivity].
      + destruct d; discriminate. }
  destruct H as [[-> Hm] | [c0 [p [Hm [Hp [Hmin Hfirst]]]]]].
  - inversion Hm; subst m c. cbn [ext_ltb app List.length].
    split; [reflexivity |]. right. exists O, x. cbn [fst].
    split; [reflexivity |]. split; [reflexivity |]. split.
    + intros [| j] q Hj; cbn in Hj; [inversion Hj; lra |].
      destruct j; discriminate.
    + intros j q Hj. lia.
  - inversion Hm; subst m c.
    destruct (ext_ltb (Fin (cd point x)) (Fin (cd point p))) eqn:E.
    + apply ext_ltb_Fin in E. split; [cbn [snd]; rewrite length_app; cbn; lia |].
      right. exists (List.length seen), x. cbn [fst].
      split; [reflexivity |]. split; [exact Hx |]. split.
      * intros j q Hj. destruct (Hold j q Hj) as [H | [_ ->]]; [| lra].
        pose proof (Hmin j q H). lra.
      * intros j q Hlt Hj. destruct (Hold j q Hj) as [H | [-> _]]; [| lia].
        pose proof (Hmin j q H). lra.
    + apply ext_ltb_false, ext_le_Fin in E.
      split; [cbn [snd]; rewrite length_app; cbn; lia |].
      right. exists c0, p. cbn [fst].
      split; [reflexivity |]. split.
      * rewrite nth_error_app1; [exact Hp |].
        apply nth_error_Some. congruence.
      * split.
        -- intros j q Hj. destruct (Hold j q Hj) as [H | [_ ->]]; [| exact E].
           now apply (Hmin j q).
        -- intros j q Hlt Hj. destruct (Hold j q Hj) as [H | [-> _]].
           ++ now apply (Hfirst j q).
           ++ assert (c0 < List.length seen)%nat
                by (apply nth_error_Some; congruence).
              lia.
Qed.

Lemma closer_fold (path : list Point) :
  forall seen acc,
    Closest cd point seen acc ->
    Closest cd point (seen ++ path) (fold_left (Screen.closer cd point) path acc).
Proof.
  induction path as [| x path IH]; intros seen acc H.
  - rewrite app_nil_r. exact H.
  - cbn [fold_left].
    replace (seen ++ x :: path) with ((seen ++ [x]) ++ path)
      by (rewrite <- app_assoc; reflexivity).
    apply IH. now apply closer_step.
Qed.
End Closest.

(** X25: [findClosestPointIndex] returns [0] for an empty path; for any
    other path it returns the index of a point of the path that no point
    of the path is closer than, and the first such index: every point
    before it is further away. *)
Theorem findClosestPointIndex_is_the_first_closest (cd : Point -> Point -> Q)
  (point : Point) (path : list Point) :
  let index := Screen.findClosestPointIndex cd point path in
  (path = [] -> index = O)
  /\ (path <> [] ->
      exists p,
        nth_error path index = Some p
        /\ (forall j q, nth_error path j = Some q -> cd point p <= cd point q)
        /\ (forall j q, (j < index)%nat -> nth_error path j = Some q ->
                        cd point p < cd point q)).
Proof.
  cbv zeta. unfold Screen.findClosestPointIndex.
  destruct (@closer_fold cd point path [] (Inf, O, O)) as [_ H].
  { split; [reflexivity |]. left. split; reflexivity. }
  cbn [app] in H. split.
  - intros ->. reflexivity.
  - intros Hne. destruct H as [[Hnil _] | [c [p [Hacc [Hp [Hmin Hfirst]]]]]];
      [contradiction |].
    rewrite Hacc. cbn [snd]. exists p. auto.
Qed.

(** ** [findShortestPath] of [utils/pathfinding.ts] returns a shortest route *)

Lemma positiveb_sound (g : Obj.t Legacy.GraphNode) : positiveb g = true -> positive g.
Proof.
  intros H u n v w Hu Hin. unfold positiveb in H. rewrite forallb_forall in H.
  specialize (H (u, n) (get_In _ _ Hu)). cbn [snd] in H.
  rewrite forallb_forall in H. specialize (H (v, w) Hin). cbn [snd] in H.
  now apply Qltb_true.
Qed.

(** The node the scan picks has the smallest distance of all unvisited
    nodes. *)
Lemma Legacy_smallest_min (s : Legacy.Search) (c : string) (d : ext) :
  Legacy.smallest s = (c, d) ->
  forall k dk, In k (Legacy.unvisited s) ->
               Obj.get (Legacy.distances s) k = Some dk -> ext_le d dk.
Proof.
  unfold Legacy.smallest.
  assert (H : forall l acc r,
             fold_left
               (fun (acc : string * ext) nodeId =>
                  match Obj.get (Legacy.distances s) nodeId with
                  | Some d => if ext_ltb d (snd acc) then (nodeId, d) else acc
                  | None => acc
                  end) l acc = r ->
             ext_le (snd r) (snd acc)
             /\ forall k dk, In k l -> Obj.get (Legacy.distances s) k = Some dk ->
                             ext_le (snd r) dk).
  { induction l as [| x l IH]; intros acc r Hr.
    - cbn [fold_left] in Hr. subst r. split; [apply ext_le_refl |].
      intros k dk [].
    - cbn [fold_left] in Hr. apply IH in Hr as [H1 H2].
      destruct (Obj.get (Legacy.distances s) x) as [dx |] eqn:Ex.
      + destruct (ext_ltb dx (snd acc)) eqn:E.
        * cbn [snd] in H1. split.
          -- eapply ext_le_trans; [exact H1 |]. now apply ext_ltb_true.
          -- intros k dk [<- | Hk] Hd; [| now apply (H2 k)].
             rewrite Ex in Hd. inversion Hd; subst dk. exact H1.
        * split; [exact H1 |].
          intros k dk [<- | Hk] Hd; [| now apply (H2 k)].
          rewrite Ex in Hd. inversion Hd; subst dk.
          eapply ext_le_trans; [exact H1 |]. now apply ext_ltb_false.
      + split; [exact H1 |].
        intros k dk [<- | Hk] Hd; [congruence | now apply (H2 k)]. }
  intros Hs k dk Hk Hd.
  destruct (H _ _ _ Hs) as [_ H2]. cbn [snd] in H2. now apply (H2 k).
Qed.

Section LegacyRelax.
Variable g : Obj.t Legacy.GraphNode.
Variable start : string.
Hypothesis Hpos : positive g.

Lemma Legacy_relax_step (current : string) (qc : Q) (relaxed : list string)
  (s : Legacy.Search) (n : Legacy.GraphNode) (v : string) (w : Q) :
  Relaxing g start current qc relaxed s ->
  Obj.get g current = Some n -> In (v, w) (Legacy.neighbors n) ->
  let s' := Legacy.relax current s (v, w) in
  Relaxing g start current qc relaxed s'
  /\ (In v (Obj.keys g) ->
      exists d, Obj.get (Legacy.distances s') v = Some d /\ ext_le d (Fin (qc + w)))
  /\ (forall k d, Obj.get (Legacy.distances s) k = Some d ->
        exists d', Obj.get (Legacy.distances s') k = Some d' /\ ext_le d' d)
  /\ Legacy.visited s' = Legacy.visited s
  /\ Legacy.unvisited s' = Legacy.unvisited s.
Proof.
  intros [HI [Hcv [Hc HM]]] Hn Hin s'.
  pose proof (@Hpos current n v w Hn Hin) as Hw.
  pose proof (vis_nonneg HI _ Hc) as Hqc.
  assert (Hsame : forall k d, Obj.get (Legacy.distances s) k = Some d ->
                    exists d', Obj.get (Legacy.distances s) k = Some d'
                               /\ ext_le d' d).
  { intros k d Hk. exists d. split; [exact Hk | apply ext_le_refl]. }
  subst s'. unfold Legacy.relax. cbn [fst snd].
  destruct (mem v (Legacy.visited s)) eqn:Ev.
  { apply mem_In in Ev. split; [| split; [| split; [| split]]]; trivial.
    - split; [exact HI |]. auto.
    - intros _. destruct (vis_visited HI v Ev) as [qv Hqv].
      exists (Fin qv). split; [exact Hqv |]. apply ext_le_Fin.
      pose proof (HM v qv Ev Hqv). lra. }
  apply mem_false in Ev. rewrite Hc.
  destruct (Obj.get (Legacy.distances s) v) as [dn |] eqn:Hdn.
  2:{ split; [| split; [| split; [| split]]]; trivial.
      - split; [exact HI |]. auto.
      - intros Hk. apply (vis_dom HI) in Hk as [d Hd]. congruence. }
  change (ext_add (Fin qc) (Fin w)) with (Fin (qc + w)).
  destruct (ext_ltb (Fin (qc + w)) dn) eqn:E.
  2:{ apply ext_ltb_false in E. split; [| split; [| split; [| split]]]; trivial.
      - split; [exact HI |]. auto.
      - intros _. eauto. }
  pose proof (ext_ltb_true _ _ E) as Hle.
  assert (Hvk : In v (Obj.keys g)) by (apply (vis_dom HI); eauto).
  assert (Hvc : v <> current) by (intros ->; contradiction).
  assert (Hvs : start <> v).
  { intros <-. destruct (vis_start HI) as [H0 _]. rewrite H0 in Hdn.
    inversion Hdn; subst dn. apply ext_ltb_Fin in E. lra. }
  assert (Hvis : forall u, In u (Legacy.visited s) -> v <> u)
    by (intros u H ->; contradiction).
  cbn [Legacy.distances Legacy.previous Legacy.visited Legacy.unvisited].
  split; [| split; [| split; [| split]]]; trivial.
  - split; [| split; [| split]].
    + constructor;
        cbn [Legacy.distances Legacy.previous Legacy.visited Legacy.unvisited].
      * intros k. rewrite get_set. destruct (String.eqb v k) eqn:Ek.
        -- apply String.eqb_eq in Ek. subst k. split; eauto.
        -- apply (vis_dom HI).
      * destruct (vis_start HI) as [H0 H1].
        rewrite !get_set_neq by congruence. auto.
      * intros k q. rewrite get_set. destruct (String.eqb v k) eqn:Ek.
        -- intros [= <-]. lra.
        -- apply (vis_nonneg HI).
      * apply (vis_cover HI).
      * apply (vis_unvisited HI).
      * intros u Hu. rewrite get_set_neq by (now apply Hvis).
        now apply (vis_visited HI).
      * apply (vis_done HI).
      * intros u q n' v' w' Hu.
        rewrite get_set_neq by (apply Hvis; now apply (vis_done HI)).
        intros Hq Hn' Hin' Hk'.
        destruct (@vis_relaxed _ _ _ _ HI u q n' v' w' Hu Hq Hn' Hin' Hk')
          as [d [Hd1 Hd2]].
        rewrite get_set. destruct (String.eqb v v') eqn:Ek.
        -- apply String.eqb_eq in Ek. subst v'. rewrite Hdn in Hd1.
           inversion Hd1; subst d. exists (Fin (qc + w)). split; trivial.
           eapply ext_le_trans; eauto.
        -- eauto.
      * intros u q k d Hu.
        rewrite get_set_neq by (now apply Hvis).
        intros Hq Hk. rewrite get_set. destruct (String.eqb v k) eqn:Ek.
        -- intros [= <-]. apply ext_le_Fin. pose proof (HM u q Hu Hq). lra.
        -- intros Hd. exact (@vis_min _ _ _ _ HI u q k d Hu Hq Hk Hd).
      * intros k u. rewrite get_set. destruct (String.eqb v k) eqn:Ek.
        -- apply String.eqb_eq in Ek. subst k. intros [= <-].
           split; [exact Hcv |]. exists qc, n, w.
           rewrite get_set_neq by assumption. rewrite get_set_eq. auto.
        -- intros Hk. destruct (vis_link HI _ Hk) as [Hu [qu [n' [w' [A [B [C D]]]]]]].
           split; [exact Hu |]. exists qu, n', w'.
           rewrite get_set_neq by (now apply Hvis).
           rewrite get_set, Ek. auto.
      * intros k q. rewrite get_set. destruct (String.eqb v k) eqn:Ek.
        -- apply String.eqb_eq in Ek. subst k. intros _.
           destruct (vis_chain HI _ Hc) as [p Hp].
           exists (p ++ [v]). econstructor.
           ++ apply get_set_eq.
           ++ exact Hcv.
           ++ apply chain_stable; auto.
        -- intros Hk. destruct (vis_chain HI _ Hk) as [p Hp].
           exists p. apply chain_stable; auto.
           intros ->. rewrite String.eqb_refl in Ek. discriminate.
    + exact Hcv.
    + cbn [Legacy.distances]. rewrite get_set_neq by assumption. exact Hc.
    + cbn [Legacy.distances Legacy.visited]. intros u q Hu.
      rewrite get_set_neq by (now apply Hvis). now apply HM.
  - intros _. exists (Fin (qc + w)). rewrite get_set_eq.
    split; [reflexivity | apply ext_le_refl].
  - intros k d Hk. rewrite get_set. destruct (String.eqb v k) eqn:Ek.
    + apply String.eqb_eq in Ek. subst k. rewrite Hdn in Hk.
      inversion Hk; subst d. eauto.
    + exists d. split; [assumption | apply ext_le_refl].
Qed.
End LegacyRelax.

Section LegacyLoop.
Variable g : Obj.t Legacy.GraphNode.
Variable start : string.
Hypothesis Hpos : positive g.

Lemma Legacy_relax_fold (current : string) (qc : Q) (relaxed : list string)
  (n : Legacy.GraphNode) :
  Obj.get g current = Some n ->
  forall (rest seen : list (string * Q)) (s : Legacy.Search),
    incl rest (Legacy.neighbors n) ->
    Relaxing g start current qc relaxed s ->
    (forall v w, In (v, w) seen -> In v (Obj.keys g) ->
       exists d, Obj.get (Legacy.distances s) v = Some d
                 /\ ext_le d (Fin (qc + w))) ->
    let s' := fold_left (Legacy.relax current) rest s in
    Relaxing g start current qc relaxed s'
    /\ (forall v w, In (v, w) (seen ++ rest) -> In v (Obj.keys g) ->
          exists d, Obj.get (Legacy.distances s') v = Some d
                    /\ ext_le d (Fin (qc + w)))
    /\ Legacy.visited s' = Legacy.visited s
    /\ Legacy.unvisited s' = Legacy.unvisited s.
Proof.
  intros Hn. induction rest as [| [v w] rest IH]; intros seen s Hincl HM Hseen.
  - cbv zeta. cbn [fold_left]. rewrite app_nil_r. auto.
  - cbv zeta. cbn [fold_left].
    assert (Hin : In (v, w) (Legacy.neighbors n)) by (apply Hincl; now left).
    destruct (@Legacy_relax_step g start Hpos current qc relaxed s n v w HM Hn Hin)
      as [HM1 [Hv [Hmono [HV HU]]]].
    destruct (IH (seen ++ [(v, w)]) (Legacy.relax current s (v, w)))
      as [A [B [C D]]].
    + intros x Hx. apply Hincl. now right.
    + exact HM1.
    + intros v' w' Hvw Hk. apply in_app_or in Hvw as [Hvw | [Hvw | []]].
      * destruct (Hseen v' w' Hvw Hk) as [d [Hd1 Hd2]].
        destruct (Hmono _ _ Hd1) as [d' [Hd1' Hd2']].
        exists d'. split; [assumption |]. eapply ext_le_trans; eauto.
      * inversion Hvw; subst v' w'. now apply Hv.
    + split; [exact A |]. split; [| split].
      * intros v' w' Hvw. apply B. rewrite <- app_assoc. exact Hvw.
      * now rewrite C.
      * now rewrite D.
Qed.

(** Once all the edges of [current] are examined, the invariant holds
    with [current] among the relaxed nodes. *)
Lemma Legacy_relaxed_more (current : string) (qc : Q) (relaxed : list string)
  (s : Legacy.Search) :
  Relaxing g start current qc relaxed s ->
  (forall n v w, Obj.get g current = Some n -> In (v, w) (Legacy.neighbors n) ->
     In v (Obj.keys g) ->
     exists d, Obj.get (Legacy.distances s) v = Some d /\ ext_le d (Fin (qc + w))) ->
  (forall u, In u (Legacy.visited s) -> u = current \/ In u relaxed) ->
  Visiting g start (Legacy.visited s) s.
Proof.
  intros [HI [Hcv [Hc HM]]] Hrel Hall. destruct HI. constructor; trivial.
  intros u q n v w Hu Hq Hn Hin Hk.
  destruct (Hall u Hu) as [-> | Hr].
  - rewrite Hc in Hq. inversion Hq; subst q. eauto.
  - eauto.
Qed.

Lemma In_removeId (c k : string) (l : list string) :
  In k (Legacy.removeId c l) <-> In k l /\ k <> c.
Proof.
  unfold Legacy.removeId. rewrite filter_In. split; intros [A B]; split; trivial.
  - intros ->. rewrite String.eqb_refl in B. discriminate.
  - apply negb_true_iff. now apply String.eqb_neq.
Qed.

(** Taking the closest unvisited node. *)
Lemma Legacy_pick (s : Legacy.Search) (c : string) (qc : Q) :
  Visiting g start (Legacy.visited s) s ->
  Legacy.smallest s = (c, Fin qc) ->
  Relaxing g start c qc (Legacy.visited s)
    {| Legacy.distances := Legacy.distances s;
       Legacy.previous := Legacy.previous s;
       Legacy.visited := Legacy.visited s ++ [c];
       Legacy.unvisited := Legacy.removeId c (Legacy.unvisited s) |}.
Proof.
  intros HI Hs.
  pose proof (Legacy_smallest_min s Hs) as Hmin.
  apply Legacy_smallest_spec in Hs as [HcU Hc].
  split; [| split; [| split]].
  - constructor;
      cbn [Legacy.distances Legacy.previous Legacy.visited Legacy.unvisited].
    + apply (vis_dom HI).
    + apply (vis_start HI).
    + apply (vis_nonneg HI).
    + intros k Hk. destruct (vis_cover HI k Hk) as [H | H].
      * left. apply in_or_app. now left.
      * destruct (string_dec k c) as [-> | Hne].
        -- left. apply in_or_app. right. now left.
        -- right. apply In_removeId. auto.
    + intros k Hk. apply In_removeId in Hk as [Hk Hne].
      destruct (vis_unvisited HI k Hk) as [A B]. split; [exact A |].
      intros H. apply in_app_or in H as [H | [H | []]]; [contradiction | congruence].
    + intros u Hu. apply in_app_or in Hu as [Hu | [<- | []]]; [| eauto].
      now apply (vis_visited HI).
    + intros u Hu. apply in_or_app. now left.
    + apply (vis_relaxed HI).
    + intros u q k d Hu Hq Hk Hd. apply In_removeId in Hk as [Hk Hne].
      apply in_app_or in Hu as [Hu | [<- | []]].
      * exact (@vis_min _ _ _ _ HI u q k d Hu Hq Hk Hd).
      * rewrite Hc in Hq. inversion Hq; subst q. exact (Hmin k d Hk Hd).
    + intros k u Hk. destruct (vis_link HI _ Hk) as [Hu H].
      split; [apply in_or_app; now left | exact H].
    + intros k q Hk. destruct (vis_chain HI _ Hk) as [p Hp].
      exists p. eapply chain_mono; [| exact Hp]. intros x Hx.
      apply in_or_app. now left.
  - cbn [Legacy.visited]. apply in_or_app. right. now left.
  - exact Hc.
  - cbn [Legacy.visited Legacy.distances]. intros u q Hu Hq.
    apply in_app_or in Hu as [Hu | [<- | []]].
    + pose proof (@vis_min _ _ _ _ HI u q c (Fin qc) Hu Hq HcU Hc) as H.
      now apply ext_le_Fin in H.
    + rewrite Hc in Hq. inversion Hq. lra.
Qed.

(** A route to a node of the graph is no shorter than the distance the
    node has, or than the distance of some unvisited node. *)
Lemma Legacy_route_bound (s : Legacy.Search) (k : string) (p : list string) (W : Q) :
  Visiting g start (Legacy.visited s) s ->
  Leg g start k p W -> In k (Obj.keys g) ->
  (exists q, Obj.get (Legacy.distances s) k = Some (Fin q) /\ q <= W)
  \/ exists u q, In u (Legacy.unvisited s)
                 /\ Obj.get (Legacy.distances s) u = Some (Fin q) /\ q <= W.
Proof.
  intros HI H. induction H as [| u k p W w n Hl IH Hn Hin]; intros Hk.
  - left. exists 0. split; [apply (vis_start HI) | lra].
  - pose proof (@Hpos u n k w Hn Hin) as Hw.
    assert (Hu : In u (Obj.keys g)) by (eapply get_keys; eauto).
    destruct (IH Hu) as [[q [Hq Hle]] | [x [q [Hx [Hq Hle]]]]].
    + destruct (vis_cover HI u Hu) as [Hv | Hv].
      * destruct (@vis_relaxed _ _ _ _ HI u q n k w Hv Hq Hn Hin Hk)
          as [d [Hd Hdle]].
        destruct d as [q' |]; [| discriminate Hdle].
        apply ext_le_Fin in Hdle. left. exists q'. split; [exact Hd | lra].
      * right. exists u, q. split; [exact Hv |]. split; [exact Hq | lra].
    + right. exists x, q. split; [exact Hx |]. split; [exact Hq | lra].
Qed.

(** The loop ends within as many rounds as there are unvisited nodes: at
    the destination, with a distance no route beats, or with [null] when
    there is no route. *)
Lemma Legacy_search_full (endId : string) (fuel : nat) :
  forall s,
    Visiting g start (Legacy.visited s) s ->
    In endId (Legacy.unvisited s) ->
    (List.length (Legacy.unvisited s) < fuel)%nat ->
    (exists s' q,
       Legacy.search fuel g endId s = Returned (Some s')
       /\ Visiting g start (Legacy.visited s') s'
       /\ Obj.get (Legacy.distances s') endId = Some (Fin q)
       /\ forall p W, Leg g start endId p W -> q <= W)
    \/ (Legacy.search fuel g endId s = Returned None
        /\ forall p W, ~ Leg g start endId p W).
Proof.
  induction fuel as [| fuel IH]; intros s HI He Hfuel; [lia |].
  rewrite Legacy_search_unfold.
  destruct (Legacy.unvisited s) as [| x l] eqn:Eu; [contradiction |].
  rewrite <- Eu in *. clear Eu x l.
  destruct (vis_unvisited HI endId He) as [Hek HeV].
  destruct (Legacy.smallest s) as [c [qc |]] eqn:Es.
  - pose proof (Legacy_smallest_min s Es) as Hmin.
    pose proof (Legacy_pick HI Es) as HM.
    destruct (Legacy_smallest_spec s Es) as [HcU Hc].
    destruct (String.eqb c endId) eqn:Eend.
    + apply String.eqb_eq in Eend. subst c. left. exists s, qc.
      split; [reflexivity |]. split; [exact HI |]. split; [exact Hc |].
      intros p W Hl.
      destruct (Legacy_route_bound HI Hl Hek) as [[q [Hq Hle]] | [u [q [Hu [Hq Hle]]]]].
      * rewrite Hc in Hq. inversion Hq. lra.
      * pose proof (Hmin u (Fin q) Hu Hq) as H. apply ext_le_Fin in H. lra.
    + cbv zeta.
      destruct (vis_unvisited HI c HcU) as [Hck _].
      apply keys_get in Hck as [n Hn]. rewrite Hn.
      destruct (@Legacy_relax_fold c qc (Legacy.visited s) n Hn
                  (Legacy.neighbors n) [] _ (incl_refl _) HM)
        as [HM2 [Hrel [HV HU]]]; [intros v w [] |].
      cbn [app] in Hrel. cbn [Legacy.visited Legacy.unvisited] in HV, HU.
      apply IH.
      * apply Legacy_relaxed_more with (current := c) (qc := qc)
                                      (relaxed := Legacy.visited s).
        -- exact HM2.
        -- intros n' v w Hn' Hin Hk. rewrite Hn in Hn'. inversion Hn'; subst n'.
           now apply Hrel.
        -- rewrite HV. intros u Hu.
           apply in_app_or in Hu as [Hu | [<- | []]]; auto.
      * rewrite HU. apply In_removeId. split; [exact He |].
        intros <-. rewrite String.eqb_refl in Eend. discriminate.
      * rewrite HU. pose proof (removeId_length c (Legacy.unvisited s) HcU). lia.
  - right. split; [reflexivity |]. intros p W Hl.
    pose proof (Legacy_smallest_min s Es) as Hmin.
    destruct (Legacy_route_bound HI Hl Hek) as [[q [Hq Hle]] | [u [q [Hu [Hq Hle]]]]].
    + pose proof (Hmin endId (Fin q) He Hq) as H. discriminate H.
    + pose proof (Hmin u (Fin q) Hu Hq) as H. discriminate H.
Qed.
End LegacyLoop.

Lemma Legacy_init_visiting (g : Obj.t Legacy.GraphNode) (start : string) :
  In start (Obj.keys g) ->
  Visiting g start (Legacy.visited (Legacy.initSearch g start))
    (Legacy.initSearch g start).
Proof.
  intros Hs. pose proof Hs as Hm. apply mem_In in Hm.
  assert (Hd : forall k,
             Obj.get (Legacy.distances (Legacy.initSearch g start)) k
             = if String.eqb start k then Some (Fin 0)
               else if mem k (Obj.keys g) then Some Inf else None).
  { intros k. unfold Legacy.initSearch. cbn [Legacy.distances].
    now rewrite get_set, get_fold_set. }
  assert (Hp : forall k,
             Obj.get (Legacy.previous (Legacy.initSearch g start)) k
             = if mem k (Obj.keys g) then Some None else None).
  { intros k. unfold Legacy.initSearch. cbn [Legacy.previous].
    now rewrite get_fold_set. }
  constructor.
  - intros k. rewrite Hd. destruct (String.eqb start k) eqn:E.
    + apply String.eqb_eq in E. subst k. split; eauto.
    + destruct (mem k (Obj.keys g)) eqn:Ek.
      * apply mem_In in Ek. split; eauto.
      * apply mem_false in Ek. split; [contradiction |].
        intros [d H]. discriminate.
  - rewrite Hd, Hp, String.eqb_refl, Hm. auto.
  - intros k q. rewrite Hd. destruct (String.eqb start k).
    + intros [= <-]. lra.
    + destruct (mem k (Obj.keys g)); discriminate.
  - intros k Hk. right. exact Hk.
  - intros k Hk. split; [exact Hk | intros []].
  - intros u [].
  - intros u [].
  - intros u q n v w [].
  - intros u q k d [].
  - intros k u. rewrite Hp. destruct (mem k (Obj.keys g)); discriminate.
  - intros k q. rewrite Hd. destruct (String.eqb start k) eqn:E.
    + apply String.eqb_eq in E. subst k. intros _. exists [start].
      constructor. rewrite Hp, Hm. reflexivity.
    + destruct (mem k (Obj.keys g)); discriminate.
Qed.

Lemma Legacy_search_more_fuel (g : Obj.t Legacy.GraphNode) (endId : string)
  (fuel : nat) :
  forall (s : Legacy.Search) (r : option Legacy.Search) (fuel' : nat),
    Legacy.search fuel g endId s = Returned r -> (fuel <= fuel')%nat ->
    Legacy.search fuel' g endId s = Returned r.
Proof.
  induction fuel as [| fuel IH]; intros s r fuel' H Hle.
  - cbn [Legacy.search] in H.
    destruct (Legacy.unvisited s) eqn:Eu; [| discriminate].
    destruct fuel'; cbn [Legacy.search]; now rewrite Eu.
  - destruct fuel' as [| fuel']; [lia |].
    rewrite Legacy_search_unfold in *.
    destruct (Legacy.unvisited s); [exact H |].
    destruct (Legacy.smallest s) as [c [qc |]]; [| exact H].
    destruct (String.eqb c endId); [exact H |].
    cbv zeta in *. destruct (Obj.get g c); [| exact H].
    apply IH; [exact H | lia].
Qed.

(** Following the links from a node back to the start spells its chain. *)
Lemma Legacy_rebuild_chain (previous : Obj.t (option string))
  (visited : list string) (start k : string) (p : list string) :
  Obj.get previous start = Some None ->
  Chain previous visited start k p ->
  forall (fuel : nat) (acc : list string),
    (List.length p <= fuel)%nat ->
    Legacy.rebuild fuel previous start k acc = Returned (Some (p ++ acc)).
Proof.
  intros H0 H. induction H as [_ | k u p Hku Hu Hc IH]; intros fuel acc Hfuel.
  - destruct fuel; cbn [Legacy.rebuild]; now rewrite String.eqb_refl.
  - rewrite length_app in Hfuel. cbn [List.length] in Hfuel.
    destruct fuel as [| fuel]; [lia |]. cbn [Legacy.rebuild].
    assert (Hne : String.eqb k start = false).
    { apply String.eqb_neq. intros ->. congruence. }
    rewrite Hne, Hku. rewrite IH by lia. now rewrite <- app_assoc.
Qed.

Lemma Legacy_chain_leg (g : Obj.t Legacy.GraphNode) (start : string)
  (relaxed chained : list string) (s : Legacy.Search) (k : string)
  (p : list string) :
  Visiting g start relaxed s ->
  Chain (Legacy.previous s) chained start k p ->
  forall q, Obj.get (Legacy.distances s) k = Some (Fin q) -> Leg g start k p q.
Proof.
  intros HI H. induction H as [_ | k u p Hku Hu Hc IH]; intros q Hq.
  - destruct (vis_start HI) as [H0 _]. rewrite H0 in Hq. inversion Hq.
    constructor.
  - destruct (vis_link HI _ Hku) as [_ [qu [n [w [A [B [C D]]]]]]].
    rewrite D in Hq. inversion Hq. eapply Leg_step; eauto.
Qed.

Lemma leg_last (g : Obj.t Legacy.GraphNode) (s k : string) (p : list string)
  (W : Q) :
  Leg g s k p W -> exists p0, p = p0 ++ [k].
Proof.
  intros H. destruct H; [exists []; reflexivity | eauto].
Qed.

Lemma connected_snoc (g : Obj.t Legacy.GraphNode) (p : list string) (a k : string) :
  Legacy.connected g ((p ++ [a]) ++ [k])
  = Legacy.connected g (p ++ [a])
    && match Obj.get g a, Obj.get g k with
       | Some n, Some _ =>
           match Obj.get (Legacy.neighbors n) k with
           | Some w => negb (Qeq_bool w 0)
           | None => false
           end
       | _, _ => false
       end.
Proof.
  induction p as [| x p IH].
  - cbn [app Legacy.connected].
    destruct (Obj.get g a); [| reflexivity].
    destruct (Obj.get g k); [| reflexivity].
    destruct (Obj.get (Legacy.neighbors _) k); [| reflexivity].
    now rewrite Bool.andb_true_r.
  - destruct p as [| y p].
    + cbn [app Legacy.connected] in *.
      destruct (Obj.get g x) as [nx |]; [| reflexivity].
      destruct (Obj.get g a) as [na |]; [| reflexivity].
      destruct (Obj.get (Legacy.neighbors nx) a) as [wx |]; [| reflexivity].
      destruct (Obj.get g k); [| now rewrite !Bool.andb_false_r].
      destruct (Obj.get (Legacy.neighbors na) k); [| now rewrite !Bool.andb_false_r].
      now rewrite !Bool.andb_true_r.
    + change (((x :: y :: p) ++ [a]) ++ [k])
        with (x :: ((y :: p) ++ [a]) ++ [k]).
      change ((x :: y :: p) ++ [a]) with (x :: (y :: p) ++ [a]).
      change (Legacy.connected g (x :: ((y :: p) ++ [a]) ++ [k]))
        with (match Obj.get g x, Obj.get g y with
              | Some currentNode, Some _ =>
                  match Obj.get (Legacy.neighbors currentNode) y with
                  | Some w =>
                      negb (Qeq_bool w 0)
                      && Legacy.connected g (((y :: p) ++ [a]) ++ [k])
                  | None => false
                  end
              | _, _ => false
              end).
      change (Legacy.connected g (x :: (y :: p) ++ [a]))
        with (match Obj.get g x, Obj.get g y with
              | Some currentNode, Some _ =>
                  match Obj.get (Legacy.neighbors currentNode) y with
                  | Some w =>
                      negb (Qeq_bool w 0) && Legacy.connected g ((y :: p) ++ [a])
                  | None => false
                  end
              | _, _ => false
              end).
      rewrite IH.
      destruct (Obj.get g x) as [nx |]; [| reflexivity].
      destruct (Obj.get g y) as [ny |]; [| reflexivity].
      destruct (Obj.get (Legacy.neighbors nx) y) as [wx |]; [| reflexivity].
      now rewrite Bool.andb_assoc.
Qed.

(** A route over edges of positive length passes the final check. *)
Lemma connected_leg (g : Obj.t Legacy.GraphNode) (s k : string)
  (p : list string) (W : Q) :
  positive g -> Leg g s k p W -> In k (Obj.keys g) ->
  Legacy.connected g p = true.
Proof.
  intros Hpos H. induction H as [| u k p W w n Hl IH Hn Hin]; intros Hk.
  - reflexivity.
  - destruct (leg_last Hl) as [p0 ->]. rewrite connected_snoc.
    rewrite IH by (eapply get_keys; eauto). rewrite Hn.
    apply keys_get in Hk as [nk Hnk]. rewrite Hnk.
    assert (Hkey : In k (Obj.keys (Legacy.neighbors n)))
      by (eapply In_keys; eauto).
    apply keys_get in Hkey as [w' Hw']. rewrite Hw'.
    pose proof (Hpos u n k w' Hn (get_In _ _ Hw')) as Hpos'.
    cbn [andb]. apply negb_true_iff.
    destruct (Qeq_bool w' 0) eqn:E; [| reflexivity].
    apply Qeq_bool_iff in E. lra.
Qed.

(** X26: on an initialized instance of [utils/pathfinding.ts] whose edges
    all have a length above zero, [findShortestPath] between two different
    nodes of the graph ends.  When the second node can be reached from the
    first, it returns a route from the first to the second along edges of
    the graph, with the sum of their lengths as distance, and no route
    between the two is shorter; when it cannot be reached, it returns
    [null]. *)
Theorem Legacy_findShortestPath_returns_a_shortest_route
  (st : Legacy.PathFinder) (startId endId : string) :
  Legacy.isInitialized st = true -> positive (Legacy.nodes st) ->
  In startId (Obj.keys (Legacy.nodes st)) ->
  In endId (Obj.keys (Legacy.nodes st)) ->
  startId <> endId ->
  exists (fuel0 : nat) (r : option Legacy.PathResult),
    (forall fuel, (fuel0 <= fuel)%nat ->
       Legacy.findShortestPath fuel st startId endId = Returned r)
    /\ ((exists res q,
           r = Some res
           /\ Legacy.distance res = Some (Fin q)
           /\ Leg (Legacy.nodes st) startId endId (Legacy.path res) q
           /\ forall p' W, Leg (Legacy.nodes st) startId endId p' W -> q <= W)
        \/ (r = None
            /\ forall p' W, ~ Leg (Legacy.nodes st) startId endId p' W)).
Proof.
  intros Hi Hpos Hs He Hne.
  set (g := Legacy.nodes st) in *.
  pose proof (Legacy_init_visiting g startId Hs) as HI.
  assert (Hguard : negb (Legacy.isInitialized st)
                   || negb (Obj.has g startId) || negb (Obj.has g endId) = false).
  { rewrite Hi. apply has_true in Hs. apply has_true in He.
    unfold g in *. now rewrite Hs, He. }
  set (fuel1 := S (List.length (Obj.keys g))).
  destruct (@Legacy_search_full g startId Hpos endId fuel1
              (Legacy.initSearch g startId) HI)
    as [[s' [q [Hrun [HI' [Hq Hopt]]]]] | [Hrun Hnone]].
  - exact He.
  - unfold fuel1. cbn [Legacy.initSearch Legacy.unvisited]. lia.
  - destruct (vis_chain HI' _ Hq) as [p Hp].
    pose proof (Legacy_chain_leg HI' Hp Hq) as Hleg.
    destruct (vis_start HI') as [_ Hp0].
    assert (Hlen : (List.length p <? 2)%nat = false).
    { apply Nat.ltb_ge. inversion Hp as [E | k u p0 Hku Hu Hc]; subst.
      - contradiction.
      - destruct (chain_ends Hc) as [_ [_ Hnil]].
        rewrite length_app. cbn [List.length].
        destruct p0; [congruence | cbn [List.length]; lia]. }
    exists (Nat.max fuel1 (List.length p)).
    exists (Some {| Legacy.path := p; Legacy.distance := Some (Fin q) |}).
    split.
    + intros fuel Hfuel. unfold Legacy.findShortestPath. fold g.
      rewrite Hguard.
      rewrite (@Legacy_search_more_fuel g endId fuel1 _ _ fuel Hrun) by lia.
      rewrite Hq.
      rewrite (@Legacy_rebuild_chain _ _ startId endId p Hp0 Hp fuel []) by lia.
      rewrite app_nil_r, Hlen.
      rewrite (@connected_leg g startId endId p q Hpos Hleg He). reflexivity.
    + left. eexists _, q. split; [reflexivity |].
      cbn [Legacy.distance Legacy.path]. auto.
  - exists fuel1, None. split.
    + intros fuel Hfuel. unfold Legacy.findShortestPath. fold g.
      rewrite Hguard.
      rewrite (@Legacy_search_more_fuel g endId fuel1 _ _ fuel Hrun) by lia.
      reflexivity.
    + right. split; [reflexivity | exact Hnone].
Qed.

Lemma Legacy_findShortestPath_returns_a_shortest_route_witness :
  exists (fuel0 : nat) (r : option Legacy.PathResult),
    (forall fuel, (fuel0 <= fuel)%nat ->
       Legacy.findShortestPath fuel (legacyOn twoWayStreet) "osm_1" "osm_2"
       = Returned r)
    /\ ((exists res q,
           r = Some res
           /\ Legacy.distance res = Some (Fin q)
           /\ Leg (Legacy.nodes (legacyOn twoWayStreet)) "osm_1" "osm_2"
                (Legacy.path res) q
           /\ forall p' W,
                Leg (Legacy.nodes (legacyOn twoWayStreet)) "osm_1" "osm_2" p' W ->
                q <= W)
        \/ (r = None
            /\ forall p' W,
                 ~ Leg (Legacy.nodes (legacyOn twoWayStreet)) "osm_1" "osm_2" p' W)).
Proof.
  apply (@Legacy_findShortestPath_returns_a_shortest_route
           (legacyOn twoWayStreet) "osm_1" "osm_2").
  - vm_compute. reflexivity.
  - apply positiveb_sound. vm_compute. reflexivity.
  - vm_compute. tauto.
  - vm_compute. tauto.
  - discriminate.
Defined.

(** ** Where the edges of the built graph come from *)

Lemma In_values_set (V : Type) (o : Obj.t V) (k : string) (v x : V) :
  In x (Obj.values (Obj.set o k v)) -> x = v \/ In x (Obj.values o).
Proof.
  unfold Obj.values. rewrite !in_map_iff. intros [[k' y] [E H]].
  cbn [snd] in E. subst y. apply In_set in H as [[_ ->] | H]; [now left |].
  right. exists (k', x). auto.
Qed.

(** Only ways that pass [isValidRoadWay] are stored. *)
Lemma processElements_ways (elements : list Element) :
  forall st,
    (forall way, In way (Obj.values (Router.osmWays st)) ->
       Router.isValidRoadWay (Router.wayNodes way) (Some (Router.tags way)) = true) ->
    forall way,
      In way (Obj.values (Router.osmWays (fold_left Router.processElement elements st))) ->
      Router.isValidRoadWay (Router.wayNodes way) (Some (Router.tags way)) = true.
Proof.
  induction elements as [| e l IH]; intros st H; [exact H |].
  cbn [fold_left]. apply IH. intros way.
  destruct e as [i la lo | i ns tg |]; cbn [Router.processElement Router.osmWays];
    try apply H.
  destruct (Router.isValidRoadWay ns tg) eqn:E; [| apply H].
  destruct tg as [tg |]; [| apply H]. cbn [Router.osmWays].
  intros Hin. apply In_values_set in Hin as [-> | Hin]; [exact E | now apply H].
Qed.

Lemma fold_kept_in (P : Obj.t Router.GraphNode -> Prop) (A : Type)
  (f : Router.PathFinder -> A -> Router.PathFinder) (l : list A) :
  (forall s a, In a l -> P (Router.nodes s) -> P (Router.nodes (f s a))) ->
  forall st, P (Router.nodes st) -> P (Router.nodes (fold_left f l st)).
Proof.
  induction l as [| a l IH]; intros Hf st HP; [exact HP |].
  cbn [fold_left]. apply IH.
  - intros s x Hx. apply Hf. now right.
  - apply Hf; [now left | exact HP].
Qed.

Section Sources.
Variable ways : list Router.OSMWay.

Lemma addNode_sourced (st : Router.PathFinder) (id : string) (p : Point) :
  Sourced ways (Router.nodes st) ->
  Sourced ways (Router.nodes (Router.addNode st id p)).
Proof.
  intros HS. unfold Router.addNode.
  destruct (Obj.get (Router.nodes st) id) eqn:E; [exact HS |].
  cbn [Router.nodes]. intros u n v. rewrite get_set.
  destruct (String.eqb id u).
  - intros [= <-] Hv. contradiction.
  - apply HS.
Qed.

Lemma addEdge_sourced (st : Router.PathFinder) (x y : string) (w : ext) :
  (exists way, In way ways /\ stepOf way x y) ->
  Sourced ways (Router.nodes st) ->
  Sourced ways (Router.nodes (Router.addEdge st x y w)).
Proof.
  intros Hxy HS. unfold Router.addEdge.
  destruct (Obj.get (Router.nodes st) x) as [nx |] eqn:Ex; [| exact HS].
  destruct (Obj.get (Router.nodes st) y) as [ny |] eqn:Ey; [| exact HS].
  cbn [Router.nodes]. intros u n v. rewrite get_set.
  destruct (String.eqb x u) eqn:E.
  - apply String.eqb_eq in E. subst u. intros [= <-]. cbn [Router.neighbors].
    intros Hv. apply keys_set in Hv as [-> | Hv]; [exact Hxy |].
    exact (HS x nx v Ex Hv).
  - apply HS.
Qed.

Lemma addSegment_sourced (cd : Point -> Point -> Q) (speedLimit : Q)
  (way : Router.OSMWay) (st : Router.PathFinder) (seg : Z * Z) :
  In way ways -> In seg (segments (Router.wayNodes way)) ->
  Sourced ways (Router.nodes st) ->
  Sourced ways
    (Router.nodes (Router.addSegment cd speedLimit (wayIsOneWay way) st seg)).
Proof.
  intros Hway Hseg HS. unfold Router.addSegment. destruct seg as [a b].
  cbn [fst snd].
  destruct (Obj.get (Router.osmNodes st) (keyOf a)); [| exact HS].
  destruct (Obj.get (Router.osmNodes st) (keyOf b)); [| exact HS].
  destruct (Obj.get (Router.nodes st) (Router.graphNodeId (keyOf a)));
    [| exact HS].
  destruct (Obj.get (Router.nodes st) (Router.graphNodeId (keyOf b)));
    [| exact HS].
  cbv zeta.
  assert (Hfwd : exists way0, In way0 ways
                   /\ stepOf way0 (Router.graphNodeId (keyOf a))
                        (Router.graphNodeId (keyOf b))).
  { exists way. split; [exact Hway |]. exists a, b. split; [exact Hseg |]. now left. }
  destruct (wayIsOneWay way) eqn:E.
  - now apply addEdge_sourced.
  - apply addEdge_sourced; [| now apply addEdge_sourced].
    exists way. split; [exact Hway |]. exists a, b. split; [exact Hseg |].
    right. auto.
Qed.

Lemma addWay_sourced (cd : Point -> Point -> Q) (way : Router.OSMWay)
  (st : Router.PathFinder) :
  In way ways ->
  Sourced ways (Router.nodes st) ->
  Sourced ways (Router.nodes (Router.addWay cd st way)).
Proof.
  intros Hway HS. unfold Router.addWay.
  destruct (truthy (Obj.get (Router.tags way) "highway")); [| exact HS].
  destruct (Obj.get (Router.tags way) "highway") as [roadType |] eqn:E;
    [| exact HS].
  cbv zeta.
  replace (Router.isOneWayStreet (Router.tags way) roadType)
    with (wayIsOneWay way) by (unfold wayIsOneWay; now rewrite E).
  apply (@fold_kept_in (Sourced ways)); [| exact HS].
  intros s seg Hseg Hs. now apply addSegment_sourced.
Qed.
End Sources.

(** X27: in the instance [processOSMData] leaves, every stored way passes
    [isValidRoadWay], and every edge of the graph is a step of a stored
    way: it joins two consecutive nodes of the way, forward, or backward if
    the way is not one-way.  No edge runs against a one-way street unless
    another stored way has that step. *)
Theorem built_edges_follow_the_ways (cd : Point -> Point -> Q)
  (st0 : Router.PathFinder) (elements : list Element) :
  exists st,
    Router.processOSMData cd st0 elements = Some st
    /\ (forall way, In way (Obj.values (Router.osmWays st)) ->
          Router.isValidRoadWay (Router.wayNodes way) (Some (Router.tags way)) = true)
    /\ forall u n v,
         Obj.get (Router.nodes st) u = Some n ->
         In v (Obj.keys (Router.neighbors n)) ->
         exists way,
           In way (Obj.values (Router.osmWays st)) /\ stepOf way u v.
Proof.
  unfold Router.processOSMData, Router.buildGraphFromOSM.
  set (cleared := {| Router.nodes := []; Router.osmNodes := [];
                     Router.osmWays := [];
                     Router.isInitialized := Router.isInitialized st0 |}).
  set (c := fold_left Router.processElement elements cleared).
  set (a := Router.addOsmNodes c).
  set (b := Router.addWays cd a).
  assert (Hwa : Router.osmWays a = Router.osmWays c).
  { unfold a, Router.addOsmNodes.
    now destruct (addNodes_fold (Obj.values (Router.osmNodes c)) c) as [_ [H _]]. }
  assert (Hwb : Router.osmWays b = Router.osmWays c).
  { rewrite <- Hwa. unfold b.
    now destruct (addWays_same_tables cd a) as [_ [H _]]. }
  assert (Hvalid : forall way, In way (Obj.values (Router.osmWays c)) ->
             Router.isValidRoadWay (Router.wayNodes way) (Some (Router.tags way))
             = true).
  { unfold c. apply processElements_ways. intros way []. }
  assert (HB : Built (Router.nodes b)).
  { apply addWays_built, addOsmNodes_built. unfold c.
    rewrite (proj1 (processElements_nodes elements cleared)). apply Built_empty. }
  assert (HS : Sourced (Obj.values (Router.osmWays c)) (Router.nodes b)).
  { unfold b, Router.addWays. rewrite Hwa.
    apply (@fold_kept_in (Sourced (Obj.values (Router.osmWays c)))).
    - intros s way Hway Hs. now apply addWay_sourced.
    - unfold a, Router.addOsmNodes.
      apply (@fold_kept (Sourced (Obj.values (Router.osmWays c)))).
      + intros s x Hs. now apply addNode_sourced.
      + unfold c. rewrite (proj1 (processElements_nodes elements cleared)).
        intros u n v Hu. discriminate Hu. }
  destruct (Obj.keys (Router.nodes b)) as [| start more] eqn:Ek.
  - assert (Hv : Router.validateGraphConnectivity b = Some b).
    { unfold Router.validateGraphConnectivity, Router.validateGraphConnectivityIn.
      now rewrite Ek. }
    rewrite Hv. eexists. split; [reflexivity |].
    cbn [Router.nodes Router.osmWays]. rewrite Hwb. split; [exact Hvalid | exact HS].
  - assert (Hne : start <> "").
    { destruct (@built_keys _ HB start) as [x Hx]; [rewrite Ek; now left |].
      rewrite Hx. discriminate. }
    destruct (@validateGraphConnectivity_reach b start more (built_nodup HB) Ek Hne)
      as [v [visited [Hv [Hvis [Hkeys [Hget [_ [Hways _]]]]]]]].
    rewrite Hv. eexists. split; [reflexivity |].
    cbn [Router.nodes Router.osmWays]. rewrite Hways, Hwb.
    split; [exact Hvalid |].
    intros u n x Hn Hx.
    assert (Hu : In u (Obj.keys (Router.nodes v))) by (eapply get_keys; eauto).
    rewrite Hkeys in Hu. apply filter_In in Hu as [_ Hu]. apply mem_In in Hu.
    rewrite (Hget u Hu) in Hn. exact (HS u n x Hn Hx).
Qed.

(** ** The estimated time of a trip *)

Lemma defaultSpeed_bounds (k : string) :
  15 <= Router.defaultSpeed k /\ Router.defaultSpeed k <= 100.
Proof.
  unfold Router.defaultSpeed.
  destruct (Obj.get Router.DEFAULT_SPEEDS k) as [v |] eqn:E.
  - apply get_In in E. simpl in E.
    repeat (destruct E as [E | E];
            [inversion E; subst; split; vm_compute; discriminate |]).
    contradiction.
  - split; vm_compute; discriminate.
Qed.

(** The time a segment of [d] metres takes at a speed between 15 and 100
    km/h. *)
Lemma segment_time_bounds (d v : Q) :
  0 <= d -> 15 <= v -> v <= 100 ->
  Qltb 0 (v * 1000 / 3600) = true
  /\ d * (36 # 1000) <= d / (v * 1000 / 3600)
  /\ d / (v * 1000 / 3600) <= d * (240 # 1000).
Proof.
  intros Hd Hlo Hhi.
  set (mps := v * 1000 / 3600).
  assert (Hm : mps == v * (5 # 18)) by (unfold mps; field).
  assert (Hpos : 0 < mps) by (rewrite Hm; lra).
  split; [now apply Qltb_true |].
  set (x := d / mps).
  assert (Hx : x * mps == d) by (unfold x; field; lra).
  assert (Hx0 : 0 <= x).
  { unfold x. apply Qle_shift_div_l; [exact Hpos | lra]. }
  rewrite Hm in Hx. split; nra.
Qed.

Lemma estimated_time_fold (cd : Point -> Point -> Q) (st : Router.PathFinder)
  (segs : list (Point * Point)) :
  (forall a b, 0 <= cd a b) ->
  forall (t0 D0 : Q),
    D0 * (36 # 1000) <= t0 -> t0 <= D0 * (240 # 1000) ->
    exists t,
      fold_left
        (fun totalTimeSeconds seg =>
           let distanceMeters := cd (fst seg) (snd seg) in
           let roadType :=
             RouterSearch.findRoadTypeBetweenPoints st (fst seg) (snd seg) in
           let speedLimitKmH := Router.defaultSpeed roadType in
           let speedLimitMps := speedLimitKmH * 1000 / 3600 in
           if Qltb 0 speedLimitMps
           then ext_add totalTimeSeconds (Fin (distanceMeters / speedLimitMps))
           else ext_add totalTimeSeconds Inf)
        segs (Fin t0) = Fin t
      /\ fold_left (fun totalDistance seg => totalDistance + cd (fst seg) (snd seg))
           segs D0 * (36 # 1000) <= t
      /\ t <= fold_left
                (fun totalDistance seg => totalDistance + cd (fst seg) (snd seg))
                segs D0 * (240 # 1000).
Proof.
  intros Hcd. induction segs as [| seg segs IH]; intros t0 D0 Hlo Hhi.
  - exists t0. cbn [fold_left]. auto.
  - cbn [fold_left]. cbv zeta.
    destruct (defaultSpeed_bounds
                (RouterSearch.findRoadTypeBetweenPoints st (fst seg) (snd seg)))
      as [Hv1 Hv2].
    destruct (@segment_time_bounds (cd (fst seg) (snd seg)) _
                (Hcd (fst seg) (snd seg)) Hv1 Hv2) as [Hq [Hb1 Hb2]].
    rewrite Hq. cbn [ext_add]. apply IH; lra.
Qed.

(** X28: with a distance function that is never negative, the estimated
    time [calculateEstimatedTime] gives for a trip is a finite number of
    seconds, never [Infinity]; it lies between the time the trip takes at
    100 km/h and the time it takes at 15 km/h, the fastest and the slowest
    of the default speeds. *)
Theorem estimated_time_is_finite_and_bounded (cd : Point -> Point -> Q)
  (st : Router.PathFinder) (points : list Point) :
  (forall a b, 0 <= cd a b) ->
  exists t,
    RouterSearch.calculateEstimatedTime cd st points = Fin t
    /\ RouterSearch.calculatePathDistance cd points * (36 # 1000) <= t
    /\ t <= RouterSearch.calculatePathDistance cd points * (240 # 1000).
Proof.
  intros Hcd.
  unfold RouterSearch.calculateEstimatedTime, RouterSearch.calculatePathDistance.
  apply estimated_time_fold; [exact Hcd | lra | lra].
Qed.

Lemma estimated_time_is_finite_and_bounded_witness :
  exists t,
    RouterSearch.calculateEstimatedTime cityBlock twoWayRouter
      [mkPoint 0 0; mkPoint (1 # 100) 0] = Fin t
    /\ RouterSearch.calculatePathDistance cityBlock
         [mkPoint 0 0; mkPoint (1 # 100) 0] * (36 # 1000) <= t
    /\ t <= RouterSearch.calculatePathDistance cityBlock
              [mkPoint 0 0; mkPoint (1 # 100) 0] * (240 # 1000).
Proof.
  exact (@estimated_time_is_finite_and_bounded cityBlock twoWayRouter
           [mkPoint 0 0; mkPoint (1 # 100) 0] cityBlock_nonneg).
Defined.

(** ** C7: the nearest-node searches *)

Section RouterChoice.
Variable cd : Point -> Point -> Q.
Variable st : Router.PathFinder.
Variable point : Point.
Variable searchRadius : Q.

Lemma usable_in_graph (kv : string * Router.OSMNode) :
  usable st kv = true ->
  In (Router.graphNodeId (fst kv)) (Obj.keys (Router.nodes st)).
Proof.
  unfold usable. intros H. apply andb_true_iff in H as [H _].
  unfold Router.getNodeConnections in H.
  destruct (Obj.get (Router.nodes st) (Router.graphNodeId (fst kv))) eqn:E;
    [| discriminate].
  eapply get_keys; eauto.
Qed.

(** Past its guard the search has three outcomes: the closest usable
    node; with no usable node, the closest graph node; with no graph node
    either, nothing. *)
Lemma Router_nearest_choice :
  Router.isInitialized st = true -> Router.osmNodes st <> [] ->
  (exists kv,
      In kv (Router.osmNodes st) /\ usable st kv = true
      /\ Router.findNearestOsmNode cd st point searchRadius
         = Some (Router.graphNodeId (fst kv))
      /\ forall kv', In kv' (Router.osmNodes st) -> usable st kv' = true ->
                     cd point (osmPoint (snd kv)) <= cd point (osmPoint (snd kv')))
  \/ ((forall kv, In kv (Router.osmNodes st) -> usable st kv = false)
      /\ ((Router.nodes st = []
           /\ Router.findNearestOsmNode cd st point searchRadius = None)
          \/ exists kn,
               In kn (Router.nodes st)
               /\ Router.findNearestOsmNode cd st point searchRadius = Some (fst kn)
               /\ forall kn', In kn' (Router.nodes st) ->
                    cd point (Router.point (snd kn))
                    <= cd point (Router.point (snd kn')))).
Proof.
  intros Hi Ho.
  assert (Hg : negb (Router.isInitialized st)
               || (List.length (Obj.keys (Router.osmNodes st)) =? 0)%nat = false).
  { rewrite Hi. destruct (Router.osmNodes st); [congruence | reflexivity]. }
  unfold Router.findNearestOsmNode. rewrite Hg. cbv beta iota zeta.
  destruct (existsb (usable st) (Router.osmNodes st)) eqn:Eu.
  - left. apply existsb_exists in Eu as [kv [Hin Hu]].
    destruct (@firstWithin_best cd st point
                [Fin searchRadius; Fin (searchRadius * 2);
                 Fin (searchRadius * 4); Inf])
      as [m [Hm [Hmu [Hf Hmin]]]].
    { exists kv. split; [exact Hin |]. split; [exact Hu |].
      exists Inf. split; [simpl; tauto | reflexivity]. }
    exists m. rewrite Hf. auto.
  - right.
    assert (Hnone : forall kv, In kv (Router.osmNodes st) -> usable st kv = false).
    { intros kv Hin. destruct (usable st kv) eqn:E; [| reflexivity].
      assert (X : existsb (usable st) (Router.osmNodes st) = true)
        by (apply existsb_exists; eauto).
      congruence. }
    split; [exact Hnone |].
    rewrite (@firstWithin_none cd st point _ Hnone), absoluteNearest_pick.
    destruct (pickNearest_spec (fun _ => true) fst
                (fun kv : string * Router.GraphNode =>
                   cd point (Router.point (snd kv)))
                (Router.nodes st))
      as [[E Hno] | [m [Hm [_ [-> Hmin]]]]].
    + left. rewrite E. split; [| reflexivity].
      destruct (Router.nodes st) as [| kn g]; [reflexivity |].
      specialize (Hno kn (or_introl eq_refl)). discriminate.
    + right. exists m. split; [exact Hm |]. split; [reflexivity |].
      intros kn' Hin'. now apply Hmin.
Qed.
End RouterChoice.

Section LegacyChoice.
Variable cd : Point -> Point -> Q.
Variable st : Legacy.PathFinder.
Variable point : Point.
Variable searchRadius : Q.

(** Past its guard the search always finds a node: the closest of the
    nodes on ways when one of them is within the radius, the closest of all
    nodes otherwise. *)
Lemma Legacy_nearest_choice :
  Legacy.isInitialized st = true -> Legacy.osmNodes st <> [] ->
  exists x,
    In x (Legacy.osmNodes st)
    /\ Legacy.findNearestOsmNode cd st point searchRadius
       = Some (Legacy.graphNodeId (fst x))
    /\ ((onWay st x = true
         /\ legacyDistance cd point x <= searchRadius
         /\ forall y, In y (Legacy.osmNodes st) -> onWay st y = true ->
                      legacyDistance cd point x <= legacyDistance cd point y)
        \/ ((forall y, In y (Legacy.osmNodes st) -> onWay st y = true ->
                       ~ legacyDistance cd point y <= searchRadius)
            /\ forall y, In y (Legacy.osmNodes st) ->
                         legacyDistance cd point x <= legacyDistance cd point y)).
Proof.
  intros Hi Ho.
  assert (Hg : negb (Legacy.isInitialized st)
               || (List.length (Obj.keys (Legacy.osmNodes st)) =? 0)%nat = false).
  { rewrite Hi. destruct (Legacy.osmNodes st); [congruence | reflexivity]. }
  unfold Legacy.findNearestOsmNode. rewrite Hg. cbv beta iota zeta.
  rewrite !Legacy_scan_pick.
  set (dist := legacyDistance cd point).
  set (name := fun kv : string * Legacy.OSMNode => Legacy.graphNodeId (fst kv)).
  set (near := fun kv : string * Legacy.OSMNode =>
                 Qle_bool (dist kv) searchRadius
                 && mem (Legacy.graphNodeId (fst kv)) (Legacy.nodesInWays st)).
  assert (Hout : forall (r : Q) y, Qle_bool (dist y) r = false -> r < dist y).
  { intros r y E. now apply Qle_bool_false. }
  destruct (@pickNearest_spec _ near name dist (Legacy.osmNodes st))
    as [[E1 N1] | [x [Hx [Hok [E1 Hmin]]]]].
  - assert (Hfar : forall y, In y (Legacy.osmNodes st) -> onWay st y = true ->
                             ~ dist y <= searchRadius).
    { intros y Hy Hw Hle. specialize (N1 y Hy). unfold near in N1.
      unfold onWay in Hw. rewrite Hw, Bool.andb_true_r in N1.
      apply Qle_bool_iff in Hle. congruence. }
    rewrite E1. cbn [fst].
    set (wide := (searchRadius * (3 # 2))%Q).
    set (within := fun kv : string * Legacy.OSMNode => Qle_bool (dist kv) wide).
    destruct (@pickNearest_spec _ within name dist (Legacy.osmNodes st))
      as [[E2 N2] | [x [Hx [Hok [E2 Hmin]]]]].
    + rewrite E2. cbn [fst].
      destruct (@pickNearest_spec _ (fun _ : string * Legacy.OSMNode => true)
                  name dist (Legacy.osmNodes st))
        as [[_ N3] | [x [Hx [_ [E3 Hmin]]]]].
      * destruct (Legacy.osmNodes st) as [| kv l]; [congruence |].
        specialize (N3 kv (or_introl eq_refl)). discriminate.
      * exists x. split; [exact Hx |]. rewrite E3. cbn [fst].
        split; [reflexivity |]. right. split; [exact Hfar |].
        intros y Hy. now apply Hmin.
    + exists x. split; [exact Hx |]. rewrite E2. cbn [fst].
      split; [reflexivity |]. right. split; [exact Hfar |].
      intros y Hy. destruct (within y) eqn:Ey; [now apply Hmin |].
      unfold within in Hok, Ey. apply Qle_bool_iff in Hok.
      apply Hout in Ey. lra.
  - exists x. split; [exact Hx |]. rewrite E1. cbn [fst].
    split; [reflexivity |]. left. unfold near in Hok.
    apply andb_true_iff in Hok as [Hr Hw]. apply Qle_bool_iff in Hr.
    split; [exact Hw |]. split; [exact Hr |].
    intros y Hy Hwy. destruct (near y) eqn:Ey; [now apply Hmin |].
    unfold near in Ey. unfold onWay in Hwy. rewrite Hwy, Bool.andb_true_r in Ey.
    apply Hout in Ey. lra.
Qed.
End LegacyChoice.

(** *** Every OSM node of [utils/pathfinding.ts] has its graph node *)

Lemma Legacy_processElements_keyed (elements : list Element)
  (st : Legacy.PathFinder) :
  (forall k v, In (k, v) (Legacy.osmNodes st) -> k = keyOf (Legacy.osmId v)) ->
  forall k v,
    In (k, v) (Legacy.osmNodes (fst (Legacy.processElements st elements))) ->
    k = keyOf (Legacy.osmId v).
Proof.
  revert st. induction elements as [| e l IH]; intros st H; cbn [Legacy.processElements];
    [exact H |].
  destruct (Legacy.processElement st e) as [st' |] eqn:E; [| exact H].
  apply IH. destruct e as [i la lo | i ns tg |]; cbn [Legacy.processElement] in E.
  - injection E as <-. cbn [Legacy.osmNodes]. intros k v Hin.
    apply In_set in Hin as [[-> ->] | Hin]; [reflexivity | now apply H].
  - destruct tg as [tg |]; [| discriminate].
    destruct (truthy _ && negb _); injection E as <-; exact H.
  - injection E as <-. exact H.
Qed.

Lemma Legacy_addNode_keys (st : Legacy.PathFinder) (id : string) (p : Point)
  (k : string) :
  In k (Obj.keys (Legacy.nodes (Legacy.addNode st id p)))
  <-> k = id \/ In k (Obj.keys (Legacy.nodes st)).
Proof. unfold Legacy.addNode. cbn [Legacy.withNodes Legacy.nodes]. apply keys_set. Qed.

Lemma Legacy_addNodes_keys (l : list Legacy.OSMNode) (st : Legacy.PathFinder)
  (k : string) :
  In k (Obj.keys (Legacy.nodes st))
  \/ (exists n, In n l /\ k = Legacy.graphNodeId (keyOf (Legacy.osmId n))) ->
  In k
    (Obj.keys
       (Legacy.nodes
          (fold_left
             (fun st osmNode =>
                Legacy.addNode st (Legacy.graphNodeId (keyOf (Legacy.osmId osmNode)))
                  {| latitude := Legacy.lat osmNode; longitude := Legacy.lon osmNode |})
             l st))).
Proof.
  revert st. induction l as [| a l IH]; intros st H; cbn [fold_left].
  - destruct H as [H | [n [[] _]]]. exact H.
  - apply IH. destruct H as [H | [n [[<- | Hn] ->]]].
    + left. apply Legacy_addNode_keys. now right.
    + left. apply Legacy_addNode_keys. now left.
    + right. eauto.
Qed.

Lemma Legacy_setNeighbor_keys (g : Obj.t Legacy.GraphNode) (x y : string) (d : Q)
  (k : string) :
  In k (Obj.keys g) -> In k (Obj.keys (Legacy.setNeighbor g x y d)).
Proof.
  intros H. apply keys_get in H as [node Hnode].
  destruct (@setNeighbor_keeps g x y d k node Hnode) as [node' H'].
  eapply get_keys; eauto.
Qed.

Lemma Legacy_addEdge_keys (cd : Point -> Point -> Q) (st : Legacy.PathFinder)
  (a b k : string) :
  In k (Obj.keys (Legacy.nodes st)) ->
  In k (Obj.keys (Legacy.nodes (Legacy.addEdge cd st a b))).
Proof.
  intros H. unfold Legacy.addEdge.
  destruct (Obj.get (Legacy.nodes st) a); [| exact H].
  destruct (Obj.get (Legacy.nodes st) b); [| exact H].
  cbn [Legacy.withNodes Legacy.nodes]. now do 2 apply Legacy_setNeighbor_keys.
Qed.

Lemma Legacy_addEdge_osmNodes (cd : Point -> Point -> Q) (st : Legacy.PathFinder)
  (a b : string) :
  Legacy.osmNodes (Legacy.addEdge cd st a b) = Legacy.osmNodes st.
Proof.
  unfold Legacy.addEdge.
  destruct (Obj.get (Legacy.nodes st) a); [| reflexivity].
  destruct (Obj.get (Legacy.nodes st) b); reflexivity.
Qed.

Lemma Legacy_addWays_keys (cd : Point -> Point -> Q) (ways : list Legacy.OSMWay)
  (st : Legacy.PathFinder) (k : string) :
  In k (Obj.keys (Legacy.nodes st)) ->
  In k
    (Obj.keys
       (Legacy.nodes
          (fold_left
             (fun st way =>
                fold_left (Legacy.addSegment cd) (segments (Legacy.wayNodes way)) st)
             ways st))).
Proof.
  revert st. induction ways as [| way ways IH]; intros st H; cbn [fold_left];
    [exact H |].
  apply IH. generalize (segments (Legacy.wayNodes way)). intros l.
  revert st H. induction l as [| seg l IHl]; intros st H; cbn [fold_left];
    [exact H |].
  apply IHl. unfold Legacy.addSegment. cbv zeta.
  destruct (Obj.has _ _ && Obj.has _ _); [| exact H].
  now apply Legacy_addEdge_keys.
Qed.

(** After a fetch every OSM node has its graph node. *)
Lemma Legacy_fetch_covers (cd : Point -> Point -> Q) (st0 st : Legacy.PathFinder)
  (elements : list Element) :
  Legacy.fetchRoadNetwork cd st0 (FetchOk elements) = (st, true) ->
  forall y, In y (Legacy.osmNodes st) ->
            In (Legacy.graphNodeId (fst y)) (Obj.keys (Legacy.nodes st)).
Proof.
  unfold Legacy.fetchRoadNetwork.
  pose proof (@Legacy_processElements_keyed elements Legacy.create) as Hkeyed.
  destruct (Legacy.processElements Legacy.create elements) as [c ok].
  cbn [fst] in Hkeyed. destruct ok; [| discriminate].
  intros [= <-]. cbn [Legacy.osmNodes Legacy.nodes].
  unfold Legacy.buildGraphFromOSM. cbv zeta.
  pose proof (Legacy_addNodes_fold (Obj.values (Legacy.osmNodes c)) c)
    as [A1 _].
  set (a := fold_left _ (Obj.values (Legacy.osmNodes c)) c) in *.
  assert (B : legacy_same_tables a
                (fold_left
                   (fun st way =>
                      fold_left (Legacy.addSegment cd)
                        (segments (Legacy.wayNodes way)) st)
                   (Obj.values (Legacy.osmWays a)) a)).
  { apply legacy_same_tables_fold. intros s way.
    apply legacy_same_tables_fold. intros. apply Legacy_addSegment_same_tables. }
  destruct B as [B1 _]. rewrite B1, A1. intros [k v] Hin. cbn [fst].
  apply Legacy_addWays_keys. unfold a. apply Legacy_addNodes_keys. right.
  exists v. split.
  - unfold Obj.values. change v with (snd (k, v)). now apply in_map.
  - rewrite (Hkeyed (fun _ _ (H : False) => match H with end) k v Hin). reflexivity.
Qed.

(** C7, as stated, fails: an answer without elements leaves an
    initialized instance without OSM nodes; after the public [addNode] its
    graph is not empty, and yet the nearest-node search returns no node,
    in the full PathFinder and in the one of [utils/pathfinding.ts]: both
    give up as soon as [this.osmNodes] is empty. *)
Lemma nearest_node_is_null_without_osm_nodes :
  (exists st0,
      Router.processOSMData cityBlock Router.create [] = Some st0
      /\ Router.isInitialized (Router.addNode st0 "stop_1" (mkPoint 0 0)) = true
      /\ Obj.keys (Router.nodes (Router.addNode st0 "stop_1" (mkPoint 0 0)))
         = ["stop_1"]
      /\ Router.findNearestOsmNode cityBlock
           (Router.addNode st0 "stop_1" (mkPoint 0 0)) (mkPoint 0 0) 500 = None)
  /\ (exists st0,
        Legacy.fetchRoadNetwork cityBlock Legacy.create (FetchOk []) = (st0, true)
        /\ Legacy.isInitialized (Legacy.addNode st0 "stop_1" (mkPoint 0 0)) = true
        /\ Obj.keys (Legacy.nodes (Legacy.addNode st0 "stop_1" (mkPoint 0 0)))
           = ["stop_1"]
        /\ Legacy.findNearestOsmNode cityBlock
             (Legacy.addNode st0 "stop_1" (mkPoint 0 0)) (mkPoint 0 0) 500 = None).
Proof.
  split; eexists; (split; [vm_compute; reflexivity |]);
    repeat split; vm_compute; reflexivity.
Qed.

(** C7, amended: for every query point and search radius, in every state
    of the instance, the nearest-node search returns no node exactly when
    the instance is not initialized, or holds no OSM node, or (full
    PathFinder) its graph is empty.  Otherwise it returns a node id.  In
    the full PathFinder that is the usable OSM node (on a way, with an edge
    of its own) closest to the point, and, as a last resort when no OSM
    node is usable, the graph node closest to the point, whatever its
    connections; either way a node of the graph.  In [utils/pathfinding.ts]
    it is the closest of the OSM nodes on ways when one of them is within
    the radius and the closest of all OSM nodes otherwise; it is a node of
    the graph whenever every OSM node has its graph node, which is so after
    every fetch and stays so under [addNode] and [addEdge]. *)
Theorem nearest_node_unless_no_osm_node (cd : Point -> Point -> Q)
  (point : Point) (searchRadius : Q) :
  (forall st : Router.PathFinder,
      (Router.findNearestOsmNode cd st point searchRadius = None
       <-> Router.isInitialized st = false \/ Router.osmNodes st = []
           \/ Router.nodes st = [])
      /\ forall id,
           Router.findNearestOsmNode cd st point searchRadius = Some id ->
           In id (Obj.keys (Router.nodes st))
           /\ ((exists kv,
                   In kv (Router.osmNodes st) /\ usable st kv = true
                   /\ id = Router.graphNodeId (fst kv)
                   /\ forall kv', In kv' (Router.osmNodes st) ->
                                  usable st kv' = true ->
                                  cd point (osmPoint (snd kv))
                                  <= cd point (osmPoint (snd kv')))
               \/ ((forall kv, In kv (Router.osmNodes st) -> usable st kv = false)
                   /\ exists kn,
                        In kn (Router.nodes st) /\ id = fst kn
                        /\ forall kn', In kn' (Router.nodes st) ->
                             cd point (Router.point (snd kn))
                             <= cd point (Router.point (snd kn')))))
  /\ (forall st : Legacy.PathFinder,
        (Legacy.findNearestOsmNode cd st point searchRadius = None
         <-> Legacy.isInitialized st = false \/ Legacy.osmNodes st = [])
        /\ forall id,
             Legacy.findNearestOsmNode cd st point searchRadius = Some id ->
             exists x,
               In x (Legacy.osmNodes st) /\ id = Legacy.graphNodeId (fst x)
               /\ ((forall y, In y (Legacy.osmNodes st) ->
                      In (Legacy.graphNodeId (fst y)) (Obj.keys (Legacy.nodes st))) ->
                   In id (Obj.keys (Legacy.nodes st)))
               /\ ((onWay st x = true
                    /\ legacyDistance cd point x <= searchRadius
                    /\ forall y, In y (Legacy.osmNodes st) -> onWay st y = true ->
                                 legacyDistance cd point x
                                 <= legacyDistance cd point y)
                   \/ ((forall y, In y (Legacy.osmNodes st) -> onWay st y = true ->
                                  ~ legacyDistance cd point y <= searchRadius)
                       /\ forall y, In y (Legacy.osmNodes st) ->
                                    legacyDistance cd point x
                                    <= legacyDistance cd point y)))
  /\ (forall (st0 st : Legacy.PathFinder) (elements : list Element),
        Legacy.fetchRoadNetwork cd st0 (FetchOk elements) = (st, true) ->
        forall y, In y (Legacy.osmNodes st) ->
                  In (Legacy.graphNodeId (fst y)) (Obj.keys (Legacy.nodes st)))
  /\ (forall (st : Legacy.PathFinder) (id other : string) (p : Point),
        (forall y, In y (Legacy.osmNodes st) ->
                   In (Legacy.graphNodeId (fst y)) (Obj.keys (Legacy.nodes st))) ->
        (forall y, In y (Legacy.osmNodes (Legacy.addNode st id p)) ->
                   In (Legacy.graphNodeId (fst y))
                     (Obj.keys (Legacy.nodes (Legacy.addNode st id p))))
        /\ (forall y, In y (Legacy.osmNodes (Legacy.addEdge cd st id other)) ->
                      In (Legacy.graphNodeId (fst y))
                        (Obj.keys (Legacy.nodes (Legacy.addEdge cd st id other))))).
Proof.
  split; [| split; [| split]].
  3:{ intros st0 st elements. apply Legacy_fetch_covers. }
  3:{ intros st id other p Hall. split.
      - intros y Hy. apply Legacy_addNode_keys. right. now apply Hall.
      - intros y Hy. rewrite Legacy_addEdge_osmNodes in Hy.
        apply Legacy_addEdge_keys. now apply Hall. }
  - intros st.
    destruct (Router.isInitialized st) eqn:Hi.
    2:{ rewrite (@Router_nearest_uninitialized cd st point searchRadius Hi).
        split; [tauto | discriminate]. }
    destruct (Router.osmNodes st) as [| kv0 more] eqn:Ho.
    { assert (E : Router.findNearestOsmNode cd st point searchRadius = None).
      { unfold Router.findNearestOsmNode. now rewrite Hi, Ho. }
      rewrite E. split; [tauto | discriminate]. }
    assert (Hne : Router.osmNodes st <> []) by (rewrite Ho; discriminate).
    rewrite <- Ho.
    destruct (@Router_nearest_choice cd st point searchRadius Hi Hne)
      as [[kv [Hin [Hu [E Hmin]]]] | [Hnone [[Hn E] | [kn [Hin [E Hmin]]]]]];
      rewrite E.
    + pose proof (usable_in_graph st kv Hu) as Hk. split.
      * split; [discriminate |]. intros [H | [H | H]]; [discriminate | congruence |].
        rewrite H in Hk. contradiction.
      * intros id [= <-]. split; [exact Hk |]. left. exists kv. auto.
    + split; [tauto | discriminate].
    + assert (Hk : In (fst kn) (Obj.keys (Router.nodes st))) by now apply in_map.
      split.
      * split; [discriminate |]. intros [H | [H | H]]; [discriminate | congruence |].
        rewrite H in Hin. contradiction.
      * intros id [= <-]. split; [exact Hk |]. right. split; [exact Hnone |].
        exists kn. auto.
  - intros st.
    destruct (Legacy.isInitialized st) eqn:Hi.
    2:{ rewrite (@Legacy_nearest_uninitialized cd st point searchRadius Hi).
        split; [tauto | discriminate]. }
    destruct (Legacy.osmNodes st) as [| kv0 more] eqn:Ho.
    { assert (E : Legacy.findNearestOsmNode cd st point searchRadius = None).
      { unfold Legacy.findNearestOsmNode. now rewrite Hi, Ho. }
      rewrite E. split; [tauto | discriminate]. }
    assert (Hne : Legacy.osmNodes st <> []) by (rewrite Ho; discriminate).
    rewrite <- Ho.
    destruct (@Legacy_nearest_choice cd st point searchRadius Hi Hne)
      as [x [Hx [E Hcase]]].
    rewrite E. split.
    + split; [discriminate |]. intros [H | H]; [discriminate | congruence].
    + intros id [= <-]. exists x. split; [exact Hx |]. split; [reflexivity |].
      split; [| exact Hcase]. intros Hall. now apply Hall.
Qed.

(** ** C4: weights and distances *)

Section HaversineFacts.
Variables sin cos sqrt : Q -> Q.
Variable atan2 : Q -> Q -> Q.
Variable PI : Q.
Hypothesis sqrt_nonneg : forall x, 0 <= sqrt x.
Hypothesis atan2_nonneg : forall y x, 0 <= y -> 0 <= x -> 0 <= atan2 y x.

Lemma calculateDistance_nonneg (point1 point2 : Point) :
  0 <= Haversine.calculateDistance sin cos sqrt atan2 PI point1 point2.
Proof.
  unfold Haversine.calculateDistance. cbv zeta.
  match goal with
  | |- 0 <= _ * (2 * atan2 ?y ?x) =>
      pose proof (atan2_nonneg (sqrt_nonneg _ : 0 <= y) (sqrt_nonneg _ : 0 <= x)) as H;
      generalize dependent (atan2 y x)
  end.
  intros c Hc. nra.
Qed.
End HaversineFacts.

Lemma RationalMath_sqrt_nonneg (x : Q) : 0 <= RationalMath.sqrt x.
Proof.
  unfold RationalMath.sqrt. destruct (Qle_bool x 0) eqn:E; [lra |].
  apply Qle_bool_false in E. apply Qle_shift_div_l; lra.
Qed.

Lemma RationalMath_atan2_nonneg (y x : Q) :
  0 <= y -> 0 <= x -> 0 <= RationalMath.atan2 y x.
Proof.
  intros Hy Hx. unfold RationalMath.atan2.
  destruct (Qle_bool x 0) eqn:E.
  - apply Qle_bool_iff in Hy. rewrite Hy. vm_compute. discriminate.
  - apply Qle_bool_false in E. apply Qle_shift_div_l; lra.
Qed.

(** *** Stored weights *)

Lemma addEdge_nonnegative (st : Router.PathFinder) (a b : string) (weight : ext) :
  ext_le (Fin 0) weight ->
  (forall k n v w, Obj.get (Router.nodes st) k = Some n ->
                   In (v, w) (Router.neighbors n) -> ext_le (Fin 0) w) ->
  forall k n v w,
    Obj.get (Router.nodes (Router.addEdge st a b weight)) k = Some n ->
    In (v, w) (Router.neighbors n) -> ext_le (Fin 0) w.
Proof.
  intros Hw HT. unfold Router.addEdge.
  destruct (Obj.get (Router.nodes st) a) as [na |] eqn:Ea; [| exact HT].
  destruct (Obj.get (Router.nodes st) b) as [nb |] eqn:Eb; [| exact HT].
  cbn [Router.nodes]. intros k n v w. rewrite get_set.
  destruct (String.eqb a k) eqn:E.
  - intros [= <-]. cbn [Router.neighbors]. intros Hv.
    apply In_set in Hv as [[_ ->] | Hv]; [exact Hw |].
    exact (HT a na v w Ea Hv).
  - apply HT.
Qed.

Lemma addSegment_nonnegative (cd : Point -> Point -> Q) (speedLimit : Q)
  (isOneWay : bool) (st : Router.PathFinder) (seg : Z * Z) :
  (forall p q, 0 <= cd p q) ->
  (forall k n v w, Obj.get (Router.nodes st) k = Some n ->
                   In (v, w) (Router.neighbors n) -> ext_le (Fin 0) w) ->
  forall k n v w,
    Obj.get (Router.nodes (Router.addSegment cd speedLimit isOneWay st seg)) k
    = Some n ->
    In (v, w) (Router.neighbors n) -> ext_le (Fin 0) w.
Proof.
  intros Hcd HT. unfold Router.addSegment.
  destruct (Obj.get (Router.osmNodes st) (keyOf (fst seg))) as [n1 |]; [| exact HT].
  destruct (Obj.get (Router.osmNodes st) (keyOf (snd seg))) as [n2 |]; [| exact HT].
  destruct (Obj.get (Router.nodes st) (Router.graphNodeId (keyOf (fst seg))));
    [| exact HT].
  destruct (Obj.get (Router.nodes st) (Router.graphNodeId (keyOf (snd seg))));
    [| exact HT].
  cbv zeta.
  set (distance := cd _ _).
  destruct (segmentWeight_defined speedLimit distance) as [weight Hw]. rewrite Hw.
  assert (H0 : ext_le (Fin 0) weight).
  { eapply segmentWeight_nonneg; [apply Hcd | exact Hw]. }
  destruct isOneWay; repeat apply addEdge_nonnegative; assumption.
Qed.

Lemma addSegment_backward (st : Router.PathFinder) (x y : string) (w : ext)
  (nx ny : Router.GraphNode) :
  Obj.get (Router.nodes st) x = Some nx ->
  Obj.get (Router.nodes st) y = Some ny ->
  exists ny',
    Obj.get (Router.nodes (Router.addEdge (Router.addEdge st x y w) y x w)) y
    = Some ny'
    /\ Obj.get (Router.neighbors ny') x = Some w.
Proof.
  intros Hx Hy.
  destruct (Router_addEdge_from st x y w Hx Hy) as [nx1 [H1 _]].
  assert (Hy1 : exists ny1,
             Obj.get (Router.nodes (Router.addEdge st x y w)) y = Some ny1).
  { destruct (String.eqb y x) eqn:E.
    - apply String.eqb_eq in E. subst y. eauto.
    - apply String.eqb_neq in E. rewrite Router_addEdge_other by exact E. eauto. }
  destruct Hy1 as [ny1 Hy1].
  destruct (Router_addEdge_from (Router.addEdge st x y w) y x w Hy1 H1)
    as [ny2 [H2 [_ [H2w _]]]].
  eauto.
Qed.

Lemma calculatePathDistance_nonneg (cd : Point -> Point -> Q) (points : list Point) :
  (forall p q, 0 <= cd p q) ->
  0 <= RouterSearch.calculatePathDistance cd points.
Proof.
  intros Hcd. unfold RouterSearch.calculatePathDistance.
  assert (H : forall (l : list (Point * Point)) (acc : Q),
             0 <= acc ->
             0 <= fold_left (fun total seg => total + cd (fst seg) (snd seg)) l acc).
  { induction l as [| seg l IH]; intros acc Hacc; cbn [fold_left]; [exact Hacc |].
    apply IH. pose proof (Hcd (fst seg) (snd seg)). lra. }
  apply H. lra.
Qed.

(** C4: the weight computation of [buildGraphFromOSM] divides by no zero:
    it gives [Infinity] when the effective speed is zero or negative and
    the quotient of distance and speed otherwise.  The distance it is given,
    the haversine formula of [calculateDistance], is never negative
    ([Math.sqrt] returns no negative number, and neither does [Math.atan2]
    on arguments that are not negative), so the weight of a segment is
    never negative, whatever the speed limit; it is the weight stored on
    the forward edge and, unless the way is one-way, on the backward edge.
    Adding a segment to a graph whose weights are not negative gives a
    graph whose weights are not negative.  The speed limit that
    [getSpeedLimit] gives is always positive, so in a graph that
    [processOSMData] builds every stored weight is a number that is not
    negative; and the distance that [calculatePathDistance] adds up for a
    result is never negative either. *)
Theorem weights_and_distances_are_safe
  (sin cos sqrt : Q -> Q) (atan2 : Q -> Q -> Q) (PI : Q) :
  (forall x, 0 <= sqrt x) ->
  (forall y x, 0 <= y -> 0 <= x -> 0 <= atan2 y x) ->
  let calculateDistance := Haversine.calculateDistance sin cos sqrt atan2 PI in
  (forall point1 point2, 0 <= calculateDistance point1 point2)
  /\ (forall speedLimit distance,
        exists weight,
          Router.segmentWeight speedLimit distance = Some weight
          /\ (Router.effectiveSpeedMps speedLimit <= 0 -> weight = Inf)
          /\ (0 < Router.effectiveSpeedMps speedLimit ->
              weight = Fin (distance / Router.effectiveSpeedMps speedLimit))
          /\ (0 <= distance -> ext_le (Fin 0) weight))
  /\ (forall (st : Router.PathFinder) (speedLimit : Q) (isOneWay : bool) (a b : Z)
             (node1Osm node2Osm : Router.OSMNode) (node1 node2 : Router.GraphNode),
        Obj.get (Router.osmNodes st) (keyOf a) = Some node1Osm ->
        Obj.get (Router.osmNodes st) (keyOf b) = Some node2Osm ->
        Obj.get (Router.nodes st) (Router.graphNodeId (keyOf a)) = Some node1 ->
        Obj.get (Router.nodes st) (Router.graphNodeId (keyOf b)) = Some node2 ->
        let st' :=
          Router.addSegment calculateDistance speedLimit isOneWay st (a, b) in
        exists weight,
          Router.segmentWeight speedLimit
            (calculateDistance (osmPoint node1Osm) (osmPoint node2Osm))
          = Some weight
          /\ ext_le (Fin 0) weight
          /\ (Router.effectiveSpeedMps speedLimit <= 0 -> weight = Inf)
          /\ edgeWeight (Router.nodes st')
               (Router.graphNodeId (keyOf a)) (Router.graphNodeId (keyOf b))
             = Some weight
          /\ (isOneWay = false ->
              edgeWeight (Router.nodes st')
                (Router.graphNodeId (keyOf b)) (Router.graphNodeId (keyOf a))
              = Some weight))
  /\ (forall (st : Router.PathFinder) (speedLimit : Q) (isOneWay : bool)
             (seg : Z * Z),
        (forall k n v w,
            Obj.get (Router.nodes st) k = Some n ->
            In (v, w) (Router.neighbors n) -> ext_le (Fin 0) w) ->
        forall k n v w,
          Obj.get
            (Router.nodes
               (Router.addSegment calculateDistance speedLimit isOneWay st seg)) k
          = Some n ->
          In (v, w) (Router.neighbors n) -> ext_le (Fin 0) w)
  /\ (forall tags : Router.Tags,
        0 < Router.getSpeedLimit tags
        /\ 0 < Router.effectiveSpeedMps (Router.getSpeedLimit tags))
  /\ (forall (st0 : Router.PathFinder) (elements : list Element),
        exists st,
          Router.processOSMData calculateDistance st0 elements = Some st
          /\ forall k n v w,
               Obj.get (Router.nodes st) k = Some n ->
               In (v, w) (Router.neighbors n) ->
               exists q, w = Fin q /\ 0 <= q)
  /\ (forall points : list Point,
        0 <= RouterSearch.calculatePathDistance calculateDistance points).
Proof.
  intros Hsqrt Hatan2 calculateDistance.
  assert (Hcd : forall p q, 0 <= calculateDistance p q).
  { intros p q. now apply calculateDistance_nonneg. }
  split; [exact Hcd |]. split; [| split; [| split; [| split; [| split]]]].
  6:{ intros points. now apply calculatePathDistance_nonneg. }
  4:{ intros tags. pose proof (getSpeedLimit_pos tags) as Hs.
      split; [exact Hs |]. unfold Router.effectiveSpeedMps.
      apply Qlt_shift_div_l; [reflexivity |]. lra. }
  - intros speedLimit distance.
    destruct (segmentWeight_defined speedLimit distance) as [weight Hw].
    exists weight. split; [exact Hw |]. split; [| split].
    + intros Hs. rewrite segmentWeight_stop in Hw by assumption. congruence.
    + intros Hs. rewrite segmentWeight_go in Hw by assumption. congruence.
    + intros Hd. eapply segmentWeight_nonneg; eauto.
  - intros st speedLimit isOneWay a b node1Osm node2Osm node1 node2
      Ho1 Ho2 Hn1 Hn2 st'.
    set (distance := calculateDistance (osmPoint node1Osm) (osmPoint node2Osm)).
    destruct (segmentWeight_defined speedLimit distance) as [weight Hw].
    exists weight. split; [exact Hw |].
    split; [eapply segmentWeight_nonneg; [apply Hcd | exact Hw] |].
    split.
    { intros Hs. rewrite segmentWeight_stop in Hw by assumption. congruence. }
    assert (Est : st' = if isOneWay
                        then Router.addEdge st (Router.graphNodeId (keyOf a))
                               (Router.graphNodeId (keyOf b)) weight
                        else Router.addEdge
                               (Router.addEdge st (Router.graphNodeId (keyOf a))
                                  (Router.graphNodeId (keyOf b)) weight)
                               (Router.graphNodeId (keyOf b))
                               (Router.graphNodeId (keyOf a)) weight).
    { unfold st', Router.addSegment. cbn [fst snd].
      rewrite Ho1, Ho2, Hn1, Hn2. cbv zeta.
      change (calculateDistance
                {| latitude := Router.lat node1Osm; longitude := Router.lon node1Osm |}
                {| latitude := Router.lat node2Osm; longitude := Router.lon node2Osm |})
        with distance.
      rewrite Hw. reflexivity. }
    rewrite Est. split.
    + destruct (addSegment_forward st isOneWay _ _ weight Hn1 Hn2)
        as [node1' [Hget Hnb]].
      unfold edgeWeight. rewrite Hget. exact Hnb.
    + intros ->.
      destruct (@addSegment_backward st _ _ weight _ _ Hn1 Hn2)
        as [node2' [Hget Hnb]].
      unfold edgeWeight. rewrite Hget. exact Hnb.
  - intros st speedLimit isOneWay seg. now apply addSegment_nonnegative.
  - intros st0 elements.
    destruct (processOSMData_graph calculateDistance st0 elements) as [st [H _]].
    exists st. split; [exact H |].
    exact (@processOSMData_timed calculateDistance st0 st elements Hcd H).
Qed.

Lemma weights_and_distances_are_safe_witness :
  0 <= RationalMath.calculateDistance (mkPoint 0 0) (mkPoint (1 # 100) 0)
  /\ (exists weight,
         Router.segmentWeight 0 1112 = Some weight /\ weight = Inf)
  /\ exists st,
       Router.processOSMData RationalMath.calculateDistance Router.create
         twoWayStreet = Some st
       /\ forall k n v w,
            Obj.get (Router.nodes st) k = Some n ->
            In (v, w) (Router.neighbors n) ->
            exists q, w = Fin q /\ 0 <= q.
Proof.
  destruct (@weights_and_distances_are_safe
              RationalMath.sin RationalMath.cos RationalMath.sqrt
              RationalMath.atan2 RationalMath.PI
              RationalMath_sqrt_nonneg RationalMath_atan2_nonneg)
    as [Hdistance [Hweight [_ [_ [_ [Hbuilt _]]]]]].
  split; [apply Hdistance |]. split; [| apply Hbuilt].
  destruct (Hweight 0 1112) as [weight [Hw [Hstop _]]].
  exists weight. split; [exact Hw |]. apply Hstop. vm_compute. discriminate.
Defined.
